(** * toulbar2: the WCSP-as-constraint channelling layer and the problem loader

    A shallow embedding of
    - [src/core/tb2globalwcsp.hpp]: class [WeightedCSPConstraint] and the four
      channelled event callbacks [tb2setvalue], [tb2removevalue], [tb2setmin],
      [tb2setmax];
    - [src/utils/tb2reader.cpp]: the CFN cost-table readers, [enforceUB] and the
      clause loop of [WCSP::read_wcnf].

    C++ statements become computations in a state monad with exceptions.  Code
    that lives in other translation units (the WCSP propagators, the
    variables, the solver hook) is reached through one handler, and every call
    through it is recorded in a ghost trace. *)

From Stdlib Require Import ZArith List Bool Lia String QArith Sorted.
From Stdlib Require Import Floats.SpecFloat.
From stdpp Require Import base list.
Import ListNotations.
Local Open Scope Z_scope.

(** ** Scalars *)

(** [Cost] is the signed 64-bit [Long] of the sources.  Signed overflow is
    undefined in C++, so cost arithmetic is read over [Z]. *)
Definition Cost := Z.
Definition Value := Z.
(** A WCSP object is identified by [WCSP::getIndex()]. *)
Definition WcspId := Z.
(** A [WeightedCSPConstraint*]: the address of the object in the heap of
    meta-constraints. *)
Definition GcId := nat.

(** Modelled from the spec: the constants [MIN_COST] and [UNIT_COST] of the
    cost type (costs are non-negative integers, the unit is one). *)
Definition MIN_COST : Cost := 0.
Definition UNIT_COST : Cost := 1.

(** ** Exceptions and the computation monad *)

(** [Contradiction] and [WrongFileFormat] are the exception classes thrown by
    the sources; [Abort] is a failed [assert], a null dereference or an
    uncaught library exception; [Exit] is [exit(EXIT_FAILURE)]; [Diverge]
    marks a loop that never ends. *)
Inductive Exn := Contradiction | WrongFileFormat | Abort | Exit | Diverge.

Definition Exn_eqb (a b : Exn) : bool :=
  match a, b with
  | Contradiction, Contradiction | WrongFileFormat, WrongFileFormat
  | Abort, Abort | Exit, Exit | Diverge, Diverge => true
  | _, _ => false
  end.

Inductive Res (St A : Type) : Type :=
| Ret (a : A) (s : St)
| Throw (e : Exn) (s : St).
Arguments Ret {St A} a s.
Arguments Throw {St A} e s.

Definition M (St A : Type) : Type := St -> Res St A.

Definition final {St A} (r : Res St A) : St :=
  match r with Ret _ s => s | Throw _ s => s end.

Definition ret {St A} (a : A) : M St A := fun s => Ret a s.

Definition bind {St A B} (m : M St A) (k : A -> M St B) : M St B :=
  fun s => match m s with
           | Ret a s' => k a s'
           | Throw e s' => Throw e s'
           end.

Definition throw {St A} (e : Exn) : M St A := fun s => Throw e s.

(** [try { m } catch (const E&) { h }]: only the named class is caught, and
    the handler starts in the state the exception left behind. *)
Definition try_catch {St A} (m : M St A) (E : Exn) (h : M St A) : M St A :=
  fun s => match m s with
           | Ret a s' => Ret a s'
           | Throw e s' => if Exn_eqb e E then h s' else Throw e s'
           end.

Definition gets {St A} (f : St -> A) : M St A := fun s => Ret (f s) s.
Definition modify {St} (f : St -> St) : M St unit := fun s => Ret tt (f s).

(** [assert(b)] *)
Definition assert {St} (b : bool) : M St unit :=
  if b then ret tt else throw Abort.

(** [if (b) { m }] *)
Definition when {St} (b : bool) (m : M St unit) : M St unit :=
  if b then m else ret tt.

(** [if (p) { m(p) }] for a pointer [p] *)
Definition when_some {St A} (o : option A) (m : A -> M St unit) : M St unit :=
  match o with Some a => m a | None => ret tt end.

(** [*p]: dereferencing a null or dangling pointer is undefined. *)
Definition deref_opt {St A} (o : option A) : M St A :=
  match o with Some a => ret a | None => throw Abort end.

(** [for (auto x : l) body(x)] *)
Fixpoint for_each {St A} (l : list A) (body : A -> M St unit) : M St unit :=
  match l with
  | [] => ret tt
  | x :: l' => bind (body x) (fun _ => for_each l' body)
  end.

Declare Scope cpp_scope.
Delimit Scope cpp_scope with cpp.
Notation "x <- m ;; k" := (bind m (fun x => k))
  (at level 100, m at next level, right associativity) : cpp_scope.
Notation "m ;; k" := (bind m (fun _ => k))
  (at level 100, right associativity) : cpp_scope.
Local Open Scope cpp_scope.

(** Local variables of a function that are assigned inside a [try] block keep
    their value in the handler: they are threaded as a second state
    component. *)
Definition with_locals {St L A} (m : M St A) : M (St * L) A :=
  fun sl => match m (fst sl) with
            | Ret a s' => Ret a (s', snd sl)
            | Throw e s' => Throw e (s', snd sl)
            end.

Definition run_locals {St L A} (l0 : L) (m : M (St * L) A) : M St A :=
  fun s => match m (s, l0) with
           | Ret a sl => Ret a (fst sl)
           | Throw e sl => Throw e (fst sl)
           end.

Definition local {St L} : M (St * L) L := gets snd.
Definition set_local {St L} (f : L -> L) : M (St * L) unit :=
  modify (fun sl => (fst sl, f (snd sl))).

(** [wp m Q T s]: running [m] from [s] ends in a return satisfying [Q] or in
    an exception satisfying [T]. *)
Definition wp {St A} (m : M St A) (Q : A -> St -> Prop) (T : Exn -> St -> Prop)
  (s : St) : Prop :=
  match m s with
  | Ret a s' => Q a s'
  | Throw e s' => T e s'
  end.

(** ** The meta-constraint object *)

(** The members of [WeightedCSPConstraint] that are fixed once the
    constructor has run.  [problem] and [negproblem] hold the index of the
    slave WCSP, [None] for a null pointer; [scope] lists the master variables
    (by their [wcspIndex]) in scope order. *)
Record WeightedCSPConstraint := mkGC {
  isfinite : bool;
  strongDuality : bool;
  lb : Cost;
  ub : Cost;
  negCost : Cost;
  problem : option WcspId;
  negproblem : option WcspId;
  scope : list Z;
  varIndexes : list Z
}.

Definition arity_ (c : WeightedCSPConstraint) : Z := Z.of_nat (length (scope c)).

(** [getVar(i)]: the master variable at scope position [i]. *)
Definition getVar (c : WeightedCSPConstraint) (i : Z) : option Z :=
  if i <? 0 then None else nth_error (scope c) (Z.to_nat i).

(** [getIndex(var)]: the scope position of a master variable, [-1] when the
    variable is not in the scope. *)
Fixpoint index_from (l : list Z) (v : Z) (i : Z) : Z :=
  match l with
  | [] => -1
  | x :: l' => if x =? v then i else index_from l' v (i + 1)
  end.
Definition getIndex (c : WeightedCSPConstraint) (v : Z) : Z := index_from (scope c) v 0.

(** [MasterWeightedCSP], [WeightedCSPConstraints] and the objects the table
    points to.  [std::map<int, WeightedCSPConstraint*>] is kept as an
    association list in strictly ascending key order, which is the order its
    iterators follow. *)
Record Family := mkFamily {
  MasterWeightedCSP : option WcspId;
  WeightedCSPConstraints : list (WcspId * GcId);
  objects : list WeightedCSPConstraint
}.

(** [map::find] *)
Fixpoint tbl_find (t : list (WcspId * GcId)) (k : WcspId) : option GcId :=
  match t with
  | [] => None
  | (k', g) :: t' => if k' =? k then Some g else tbl_find t' k
  end.

(** [map::operator[](k) = g] *)
Fixpoint tbl_insert (t : list (WcspId * GcId)) (k : WcspId) (g : GcId)
  : list (WcspId * GcId) :=
  match t with
  | [] => [(k, g)]
  | (k', g') :: t' =>
      if k <? k' then (k, g) :: (k', g') :: t'
      else if k =? k' then (k, g) :: t'
      else (k', g') :: tbl_insert t' k g
  end.

(** ** The state of the solver *)

(** The ten preprocessing features that [protect] switches off; the same
    record shape serves for [ToulBar2::...] and for the saved statics of
    [WeightedCSPConstraint]. *)
Record Features := mkFeatures {
  preprocessFunctional : Z;
  elimDegree : Z;
  elimDegree_preprocessing : Z;
  elimDegree_ : Z;
  elimDegree_preprocessing_ : Z;
  DEE : Z;
  DEE_ : Z;
  FullEAC : bool;
  RASPS : bool;
  useRASPS : Z
}.

(** The values of the static members at program start (lines 453-463), which
    are also the values [protect] writes into [ToulBar2] (lines 203-212). *)
Definition features_off : Features :=
  mkFeatures 0 (-1) (-1) (-1) (-1) 0 0 false false 0.

Record Guard := mkGuard {
  tb2 : Features;       (* ToulBar2::preprocessFunctional ... useRASPS *)
  saved : Features;     (* WeightedCSPConstraint::preprocessFunctional ... *)
  protected_ : bool     (* WeightedCSPConstraint::_protected_ *)
}.

(** State under the control of the backtrackable store; [X] stands for
    whatever else the solver keeps there (domains, cost tables). *)
Record Backtrackable (X : Type) := mkBT {
  nonassigned : GcId -> Z;             (* StoreInt nonassigned *)
  connectedCtr : GcId -> bool;         (* connected() *)
  connectedVar : GcId -> Z -> bool;    (* connected(varIndex) *)
  getLb : WcspId -> Cost;              (* WCSP::getLb() *)
  unassigned : Z -> bool;              (* master Variable::unassigned() *)
  getDegree : Z -> Z;                  (* master Variable::getDegree() *)
  bt_rest : X
}.
Arguments mkBT {X}.
Arguments nonassigned {X}.
Arguments connectedCtr {X}.
Arguments connectedVar {X}.
Arguments getLb {X}.
Arguments unassigned {X}.
Arguments getDegree {X}.
Arguments bt_rest {X}.

Record World (X : Type) := mkWorld {
  guard : Guard;
  hooks : bool;                 (* ToulBar2::setvalue, removevalue, setmin,
                                   setmax: the tb2 callbacks or NULL *)
  active : WcspId -> bool;      (* WCSP::isactivatePropagate() *)
  store : list (Backtrackable X);   (* Store: one snapshot per depth *)
  bt : Backtrackable X;
  newValues : GcId -> list Value;
  env : X
}.
Arguments mkWorld {X}.
Arguments guard {X}.
Arguments hooks {X}.
Arguments active {X}.
Arguments store {X}.
Arguments bt {X}.
Arguments newValues {X}.
Arguments env {X}.

Definition upd {A} (f : Z -> A) (k : Z) (a : A) : Z -> A :=
  fun k' => if k' =? k then a else f k'.
Definition updn {A} (f : nat -> A) (k : nat) (a : A) : nat -> A :=
  fun k' => if Nat.eqb k' k then a else f k'.

(** ** Calls into the rest of the solver *)

Inductive EventKind := EvAssign | EvRemove | EvIncrease | EvDecrease.

(** One constructor for each function of another translation unit that the
    embedded code calls for its effect. *)
Inductive ExtCall :=
| VarEvent (k : EventKind) (w : WcspId) (x : Z) (v : Value)
    (* w->getVar(x)->assign(v), remove(v), increase(v), decrease(v) *)
| SolverSetvalue (w : WcspId) (x : Z) (v : Value)   (* ::setvalue(w, x, v, solver) *)
| EnforceUb (w : WcspId)
| UpdateUb (w : WcspId) (c : Cost)
| SetSolver (w : WcspId)
| WhenContradiction (w : WcspId)
| WcspPropagate (w : WcspId)
| AssignLS (w : WcspId) (vars : list Z) (vals : list Value)
| Revise (g : GcId)                 (* wcsp->revise(this) *)
| Assigns (g : GcId)                (* AbstractNaryConstraint::assigns() *)
| DeconnectVar (g : GcId) (i : Z)   (* deconnect(varIndex) *)
| Deconnect (g : GcId)              (* deconnect() *)
| Reconnect (g : GcId)              (* AbstractNaryConstraint::reconnect() *)
| ProjectNary (g : GcId)
| VacThresholdIsUnit                (* assert(!wcsp->vac || ...) at line 385 *)
| BaseCtor (w : WcspId) (sc : list Z).   (* AbstractNaryConstraint(wcsp, scope, arity) *)

Definition Handler (X : Type) : Type := ExtCall -> M (World X) unit.

Inductive Msg := WrongBounds (lb ub : Cost).

Record Sys (X : Type) := mkSys {
  fam : Family;
  world : World X;
  trace : list ExtCall;     (* ghost: the calls made so far *)
  cerr : list Msg
}.
Arguments mkSys {X}.
Arguments fam {X}.
Arguments world {X}.
Arguments trace {X}.
Arguments cerr {X}.

(** Facts about the problems that the embedded code only reads. *)
Record ProblemInfo := mkInfo {
  numberOfVariables : WcspId -> Z;
  getNegativeLb : WcspId -> Cost;
  wcsp_isfinite : WcspId -> bool;
  getDomainInitSize : WcspId -> Z -> Z;
  getInf : Z -> Value;                (* master Variable::getInf() *)
  toValue : Z -> Z -> Value           (* EnumeratedVariable::toValue(index) *)
}.

(** ** The embedded member functions and callbacks *)

Section Channel.
Context {X : Type}.
(** The rest of the solver. *)
Variable handler : Handler X.
Variable info : ProblemInfo.
(** Constants of [tb2types.hpp]. *)
Variable MAX_COST : Cost.
Variable NARYPROJECTIONSIZE : Z.

Definition modify_world (f : World X -> World X) : M (Sys X) unit :=
  modify (fun s => mkSys (fam s) (f (world s)) (trace s) (cerr s)).
Definition modify_fam (f : Family -> Family) : M (Sys X) unit :=
  modify (fun s => mkSys (f (fam s)) (world s) (trace s) (cerr s)).
Definition modify_bt (f : Backtrackable X -> Backtrackable X) : M (Sys X) unit :=
  modify_world (fun w => mkWorld (guard w) (hooks w) (active w) (store w)
                                 (f (bt w)) (newValues w) (env w)).
Definition set_guard (g : Guard) : M (Sys X) unit :=
  modify_world (fun w => mkWorld g (hooks w) (active w) (store w) (bt w)
                                 (newValues w) (env w)).
Definition set_hooks (h : bool) : M (Sys X) unit :=
  modify_world (fun w => mkWorld (guard w) h (active w) (store w) (bt w)
                                 (newValues w) (env w)).
Definition set_newValues (g : GcId) (l : list Value) : M (Sys X) unit :=
  modify_world (fun w => mkWorld (guard w) (hooks w) (active w) (store w) (bt w)
                                 (updn (newValues w) g l) (env w)).
Definition set_nonassigned (g : GcId) (n : Z) : M (Sys X) unit :=
  modify_bt (fun b => mkBT (updn (nonassigned b) g n) (connectedCtr b)
                           (connectedVar b) (getLb b) (unassigned b)
                           (getDegree b) (bt_rest b)).
Definition print_cerr (m : Msg) : M (Sys X) unit :=
  modify (fun s => mkSys (fam s) (world s) (trace s) (cerr s ++ [m])).

(** A call into another translation unit: the handler runs on the world, and
    the call is appended to the trace whether it returns or throws. *)
Definition call (c : ExtCall) : M (Sys X) unit :=
  fun s => match handler c (world s) with
           | Ret _ w' => Ret tt (mkSys (fam s) w' (trace s ++ [c]) (cerr s))
           | Throw e w' => Throw e (mkSys (fam s) w' (trace s ++ [c]) (cerr s))
           end.

(** [*g] for [g] a [WeightedCSPConstraint*]. *)
Definition deref (g : GcId) : M (Sys X) WeightedCSPConstraint :=
  F <- gets fam;; deref_opt (nth_error (objects F) g).

(** Modelled from the spec: [WCSP::deactivatePropagate],
    [WCSP::reactivatePropagate] and [WCSP::isactivatePropagate], the switch
    that disables and re-enables propagation in one WCSP. *)
Definition deactivatePropagate (w : WcspId) : M (Sys X) unit :=
  modify_world (fun s => mkWorld (guard s) (hooks s) (upd (active s) w false)
                                 (store s) (bt s) (newValues s) (env s)).
Definition reactivatePropagate (w : WcspId) : M (Sys X) unit :=
  modify_world (fun s => mkWorld (guard s) (hooks s) (upd (active s) w true)
                                 (store s) (bt s) (newValues s) (env s)).
Definition isactivatePropagate (w : WcspId) : M (Sys X) bool :=
  gets (fun s => active (world s) w).

(** Modelled from the spec: the generic backtrackable store with its
    [store()] / [restore(depth)] bracket: [store] opens a new level, and
    [restore d] undoes every change made since level [d] was current. *)
Definition Store_getDepth : M (Sys X) nat :=
  gets (fun s => length (store (world s))).
Definition Store_store : M (Sys X) unit :=
  modify_world (fun w => mkWorld (guard w) (hooks w) (active w)
                                 (bt w :: store w) (bt w) (newValues w) (env w)).
Definition restore_world (d : nat) (w : World X) : World X :=
  let n := (length (store w) - d)%nat in
  match n with
  | O => w
  | S n' => mkWorld (guard w) (hooks w) (active w) (drop n (store w))
                    (nth n' (store w) (bt w)) (newValues w) (env w)
  end.
Definition Store_restore (d : nat) : M (Sys X) unit :=
  modify_world (restore_world d).

Definition connected (g : GcId) : M (Sys X) bool :=
  gets (fun s => connectedCtr (bt (world s)) g).
Definition connected_at (g : GcId) (i : Z) : M (Sys X) bool :=
  gets (fun s => connectedVar (bt (world s)) g i).
Definition getLbM (w : WcspId) : M (Sys X) Cost :=
  gets (fun s => getLb (bt (world s)) w).
Definition getNonAssigned (g : GcId) : M (Sys X) Z :=
  gets (fun s => nonassigned (bt (world s)) g).

(** [WeightedCSPConstraint::universal] (lines 155-162), reading the slaves'
    current lower bounds. *)
Definition universal (c : WeightedCSPConstraint) (w : World X) : bool :=
  match problem c, negproblem c with
  | Some p, Some n =>
      isfinite c && (lb c <=? getLb (bt w) p)
                 && (- ub c + negCost c <? getLb (bt w) n)
  | _, _ => false
  end.

(** [canbeDeconnected] (lines 165-173) *)
Definition canbeDeconnected (c : WeightedCSPConstraint) (w : World X) : bool :=
  forallb (fun v => negb (unassigned (bt w) v && (1 <? getDegree (bt w) v)))
          (scope c).

(** [protect] (lines 186-213) *)
Definition protect (master : bool) : M (Sys X) unit :=
  g <- gets (fun s => guard (world s));;
  assert (negb (protected_ g));;
  when master (set_guard (mkGuard (tb2 g) (tb2 g) (protected_ g)));;
  g <- gets (fun s => guard (world s));;
  set_guard (mkGuard features_off (saved g) true).

(** [unprotect] (lines 214-229) *)
Definition unprotect : M (Sys X) unit :=
  g <- gets (fun s => guard (world s));;
  when (protected_ g) (set_guard (mkGuard (saved g) (saved g) false)).

(** [THROWCONTRADICTION] *)
Definition THROWCONTRADICTION {A} : M (Sys X) A := throw Contradiction.

(** The body of the loop over [WeightedCSPConstraints] that the four callbacks
    share (lines 494-520, 555-581, 616-642, 677-703); [k] selects the variable
    operation, the only place where the four loops differ. *)
Definition forward_to (k : EventKind) (p : WcspId) (varCtrIndex : Z)
  (value : Value) : M (Sys X) unit :=
  g <- gets (fun s => guard (world s));;
  assert (protected_ g);;
  try_catch
    (call (EnforceUb p);;
     call (VarEvent k p varCtrIndex value))
    Contradiction
    (call (WhenContradiction p);;
     unprotect;;
     throw Contradiction).

Definition forward (k : EventKind) (wcspId : WcspId) (masterVar : Z)
  (value : Value) (entry : WcspId * GcId) : M (Sys X) unit :=
  let g := snd entry in
  c <- connected g;;
  when c
    (gc <- deref g;;
     let varCtrIndex := getIndex gc masterVar in
     when (negb (varCtrIndex =? -1))
       (when_some (problem gc) (fun p =>
          when (negb (wcspId =? p)) (forward_to k p varCtrIndex value));;
        c' <- connected g;;
        when_some (negproblem gc) (fun n =>
          when (c' && negb (wcspId =? n)) (forward_to k n varCtrIndex value)))).

(** The part of a callback that runs before the loop when the event comes
    from a slave (lines 472-483, 534-545, 595-606, 656-667).  [tb2setvalue]
    fetches the master variable before it releases the protection, the other
    three after. *)
Definition from_slave (k : EventKind) (master wcspId : WcspId) (varIndex : Z)
  (value : Value) : M (Sys X) (WcspId * Z) :=
  F <- gets fam;;
  g <- deref_opt (tbl_find (WeightedCSPConstraints F) wcspId);;
  gc <- deref g;;
  wcsp <- (match problem gc with
           | Some p => if p =? wcspId then ret p
                       else n <- deref_opt (negproblem gc);;
                            assert (n =? wcspId);; ret n
           | None => n <- deref_opt (negproblem gc);;
                     assert (n =? wcspId);; ret n
           end);;
  deactivatePropagate wcsp;;
  masterVar <- (match k with
                | EvAssign => v <- deref_opt (getVar gc varIndex);;
                              unprotect;; ret v
                | _ => unprotect;; deref_opt (getVar gc varIndex)
                end);;
  call (VarEvent k master masterVar value);;
  protect false;;
  ret (wcsp, masterVar).

(** The same when the event comes from the master (lines 485-490, 547-551,
    609-612, 669-673); only [tb2setvalue] calls the solver's [setvalue]. *)
Definition from_master (k : EventKind) (master : WcspId) (varIndex : Z)
  (value : Value) : M (Sys X) (WcspId * Z) :=
  deactivatePropagate master;;
  (match k with
   | EvAssign => call (SolverSetvalue master varIndex value)
   | _ => ret tt
   end);;
  protect true;;
  ret (master, varIndex).

Definition tb2event (k : EventKind) (wcspId : WcspId) (varIndex : Z)
  (value : Value) : M (Sys X) unit :=
  F <- gets fam;;
  master <- deref_opt (MasterWeightedCSP F);;
  assert ((wcspId =? master)
          || bool_decide (is_Some (tbl_find (WeightedCSPConstraints F) wcspId)));;
  wm <- (if negb (wcspId =? master)
         then from_slave k master wcspId varIndex value
         else from_master k master varIndex value);;
  for_each (WeightedCSPConstraints F) (forward k wcspId (snd wm) value);;
  reactivatePropagate (fst wm);;
  when (wcspId =? master) unprotect.

(** [tb2setvalue] (465-525), [tb2removevalue] (527-586), [tb2setmin]
    (588-647), [tb2setmax] (649-708). *)
Definition tb2setvalue := tb2event EvAssign.
Definition tb2removevalue := tb2event EvRemove.
Definition tb2setmin := tb2event EvIncrease.
Definition tb2setmax := tb2event EvDecrease.

(** [WeightedCSPConstraint::propagate] (lines 370-408) *)
Definition propagate_slaves (g : GcId) (gc : WeightedCSPConstraint) : M (Sys X) unit :=
  when_some (problem gc) (fun p =>
    a <- isactivatePropagate p;;
    when a
      (protect true;;
       call (WcspPropagate p);;
       unprotect;;
       c <- connected g;;
       cd <- gets (fun s => canbeDeconnected gc (world s));;
       when (strongDuality gc && c && cd)
         (l <- getLbM p;;
          if l <? lb gc then call VacThresholdIsUnit;; THROWCONTRADICTION
          else call (Deconnect g))));;
  c <- connected g;;
  when c
    (when_some (negproblem gc) (fun n =>
       a <- isactivatePropagate n;;
       when a
         (protect true;;
          call (WcspPropagate n);;
          unprotect))).

Definition propagate (g : GcId) : M (Sys X) unit :=
  gc <- deref g;;
  call (Revise g);;
  when_some (problem gc) (fun p => call (EnforceUb p));;
  when_some (negproblem gc) (fun n => call (EnforceUb n));;
  call (Assigns g);;
  c <- connected g;;
  when c
    (try_catch (propagate_slaves g gc)
       Contradiction
       (when_some (problem gc) (fun p => call (WhenContradiction p));;
        when_some (negproblem gc) (fun n => call (WhenContradiction n));;
        unprotect;;
        THROWCONTRADICTION));;
  when_some (problem gc) (fun p => l <- getLbM p;; assert (l <? ub gc));;
  when_some (negproblem gc) (fun n =>
    l <- getLbM n;; assert (l <? - lb gc + negCost gc + UNIT_COST)).

(** [WeightedCSPConstraint::assign] (lines 345-364) *)
Definition assign (g : GcId) (varIndex : Z) : M (Sys X) unit :=
  gc <- deref g;;
  c <- connected_at g varIndex;;
  when c
    (call (DeconnectVar g varIndex);;
     n <- getNonAssigned g;;
     set_nonassigned g (n - 1);;
     n <- getNonAssigned g;;
     assert (0 <=? n);;
     u <- gets (fun s => universal gc (world s));;
     if u then call (Deconnect g)
     else
       n <- getNonAssigned g;;
       if (n <=? NARYPROJECTIONSIZE) && (negb (strongDuality gc) || (n =? 0))
       then call (Deconnect g);; call (ProjectNary g)
       else propagate g).

(** [reconnect] (lines 110-116) *)
Definition reconnect (g : GcId) : M (Sys X) unit :=
  gc <- deref g;;
  c <- connected g;;
  when (negb c)
    (set_nonassigned g (arity_ gc);;
     call (Reconnect g)).

(** The locals of [eval] that are written inside its [try] block. *)
Record EvalLocals := mkLocals {
  unsat : bool;
  problemActive : bool;
  negproblemActive : bool
}.

Definition eval_probe (w : WcspId) (vars : list Z) (g : GcId)
  (record : bool -> EvalLocals -> EvalLocals) (violates : Cost -> bool)
  : M (Sys X * EvalLocals) unit :=
  with_locals (call (EnforceUb w));;
  a <- with_locals (isactivatePropagate w);;
  set_local (record a);;
  with_locals (reactivatePropagate w);;
  vals <- with_locals (gets (fun s => newValues (world s) g));;
  with_locals (call (AssignLS w vars vals));;
  l <- with_locals (getLbM w);;
  when (violates l)
    (set_local (fun L => mkLocals true (problemActive L) (negproblemActive L))).

(** [WeightedCSPConstraint::eval] (lines 231-283) *)
Definition eval (g : GcId) (s : list Z) : M (Sys X) Cost :=
  gc <- deref g;;
  assert (Z.of_nat (length s) =? arity_ gc);;
  set_newValues g (zip_with (toValue info) (scope gc) s);;
  set_hooks false;;
  protect true;;
  depth <- Store_getDepth;;
  run_locals (mkLocals false true true)
    (try_catch
       (with_locals Store_store;;
        match problem gc with
        | Some p =>
            eval_probe p (varIndexes gc) g
              (fun a L => mkLocals (unsat L) a (negproblemActive L))
              (fun l => l <? lb gc)
        | None =>
            when_some (negproblem gc) (fun n =>
              eval_probe n (varIndexes gc) g
                (fun a L => mkLocals (unsat L) (problemActive L) a)
                (fun l => l <=? - ub gc + negCost gc))
        end)
       Contradiction
       (with_locals
          (when_some (problem gc) (fun p => call (WhenContradiction p));;
           when_some (negproblem gc) (fun n => call (WhenContradiction n)));;
        set_local (fun L => mkLocals true (problemActive L) (negproblemActive L)));;
     with_locals (Store_restore depth);;
     L <- local;;
     when (negb (problemActive L))
       (with_locals (p <- deref_opt (problem gc);; deactivatePropagate p));;
     when (negb (negproblemActive L))
       (with_locals (n <- deref_opt (negproblem gc);; deactivatePropagate n));;
     with_locals unprotect;;
     with_locals (set_hooks true);;
     L <- local;;
     ret (if unsat L then MAX_COST else MIN_COST)).

(** The arguments of the constructor; [arity_in] is the length of
    [scope_in]. *)
Record CtorArgs := mkArgs {
  wcsp_in : WcspId;
  scope_in : list Z;
  problem_in : option WcspId;
  negproblem_in : option WcspId;
  lb_in : Cost;
  ub_in : Cost;
  duplicateHard : bool;
  strongDuality_in : bool
}.

Definition same_domains (a : CtorArgs) (w : WcspId) : bool :=
  forallb (fun iv => getDomainInitSize info (wcsp_in a) (snd iv)
                     =? getDomainInitSize info w (Z.of_nat (fst iv)))
          (imap (fun i v => (i, v)) (scope_in a)).

Definition register (k : WcspId) (g : GcId) : M (Sys X) unit :=
  modify_fam (fun F => mkFamily (MasterWeightedCSP F)
                                (tbl_insert (WeightedCSPConstraints F) k g)
                                (objects F)).

(** [WeightedCSPConstraint::WeightedCSPConstraint] (lines 31-104); the new
    object gets the next free address and is entered in the heap when the
    constructor completes. *)
Definition construct (a : CtorArgs) : M (Sys X) GcId :=
  let arity_in := Z.of_nat (length (scope_in a)) in
  call (BaseCtor (wcsp_in a) (scope_in a));;
  F <- gets fam;;
  let this := length (objects F) in
  set_nonassigned this arity_in;;
  when_some (problem_in a) (fun p => assert (arity_in =? numberOfVariables info p));;
  when_some (negproblem_in a) (fun n => assert (arity_in =? numberOfVariables info n));;
  (if ub_in a <=? lb_in a
   then print_cerr (WrongBounds (lb_in a) (ub_in a));; throw WrongFileFormat
   else ret tt);;
  when_some (problem_in a) (fun p => assert (same_domains a p));;
  when_some (negproblem_in a) (fun n => assert (same_domains a n));;
  set_newValues this (map (getInf info) (scope_in a));;
  set_hooks true;;
  modify_fam (fun F =>
    match MasterWeightedCSP F with
    | Some m => if negb (m =? wcsp_in a)
                then mkFamily (Some (wcsp_in a)) [] (objects F)
                else mkFamily (Some (wcsp_in a)) (WeightedCSPConstraints F) (objects F)
    | None => mkFamily (Some (wcsp_in a)) (WeightedCSPConstraints F) (objects F)
    end);;
  let negCost1 := match problem_in a with
                  | Some p => MIN_COST + getNegativeLb info p
                  | None => MIN_COST
                  end in
  let isfinite1 := match problem_in a with
                   | Some p => negb (negb (duplicateHard a) && negb (wcsp_isfinite info p))
                   | None => true
                   end in
  when_some (problem_in a) (fun p =>
    register p this;;
    call (SetSolver p);;
    call (UpdateUb p (ub_in a));;
    call (EnforceUb p));;
  let negCost2 := match negproblem_in a with
                  | Some n => negCost1 + getNegativeLb info n
                  | None => negCost1
                  end in
  let isfinite2 := match negproblem_in a with
                   | Some n => if negb (duplicateHard a) && negb (wcsp_isfinite info n)
                               then false else isfinite1
                   | None => isfinite1
                   end in
  when_some (negproblem_in a) (fun n =>
    register n this;;
    call (SetSolver n);;
    call (UpdateUb n (- lb_in a + negCost2 + UNIT_COST));;
    call (EnforceUb n));;
  modify_fam (fun F =>
    mkFamily (MasterWeightedCSP F) (WeightedCSPConstraints F)
             (objects F ++ [mkGC isfinite2 (strongDuality_in a) (lb_in a) (ub_in a)
                                 negCost2 (problem_in a) (negproblem_in a)
                                 (scope_in a)
                                 (map Z.of_nat (seq 0 (length (scope_in a))))]));;
  ret this.

End Channel.

(** ** The contract of the protection guard *)

(** What a call into the rest of the solver may do to the guard.  Entered
    under protection it leaves the guard as it found it, or, when it raises a
    Contradiction, it may have released it (a nested callback does); entered
    without protection it ends without protection and with the [ToulBar2]
    features it found. *)
Definition guard_rel (normal : bool) (g g' : Guard) : Prop :=
  if protected_ g
  then saved g' = saved g /\
       (g' = g \/ (normal = false /\ protected_ g' = false /\ tb2 g' = saved g'))
  else protected_ g' = false /\ tb2 g' = tb2 g.

Definition respects_guard {X} (h : Handler X) : Prop :=
  forall c w, match h c w with
              | Ret _ w' => guard_rel true (guard w) (guard w')
              | Throw Contradiction w' => guard_rel false (guard w) (guard w')
              | Throw _ _ => True
              end.

(** [whenContradiction] is a cleanup routine: it returns. *)
Definition cleanup_returns {X} (h : Handler X) : Prop :=
  forall p w, exists w', h (WhenContradiction p) w = Ret tt w'.

(** The guard is free and [ToulBar2] holds the feature values [F0]. *)
Definition guard_free (F0 : Features) (g : Guard) : Prop :=
  protected_ g = false /\ tb2 g = F0.
(** The guard is held and releasing it will write [F0] back. *)
Definition guard_held (F0 : Features) (g : Guard) : Prop :=
  protected_ g = true /\ saved g = F0.
(** Either of the two: [unprotect] leads to [guard_free F0]. *)
Definition guard_releasable (F0 : Features) (g : Guard) : Prop :=
  if protected_ g then saved g = F0 else tb2 g = F0.

Definition released {X} (s s' : Sys X) : Prop :=
  guard_free (tb2 (guard (world s))) (guard (world s')).

(** The call leaves with the guard released, on normal return and when it
    raises a Contradiction. *)
Definition exits_released {X A} (m : M (Sys X) A) (s : Sys X) : Prop :=
  match m s with
  | Ret _ s' => released s s'
  | Throw Contradiction s' => released s s'
  | Throw _ _ => True
  end.

(** The call leaves with the guard held and the ten [ToulBar2] features
    switched off on normal return, with the guard released when it raises a
    Contradiction. *)
Definition exits_held {X A} (m : M (Sys X) A) (s : Sys X) : Prop :=
  match m s with
  | Ret _ s' => protected_ (guard (world s')) = true /\
                tb2 (guard (world s')) = features_off
  | Throw Contradiction s' => protected_ (guard (world s')) = false
  | Throw _ _ => True
  end.

(** The calls into the rest of the solver leave the propagation switch of
    WCSP [w] as they find it, whether they return or throw. *)
Definition keeps_switch {X} (h : Handler X) (w : WcspId) : Prop :=
  forall c wld, match h c wld with
                | Ret _ w' | Throw _ w' => active w' w = active wld w
                end.

(** ** The order of the forwarded operations *)

(** The WCSPs on which a trace applies a variable operation. *)
Definition var_targets (t : list ExtCall) : list WcspId :=
  flat_map (fun c => match c with VarEvent _ w _ _ => [w] | _ => [] end) t.

(** The WCSP a forwarded call works on. *)
Definition call_target (c : ExtCall) : option WcspId :=
  match c with
  | VarEvent _ w _ _ | EnforceUb w | WhenContradiction w => Some w
  | _ => None
  end.

(** The problems one table entry can forward to: the slave, then the negated
    slave, of the constraint it points to, leaving out the WCSP [wcspId] the
    event came from; nothing when the variable is not in the scope. *)
Definition entry_plan (F : Family) (wcspId : WcspId) (masterVar : Z)
  (entry : WcspId * GcId) : list WcspId :=
  match nth_error (objects F) (snd entry) with
  | Some gc =>
      if getIndex gc masterVar =? -1 then []
      else match problem gc with
           | Some p => if wcspId =? p then [] else [p]
           | None => []
           end ++
           match negproblem gc with
           | Some n => if wcspId =? n then [] else [n]
           | None => []
           end
  | None => []
  end.

(** The forwards of one event, in the iteration order of the table. *)
Definition forward_plan (F : Family) (wcspId : WcspId) (masterVar : Z)
  : list WcspId :=
  flat_map (entry_plan F wcspId masterVar) (WeightedCSPConstraints F).

(** The index of the event's variable in the constraint of a table entry. *)
Definition entry_index (F : Family) (masterVar : Z) (entry : WcspId * GcId) : Z :=
  match nth_error (objects F) (snd entry) with
  | Some gc => getIndex gc masterVar
  | None => -1
  end.

(** The calls one table entry makes when every call returns: nothing for a
    deconnected constraint, otherwise [enforceUb] and the variable operation
    on each problem of its plan. *)
Definition entry_calls (F : Family) (conn : GcId -> bool) (k : EventKind)
  (wcspId : WcspId) (masterVar : Z) (value : Value) (entry : WcspId * GcId)
  : list ExtCall :=
  if conn (snd entry)
  then flat_map (fun p => [EnforceUb p;
                           VarEvent k p (entry_index F masterVar entry) value])
                (entry_plan F wcspId masterVar entry)
  else [].

(** The calls of the whole loop, in the iteration order of the table. *)
Definition forward_calls (F : Family) (conn : GcId -> bool) (k : EventKind)
  (wcspId : WcspId) (masterVar : Z) (value : Value) : list ExtCall :=
  flat_map (entry_calls F conn k wcspId masterVar value) (WeightedCSPConstraints F).

(** The calls into the rest of the solver that return leave every
    meta-constraint connected or deconnected as they found it. *)
Definition keeps_connected {X} (h : Handler X) : Prop :=
  forall c w, match h c w with
              | Ret _ w' => forall g, connectedCtr (bt w') g = connectedCtr (bt w) g
              | Throw _ _ => True
              end.

(** The master variable an event is about. *)
Definition master_var (F : Family) (master wcspId : WcspId) (varIndex : Z) : Z :=
  if wcspId =? master then varIndex
  else match tbl_find (WeightedCSPConstraints F) wcspId with
       | Some g => match nth_error (objects F) g with
                   | Some gc => default 0 (getVar gc varIndex)
                   | None => 0
                   end
       | None => 0
       end.

(** What a callback does before the loop: the solver's own hook for an
    assignment in the master, the wake-up of the master for an event of a
    slave. *)
Definition origin_step (k : EventKind) (master wcspId : WcspId)
  (varIndex masterVar : Z) (value : Value) : list ExtCall :=
  if wcspId =? master
  then match k with
       | EvAssign => [SolverSetvalue master varIndex value]
       | _ => []
       end
  else [VarEvent k master masterVar value].

(** A piece of trace whose variable operations follow the plan [L] and which
    never works on [wcspId]. *)
Definition within (wcspId : WcspId) (L : list WcspId) (t : list ExtCall) : Prop :=
  sublist (var_targets t) L /\ Forall (fun c => call_target c <> Some wcspId) t.

(** [s'] is [s] after the calls [t]: same family, longer trace. *)
Definition ext {X} (s s' : Sys X) (t : list ExtCall) : Prop :=
  fam s' = fam s /\ trace s' = trace s ++ t.

(** Running [m] from [s] adds a piece of trace satisfying [P], whether it
    returns or throws. *)
Definition traces {X A} (m : M (Sys X) A) (s : Sys X)
  (P : list ExtCall -> Prop) : Prop :=
  wp m (fun _ s' => exists t, ext s s' t /\ P t)
       (fun _ s' => exists t, ext s s' t /\ P t) s.

(** A step that makes no call and leaves the family alone. *)
Definition silent {X A} (m : M (Sys X) A) : Prop :=
  forall s, wp m (fun _ s' => ext s s' []) (fun _ s' => ext s s' []) s.

(** A computation that, when it returns, has kept the property [P] of the
    state. *)
Definition maintains {X A} (P : Sys X -> Prop) (m : M (Sys X) A) : Prop :=
  forall s, P s -> wp m (fun _ s' => P s') (fun _ _ => True) s.

(** ** The contract of the calls made by [eval] *)

Definition eval_call (c : ExtCall) : Prop :=
  match c with
  | EnforceUb _ | AssignLS _ _ _ | WhenContradiction _ => True
  | _ => False
  end.

(** [enforceUb], [assignLS] and [whenContradiction] work on the slave's
    domains and costs: they return or raise a Contradiction, and leave the
    guard, the hooks, the propagation switches and the levels of the store as
    they are. *)
Definition probe_frame {X} (h : Handler X) : Prop :=
  forall c w, eval_call c ->
    match h c w with
    | Ret _ w' | Throw Contradiction w' =>
        guard w' = guard w /\ hooks w' = hooks w /\
        (forall q, active w' q = active w q) /\ store w' = store w
    | Throw _ _ => False
    end.

(** The part of the state that the calls of [eval] do not touch. *)
Definition same_ctl {X} (s s' : Sys X) : Prop :=
  fam s' = fam s /\ guard (world s') = guard (world s) /\
  hooks (world s') = hooks (world s) /\
  store (world s') = store (world s).

Definition same_act {X} (s s' : Sys X) : Prop :=
  forall q, active (world s') q = active (world s) q.

(** The state of the switches while the probe of slave [w] runs: either
    nothing was recorded yet, or the switch of [w] was recorded in the local
    [flag] and then turned on. *)
Definition probing {X} (s0 : Sys X) (w : WcspId) (flag other : EvalLocals -> bool)
  (sl : Sys X * EvalLocals) : Prop :=
  same_ctl s0 (fst sl) /\ other (snd sl) = true /\
  ((flag (snd sl) = true /\
    forall q, active (world (fst sl)) q = active (world s0) q)
   \/ (flag (snd sl) = active (world s0) w /\
       forall q, active (world (fst sl)) q = upd (active (world s0)) w true q)).

(** The propagation switches once the two [if (!...Active)] statements at the
    end of [eval] have run. *)
Definition fixup (gc : WeightedCSPConstraint) (L : EvalLocals)
  (act : WcspId -> bool) : WcspId -> bool :=
  let a1 := if problemActive L then act
            else match problem gc with
                 | Some p => upd act p false
                 | None => act
                 end in
  if negproblemActive L then a1
  else match negproblem gc with
       | Some n => upd a1 n false
       | None => a1
       end.

(** What [eval] leaves of the state it started from. *)
Definition probe_restored {X} (s s' : Sys X) : Prop :=
  fam s' = fam s /\
  store (world s') = store (world s) /\
  bt (world s') = bt (world s) /\
  (forall q, active (world s') q = active (world s) q) /\
  released s s' /\
  hooks (world s') = true.

(** The state after the [try] block of [eval]: the two final [if]s will put
    the switches back, and they will find the slave they need. *)
Definition probed {X} (s0 : Sys X) (gc : WeightedCSPConstraint)
  (sl : Sys X * EvalLocals) : Prop :=
  same_ctl s0 (fst sl) /\
  (forall q, fixup gc (snd sl) (active (world (fst sl))) q = active (world s0) q) /\
  (problemActive (snd sl) = false -> problem gc <> None) /\
  (negproblemActive (snd sl) = false -> negproblem gc <> None).

(** ** The steps of [assign] *)

(** The state once [nonassigned = nonassigned - 1] has run. *)
Definition decremented {X} (g : GcId) (s : Sys X) : Sys X :=
  let b := bt (world s) in
  let w := world s in
  mkSys (fam s)
    (mkWorld (guard w) (hooks w) (active w) (store w)
       (mkBT (updn (nonassigned b) g (nonassigned b g - 1)) (connectedCtr b)
             (connectedVar b) (getLb b) (unassigned b) (getDegree b) (bt_rest b))
       (newValues w) (env w))
    (trace s) (cerr s).

(** The three ways [assign] can go on after the decrement. *)
Inductive AssignAction := DoDeconnect | DoProject | DoPropagate.

(** The choice made at lines 352-362. *)
Definition assign_action (NARYPROJECTIONSIZE : Z) {X}
  (gc : WeightedCSPConstraint) (s : Sys X) (g : GcId) : AssignAction :=
  let n := nonassigned (bt (world s)) g in
  if universal gc (world s) then DoDeconnect
  else if (n <=? NARYPROJECTIONSIZE) && (negb (strongDuality gc) || (n =? 0))
       then DoProject
       else DoPropagate.

(** ** What the constructor needs of its arguments *)

(** The two assertions on the number of variables (lines 42-43). *)
Definition arities_match (info : ProblemInfo) (a : CtorArgs) : Prop :=
  let n := Z.of_nat (length (scope_in a)) in
  (forall p, problem_in a = Some p -> n = numberOfVariables info p) /\
  (forall p, negproblem_in a = Some p -> n = numberOfVariables info p).

(** ** The clause loop of [WCSP::read_wcnf] *)

(** What the loop hands to the network builder, in program order: the n-ary,
    ternary and binary cost functions are posted at once, the unary ones are
    collected in [unaryconstrs] and the empty clauses are summed in
    [inclowerbound]. *)
Inductive Post :=
| PostNary (sc : list Z) (tuple : list Z) (c : Cost)
| PostTernary (x y z : Z) (costs : list Cost)
| PostBinary (x y : Z) (costs : list Cost)
| TempUnary (x : Z) (costs : list Cost)
| IncLowerBound (c : Cost).

(** The locals of one clause: [int scopeIndex[MAX_ARITY]], [Tuple tup],
    [int arity], [bool tautology]. *)
Record Clause := mkClause {
  scopeIndex : list Z;
  tup : list Z;
  arity : nat;
  tautology : bool
}.

(** How a loop of the reader ends: with a result, in an access outside an
    array, which is undefined, or not at all. *)
Inductive Outcome (A : Type) :=
| Done (a : A)
| Undefined
| NeverEnds.
Arguments Done {A} a.
Arguments Undefined {A}.
Arguments NeverEnds {A}.

(** [file >> x] on a stream of integers: the next integer of the stream; once
    the stream is exhausted the extraction fails and [x] keeps the value
    [prior] it had. *)
Definition read_int (prior : Z) (file : list Z) : Z * list Z :=
  match file with
  | [] => (prior, [])
  | j :: rest => (j, rest)
  end.

(** [int k = 0; while (k < arity) { if (scopeIndex[k] == scopeIndex[arity])
    break; k++; }] (lines 3423-3429); [n] counts the iterations left. *)
Fixpoint scan (sc : list Z) (target : Z) (k n : nat) : nat :=
  match n with
  | O => k
  | S n' => if nth k sc 0 =? target then k else scan sc target (S k) n'
  end.

Section Wcnf.
Variable MAX_ARITY : nat.
(** [MULT(cost, K)] for the cost multiplier [K] of the run. *)
Variable MULT : Cost -> Cost.

(** The body of the [do] loop for a literal [j <> 0] read while [tautology]
    is false (lines 3417-3440).  Writing [scopeIndex[arity]] past the end of
    the array is undefined: [None]. *)
Definition add_literal (j : Z) (c : Clause) : option Clause :=
  if (MAX_ARITY <=? arity c)%nat then None
  else
    let sc := <[arity c := Z.abs j - 1]> (scopeIndex c) in
    let v := if 0 <? j then 0 else 1 in
    let tp := if (arity c <? length (tup c))%nat
              then <[arity c := v]> (tup c)
              else tup c ++ [v] in
    let k := scan sc (nth (arity c) sc 0) 0 (arity c) in
    if (k <? arity c)%nat
    then Some (mkClause sc tp (arity c) (negb (nth k tp 0 =? nth (arity c) tp 0)))
    else Some (mkClause sc tp (S (arity c)) false).

(** The stream is exhausted and [j] is not zero.  Every extraction fails from
    now on and leaves [j] as it is, so the body of the loop runs again and
    again on the same literal and the loop never ends, unless a write goes
    past the end of [scopeIndex].  Once the literal has been through the body
    it is recorded, and the body changes neither [arity] nor [tautology] any
    more. *)
Definition replay (j : Z) (c : Clause) : Outcome (Clause * list Z) :=
  if tautology c then NeverEnds
  else match add_literal j c with
       | None => Undefined
       | Some c' =>
           if tautology c' then NeverEnds
           else if (MAX_ARITY <=? arity c')%nat then Undefined
           else NeverEnds
       end.

(** [do { file >> j; ... } while (j != 0);] (lines 3414-3442); [j] is the
    value the variable holds when the extraction is attempted: [0] on entry
    ([int j = 0;], line 3409), the literal read last afterwards. *)
Fixpoint read_literals (j : Z) (file : list Z) (c : Clause)
  : Outcome (Clause * list Z) :=
  match file with
  | [] => if j =? 0 then Done (c, []) else replay j c
  | j' :: rest =>
      if j' =? 0 then Done (c, rest)
      else if tautology c then read_literals j' rest c
      else match add_literal j' c with
           | Some c' => read_literals j' rest c'
           | None => Undefined
           end
  end.

(** Lines 3450-3491; an arity below zero cannot arise. *)
Definition post_clause (c : Clause) (cost : Cost) : list Post :=
  let sc := scopeIndex c in
  let tp := tup c in
  match arity c with
  | 0%nat => [IncLowerBound (MULT cost)]
  | 1%nat => [TempUnary (nth 0 sc 0)
                (if nth 0 tp 0 =? 0 then [MULT cost; MIN_COST]
                 else [MIN_COST; MULT cost])]
  | 2%nat => [PostBinary (nth 0 sc 0) (nth 1 sc 0)
                (<[Z.to_nat (nth 0 tp 0 * 2 + nth 1 tp 0) := MULT cost]>
                   (replicate 4 MIN_COST))]
  | 3%nat => [PostTernary (nth 0 sc 0) (nth 1 sc 0) (nth 2 sc 0)
                (<[Z.to_nat (nth 0 tp 0 * 4 + nth 1 tp 0 * 2 + nth 2 tp 0) := MULT cost]>
                   (replicate 8 MIN_COST))]
  | n => [PostNary (take n sc) tp (MULT cost)]
  end.

(** [for (int ic = 0; ic < nbclauses; ic++)] (lines 3402-3492).  Each clause
    starts with [int j = 0; Cost cost = UNIT_COST;].  The array [scopeIndex]
    is not initialised; only cells written before are read. *)
Fixpoint read_clauses (wcnf : bool) (nbclauses : nat) (file : list Z)
  : Outcome (list Post * list Z) :=
  match nbclauses with
  | O => Done ([], file)
  | S n =>
      let cf := if wcnf then read_int UNIT_COST file else (UNIT_COST, file) in
      match read_literals 0 (snd cf) (mkClause (replicate MAX_ARITY 0) [] 0 false) with
      | Done (c, file') =>
          if tautology c then read_clauses wcnf n file'
          else match read_clauses wcnf n file' with
               | Done (ps, f) => Done (post_clause c (fst cf) ++ ps, f)
               | Undefined => Undefined
               | NeverEnds => NeverEnds
               end
      | Undefined => Undefined
      | NeverEnds => NeverEnds
      end
  end.

End Wcnf.

(** The value a literal puts in the tuple: the value that falsifies it. *)
Definition polarity (j : Z) : Z := if 0 <? j then 0 else 1.

(** The literals seen so far are all recorded in the first [arity] cells, and
    no variable is recorded twice. *)
Definition recorded (seen : list Z) (c : Clause) : Prop :=
  (arity c <= length (scopeIndex c))%nat /\
  (arity c <= length (tup c))%nat /\
  (arity c <= length seen)%nat /\
  NoDup (take (arity c) (scopeIndex c)) /\
  forall j, In j seen ->
    exists k, (k < arity c)%nat /\
              nth k (scopeIndex c) 0 = Z.abs j - 1 /\
              nth k (tup c) 0 = polarity j.

(** ** The CFN reader: tokens *)


(** Calls on the network builder made by the n-ary reader. *)
Inductive BuilderCall :=
| NaryBegin (sc : list Z) (defaultCost : Cost) (nbTuples : Z)
| NaryTuple (ctr : nat) (tuple : list Z) (c : Cost)
| NaryEnd (ctr : nat).

(** The reader and the part of its WCSP that the cost-table readers use:
    the tokens still to come, [wcsp->negCost], [wcsp->getUb()] and the
    builder calls made so far. *)
Record Reader := mkReader {
  tokens : list string;
  wcsp_negCost : Cost;
  wcsp_ub : Cost;
  posted : list BuilderCall
}.

(** [getNextToken] (lines 444-466): the empty token once the stream is
    exhausted. *)
Definition getNextToken : M Reader string :=
  fun r => match tokens r with
           | [] => Ret ""%string r
           | t :: ts => Ret t (mkReader ts (wcsp_negCost r) (wcsp_ub r) (posted r))
           end.

Definition isCBrace (token : string) : bool :=
  String.eqb token "}"%string || String.eqb token "]"%string.

(** [skipCBrace] (lines 501-508) *)
Definition skipCBrace : M Reader unit :=
  bind getNextToken (fun token => if isCBrace token then ret tt else throw Exit).

Definition is_digit (c : Ascii.ascii) : bool :=
  let n := Ascii.nat_of_ascii c in (48 <=? n)%nat && (n <=? 57)%nat.

(** [isdigit(token[0])]; [token[0]] of the empty string is the null
    character. *)
Definition isdigit0 (token : string) : bool :=
  match token with
  | String c _ => is_digit c
  | EmptyString => false
  end.

Fixpoint digits_prefix (s : string) (acc : Z) : Z :=
  match s with
  | String c r =>
      if is_digit c
      then digits_prefix r (10 * acc + Z.of_nat (Ascii.nat_of_ascii c - 48))
      else acc
  | EmptyString => acc
  end.

(** [std::stoi] on a token that starts with a digit: the value of the digits
    in front, [None] for [std::out_of_range]. *)
Definition stoi (token : string) : option Z :=
  let v := digits_prefix token 0 in
  if v <=? 2147483647 then Some v else None.

(** [std::vector] compared with [<]: lexicographic order. *)
Fixpoint tuple_ltb (a b : list Z) : bool :=
  match a, b with
  | [], [] => false
  | [], _ :: _ => true
  | _ :: _, [] => false
  | x :: a', y :: b' => (x <? y) || ((x =? y) && tuple_ltb a' b')
  end.

Fixpoint tuple_eqb (a b : list Z) : bool :=
  match a, b with
  | [], [] => true
  | x :: a', y :: b' => (x =? y) && tuple_eqb a' b'
  | _, _ => false
  end.

(** [std::map<Tuple, Cost>::insert]: [None] when the key is there already. *)
Fixpoint map_insert (m : list (list Z * Cost)) (t : list Z) (c : Cost)
  : option (list (list Z * Cost)) :=
  match m with
  | [] => Some [(t, c)]
  | (t', c') :: m' =>
      if tuple_eqb t t' then None
      else if tuple_ltb t t' then Some ((t, c) :: (t', c') :: m')
      else option_map (cons (t', c')) (map_insert m' t c)
  end.

(** Modelled from the spec: the tuples of a scope in lexicographic order, as
    [NaryConstraint::firstlex] / [nextlex] enumerate them. *)
Fixpoint lex_tuples (doms : list nat) : list (list Z) :=
  match doms with
  | [] => [[]]
  | d :: ds =>
      flat_map (fun v => map (cons (Z.of_nat v)) (lex_tuples ds)) (seq 0 d)
  end.

(** Modelled from the spec: [CUT(lb, ub)], the test that a cost reaches the
    upper bound. *)
Definition CUT (c ub : Cost) : bool := ub <=? c.

Definition LONGLONG_MAX : Z := 2 ^ 63 - 1.

Section CfnReader.
(** Constants of [tb2types.hpp]. *)
Variable MAX_COST : Cost.
Variable MEDIUM_COST : Cost.
(** [WCSP::decimalToCost]: [None] when it gives up on the token. *)
Variable decimalToCost : string -> option Cost.
(** [wcsp->getDomainInitSize(i)] and the value names [varValNameToIdx], both
    fixed once the variables are read. *)
Variable domainInitSize : Z -> Z.
Variable varValNameToIdx : Z -> string -> option Z.

Definition decimalToCostM (token : string) : M Reader Cost :=
  match decimalToCost token with
  | Some c => ret c
  | None => throw Exit
  end.

(** The scaling of prohibitive costs; the same statement follows every call
    of [decimalToCost] but those of the full n-ary table (lines 766, 789,
    830, 1233, 1253). *)
Definition medium_scale (c ub : Cost) : Cost :=
  if CUT c ub && (c <? MEDIUM_COST * ub) && (ub <? Z.quot MAX_COST MEDIUM_COST)
  then c * MEDIUM_COST
  else c.

(** [getValueIdx] (lines 893-918) *)
Definition getValueIdx (variableIdx : Z) (token : string) : M Reader Z :=
  if negb (isdigit0 token)
  then match varValNameToIdx variableIdx token with
       | Some i => ret i
       | None => throw Exit
       end
  else match stoi token with
       | None => throw Abort
       | Some valueIdx =>
           if (valueIdx <? 0) || (domainInitSize variableIdx <=? valueIdx)
           then throw Exit
           else ret valueIdx
       end.

Definition post (c : BuilderCall) : M Reader nat :=
  fun r => Ret (length (posted r))
               (mkReader (tokens r) (wcsp_negCost r) (wcsp_ub r) (posted r ++ [c])).

(** The locals of the sparse loop of [readNaryCostFunction]. *)
Record SparseSt := mkSparse {
  sp_tup : list Z;
  sp_map : list (list Z * Cost);
  sp_nbTuples : Z;
  sp_minCost : Cost;
  sp_scopeIdx : nat
}.

(** [while (!isCBrace(token)) { ... }] of the sparse branch (lines
    1249-1273); [fuel] bounds the number of iterations. *)
Fixpoint sparse_loop (fuel : nat) (sc : list Z) (ar : nat) (token : string)
  (st : SparseSt) : M Reader SparseSt :=
  match fuel with
  | O => throw Diverge
  | S fuel' =>
      if isCBrace token then ret st
      else
        bind
          (if Nat.eqb (sp_scopeIdx st) ar
           then
             bind (decimalToCostM token) (fun cost =>
             bind (gets wcsp_ub) (fun ub =>
             let cost := medium_scale cost ub in
             match map_insert (sp_map st) (sp_tup st) cost with
             | None => throw Exit
             | Some m => ret (mkSparse (sp_tup st) m (sp_nbTuples st + 1)
                                       (Z.min cost (sp_minCost st)) (sp_scopeIdx st))
             end))
           else
             bind (getValueIdx (nth (sp_scopeIdx st) sc 0) token) (fun valueIdx =>
             ret (mkSparse (<[sp_scopeIdx st := valueIdx]> (sp_tup st)) (sp_map st)
                           (sp_nbTuples st) (sp_minCost st) (sp_scopeIdx st))))
          (fun st' =>
           let st'' := mkSparse (sp_tup st') (sp_map st') (sp_nbTuples st')
                                (sp_minCost st')
                                (if Nat.eqb (sp_scopeIdx st') ar then O
                                 else S (sp_scopeIdx st')) in
           bind getNextToken (fun token' => sparse_loop fuel' sc ar token' st''))
  end.

(** [while (!isCBrace(token)) { ... }] of the full-table branch (lines
    1301-1307). *)
Fixpoint all_loop (fuel : nat) (token : string) (costs : list Cost)
  (minCost : Cost) (nbTuples : Z) : M Reader (list Cost * Cost * Z) :=
  match fuel with
  | O => throw Diverge
  | S fuel' =>
      if isCBrace token then ret (costs, minCost, nbTuples)
      else
        bind (decimalToCostM token) (fun cost =>
        bind getNextToken (fun token' =>
        all_loop fuel' token' (costs ++ [cost]) (Z.min minCost cost) (nbTuples + 1)))
  end.

(** [readNaryCostFunction] (lines 1218-1331).  [card] is the product of the
    domain sizes in [unsigned long]; the source detects its overflow by
    comparing logarithms, read here as the comparison of the exact product
    with [ULONG_MAX]. *)
Definition readNaryCostFunction (sc : list Z) (all : bool) (defaultCost : Cost)
  : M Reader unit :=
  let product := fold_right Z.mul 1 (map domainInitSize sc) in
  let card := product mod 2 ^ 64 in
  let toomany := 2 ^ 64 - 1 <? product in
  let ar := length sc in
  bind (gets wcsp_ub) (fun ub =>
  let defaultCost := medium_scale defaultCost ub in
  bind (gets (fun r => length (tokens r))) (fun ntok =>
  bind getNextToken (fun token =>
  bind
    (if negb all
     then
       bind (sparse_loop (ntok + 2 * (ar + 1) + 1) sc ar token
               (mkSparse (replicate ar 0) [] 0 MAX_COST O)) (fun st =>
       let minCost := if toomany || (sp_nbTuples st <? card)
                      then Z.min (sp_minCost st) defaultCost
                      else sp_minCost st in
       bind (post (NaryBegin sc (defaultCost - minCost) (sp_nbTuples st)))
         (fun naryIndex =>
       bind (for_each (sp_map st) (fun tc =>
               bind (post (NaryTuple naryIndex (fst tc) (snd tc - minCost)))
                    (fun _ => ret tt))) (fun _ =>
       bind (post (NaryEnd naryIndex)) (fun _ =>
       ret minCost))))
     else
       bind (post (NaryBegin sc MIN_COST LONGLONG_MAX)) (fun cfIndex =>
       bind (all_loop (ntok + 2) token [] MAX_COST 0) (fun r =>
       let costs := fst (fst r) in
       let minCost := snd (fst r) in
       let nbTuples := snd r in
       if toomany || (nbTuples <? card) then throw Exit
       else
         bind (for_each (imap (fun j t => (j, t))
                           (lex_tuples (map (fun v => Z.to_nat (domainInitSize v)) sc)))
                 (fun jt =>
                    bind (post (NaryTuple cfIndex (snd jt) (nth (fst jt) costs 0)))
                         (fun _ => ret tt))) (fun _ =>
         bind (post (NaryEnd cfIndex)) (fun _ =>
         ret minCost)))))
    (fun minCost =>
  bind (modify (fun r => mkReader (tokens r) (wcsp_negCost r - minCost)
                                  (wcsp_ub r) (posted r))) (fun _ =>
  skipCBrace))))).

End CfnReader.

(** The costs stored for the tuples of one n-ary cost function. *)
Definition stored_costs (l : list BuilderCall) : list (list Z * Cost) :=
  flat_map (fun c => match c with NaryTuple _ t c => [(t, c)] | _ => [] end) l.


(** ** [CFNStreamReader::enforceUB] *)

(** [double] is IEEE 754 binary64 and [Double] the 80-bit [long double] of
    x86-64; both are computed with the reference implementation of the
    Standard Library, rounding to nearest. *)
Definition double := spec_float.
Definition long_double := spec_float.

Definition double_of_Cost (z : Z) : double := binary_normalize 53 1024 z 0 false.
Definition long_double_of_Cost (z : Z) : long_double :=
  binary_normalize 64 16384 z 0 false.

(** Conversion of a floating-point value to [Cost]: truncation toward zero,
    undefined ([None]) outside the range of [long long]. *)
Definition Cost_of_float (f : spec_float) : option Cost :=
  match f with
  | S754_zero _ => Some 0
  | S754_finite s m e =>
      let a := if 0 <=? e then Z.pos m * 2 ^ e else Z.quot (Z.pos m) (2 ^ (- e)) in
      let v := if s then - a else a in
      if (- 2 ^ 63 <=? v) && (v <? 2 ^ 63) then Some v else None
  | _ => None
  end.

Definition dmul : double -> double -> double := SFmul 53 1024.
Definition ddiv : double -> double -> double := SFdiv 53 1024.
Definition dadd : double -> double -> double := SFadd 53 1024.
Definition ldmul : long_double -> long_double -> long_double := SFmul 64 16384.

(** The options of [ToulBar2] that [enforceUB] reads and writes. *)
Record Options := mkOptions {
  costMultiplier : double;
  externalUB : string;
  deltaUbS : string;
  deltaUbRelativeGap : long_double;
  deltaUbAbsolute : Cost;
  deltaUb : Cost
}.

(** What [enforceUB] leaves behind: the options and the upper bound of the
    WCSP, or the failure of the process. *)
Inductive Enforced :=
| Installed (o : Options) (ub : Cost)
| ExitFailure
| UndefinedConversion.

Definition is_empty (s : string) : bool :=
  match s with EmptyString => true | _ => false end.

(** Modelled from the spec: [WCSP::updateUb], which lowers the upper bound to
    the new value and never raises it. *)
Definition updateUb (ub newUb : Cost) : Cost := Z.min ub newUb.

Section EnforceUB.
Variable MAX_COST : Cost.
(** [WCSP::decimalToCost(s, 0)] on the two option strings. *)
Variable decimalToCost : string -> Cost.

(** [Cost shifted = bound + (wcsp->negCost / ToulBar2::costMultiplier);
    if (ToulBar2::costMultiplier < 0.0) shifted = -shifted;] (lines 863-865) *)
Definition shifted_bound (o : Options) (negCost bound : Cost) : option Cost :=
  match Cost_of_float
          (dadd (double_of_Cost bound)
                (ddiv (double_of_Cost negCost) (costMultiplier o))) with
  | Some sh => Some (if SFltb (costMultiplier o) (double_of_Cost 0) then - sh else sh)
  | None => None
  end.

(** [shifted <= (MAX_COST - wcsp->negCost) / fabs(ToulBar2::costMultiplier)]
    (line 867) *)
Definition fits (o : Options) (negCost shifted : Cost) : bool :=
  SFleb (double_of_Cost shifted)
        (ddiv (double_of_Cost (MAX_COST - negCost)) (SFabs (costMultiplier o))).

(** [(bound * ToulBar2::costMultiplier) + wcsp->negCost] (line 868) *)
Definition scaled_bound (o : Options) (negCost bound : Cost) : option Cost :=
  Cost_of_float (dadd (dmul (double_of_Cost bound) (costMultiplier o))
                      (double_of_Cost negCost)).

(** [(Cost)(ToulBar2::deltaUbRelativeGap * (Double)min(bound, wcsp->getUb()))]
    (line 882) *)
Definition relative_gap (o : Options) (bound ub : Cost) : option Cost :=
  Cost_of_float (ldmul (deltaUbRelativeGap o) (long_double_of_Cost (Z.min bound ub))).

(** [enforceUB] (lines 860-890) for a WCSP with the given [negCost] and
    upper bound. *)
Definition enforceUB (o : Options) (negCost ub bound : Cost) : Enforced :=
  match shifted_bound o negCost bound with
  | None => UndefinedConversion
  | Some shifted =>
      if fits o negCost shifted
      then
        match scaled_bound o negCost bound with
        | None => UndefinedConversion
        | Some bound1 =>
            let bound2 := if shifted <? MIN_COST then MIN_COST else bound1 in
            let bound3 := if negb (is_empty (externalUB o))
                          then Z.min bound2 (decimalToCost (externalUB o) + negCost)
                          else bound2 in
            if negb (is_empty (deltaUbS o))
            then
              let dAbs := Z.max MIN_COST (decimalToCost (deltaUbS o)) in
              match relative_gap o bound3 ub with
              | None => UndefinedConversion
              | Some rel =>
                  let d := Z.max dAbs rel in
                  let bound4 := if MIN_COST <? d then bound3 + d else bound3 in
                  Installed (mkOptions (costMultiplier o) (externalUB o) (deltaUbS o)
                                       (deltaUbRelativeGap o) dAbs d)
                            (updateUb ub bound4)
              end
            else Installed o (updateUb ub bound3)
        end
      else ExitFailure
  end.

(** The bound before the relaxation: the scaled and shifted file bound, zero
    when the shifted bound is negative, lowered to the external bound when
    there is one. *)
Definition base_bound (o : Options) (negCost sh sc : Cost) : Cost :=
  let b := if sh <? 0 then 0 else sc in
  if is_empty (externalUB o) then b
  else Z.min b (decimalToCost (externalUB o) + negCost).

(** The relaxation: none without [deltaUbS]; otherwise the larger of the
    absolute gap (at least zero) and the relative gap. *)
Definition relaxation (o : Options) (rel : Cost) : Cost :=
  if is_empty (deltaUbS o) then 0
  else Z.max (Z.max 0 (decimalToCost (deltaUbS o))) rel.

End EnforceUB.

Definition Qmin (a b : Q) : Q := if Qle_bool a b then a else b.
Definition Qmax (a b : Q) : Q := if Qle_bool a b then b else a.

(** The formula of the specification, over the rationals: the least of the
    file bound, the external bound and the current upper bound, scaled and
    shifted, then relaxed, clamped to the current upper bound, a negative
    value replaced by zero. *)
Definition claimed_ub (file_ub : Q) (external_ub : option Q) (current_ub : Q)
  (multiplier negCost dAbs relGap : Q) : Q :=
  let least := Qmin (match external_ub with
                     | Some e => Qmin file_ub e
                     | None => file_ub
                     end) current_ub in
  let ub_eff := (least * multiplier + negCost)%Q in
  let ub_eff := Qmax 0 ub_eff in
  let d := Qmax dAbs (relGap * ub_eff)%Q in
  Qmin current_ub (ub_eff + d)%Q.

(** ** A small family, used to run the embedded code *)

(** A solver in which every call returns at once and changes nothing. *)
Definition h_quiet : Handler unit := fun _ w => Ret tt w.

(** A solver in which the variable operations on WCSP [target] raise a
    Contradiction. *)
Definition h_refuse (target : WcspId) : Handler unit :=
  fun c w => match c with
             | VarEvent _ w' _ _ =>
                 if w' =? target then Throw Contradiction w else Ret tt w
             | _ => Ret tt w
             end.

(** Two Boolean variables in every problem; each slave has shifted its costs
    by ten. *)
Definition info0 : ProblemInfo :=
  mkInfo (fun _ => 2) (fun _ => 10) (fun _ => true) (fun _ _ => 2)
         (fun _ => 0) (fun _ i => i).

Definition features_on : Features :=
  mkFeatures 1 3 3 3 3 1 1 true true 1.

Definition bt0 : Backtrackable unit :=
  mkBT (fun _ => 2) (fun _ => true) (fun _ _ => true) (fun _ => 0)
       (fun _ => true) (fun _ => 2) tt.

Definition world0 : World unit :=
  mkWorld (mkGuard features_on features_off false) true (fun _ => true) []
          bt0 (fun _ => []) tt.

Definition sys_empty : Sys unit := mkSys (mkFamily None [] []) world0 [] [].

(** A meta-constraint of master 0 on its variables 0 and 1, with slave 1 and
    negated slave 2, bounds [5, 10) and strong duality. *)
Definition args0 : CtorArgs :=
  mkArgs 0 [0; 1] (Some 1) (Some 2) 5 10 false true.

(** The same with an empty window. *)
Definition args_empty_window : CtorArgs :=
  mkArgs 0 [0; 1] (Some 1) (Some 2) 10 10 false true.

(** The family after the constructor has run, with a fresh trace. *)
Definition sys0 : Sys unit :=
  let s := final (construct h_quiet info0 args0 sys_empty) in
  mkSys (fam s) (world s) [] [].

Definition gc0 : WeightedCSPConstraint :=
  mkGC true true 5 10 20 (Some 1) (Some 2) [0; 1] [0; 1].

(** A reader of unsigned integer costs: [decimalToCost] at precision zero
    with multiplier one. *)
Definition decimal_int (token : string) : option Cost :=
  if isdigit0 token then Some (digits_prefix token 0) else None.

(** The cost table of a function of four Boolean variables, all sixteen
    costs equal to five, followed by the two closing braces. *)
Definition sixteen_fives : list string :=
  repeat "5"%string 16 ++ ["]"%string; "}"%string].

Definition reader0 : Reader := mkReader sixteen_fives 0 1000 [].

(** Options for a minimisation with multiplier one, no external bound and no
    gap. *)
Definition options0 : Options :=
  mkOptions (double_of_Cost 1) EmptyString EmptyString (long_double_of_Cost 0) 0 0.

(** The clause [1 -1 0] of the specification, and the clause after it. *)
Definition tautological_clause : list Z := [1; -1].
Definition next_clause : list Z := [2; 3; 0].

(** ** What the constructor leaves behind *)

(** [negCost] once the constructor has run: the shifts of the slaves that are
    present (lines 82 and 90). *)
Definition slave_shift (info : ProblemInfo) (o : option WcspId) : Cost :=
  match o with
  | Some p => getNegativeLb info p
  | None => 0
  end.

(** The test [!duplicateHard && !slave->isfinite()] (lines 85 and 93) passes
    for no slave that is present. *)
Definition slave_finite (info : ProblemInfo) (o : option WcspId) : bool :=
  match o with
  | Some p => wcsp_isfinite info p
  | None => true
  end.

(** The assertions on the initial domain sizes (lines 71-72). *)
Definition domains_match (info : ProblemInfo) (a : CtorArgs) : Prop :=
  (forall p, problem_in a = Some p -> same_domains info a p = true) /\
  (forall n, negproblem_in a = Some n -> same_domains info a n = true).

(** The object built from the arguments [a]. *)
Definition built (info : ProblemInfo) (a : CtorArgs) : WeightedCSPConstraint :=
  mkGC (duplicateHard a
        || (slave_finite info (problem_in a) && slave_finite info (negproblem_in a)))
       (strongDuality_in a) (lb_in a) (ub_in a)
       (MIN_COST + slave_shift info (problem_in a) + slave_shift info (negproblem_in a))
       (problem_in a) (negproblem_in a) (scope_in a)
       (map Z.of_nat (seq 0 (length (scope_in a)))).

(** The constructor was called for a master other than the one the table was
    built for (line 78). *)
Definition master_changes (F : Family) (a : CtorArgs) : bool :=
  match MasterWeightedCSP F with
  | Some m => negb (m =? wcsp_in a)
  | None => false
  end.

(** Every call into the rest of the solver returns. *)
Definition calls_return {X} (h : Handler X) : Prop :=
  forall c w, exists w', h c w = Ret tt w'.

(** A solver in which [enforceUb] on WCSP [target] raises a Contradiction and
    every other call returns at once. *)
Definition h_bound_fails (target : WcspId) : Handler unit :=
  fun c w => match c with
             | EnforceUb w' =>
                 if w' =? target then Throw Contradiction w else Ret tt w
             | _ => Ret tt w
             end.

(** The statics and the heap once the constructor has returned the object
    [g]: the master is the WCSP of the call, the table is emptied first when
    the master changes, the object is entered under the index of each slave
    that is present and stored at [g]. *)
Definition family_after (info : ProblemInfo) (a : CtorArgs) (F : Family)
  (g : GcId) : Family :=
  let t0 := if master_changes F a then [] else WeightedCSPConstraints F in
  let t1 := match problem_in a with
            | Some p => tbl_insert t0 p g
            | None => t0
            end in
  let t2 := match negproblem_in a with
            | Some n => tbl_insert t1 n g
            | None => t1
            end in
  mkFamily (Some (wcsp_in a)) t2 (objects F ++ [built info a]).

(** A computation that leaves the statics and the heap alone. *)
Definition keeps_fam {X A} (m : M (Sys X) A) : Prop :=
  forall s, wp m (fun _ s' => fam s' = fam s) (fun _ _ => True) s.

(** A computation that always returns. *)
Definition returns {St A} (m : M St A) : Prop :=
  forall s, wp m (fun _ _ => True) (fun _ _ => False) s.

(** A computation that always returns and leaves the statics and the heap
    alone. *)
Definition steady {X A} (m : M (Sys X) A) : Prop :=
  forall s, wp m (fun _ s' => fam s' = fam s) (fun _ _ => False) s.

(** ** Conflict weights (lines 118-153) *)

(** The argument of [incConflictWeight]: a null pointer, the constraint
    itself, or another constraint, given by the master variables of its scope
    in scope order ([from->getVar(0)], ..., [from->getVar(from->arity()-1)]). *)
Inductive Culprit := FromNull | FromThis | FromOther (from_scope : list Z).

(** The calls on the base class: [Constraint::incConflictWeight(n)] and
    [Constraint::resetConflictWeight()]. *)
Inductive BaseCall := IncConflictWeight (n : Z) | ResetConflictWeight.

(** [vector<Long> conflictWeights] and the calls made on the base class so
    far. *)
Record Weights := mkWeights {
  conflictWeights : list Z;
  base_calls : list BaseCall
}.

(** [conflictWeights[i]++]; past the end of the vector it is undefined. *)
Definition bump (i : nat) (cw : list Z) : option (list Z) :=
  match cw !! i with
  | Some x => Some (<[i := x + 1]> cw)
  | None => None
  end.

(** [for (int i = 0; i < arity_; i++) if (connected(i)) conflictWeights[i]++;]
    (lines 133-137), from position [i] with [n] positions to go. *)
Fixpoint bump_connected (connected : Z -> bool) (i n : nat) (cw : list Z)
  : option (list Z) :=
  match n with
  | O => Some cw
  | S n' =>
      match (if connected (Z.of_nat i) then bump i cw else Some cw) with
      | Some cw' => bump_connected connected (S i) n' cw'
      | None => None
      end
  end.

(** The loop over the scope of [from] (lines 140-146). *)
Fixpoint bump_shared (gc : WeightedCSPConstraint) (from_scope : list Z)
  (cw : list Z) : option (list Z) :=
  match from_scope with
  | [] => Some cw
  | v :: rest =>
      let index := getIndex gc v in
      if 0 <=? index
      then if index <? arity_ gc
           then match bump (Z.to_nat index) cw with
                | Some cw' => bump_shared gc rest cw'
                | None => None
                end
           else None
      else bump_shared gc rest cw
  end.

(** [incConflictWeight(from)] (lines 127-148); [deconnected], [nonassigned]
    and [connected] are what [deconnected()], [nonassigned] and
    [connected(i)] answer when it is called.  [None] is a failed assertion or
    an access outside the vector. *)
Definition incConflictWeight (gc : WeightedCSPConstraint) (deconnected : bool)
  (nonassigned : Z) (connected : Z -> bool) (from : Culprit) (W : Weights)
  : option Weights :=
  match from with
  | FromNull => None
  | FromThis =>
      if deconnected || (nonassigned =? arity_ gc)
      then Some (mkWeights (conflictWeights W)
                           (base_calls W ++ [IncConflictWeight 1]))
      else option_map (fun cw => mkWeights cw (base_calls W))
             (bump_connected connected 0 (length (scope gc)) (conflictWeights W))
  | FromOther sc =>
      if deconnected
      then option_map (fun cw => mkWeights cw (base_calls W))
             (bump_shared gc sc (conflictWeights W))
      else Some W
  end.

(** [resetConflictWeight()] (lines 149-153) *)
Definition resetConflictWeight (W : Weights) : Weights :=
  mkWeights (replicate (length (conflictWeights W)) 0)
            (base_calls W ++ [ResetConflictWeight]).

(** [getConflictWeight(varIndex)] (lines 120-125); [base] is what
    [Constraint::getConflictWeight()] answers. *)
Definition getConflictWeight (gc : WeightedCSPConstraint) (base : Z)
  (varIndex : Z) (W : Weights) : option Z :=
  if (0 <=? varIndex) && (varIndex <? arity_ gc)
  then option_map (fun x => x + base) (conflictWeights W !! Z.to_nat varIndex)
  else None.

(** The sum of the weights. *)
Definition total_weight (cw : list Z) : Z := fold_right Z.add 0 cw.

(** The variables of [from] that belong to the scope of [gc]. *)
Definition shared_vars (gc : WeightedCSPConstraint) (from_scope : list Z)
  : list Z :=
  List.filter (fun v => 0 <=? getIndex gc v) from_scope.

(** The number of variables of [from] that sit at position [j] of the scope
    of [gc]. *)
Definition hits (gc : WeightedCSPConstraint) (from_scope : list Z) (j : nat) : nat :=
  length (List.filter (fun v => getIndex gc v =? Z.of_nat j) from_scope).

(** ** [evalsubstrAny] (lines 287-306) *)

(** The loop (lines 291-297).  [sc] holds the master variables [getVar(i)],
    [getVar(i+1)], ... still to visit, [ctr_scope] the scope of [ctr], whose
    [getIndex] answers the position of a variable or [-1]; [evalTuple] is the
    buffer of the constraint.  [None] is an access outside [s] or outside the
    buffer. *)
Fixpoint gather (ctr_scope sc : list Z) (i : nat) (s evalTuple : list Z)
  (count : Z) : option (list Z * Z) :=
  match sc with
  | [] => Some (evalTuple, count)
  | v :: rest =>
      let ind := index_from ctr_scope v 0 in
      if 0 <=? ind
      then match s !! Z.to_nat ind with
           | Some x =>
               if (i <? length evalTuple)%nat
               then gather ctr_scope rest (S i) s (<[i := x]> evalTuple) (count + 1)
               else None
           | None => None
           end
      else gather ctr_scope rest (S i) s evalTuple count
  end.

Section Evalsubstr.
Context {X : Type}.
Variable handler : Handler X.
Variable info : ProblemInfo.
Variable MAX_COST : Cost.

(** [evalsubstrAny(s, ctr)]; the buffer [evalTuple] is passed in and handed
    back with the cost. *)
Definition evalsubstrAny (g : GcId) (ctr_scope s evalTuple : list Z)
  : M (Sys X) (Cost * list Z) :=
  gc <- deref g;;
  match gather ctr_scope (scope gc) 0 s evalTuple 0 with
  | None => throw Abort
  | Some (t, count) =>
      assert (count <=? arity_ gc);;
      if count =? arity_ gc
      then cost <- eval handler info MAX_COST g t;; ret (cost, t)
      else ret (MIN_COST, t)
  end.

End Evalsubstr.

(** The tuple of [ctr] read at the positions of the variables [sc]. *)
Definition project_tuple (ctr_scope sc s : list Z) : list Z :=
  map (fun v => nth (Z.to_nat (index_from ctr_scope v 0)) s 0) sc.

(** The variables of [sc] that [ctr] has in its scope. *)
Definition found_vars (ctr_scope sc : list Z) : list Z :=
  List.filter (fun v => 0 <=? index_from ctr_scope v 0) sc.

(** ** The CFN reader: tables of arity one to three and of arity zero *)

(** [v[i]] for an [int] index; outside the vector the access is undefined. *)
Definition vec_at {A} (v : list A) (i : Z) : option A :=
  if i <? 0 then None else v !! Z.to_nat i.

(** The locals of the sparse loop of [readFunctionCostTable]. *)
Record TableSt := mkTable {
  tb_costs : list Cost;          (* costVector *)
  tb_scopeIdx : nat;
  tb_tableIdx : Z;
  tb_nbCostInserted : Z;
  tb_minCost : Cost
}.

Section CostTable.
(** Constants of [tb2types.hpp]. *)
Variable MAX_COST : Cost.
Variable MEDIUM_COST : Cost.
(** [WCSP::decimalToCost]: [None] when it gives up on the token. *)
Variable decimalToCost : string -> option Cost.
(** [wcsp->getDomainInitSize(i)] and the value names [varValNameToIdx]. *)
Variable domainInitSize : Z -> Z.
Variable varValNameToIdx : Z -> string -> option Z.

(** [costVecSize]: the product of the domain sizes in [unsigned long]
    (lines 771-774). *)
Definition costVecSize (sc : list Z) : Z :=
  fold_left (fun acc i => (acc * domainInitSize i) mod 2 ^ 64) sc 1.

(** [while (!isCBrace(token)) { ... }] of the tuple:cost branch (lines
    786-818); [fuel] bounds the number of iterations. *)
Fixpoint table_sparse_loop (fuel : nat) (sc : list Z) (defaultCost : Cost)
  (token : string) (st : TableSt) : M Reader TableSt :=
  match fuel with
  | O => throw Diverge
  | S fuel' =>
      if isCBrace token then ret st
      else
        bind
          (if Nat.eqb (tb_scopeIdx st) (length sc)
           then
             bind (decimalToCostM decimalToCost token) (fun cost =>
             bind (gets wcsp_ub) (fun ub =>
             let cost := medium_scale MAX_COST MEDIUM_COST cost ub in
             match vec_at (tb_costs st) (tb_tableIdx st) with
             | None => throw Abort
             | Some c0 =>
                 if negb (c0 =? defaultCost) then throw Exit
                 else ret (mkTable (<[Z.to_nat (tb_tableIdx st) := cost]> (tb_costs st))
                                   (tb_scopeIdx st) (tb_tableIdx st)
                                   (tb_nbCostInserted st + 1)
                                   (Z.min cost (tb_minCost st)))
             end))
           else
             let var := nth (tb_scopeIdx st) sc 0 in
             let tableIdx := if negb (Nat.eqb (tb_scopeIdx st) 0)
                             then tb_tableIdx st * domainInitSize var
                             else tb_tableIdx st in
             bind (getValueIdx domainInitSize varValNameToIdx var token)
               (fun valueIdx =>
             bind (assert ((0 <=? valueIdx) && (valueIdx <? domainInitSize var)))
               (fun _ =>
             ret (mkTable (tb_costs st) (tb_scopeIdx st) (tableIdx + valueIdx)
                          (tb_nbCostInserted st) (tb_minCost st)))))
          (fun st' =>
           let st'' := if Nat.eqb (tb_scopeIdx st') (length sc)
                       then mkTable (tb_costs st') O 0 (tb_nbCostInserted st')
                                    (tb_minCost st')
                       else mkTable (tb_costs st') (S (tb_scopeIdx st'))
                                    (tb_tableIdx st') (tb_nbCostInserted st')
                                    (tb_minCost st') in
           bind getNextToken (fun token' =>
           table_sparse_loop fuel' sc defaultCost token' st''))
  end.

(** [while (tableIdx < costVecSize) { ... }] of the full-table branch (lines
    826-838), with [n] cells still to fill. *)
Fixpoint table_all_loop (n : nat) (token : string) (costs : list Cost)
  (tableIdx : nat) (minCost : Cost) : M Reader (list Cost * Cost) :=
  match n with
  | O => ret (costs, minCost)
  | S n' =>
      bind (decimalToCostM decimalToCost token) (fun cost =>
      bind (gets wcsp_ub) (fun ub =>
      let cost := medium_scale MAX_COST MEDIUM_COST cost ub in
      let minCost := Z.min cost minCost in
      let costs := <[tableIdx := cost]> costs in
      bind getNextToken (fun token' =>
      table_all_loop n' token' costs (S tableIdx) minCost)))
  end.

(** [readFunctionCostTable] (lines 760-857); the result pairs the returned
    vector with the value left in the reference parameter [minCost]. *)
Definition readFunctionCostTable (sc : list Z) (all : bool) (defaultCost : Cost)
  : M Reader (list Cost * Cost) :=
  bind (gets wcsp_ub) (fun ub =>
  let defaultCost := medium_scale MAX_COST MEDIUM_COST defaultCost ub in
  let size := costVecSize sc in
  let costVector := replicate (Z.to_nat size) defaultCost in
  bind (gets (fun r => length (tokens r))) (fun ntok =>
  bind getNextToken (fun token =>
  bind
    (if negb all
     then
       bind (table_sparse_loop (ntok + 3 * (length sc + 1) + 1) sc defaultCost token
               (mkTable costVector O 0 0 MAX_COST)) (fun st =>
       ret (tb_costs st,
            if tb_nbCostInserted st <? size
            then Z.min defaultCost (tb_minCost st)
            else tb_minCost st))
     else table_all_loop (Z.to_nat size) token costVector O MAX_COST)
    (fun r =>
  let costVector := map (fun c => c - snd r) (fst r) in
  bind (modify (fun rd => mkReader (tokens rd) (wcsp_negCost rd - snd r)
                                   (wcsp_ub rd) (posted rd))) (fun _ =>
  bind skipCBrace (fun _ =>
  ret (costVector, snd r))))))).

(** Modelled from the spec: [WCSP::increaseLb] adds its argument to the lower
    bound of the WCSP and raises a Contradiction at once when the lower bound
    reaches the upper bound; [increaseLb(0)] does nothing.  The second
    component of the state is the lower bound [wcsp->getLb()]. *)
Definition increaseLb (addLb : Cost) : M (Reader * Cost) unit :=
  fun s =>
    if addLb =? 0 then Ret tt s
    else let newLb := snd s + addLb in
         if CUT newLb (wcsp_ub (fst s)) then Throw Contradiction s
         else Ret tt (fst s, newLb).

(** [readZeroAryCostFunction] (lines 1189-1211) *)
Definition readZeroAryCostFunction (all : bool) (defaultCost : Cost)
  : M (Reader * Cost) unit :=
  bind (with_locals getNextToken) (fun token =>
  bind
    (if negb (isCBrace token)
     then bind (with_locals (decimalToCostM decimalToCost token)) (fun c =>
          bind (with_locals skipCBrace) (fun _ => ret c))
     else if all then throw Exit else ret defaultCost)
    (fun zeroAryCost =>
  bind
    (if zeroAryCost <? 0
     then bind (with_locals
                  (modify (fun rd => mkReader (tokens rd)
                                       (wcsp_negCost rd - zeroAryCost)
                                       (wcsp_ub rd) (posted rd))))
            (fun _ => ret 0)
     else ret zeroAryCost)
    (fun zeroAryCost =>
  bind (increaseLb zeroAryCost) (fun _ =>
  with_locals skipCBrace)))).

End CostTable.

(** The least cost of a list, starting from [m]. *)
Definition least (m : Cost) (l : list Cost) : Cost := fold_left Z.min l m.

(** The cells of a cost vector that differ from the default cost. *)
Definition written (defaultCost : Cost) (costs : list Cost) : list Cost :=
  List.filter (fun c => negb (c =? defaultCost)) costs.

(** The reader has consumed tokens and nothing else has changed. *)
Definition same_wcsp (r r' : Reader) : Prop :=
  wcsp_negCost r' = wcsp_negCost r /\ wcsp_ub r' = wcsp_ub r /\
  posted r' = posted r.

(** What holds of the locals of the sparse loop of [readFunctionCostTable]
    for a vector of [n] cells and the default cost [d]: every cell holds the
    default cost or a cost that is at least [minCost], and [nbCostInserted]
    counts the cells that differ from the default unless a cost equal to the
    default has been read, which has [minCost] at most [d]. *)
Definition table_inv (n : nat) (d : Cost) (st : TableSt) : Prop :=
  length (tb_costs st) = n /\
  Forall (fun c => c = d \/ tb_minCost st <= c) (tb_costs st) /\
  (tb_minCost st <= d \/
   tb_nbCostInserted st = Z.of_nat (length (written d (tb_costs st)))).

(** A token that [decimalToCost] reads as the cost [c]. *)
Definition reads_as (decimalToCost : string -> option Cost) (token : string)
  (c : Cost) : Prop :=
  decimalToCost token = Some c.

(** ** What a clause costs *)

(** The value an assignment gives to a variable: [vars] lists the variables
    of a cost function in scope order, [asg] the value index of each. *)
Fixpoint value_of (vars asg : list Z) (v : Z) : Z :=
  match vars, asg with
  | x :: vars', a :: asg' => if x =? v then a else value_of vars' asg' v
  | _, _ => 0
  end.

(** The assignment falsifies every literal of the clause: a positive literal
    is false at value index 0, a negative one at value index 1. *)
Definition falsified (vars asg lits : list Z) : bool :=
  forallb (fun j => value_of vars asg (Z.abs j - 1) =? polarity j) lits.

(** The cell of an assignment of Boolean variables in a table in
    lexicographic order. *)
Definition cell (asg : list Z) : Z := fold_left (fun acc a => acc * 2 + a) asg 0.

(** The scope and the table of a unary, binary or ternary cost function. *)
Definition table_of (p : Post) : option (list Z * list Cost) :=
  match p with
  | TempUnary x costs => Some ([x], costs)
  | PostBinary x y costs => Some ([x; y], costs)
  | PostTernary x y z costs => Some ([x; y; z], costs)
  | _ => None
  end.

Definition boolean (asg : list Z) : Prop := Forall (fun a => a = 0 \/ a = 1) asg.

(** Every cell in use records one of the literals seen so far. *)
Definition onto (seen : list Z) (c : Clause) : Prop :=
  forall k, (k < arity c)%nat ->
    exists j, In j seen /\ nth k (scopeIndex c) 0 = Z.abs j - 1 /\
              nth k (tup c) 0 = polarity j.

(** No literal of the clause comes with its negation. *)
Definition clash_free (lits : list Z) : Prop :=
  forall l, In l lits -> ~ In (- l) lits.

(** ** The OPB reader: tokens and the terms of the objective *)

(** [std::to_string(int)] for a number that is not negative: its decimal
    digits. *)
Fixpoint decimal_digits (fuel : nat) (n : Z) (acc : string) : string :=
  match fuel with
  | O => acc
  | S fuel' =>
      let acc' := String (Ascii.ascii_of_nat (48 + Z.to_nat (n mod 10))) acc in
      if n / 10 =? 0 then acc' else decimal_digits fuel' (n / 10) acc'
  end.

(** [std::to_string(c)] for a [char]: there is no overload for [char], the
    argument is promoted to [int] and it is the character code that is
    printed. *)
Definition to_string_char (c : Ascii.ascii) : string :=
  decimal_digits 3 (Z.of_nat (Ascii.nat_of_ascii c)) EmptyString.

(** [token.substr(pos)] for [pos] within the string. *)
Definition substr_from (pos : nat) (token : string) : string :=
  String.substring pos (String.length token - pos) token.

(** [c == '+' || c == '-']: the characters 43 and 45. *)
Definition is_sign (c : Ascii.ascii) : bool :=
  Nat.eqb (Ascii.nat_of_ascii c) 43 || Nat.eqb (Ascii.nat_of_ascii c) 45.

(** [file >> token] on a stream of words: at the end of the stream the
    extraction fails and the string keeps its value. *)
Definition extract (file : list string) (token : string) : list string * string :=
  match file with
  | [] => ([], token)
  | w :: rest => (rest, w)
  end.

(** [readToken(file, token, keep)] (lines 3727-3754); [keep] is [None] for a
    null pointer.  The result is the stream, the token and [*keep]; [None] is
    the failed assertion. *)
Definition readToken (file : list string) (token : string) (keep : option Z)
  : option (list string * string * option Z) :=
  let size := Z.of_nat (String.length token) in
  match
    (match keep with
     | None => Some (extract file token)
     | Some k =>
         if size <=? k then Some (extract file token)
         else if 0 <=? k then Some (file, substr_from (Z.to_nat k) token)
         else if - k <=? size then Some (file, substr_from (Z.to_nat (size + k)) token)
         else None
     end)
  with
  | None => None
  | Some (file', token) =>
      let split :=
        if String.eqb token "+" || String.eqb token "-"
        then (false, token ++ "1")%string
        else match token with
             | String c0 (String c1 rest) =>
                 if is_sign c0 && negb (is_digit c1)
                 then (true, to_string_char c0 ++ "1" ++ String c1 rest)%string
                 else (false, token)
             | _ => (false, token)
             end in
      Some (file', snd split,
            match keep with
            | None => None
            | Some _ => Some (if fst split then 2
                              else Z.of_nat (String.length (snd split)))
            end)
  end.

(** What the reader hands to the network builder for one term of the
    objective (lines 3866-3910): an n-ary cost function with its default
    cost and its one tuple, a ternary or binary table, a unary table kept in
    [unaryconstrs], or an addition to [inclowerbound]. *)
Inductive OpbPost :=
| OpbNary (sc : list Z) (defval : Cost) (tuple : list Z) (c : Cost)
| OpbTernary (x y z : Z) (costs : list Cost)
| OpbBinary (x y : Z) (costs : list Cost)
| OpbUnary (x : Z) (costs : list Cost)
| OpbLowerBound (c : Cost).

(** The term [cost * x1 * ... * xn] over the variables [scopeIndex]; the
    result pairs what is posted with the new value of [negCost]. *)
Definition post_objective_term (scopeIndex : list Z) (cost negCost : Cost)
  : OpbPost * Cost :=
  let defval := Z.max MIN_COST (- cost) in
  let negCost' := if cost <? MIN_COST then negCost - cost else negCost in
  let last := if cost <? MIN_COST then MIN_COST else cost in
  match scopeIndex with
  | [] => (OpbLowerBound cost, negCost)
  | [x] => (OpbUnary x (if cost <? MIN_COST then [- cost; MIN_COST]
                        else [MIN_COST; cost]), negCost')
  | [x; y] => (OpbBinary x y (<[3%nat := last]> (replicate 4 defval)), negCost')
  | [x; y; z] => (OpbTernary x y z (<[7%nat := last]> (replicate 8 defval)), negCost')
  | _ => (OpbNary scopeIndex defval (replicate (length scopeIndex) 1) last, negCost')
  end.

(** The cost a posted term gives to an assignment of its variables. *)
Definition opb_cost (p : OpbPost) (asg : list Z) : Cost :=
  match p with
  | OpbNary _ defval tuple c => if tuple_eqb asg tuple then c else defval
  | OpbTernary _ _ _ costs | OpbBinary _ _ costs | OpbUnary _ costs =>
      nth (Z.to_nat (cell asg)) costs 0
  | OpbLowerBound c => c
  end.

(** The product of the values of an assignment. *)
Definition product (asg : list Z) : Z := fold_right Z.mul 1 asg.

(** ** The CFN reader: the global bound of the header *)

(** The outcome of [std::stoll]. *)
Inductive Parsed := Number (v : Z) | InvalidArgument | OutOfRange.

(** [isspace(c)]: the characters 9 to 13 and the space. *)
Definition is_space (c : Ascii.ascii) : bool :=
  let n := Ascii.nat_of_ascii c in
  ((9 <=? n)%nat && (n <=? 13)%nat) || Nat.eqb n 32.

Fixpoint skip_space (s : string) : string :=
  match s with
  | String c r => if is_space c then skip_space r else s
  | EmptyString => s
  end.

(** [std::stoll(s)]: leading white space, an optional sign, then the digits
    in front; no digit at all is [std::invalid_argument], a value outside
    [long long] is [std::out_of_range]. *)
Definition stoll (s : string) : Parsed :=
  let s := skip_space s in
  let signed :=
    match s with
    | String c r =>
        if Nat.eqb (Ascii.nat_of_ascii c) 43 then (false, r)
        else if Nat.eqb (Ascii.nat_of_ascii c) 45 then (true, r)
        else (false, s)
    | EmptyString => (false, s)
    end in
  if isdigit0 (snd signed)
  then let v := digits_prefix (snd signed) 0 in
       let v := if fst signed then - v else v in
       if (- 2 ^ 63 <=? v) && (v <=? 2 ^ 63 - 1) then Number v else OutOfRange
  else InvalidArgument.

(** [token.find('.')] *)
Fixpoint find_point (s : string) : option nat :=
  match s with
  | String c r =>
      if Nat.eqb (Ascii.nat_of_ascii c) 46 then Some O
      else option_map S (find_point r)
  | EmptyString => None
  end.

(** What [readHeader] leaves: the bound it returns, [ToulBar2::decimalPoint]
    and whether [ToulBar2::costMultiplier] was multiplied by [-1.0]. *)
Record HeaderBound := mkHeaderBound {
  pbBound : Cost;
  decimalPoint : Z;
  maximize : bool
}.

(** The value a [Cost] holds after an operation whose exact result is [z]:
    [Cost] is a signed 64-bit integer, and a result outside its range wraps
    around modulo [2^64] in the compiled reader. *)
Definition wrap64 (z : Z) : Cost := (z + 2 ^ 63) mod 2 ^ 64 - 2 ^ 63.

(** [(Cost)powl(10, n)]: exact while [10^n] fits [Cost], undefined beyond. *)
Definition pow10 (n : nat) : option Cost :=
  if (n <=? 18)%nat then Some (10 ^ Z.of_nat n) else None.

(** The part of [readHeader] that reads the token of the bound (lines
    576-608).  [inl] is a normal end, [inr Exit] the error message followed
    by [exit], [inr Abort] an exception that nothing catches or an undefined
    conversion.  The product, the negation and the sum of lines 592-593 are
    computed in [Cost]. *)
Definition header_bound (token : string) : HeaderBound + Exn :=
  match token with
  | String c0 _ =>
      let code := Ascii.nat_of_ascii c0 in
      if Nat.eqb code 60 || Nat.eqb code 62
      then
        let pos := find_point token in
        let integerPart :=
          match pos with
          | Some p => String.substring 1 p token
          | None => substr_from 1 token
          end in
        match pos with
        | None =>
            match stoll integerPart with
            | Number v => inl (mkHeaderBound v 0 (Nat.eqb code 62))
            | InvalidArgument => inr Exit
            | OutOfRange => inr Abort
            end
        | Some p =>
            let decimalPart := substr_from (p + 1) token in
            let size := String.length decimalPart in
            match stoll integerPart with
            | Number v =>
                match pow10 size with
                | Some scale =>
                    let b := wrap64 (v * scale) in
                    match stoll decimalPart with
                    | Number d =>
                        inl (mkHeaderBound
                               (wrap64 (b + (if 0 <=? b then d else wrap64 (- d))))
                               (Z.of_nat size) (Nat.eqb code 62))
                    | InvalidArgument => inr Exit
                    | OutOfRange => inr Abort
                    end
                | None => inr Abort
                end
            | InvalidArgument => inr Exit
            | OutOfRange => inr Abort
            end
        end
      else inr Exit
  | EmptyString => inr Exit
  end.

(** A string of decimal digits. *)
Fixpoint all_digits (s : string) : bool :=
  match s with
  | String c r => is_digit c && all_digits r
  | EmptyString => true
  end.

(** The characters [<], [-] and [.]. *)
Definition lt_char : Ascii.ascii := Ascii.ascii_of_nat 60.
Definition minus_char : Ascii.ascii := Ascii.ascii_of_nat 45.
Definition point_char : Ascii.ascii := Ascii.ascii_of_nat 46.

(** ** The CFN reader: lines and comments *)

(** The stream seen as the lines still to come, with [lineCount] and
    [currentLine]. *)
Record LineReader := mkLineReader {
  lines : list string;
  lineCount : Z;
  currentLine : string
}.

(** [line == "" || line.at(0) == '#'] ([#] is the character 35). *)
Definition blank_or_hash (line : string) : bool :=
  match line with
  | EmptyString => true
  | String c _ => Nat.eqb (Ascii.nat_of_ascii c) 35
  end.

Definition is_slash (c : Ascii.ascii) : bool := Nat.eqb (Ascii.nat_of_ascii c) 47.

(** The string starts with two slashes. *)
Definition slashes_ahead (s : string) : bool :=
  match s with
  | String c (String c' _) => is_slash c && is_slash c'
  | _ => false
  end.

(** [line.find("//")] *)
Fixpoint find_comment (s : string) : option nat :=
  match s with
  | String c r =>
      if slashes_ahead s then Some O else option_map S (find_comment r)
  | EmptyString => None
  end.

(** The [while] loop of [getNextLine] (lines 426-431): [line] is the line
    read last, [ls] the lines still in the stream.  The first component is
    [None] when [std::getline] fails, which makes [getNextLine] return
    false. *)
Fixpoint skip_loop (ls : list string) (line : string) (count : Z)
  : option string * list string * Z :=
  if blank_or_hash line
  then match ls with
       | [] => (None, [], count)
       | l :: ls' => skip_loop ls' l (count + 1)
       end
  else (Some line, ls, count).

(** [getNextLine] (lines 420-441); [fuel] bounds the depth of the tail
    recursion, and one more than the number of lines is enough, since each
    call consumes a line before it calls itself. *)
Fixpoint getNextLine_fuel (fuel : nat) (r : LineReader) : bool * LineReader :=
  match fuel with
  | O => (false, r)
  | S fuel' =>
      let first := match lines r with
                   | [] => (EmptyString, [])
                   | l :: ls => (l, ls)
                   end in
      match skip_loop (snd first) (fst first) (lineCount r + 1) with
      | (None, ls, count) => (false, mkLineReader ls count (currentLine r))
      | (Some line, ls, count) =>
          match find_comment line with
          | None => (true, mkLineReader ls count line)
          | Some O => getNextLine_fuel fuel' (mkLineReader ls count (currentLine r))
          | Some pos => (true, mkLineReader ls count (String.substring 0 pos line))
          end
      end
  end.

Definition getNextLine (r : LineReader) : bool * LineReader :=
  getNextLine_fuel (S (length (lines r))) r.

(** A line that [getNextLine] passes over: empty, starting with [#] or
    starting with two slashes. *)
Definition passed_over (line : string) : bool :=
  blank_or_hash line || slashes_ahead line.

(** A line without its comment: what comes before the first two slashes. *)
Definition uncommented (line : string) : string :=
  match find_comment line with
  | Some pos => String.substring 0 pos line
  | None => line
  end.

(** What [getNextLine] answers on the reader [r]: when it returns true, it
    has passed over [skipped], met [line] and left its text without the
    comment in [currentLine], and [lineCount] has grown by the number of
    lines consumed; when it returns false, the stream is exhausted, held
    nothing but lines to pass over, and [currentLine] is untouched. *)
Definition delivers (r : LineReader) (res : bool * LineReader) : Prop :=
  let r' := snd res in
  if fst res
  then exists skipped line,
         lines r = skipped ++ line :: lines r' /\
         forallb passed_over skipped = true /\ passed_over line = false /\
         currentLine r' = uncommented line /\
         lineCount r' = lineCount r + Z.of_nat (length skipped) + 1
  else lines r' = [] /\ forallb passed_over (lines r) = true /\
       currentLine r' = currentLine r.

(** ** The CFN reader: merging the unary cost functions (lines 373-392) *)

(** A [TemporaryUnaryConstraint]: the [wcspIndex] of its variable and its
    costs. *)
Definition UnaryCF : Type := Z * list Cost.

(** One cell of the merge (lines 382-387): a cost that has reached the upper
    bound stays; below it, a cost that is below the upper bound is added and
    a cost that has reached the upper bound sets the cell to the upper
    bound. *)
Definition sat_add (ub acc c : Cost) : Cost :=
  if acc <? ub then (if c <? ub then acc + c else ub) else acc.

(** [for (i = 0; i < getDomainInitSize(); i++) { ... }] from cell [i] with
    [n] cells to go; [None] is an access outside a vector. *)
Fixpoint merge_loop (ub : Cost) (i n : nat) (acc cs : list Cost)
  : option (list Cost) :=
  match n with
  | O => Some acc
  | S n' =>
      match acc !! i with
      | None => None
      | Some a =>
          if a <? ub
          then match cs !! i with
               | None => None
               | Some c =>
                   merge_loop ub (S i) n' (<[i := if c <? ub then a + c else ub]> acc) cs
               end
          else merge_loop ub (S i) n' acc cs
      end
  end.

(** The loop over [unaryCFs]: [seen] maps a variable to the position of its
    cost function in [newunaryCFs], or to [-1]. *)
Fixpoint merge_unary (ub : Cost) (dom : Z -> nat) (unaryCFs : list UnaryCF)
  (seen : list Z) (newunaryCFs : list UnaryCF) : option (list UnaryCF) :=
  match unaryCFs with
  | [] => Some newunaryCFs
  | (v, cs) :: rest =>
      match vec_at seen v with
      | None => None
      | Some s =>
          if s =? -1
          then merge_unary ub dom rest
                 (<[Z.to_nat v := Z.of_nat (length newunaryCFs)]> seen)
                 (newunaryCFs ++ [(v, cs)])
          else match vec_at newunaryCFs s with
               | None => None
               | Some (v', acc) =>
                   match merge_loop ub 0 (dom v) acc cs with
                   | None => None
                   | Some acc' =>
                       merge_unary ub dom rest seen
                         (<[Z.to_nat s := (v', acc')]> newunaryCFs)
                   end
               end
      end
  end.

(** The costs that the cost functions on variable [v] give to value [i], in
    the order of the functions. *)
Definition column (cfs : list UnaryCF) (v : Z) (i : nat) : list Cost :=
  map (fun e => nth i (snd e) 0) (List.filter (fun e => fst e =? v) cfs).

(** What the merge makes of them: the first is copied, the others are added
    cell by cell with [sat_add]. *)
Definition sat_sum (ub : Cost) (l : list Cost) : Cost :=
  match l with
  | [] => 0
  | c :: rest => fold_left (sat_add ub) rest c
  end.

(** The costs [costs] merge the cost functions of [P] on variable [v]. *)
Definition merges (ub : Cost) (dom : Z -> nat) (P : list UnaryCF) (v : Z)
  (costs : list Cost) : Prop :=
  length costs = dom v /\
  forall i, (i < dom v)%nat -> nth i costs 0 = sat_sum ub (column P v i).

(** What holds of [seen] and [newunaryCFs] once the cost functions [P] have
    been visited. *)
Definition merge_inv (ub : Cost) (dom : Z -> nat) (nvar : nat)
  (P : list UnaryCF) (seen : list Z) (new : list UnaryCF) : Prop :=
  length seen = nvar /\
  (forall v s, vec_at seen v = Some s ->
     s = -1 \/ (0 <= s /\ exists costs, new !! Z.to_nat s = Some (v, costs))) /\
  (forall k v costs, new !! k = Some (v, costs) ->
     vec_at seen v = Some (Z.of_nat k) /\ In v (map fst P) /\ merges ub dom P v costs) /\
  (forall v, In v (map fst P) -> exists s, vec_at seen v = Some s /\ s <> -1).

(** The variable of a cost function is one of the [nvar] variables and its
    vector has one cost for each value. *)
Definition well_sized (dom : Z -> nat) (nvar : nat) (e : UnaryCF) : Prop :=
  0 <= fst e < Z.of_nat nvar /\ length (snd e) = dom (fst e).

(** ** The CFN reader: scopes and the tables of interval variables *)

Section ScopeReader.
(** [varNameToIdx] and [wcsp->numberOfVariables()]. *)
Variable varNameToIdx : string -> option Z.
Variable nvar : Z.

(** The body of the loop of [readScope] for one token (lines 931-954): the
    index of the variable it names. *)
Definition scope_index (token : string) : M Reader Z :=
  if negb (isdigit0 token)
  then match varNameToIdx token with
       | Some i => ret i
       | None => throw Exit
       end
  else match stoi token with
       | None => throw Abort
       | Some varIdx =>
           if (varIdx <? 0) || (nvar <=? varIdx) then throw Exit else ret varIdx
       end.

(** [while (!isCBrace(token)) { ... }] of [readScope]; [fuel] bounds the
    number of iterations. *)
Fixpoint readScope_loop (fuel : nat) (token : string) (scope : list Z)
  : M Reader (list Z) :=
  match fuel with
  | O => throw Diverge
  | S fuel' =>
      if isCBrace token then ret scope
      else bind (scope_index token) (fun i =>
           bind getNextToken (fun token' =>
           readScope_loop fuel' token' (scope ++ [i])))
  end.

(** [readScope(scope)] (lines 923-957); the result is the vector [scope] as
    the function leaves it. *)
Definition readScope (scope : list Z) : M Reader (list Z) :=
  bind (gets (fun r => length (tokens r))) (fun ntok =>
  bind getNextToken (fun token =>
  readScope_loop (ntok + 2) token scope)).

End ScopeReader.

Section IntervalTable.
Variable decimalToCost : string -> option Cost.
Variable domainInitSize : Z -> Z.
Variable varValNameToIdx : Z -> string -> option Z.

(** [while (!isCBrace(token)) { ... }] of [readIntervalUnaryTable] (lines
    744-754).  The token tested by the loop is the one that was just read as
    a cost. *)
Fixpoint readInterval_loop (fuel : nat) (varIdx : Z) (token : string)
  (authorized : list Value) : M Reader (list Value) :=
  match fuel with
  | O => throw Diverge
  | S fuel' =>
      if isCBrace token then ret authorized
      else bind (getValueIdx domainInitSize varValNameToIdx varIdx token)
             (fun valueIdx =>
           bind getNextToken (fun token' =>
           bind (decimalToCostM decimalToCost token') (fun cost =>
           if negb (cost =? MIN_COST) then throw Exit
           else readInterval_loop fuel' varIdx token' (authorized ++ [valueIdx]))))
  end.

(** [readIntervalUnaryTable(varIdx, authorized)] (lines 738-755) *)
Definition readIntervalUnaryTable (varIdx : Z) (authorized : list Value)
  : M Reader (list Value) :=
  bind (gets (fun r => length (tokens r))) (fun ntok =>
  bind getNextToken (fun token =>
  readInterval_loop (ntok + 2) varIdx token authorized)).

End IntervalTable.

(** The token [t] names the variable of index [i]: by its name in
    [varNameToIdx], or by a number below [nvar]. *)
Definition names_variable (varNameToIdx : string -> option Z) (nvar : Z)
  (t : string) (i : Z) : Prop :=
  isCBrace t = false /\
  if isdigit0 t
  then stoi t = Some i /\ 0 <= i < nvar
  else varNameToIdx t = Some i.

(** The token [t] is read as the value index [i] of variable [v]. *)
Definition names_value (domainInitSize : Z -> Z)
  (varValNameToIdx : Z -> string -> option Z) (v : Z) (t : string) (i : Z)
  : Prop :=
  isCBrace t = false /\
  if isdigit0 t
  then stoi t = Some i /\ 0 <= i < domainInitSize v
  else varValNameToIdx v t = Some i.

(** ** The tuple:cost form of an n-ary table, entry by entry *)

(** The tokens [toks] name, position by position, the values [vals] of the
    variables [sc]. *)
Inductive names_values (domainInitSize : Z -> Z)
  (varValNameToIdx : Z -> string -> option Z)
  : list Z -> list string -> list Z -> Prop :=
| names_values_nil : names_values domainInitSize varValNameToIdx [] [] []
| names_values_cons v sc t toks i vals :
    names_value domainInitSize varValNameToIdx v t i ->
    names_values domainInitSize varValNameToIdx sc toks vals ->
    names_values domainInitSize varValNameToIdx (v :: sc) (t :: toks) (i :: vals).

(** One entry of the table, the tokens of a tuple and the token of its cost,
    is read as the tuple and the cost of [p]: the cost is the one
    [decimalToCost] gives, scaled when prohibitive. *)
Definition entry_reads (MAX_COST MEDIUM_COST : Cost)
  (decimalToCost : string -> option Cost) (domainInitSize : Z -> Z)
  (varValNameToIdx : Z -> string -> option Z) (ub : Cost) (sc : list Z)
  (e : list string * string) (p : list Z * Cost) : Prop :=
  names_values domainInitSize varValNameToIdx sc (fst e) (fst p) /\
  isCBrace (snd e) = false /\
  exists c0, decimalToCost (snd e) = Some c0 /\
             snd p = medium_scale MAX_COST MEDIUM_COST c0 ub.

(** The tokens of a list of entries. *)
Definition entry_tokens (entries : list (list string * string)) : list string :=
  flat_map (fun e => fst e ++ [snd e]) entries.

(** The [std::map] once the tuples of [l] have been inserted into [m] in
    order; [None] when one of them is there already. *)
Fixpoint insert_from (m : list (list Z * Cost)) (l : list (list Z * Cost))
  : option (list (list Z * Cost)) :=
  match l with
  | [] => Some m
  | tc :: l' =>
      match map_insert m (fst tc) (snd tc) with
      | Some m' => insert_from m' l'
      | None => None
      end
  end.

(** ** Example data for the properties of the readers and of the weights *)

(** The weights of a meta-constraint of two variables, before any conflict. *)
Definition weights0 : Weights := mkWeights [3; 4] [].

(** Every variable is Boolean and no value has a name. *)
Definition two_values : Z -> Z := fun _ => 2.
Definition no_value_names : Z -> string -> option Z := fun _ _ => None.

(** The full table of a unary cost function on a Boolean variable, the
    bracket that closes the table and the brace that closes the function. *)
Definition unary_table : Reader :=
  mkReader ["3"; "1"; "]"; "}"]%string 0 1000 [].

(** The cost of a function of arity zero with the two closing braces. *)
Definition zero_ary_table : Reader :=
  mkReader ["7"; "]"; "}"]%string 0 1000 [].

(** One variable is named [x]; it has index 0. *)
Definition only_x (name : string) : option Z :=
  if String.eqb name "x" then Some 0 else None.

(** The scope [x 1] and what follows it. *)
Definition scope_tokens : Reader :=
  mkReader ["x"; "1"; "]"; "next"]%string 0 1000 [].

(** A reader of costs that takes the digits in front of a token and reads a
    token without digits as zero. *)
Definition decimal_prefix (token : string) : option Cost :=
  Some (digits_prefix token 0).

(** The table of an interval variable: the value 1 with its zero cost. *)
Definition interval_table : Reader :=
  mkReader ["1"; "0"; "]"; "next"]%string 0 1000 [].

(** The same table without the cost. *)
Definition interval_table_no_cost : Reader :=
  mkReader ["1"; "]"; "next"]%string 0 1000 [].

(** Three unary cost functions on two Boolean variables, two of them on
    variable 0. *)
Definition three_unaries : list UnaryCF := [(0, [1; 2]); (1, [3; 4]); (0, [5; 9])].

(** The clause [1 -2 0] without its closing zero. *)
Definition two_literals : list Z := [1; -2].

(** An n-ary table in the tuple:cost form on two Boolean variables: the tuple
    [0 1] at cost 5 and the tuple [1 0] at cost 3, then the two closing
    braces. *)
Definition sparse_entries : list (list string * string) :=
  [(["0"; "1"], "5"); (["1"; "0"], "3")]%string.
Definition sparse_parsed : list (list Z * Cost) := [([0; 1], 5); ([1; 0], 3)].
Definition sparse_table : Reader :=
  mkReader ["0"; "1"; "5"; "1"; "0"; "3"; "]"; "}"]%string 0 1000 [].

(** * Reasoning rules for the computation monad *)

Section Rules.
Context {St : Type}.

Lemma wp_ret {A} (a : A) (Q : A -> St -> Prop) T s : Q a s -> wp (ret a) Q T s.
Proof. exact (fun H => H). Qed.

Lemma wp_throw {A} e (Q : A -> St -> Prop) T s : T e s -> wp (throw e) Q T s.
Proof. exact (fun H => H). Qed.

Lemma wp_bind {A B} (m : M St A) (k : A -> M St B) (Q : B -> St -> Prop) T s :
  wp m (fun a s' => wp (k a) Q T s') T s -> wp (bind m k) Q T s.
Proof. unfold wp, bind. destruct (m s); auto. Qed.

Lemma wp_gets {A} (f : St -> A) (Q : A -> St -> Prop) T s : Q (f s) s -> wp (gets f) Q T s.
Proof. exact (fun H => H). Qed.

Lemma wp_modify (f : St -> St) (Q : unit -> St -> Prop) T s : Q tt (f s) -> wp (modify f) Q T s.
Proof. exact (fun H => H). Qed.

Lemma wp_assert (b : bool) (Q : unit -> St -> Prop) T s :
  (b = true -> Q tt s) -> (b = false -> T Abort s) -> wp (assert b) Q T s.
Proof. destruct b; intros H1 H2; [apply H1 | apply H2]; reflexivity. Qed.

Lemma wp_when (b : bool) (m : M St unit) (Q : unit -> St -> Prop) T s :
  (b = true -> wp m Q T s) -> (b = false -> Q tt s) -> wp (when b m) Q T s.
Proof. destruct b; intros H1 H2; [apply H1 | apply H2]; reflexivity. Qed.

Lemma wp_when_some {A} (o : option A) (m : A -> M St unit) (Q : unit -> St -> Prop) T s :
  (forall a, o = Some a -> wp (m a) Q T s) -> (o = None -> Q tt s) ->
  wp (when_some o m) Q T s.
Proof. destruct o; intros H1 H2; [apply H1 | apply H2]; reflexivity. Qed.

Lemma wp_deref_opt {A} (o : option A) (Q : A -> St -> Prop) T s :
  (forall a, o = Some a -> Q a s) -> (o = None -> T Abort s) ->
  wp (deref_opt o) Q T s.
Proof. destruct o; intros H1 H2; [apply H1 | apply H2]; reflexivity. Qed.

Lemma wp_try_catch {A} (m h : M St A) E (Q : A -> St -> Prop) T s :
  wp m Q (fun e s' => if Exn_eqb e E then wp h Q T s' else T e s') s ->
  wp (try_catch m E h) Q T s.
Proof. unfold wp, try_catch. destruct (m s); auto. destruct (Exn_eqb e E); auto. Qed.

Lemma wp_mono {A} (m : M St A) (Q Q' : A -> St -> Prop) (T T' : Exn -> St -> Prop) s :
  wp m Q T s ->
  (forall a s', Q a s' -> Q' a s') -> (forall e s', T e s' -> T' e s') ->
  wp m Q' T' s.
Proof. unfold wp. destruct (m s); auto. Qed.

(** The loop rule: [I] holds of the entries still to visit and the state. *)
Lemma wp_for_each {A} (body : A -> M St unit) (I : list A -> St -> Prop) (Q : unit -> St -> Prop) T :
  (forall x l s, I (x :: l) s -> wp (body x) (fun _ s' => I l s') T s) ->
  (forall s, I [] s -> Q tt s) ->
  forall l s, I l s -> wp (for_each l body) Q T s.
Proof.
  intros Hbody Hend l. induction l as [|x l IH]; intros s HI.
  - apply Hend, HI.
  - cbn [for_each]. apply wp_bind.
    eapply wp_mono; [apply (Hbody x l s HI) | | auto].
    intros a s' HI'. apply IH, HI'.
Qed.

Lemma wp_elim {A} (m : M St A) (Q : A -> St -> Prop) T s : wp m Q T s ->
  match m s with Ret a s' => Q a s' | Throw e s' => T e s' end.
Proof. exact (fun H => H). Qed.

End Rules.

(** Rules for the second state component. *)
Lemma wp_with_locals {St L A} (m : M St A) (Q : A -> St * L -> Prop) T s l :
  wp m (fun a s' => Q a (s', l)) (fun e s' => T e (s', l)) s ->
  wp (with_locals m) Q T (s, l).
Proof. unfold wp, with_locals; cbn. destruct (m s); auto. Qed.

Lemma wp_run_locals {St L A} (m : M (St * L) A) l0 (Q : A -> St -> Prop) T s :
  wp m (fun a sl => Q a (fst sl)) (fun e sl => T e (fst sl)) (s, l0) ->
  wp (run_locals l0 m) Q T s.
Proof. unfold wp, run_locals. destruct (m (s, l0)); auto. Qed.

Ltac wp_step :=
  lazymatch goal with
  | |- wp (bind _ _) _ _ _ => apply wp_bind
  | |- wp (ret _) _ _ _ => apply wp_ret
  | |- wp (throw _) _ _ _ => apply wp_throw
  | |- wp (gets _) _ _ _ => apply wp_gets
  | |- wp (modify _) _ _ _ => apply wp_modify
  | |- wp (try_catch _ _ _) _ _ _ => apply wp_try_catch
  | |- wp (with_locals _) _ _ (_, _) => apply wp_with_locals
  | |- wp (run_locals _ _) _ _ _ => apply wp_run_locals
  end.

(** * C1: universality *)

Section Universality.
Context {X : Type}.
Implicit Types (c : WeightedCSPConstraint) (w : World X).

Lemma universal_true_iff c w :
  universal c w = true <->
  isfinite c = true /\
  exists p n, problem c = Some p /\ negproblem c = Some n /\
              getLb (bt w) p >= lb c /\
              getLb (bt w) n > - ub c + negCost c.
Proof.
  unfold universal. split.
  - destruct (problem c) as [p|] eqn:Hp; [|discriminate].
    destruct (negproblem c) as [n|] eqn:Hn; [|discriminate].
    rewrite !andb_true_iff, Z.leb_le, Z.ltb_lt.
    intros [[Hf Hl] Hu]. split; [exact Hf|].
    exists p, n. repeat split; lia.
  - intros [Hf (p & n & -> & -> & Hl & Hu)].
    rewrite !andb_true_iff, Z.leb_le, Z.ltb_lt. repeat split; [exact Hf|lia|lia].
Qed.

Lemma universal_missing_slave c w :
  problem c = None \/ negproblem c = None -> universal c w = false.
Proof.
  unfold universal; intros [-> | ->]; [reflexivity|].
  destruct (problem c); reflexivity.
Qed.

(** C1: [universal()] answers true exactly when [isfinite] holds, both the
    slave and the negated slave are present, the slave's current lower bound
    is at least [lb] and the negated slave's current lower bound is strictly
    above [-ub + negCost]; it answers false in every other case, a missing
    slave included. *)
Theorem universal_iff c w :
  (universal c w = true <->
     isfinite c = true /\
     exists p n, problem c = Some p /\ negproblem c = Some n /\
                 getLb (bt w) p >= lb c /\
                 getLb (bt w) n > - ub c + negCost c)
  /\ (universal c w = false <->
        ~ (isfinite c = true /\
           exists p n, problem c = Some p /\ negproblem c = Some n /\
                       getLb (bt w) p >= lb c /\
                       getLb (bt w) n > - ub c + negCost c))
  /\ (problem c = None \/ negproblem c = None -> universal c w = false).
Proof.
  split; [apply universal_true_iff|]. split; [|apply universal_missing_slave].
  rewrite <- universal_true_iff.
  destruct (universal c w); split; intros H; try discriminate; try reflexivity.
  exfalso; apply H; reflexivity.
Qed.

End Universality.

(** * The channelled callbacks *)

Section CallbackFacts.
Context {X : Type}.
Variable handler : Handler X.
Implicit Types (s : Sys X) (k : EventKind).

Lemma wp_call c (Q : unit -> Sys X -> Prop) T s :
  match handler c (world s) with
  | Ret _ w' => Q tt (mkSys (fam s) w' (trace s ++ [c]) (cerr s))
  | Throw e w' => T e (mkSys (fam s) w' (trace s ++ [c]) (cerr s))
  end ->
  wp (call handler c) Q T s.
Proof. unfold wp, call. destruct (handler c (world s)); auto. Qed.

(** Whatever runs first, a continuation that establishes [Q] from any state
    establishes it for the sequence. *)
Lemma wp_seq_any {A B} (m : M (Sys X) A) (k : A -> M (Sys X) B)
  (Q : B -> Sys X -> Prop) (T : Exn -> Sys X -> Prop) s :
  (forall a s', wp (k a) Q T s') -> (forall e s', T e s') ->
  wp (bind m k) Q T s.
Proof.
  intros Hk HT. apply wp_bind. unfold wp at 1. destruct (m s); auto.
Qed.

Lemma unprotect_active Q s :
  (forall s', active (world s') = active (world s) -> Q s') ->
  wp unprotect (fun _ s' => Q s') (fun _ _ => True) s.
Proof.
  intros H. unfold unprotect. wp_step. wp_step.
  apply wp_when; intros _; [unfold set_guard, modify_world; wp_step|]; apply H; reflexivity.
Qed.

Lemma from_slave_origin k master wcspId x v s :
  wp (from_slave handler k master wcspId x v)
     (fun wm _ => fst wm = wcspId) (fun _ _ => True) s.
Proof.
  unfold from_slave. wp_step. wp_step. wp_step.
  apply wp_deref_opt; [intros g _|trivial].
  wp_step. unfold deref. wp_step. wp_step.
  apply wp_deref_opt; [intros gc _|trivial].
  wp_step.
  assert (Hn : forall s0, wp (n <- deref_opt (negproblem gc);; assert (n =? wcspId);; ret n)
            (fun a s' => wp (deactivatePropagate a;;
                 masterVar <- match k with
                              | EvAssign => v0 <- deref_opt (getVar gc x);; unprotect;; ret v0
                              | _ => unprotect;; deref_opt (getVar gc x)
                              end;;
                 call handler (VarEvent k master masterVar v);;
                 protect false;; ret (a, masterVar))
               (fun wm _ => fst wm = wcspId) (fun _ _ => True) s')
            (fun _ _ => True) s0).
  { intros s0. wp_step. apply wp_deref_opt; [intros n _|trivial].
    wp_step. apply wp_assert; [intros Hn|trivial]. wp_step.
    apply Z.eqb_eq in Hn; subst n.
    apply wp_seq_any; [|trivial]. intros _ s1.
    apply wp_seq_any; [|trivial]. intros mv s2.
    apply wp_seq_any; [|trivial]. intros _ s3.
    apply wp_seq_any; [|trivial]. intros _ s4. wp_step. reflexivity. }
  destruct (problem gc) as [p|]; [|apply Hn].
  destruct (p =? wcspId) eqn:Hp; [|apply Hn].
  wp_step. apply Z.eqb_eq in Hp; subst p.
  apply wp_seq_any; [|trivial]. intros _ s1.
  apply wp_seq_any; [|trivial]. intros mv s2.
  apply wp_seq_any; [|trivial]. intros _ s3.
  apply wp_seq_any; [|trivial]. intros _ s4. wp_step. reflexivity.
Qed.

Lemma from_master_origin k master x v s :
  wp (from_master handler k master x v)
     (fun wm _ => wm = (master, x)) (fun _ _ => True) s.
Proof.
  unfold from_master.
  apply wp_seq_any; [|trivial]. intros _ s1.
  apply wp_seq_any; [|trivial]. intros _ s2.
  apply wp_seq_any; [|trivial]. intros _ s3. wp_step. reflexivity.
Qed.

Lemma tb2event_returns_active k wcspId varIndex value s :
  match tb2event handler k wcspId varIndex value s with
  | Ret _ s' => active (world s') wcspId = true
  | Throw _ _ => True
  end.
Proof.
  apply (wp_elim (tb2event handler k wcspId varIndex value)
           (fun _ s' => active (world s') wcspId = true) (fun _ _ => True)).
  unfold tb2event. wp_step. wp_step. wp_step.
  apply wp_deref_opt; [intros master _|trivial].
  wp_step. apply wp_assert; [intros _|trivial].
  wp_step.
  assert (Hk : forall wm s1, fst wm = wcspId ->
     wp (for_each (WeightedCSPConstraints (fam s))
           (forward handler k wcspId (snd wm) value);;
         reactivatePropagate (fst wm);;
         when (wcspId =? master) unprotect)
        (fun _ s' => active (world s') wcspId = true) (fun _ _ => True) s1).
  { intros wm s1 ->. apply wp_seq_any; [|trivial]. intros _ s2.
    wp_step. unfold reactivatePropagate, modify_world. wp_step.
    apply wp_when; intros _.
    - apply unprotect_active. cbn. intros s' ->. unfold upd.
      rewrite Z.eqb_refl. reflexivity.
    - cbn. unfold upd. rewrite Z.eqb_refl. reflexivity. }
  destruct (negb (wcspId =? master)) eqn:Hm.
  - eapply wp_mono; [apply from_slave_origin| |trivial].
    intros wm s1 Hwm. apply Hk, Hwm.
  - eapply wp_mono; [apply from_master_origin| |trivial].
    intros wm s1 ->. apply Hk. cbn.
    apply negb_false_iff, Z.eqb_eq in Hm. congruence.
Qed.

(** ** A callback that raises *)

Section Inactive.
Variable origin : WcspId.
Hypothesis Hkeep : keeps_switch handler origin.

Local Abbreviation off s := (active (world s) origin = false).
Local Abbreviation Toff := (fun (_ : Exn) s' => off s').

Lemma off_call c s :
  off s -> wp (call handler c) (fun _ s' => off s') Toff s.
Proof.
  intros H. apply wp_call. specialize (Hkeep c (world s)).
  destruct (handler c (world s)) as [[] w'|e w']; cbn; congruence.
Qed.

Lemma off_unprotect s :
  off s -> wp unprotect (fun _ s' => off s') Toff s.
Proof.
  intros H. unfold unprotect. wp_step. wp_step.
  apply wp_when; intros _; [unfold set_guard, modify_world; wp_step|]; exact H.
Qed.

Lemma off_protect b s :
  off s -> wp (protect b) (fun _ s' => off s') Toff s.
Proof.
  intros H. unfold protect. wp_step. wp_step. wp_step.
  apply wp_assert; intros _; [|exact H].
  wp_step.
  eapply wp_mono with (Q := fun _ s' => off s'); [| |intros ? ? HT; exact HT].
  - apply wp_when; intros _; [unfold set_guard, modify_world; wp_step|]; exact H.
  - intros [] s1 H1. cbn beta. wp_step. wp_step.
    unfold set_guard, modify_world. wp_step. exact H1.
Qed.

Lemma off_forward_to k p i v s :
  off s -> wp (forward_to handler k p i v) (fun _ s' => off s') Toff s.
Proof.
  intros H. unfold forward_to. wp_step. wp_step. wp_step.
  apply wp_assert; intros _; [|exact H].
  wp_step.
  assert (Hcatch : forall e s', off s' ->
            if Exn_eqb e Contradiction
            then wp (call handler (WhenContradiction p);; unprotect;;
                     @throw (Sys X) unit Contradiction)
                    (fun _ s'' => off s'') Toff s'
            else off s').
  { intros e s' H'. destruct (Exn_eqb e Contradiction); [|exact H'].
    wp_step. eapply wp_mono; [apply (off_call _ s' H')| |intros ? ? HT; exact HT].
    intros [] s1 H1. cbn beta. wp_step.
    eapply wp_mono; [apply (off_unprotect s1 H1)| |intros ? ? HT; exact HT].
    intros [] s2 H2. cbn beta. wp_step. exact H2. }
  wp_step.
  eapply wp_mono; [apply (off_call _ s H)| |exact Hcatch].
  intros [] s1 H1. cbn beta.
  eapply wp_mono; [apply (off_call _ s1 H1)|intros ? ? HT; exact HT|exact Hcatch].
Qed.

Lemma off_forward k wcspId mv v e s :
  off s -> wp (forward handler k wcspId mv v e) (fun _ s' => off s') Toff s.
Proof.
  intros H. unfold forward. wp_step. unfold connected at 1. wp_step.
  apply wp_when; intros _; [|exact H].
  wp_step. unfold deref. wp_step. wp_step.
  apply wp_deref_opt; [intros gc _|intros _; exact H].
  apply wp_when; intros _; [|exact H].
  wp_step.
  eapply wp_mono with (Q := fun _ s' => off s'); [| |intros ? ? HT; exact HT].
  - apply wp_when_some; [intros p _|intros _; exact H].
    apply wp_when; intros _; [|exact H]. apply off_forward_to, H.
  - intros [] s1 H1. cbn beta. wp_step. unfold connected. wp_step.
    apply wp_when_some; [intros n _|intros _; exact H1].
    apply wp_when; intros _; [|exact H1]. apply off_forward_to, H1.
Qed.

Lemma off_forward_loop k wcspId mv v l s :
  off s ->
  wp (for_each l (forward handler k wcspId mv v)) (fun _ s' => off s') Toff s.
Proof.
  intros H.
  apply (wp_for_each _ (fun _ s' => off s')); [|auto|exact H].
  intros e l' s1 H1. apply off_forward, H1.
Qed.

(** From the moment the switch of the origin is turned off, every way out of
    the part of the callback that precedes the loop finds it off. *)
Lemma off_origin_step k master x v gc s :
  wp (deactivatePropagate origin;;
      masterVar <- match k with
                   | EvAssign => v0 <- deref_opt (getVar gc x);; unprotect;; ret v0
                   | _ => unprotect;; deref_opt (getVar gc x)
                   end;;
      call handler (VarEvent k master masterVar v);;
      protect false;; ret (origin, masterVar))
     (fun _ s' => off s') Toff s.
Proof.
  wp_step. unfold deactivatePropagate, modify_world. wp_step.
  set (s1 := mkSys _ _ _ _).
  assert (H1 : off s1) by (cbn; unfold upd; rewrite Z.eqb_refl; reflexivity).
  clearbody s1. wp_step.
  eapply wp_mono with (Q := fun _ s' => off s'); [| |intros ? ? HT; exact HT].
  - destruct k.
    + wp_step. apply wp_deref_opt; [intros mv _|intros _; exact H1].
      wp_step. eapply wp_mono; [apply (off_unprotect s1 H1)| |intros ? ? HT; exact HT].
      intros [] s2 H2. cbn beta. wp_step. exact H2.
    + wp_step. eapply wp_mono; [apply (off_unprotect s1 H1)| |intros ? ? HT; exact HT].
      intros [] s2 H2. cbn beta. apply wp_deref_opt; intros; exact H2.
    + wp_step. eapply wp_mono; [apply (off_unprotect s1 H1)| |intros ? ? HT; exact HT].
      intros [] s2 H2. cbn beta. apply wp_deref_opt; intros; exact H2.
    + wp_step. eapply wp_mono; [apply (off_unprotect s1 H1)| |intros ? ? HT; exact HT].
      intros [] s2 H2. cbn beta. apply wp_deref_opt; intros; exact H2.
  - intros mv s2 H2. cbn beta. wp_step.
    eapply wp_mono; [apply (off_call _ s2 H2)| |intros ? ? HT; exact HT].
    intros [] s3 H3. cbn beta. wp_step.
    eapply wp_mono; [apply (off_protect false s3 H3)| |intros ? ? HT; exact HT].
    intros [] s4 H4. cbn beta. wp_step. exact H4.
Qed.

Lemma tb2event_raises_inactive k varIndex value s :
  wp (tb2event handler k origin varIndex value)
     (fun _ _ => True)
     (fun e s' => e = Contradiction -> off s') s.
Proof.
  assert (Hab : forall s', Abort = Contradiction -> off s') by discriminate.
  assert (Hweak : forall e s', Toff e s' -> e = Contradiction -> off s')
    by (intros e s' H _; exact H).
  unfold tb2event. wp_step. wp_step. wp_step.
  apply wp_deref_opt; [intros master _|intros _; apply Hab].
  wp_step. apply wp_assert; [intros _|intros _; apply Hab].
  wp_step.
  eapply wp_mono with (Q := fun _ s' => off s')
                      (T := fun e s' => e = Contradiction -> off s');
    [| |intros ? ? HT; exact HT].
  - destruct (negb (origin =? master)) eqn:Hm.
    + unfold from_slave. wp_step. wp_step. wp_step.
      apply wp_deref_opt; [intros g _|intros _; apply Hab].
      wp_step. unfold deref. wp_step. wp_step.
      apply wp_deref_opt; [intros gc _|intros _; apply Hab].
      wp_step.
      assert (Hn : forall s0,
        wp (n <- deref_opt (negproblem gc);; assert (n =? origin);; ret n)
           (fun a s' => wp (deactivatePropagate a;;
               masterVar <- match k with
                            | EvAssign => v0 <- deref_opt (getVar gc varIndex);;
                                          unprotect;; ret v0
                            | _ => unprotect;; deref_opt (getVar gc varIndex)
                            end;;
               call handler (VarEvent k master masterVar value);;
               protect false;; ret (a, masterVar))
             (fun _ s' => off s') (fun e s' => e = Contradiction -> off s') s')
           (fun e s' => e = Contradiction -> off s') s0).
      { intros s0. wp_step. apply wp_deref_opt; [intros n _|intros _; apply Hab].
        wp_step. apply wp_assert; [intros Hn|intros _; apply Hab]. wp_step.
        apply Z.eqb_eq in Hn; subst n.
        eapply wp_mono; [apply off_origin_step|auto|exact Hweak]. }
      destruct (problem gc) as [p|]; [|apply Hn].
      destruct (p =? origin) eqn:Hp; [|apply Hn].
      wp_step. apply Z.eqb_eq in Hp; subst p.
      eapply wp_mono; [apply off_origin_step|auto|exact Hweak].
    + apply negb_false_iff, Z.eqb_eq in Hm. subst master.
      unfold from_master. wp_step. unfold deactivatePropagate, modify_world. wp_step.
      set (s1 := mkSys _ _ _ _).
      assert (H1 : off s1) by (cbn; unfold upd; rewrite Z.eqb_refl; reflexivity).
      clearbody s1. wp_step.
      eapply wp_mono with (Q := fun _ s' => off s'); [| |exact Hweak].
      * destruct k; try (wp_step; exact H1). apply off_call, H1.
      * intros [] s2 H2. cbn beta. wp_step.
        eapply wp_mono; [apply (off_protect true s2 H2)| |exact Hweak].
        intros [] s3 H3. cbn beta. wp_step. exact H3.
  - intros wm s1 H1. cbn beta. wp_step.
    eapply wp_mono; [apply (off_forward_loop k origin (snd wm) value _ s1 H1)
                    | |exact Hweak].
    intros [] s2 H2. cbn beta. wp_step.
    unfold reactivatePropagate, modify_world. wp_step.
    apply wp_when; intros _; [|exact I].
    unfold unprotect. wp_step. wp_step.
    apply wp_when; intros _; [unfold set_guard, modify_world; wp_step|]; exact I.
Qed.

End Inactive.

(** The [catch] block of a forward: whenever a forward re-raises a
    Contradiction, the last call it made is [whenContradiction] on the peer,
    and it has released the guard. *)
Lemma forward_to_reraises k p i v s :
  cleanup_returns handler ->
  match forward_to handler k p i v s with
  | Throw Contradiction s' =>
      protected_ (guard (world s')) = false /\
      exists t, trace s' = trace s ++ t ++ [WhenContradiction p]
  | _ => True
  end.
Proof.
  intros Hclean. unfold forward_to, bind, gets, assert, try_catch, call, unprotect,
    when, set_guard, modify_world, modify, ret, throw.
  destruct (protected_ (guard (world s))); [|exact I].
  destruct (handler (EnforceUb p) (world s)) as [[] w1|e1 w1]; cbn.
  - destruct (handler (VarEvent k p i v) w1) as [[] w2|e2 w2]; cbn; [exact I|].
    destruct e2; cbn; try exact I.
    destruct (Hclean p w2) as [w3 ->]. cbn.
    destruct (protected_ (guard w3)) eqn:Hp; cbn.
    + split; [reflexivity|]. exists [EnforceUb p; VarEvent k p i v].
      rewrite <- !app_assoc. reflexivity.
    + split; [exact Hp|]. exists [EnforceUb p; VarEvent k p i v].
      rewrite <- !app_assoc. reflexivity.
  - destruct e1; cbn; try exact I.
    destruct (Hclean p w1) as [w3 ->]. cbn.
    destruct (protected_ (guard w3)) eqn:Hp; cbn.
    + split; [reflexivity|]. exists [EnforceUb p].
      rewrite <- !app_assoc. reflexivity.
    + split; [exact Hp|]. exists [EnforceUb p].
      rewrite <- !app_assoc. reflexivity.
Qed.

(** C5, amended: a callback that returns normally has re-enabled propagation
    in the WCSP the event came from.  A callback that re-raises a
    Contradiction has not: as long as the calls into the solver leave the
    switch of that WCSP alone, it is off when the Contradiction leaves the
    callback.  A forward that re-raises a Contradiction has called
    [whenContradiction] on the peer last and has released the guard. *)
Theorem tb2event_reactivates k wcspId varIndex value s :
  match tb2event handler k wcspId varIndex value s with
  | Ret _ s' => active (world s') wcspId = true
  | Throw Contradiction s' =>
      keeps_switch handler wcspId -> active (world s') wcspId = false
  | Throw _ _ => True
  end
  /\ (forall p i s1,
        cleanup_returns handler ->
        match forward_to handler k p i value s1 with
        | Throw Contradiction s' =>
            protected_ (guard (world s')) = false /\
            exists t, trace s' = trace s1 ++ t ++ [WhenContradiction p]
        | _ => True
        end).
Proof.
  split; [|intros p i s1 Hc; apply forward_to_reraises, Hc].
  pose proof (tb2event_returns_active k wcspId varIndex value s) as H1.
  destruct (tb2event handler k wcspId varIndex value s) as [u s'|e s'] eqn:E;
    [exact H1|].
  destruct e; try exact I. intros Hkeep.
  pose proof (tb2event_raises_inactive wcspId Hkeep k varIndex value s) as H2.
  unfold wp in H2. rewrite E in H2. apply H2. reflexivity.
Qed.

End CallbackFacts.

(** * The protection guard *)

Section GuardFacts.
Context {X : Type}.
Variable handler : Handler X.
Hypothesis Hguard : respects_guard handler.
Hypothesis Hclean : cleanup_returns handler.
Implicit Types (s : Sys X) (k : EventKind).

Local Abbreviation G s := (guard (world s)).
(** Postcondition for exceptions outside a [try] block *)
Local Abbreviation Tfree F0 := (fun e s' => e = Contradiction -> guard_free F0 (G s')).
(** and inside one, before the handler has run. *)
Local Abbreviation Trel F0 := (fun e s' => e = Contradiction -> guard_releasable F0 (G s')).

Lemma free_releasable (F0 : Features) g : guard_free F0 g -> guard_releasable F0 g.
Proof. unfold guard_free, guard_releasable. intros [-> H]; exact H. Qed.

Lemma held_releasable (F0 : Features) g : guard_held F0 g -> guard_releasable F0 g.
Proof. unfold guard_held, guard_releasable. intros [-> H]; exact H. Qed.

Lemma call_free c (F0 : Features) s :
  guard_free F0 (G s) ->
  wp (call handler c) (fun _ s' => guard_free F0 (G s')) (Tfree F0) s.
Proof.
  intros [Hp Ht]. apply wp_call. specialize (Hguard c (world s)).
  unfold guard_rel in Hguard. rewrite Hp in Hguard.
  destruct (handler c (world s)) as [[] w'|e w']; cbn.
  - destruct Hguard as [H1 H2]. split; congruence.
  - intros ->. destruct Hguard as [H1 H2]. split; congruence.
Qed.

Lemma call_held c (F0 : Features) s :
  guard_held F0 (G s) ->
  wp (call handler c) (fun _ s' => guard_held F0 (G s')) (Trel F0) s.
Proof.
  intros [Hp Hs]. apply wp_call. specialize (Hguard c (world s)).
  unfold guard_rel in Hguard. rewrite Hp in Hguard.
  destruct (handler c (world s)) as [[] w'|e w']; cbn.
  - destruct Hguard as [H1 [H2|(H2 & _)]]; [|discriminate].
    rewrite H2. split; assumption.
  - intros ->. destruct Hguard as [H1 [H2|(_ & H2 & H3)]].
    + rewrite H2. unfold guard_releasable. rewrite Hp. exact Hs.
    + unfold guard_releasable. rewrite H2. congruence.
Qed.

Lemma cleanup_releasable p (F0 : Features) s :
  guard_releasable F0 (G s) ->
  wp (call handler (WhenContradiction p))
     (fun _ s' => guard_releasable F0 (G s')) (fun _ _ => False) s.
Proof.
  intros HJ. apply wp_call.
  destruct (Hclean p (world s)) as [w' Hw].
  specialize (Hguard (WhenContradiction p) (world s)). rewrite Hw in *. cbn.
  unfold guard_rel, guard_releasable in *.
  destruct (protected_ (G s)) eqn:Hp.
  - destruct Hguard as [H1 [H2|(H2 & _)]]; [|discriminate].
    rewrite H2, Hp. exact HJ.
  - destruct Hguard as [H1 H2]. rewrite H1. congruence.
Qed.

Lemma unprotect_releasable (F0 : Features) s (T : Exn -> Sys X -> Prop) :
  guard_releasable F0 (G s) ->
  wp unprotect (fun _ s' => guard_free F0 (G s')) T s.
Proof.
  unfold guard_releasable, guard_free. intros HJ.
  unfold unprotect. wp_step. wp_step.
  destruct (protected_ (G s)) eqn:Hp; cbn [when].
  - unfold set_guard, modify_world. wp_step. cbn. auto.
  - wp_step. auto.
Qed.

Lemma protect_master (F0 : Features) s (T : Exn -> Sys X -> Prop) :
  guard_free F0 (G s) ->
  wp (protect true) (fun _ s' => guard_held F0 (G s')) T s.
Proof.
  intros [Hp Ht]. unfold protect. wp_step. wp_step. wp_step.
  apply wp_assert; [intros _|rewrite Hp; discriminate].
  wp_step. cbn [when]. unfold set_guard, modify_world. wp_step. wp_step. wp_step.
  wp_step. cbn. split; [reflexivity|exact Ht].
Qed.

Lemma protect_again s (T : Exn -> Sys X -> Prop) :
  protected_ (G s) = false ->
  wp (protect false) (fun _ s' => protected_ (G s') = true) T s.
Proof.
  intros Hp. unfold protect. wp_step. wp_step. wp_step.
  apply wp_assert; [intros _|rewrite Hp; discriminate].
  wp_step. cbn [when]. wp_step. wp_step. wp_step.
  unfold set_guard, modify_world. wp_step. reflexivity.
Qed.

(** The handler of the [catch] blocks of the callbacks. *)
Lemma catch_block p (F0 : Features) s (Q : unit -> Sys X -> Prop) :
  guard_releasable F0 (G s) ->
  wp (call handler (WhenContradiction p);; unprotect;;
      @throw (Sys X) unit Contradiction)
     Q (Tfree F0) s.
Proof.
  intros HJ. wp_step.
  eapply wp_mono; [apply (cleanup_releasable p F0 s HJ)| |intros ? ? []].
  intros [] s1 H1. cbn beta. wp_step.
  eapply wp_mono; [apply (unprotect_releasable F0 s1 (Tfree F0) H1)| |intros ? ? HT; exact HT].
  intros [] s2 H2. cbn beta. wp_step. intros _. exact H2.
Qed.

Lemma forward_to_held k p i v (F0 : Features) s :
  guard_held F0 (G s) ->
  wp (forward_to handler k p i v) (fun _ s' => guard_held F0 (G s')) (Tfree F0) s.
Proof.
  intros Hh. unfold forward_to. wp_step. wp_step. wp_step.
  apply wp_assert; [intros _|destruct Hh as [-> _]; discriminate].
  wp_step.
  assert (Hcatch : forall e s', Trel F0 e s' ->
            if Exn_eqb e Contradiction
            then wp (call handler (WhenContradiction p);; unprotect;;
                     @throw (Sys X) unit Contradiction)
                    (fun _ s'' => guard_held F0 (G s'')) (Tfree F0) s'
            else Tfree F0 e s').
  { intros e s' HT. destruct e; cbn; try discriminate.
    apply catch_block, HT; reflexivity. }
  wp_step.
  eapply wp_mono; [apply (call_held _ F0 s Hh)| |exact Hcatch].
  intros [] s1 H1. cbn beta.
  eapply wp_mono; [apply (call_held _ F0 s1 H1)|intros ? ? HT; exact HT|exact Hcatch].
Qed.

Lemma forward_held k wcspId mv v (F0 : Features) e s :
  guard_held F0 (G s) ->
  wp (forward handler k wcspId mv v e) (fun _ s' => guard_held F0 (G s')) (Tfree F0) s.
Proof.
  intros Hh. unfold forward. wp_step. unfold connected at 1. wp_step.
  apply wp_when; [intros _|auto].
  wp_step. unfold deref. wp_step. wp_step.
  apply wp_deref_opt; [intros gc _|discriminate].
  apply wp_when; [intros _|auto].
  wp_step.
  eapply wp_mono with (Q := fun _ s' => guard_held F0 (G s')); [| |intros ? ? HT; exact HT].
  - apply wp_when_some; [intros p _|auto].
    apply wp_when; [intros _|auto]. apply forward_to_held, Hh.
  - intros [] s1 H1. cbn beta. wp_step. unfold connected. wp_step.
    apply wp_when_some; [intros n _|auto].
    apply wp_when; [intros _|auto]. apply forward_to_held, H1.
Qed.

Lemma forward_loop_held k wcspId mv v (F0 : Features) l s :
  guard_held F0 (G s) ->
  wp (for_each l (forward handler k wcspId mv v))
     (fun _ s' => guard_held F0 (G s')) (Tfree F0) s.
Proof.
  intros Hh.
  apply (wp_for_each _ (fun _ s' => guard_held F0 (G s'))); [| auto | exact Hh].
  intros e l' s1 H1. apply forward_held, H1.
Qed.

Lemma deactivate_guard w s (Q : unit -> Sys X -> Prop) T :
  (forall s', G s' = G s -> Q tt s') ->
  wp (deactivatePropagate w) Q T s.
Proof. intros H. unfold deactivatePropagate, modify_world. wp_step. apply H. reflexivity. Qed.

Lemma reactivate_guard w s (Q : unit -> Sys X -> Prop) T :
  (forall s', G s' = G s -> Q tt s') ->
  wp (reactivatePropagate w) Q T s.
Proof. intros H. unfold reactivatePropagate, modify_world. wp_step. apply H. reflexivity. Qed.

Lemma master_callback_released k wcspId x v s :
  protected_ (G s) = false ->
  MasterWeightedCSP (fam s) = Some wcspId ->
  exits_released (tb2event handler k wcspId x v) s.
Proof.
  intros Hp Hm. set (F0 := tb2 (G s)).
  assert (Hfree : guard_free F0 (G s)) by (split; [exact Hp|reflexivity]).
  assert (W : wp (tb2event handler k wcspId x v)
                 (fun _ s' => guard_free F0 (G s')) (Tfree F0) s).
  { unfold tb2event. wp_step. wp_step. rewrite Hm. wp_step. cbn [deref_opt].
    wp_step. wp_step.
    apply wp_assert; [intros _|discriminate].
    rewrite Z.eqb_refl. cbn [negb]. wp_step.
    unfold from_master. wp_step. apply deactivate_guard. intros s1 E1.
    wp_step.
    eapply wp_mono with (Q := fun _ s' => guard_free F0 (G s')); [| |intros ? ? HT; exact HT].
    { destruct k; try (wp_step; rewrite E1; exact Hfree);
        apply call_free; rewrite E1; exact Hfree. }
    intros [] s2 H2. cbn beta. wp_step.
    eapply wp_mono; [apply (protect_master F0 s2 (Tfree F0) H2)| |intros ? ? HT; exact HT].
    intros [] s3 H3. cbn beta. wp_step. cbn [snd fst]. wp_step.
    eapply wp_mono; [apply (forward_loop_held k wcspId x v F0 _ s3 H3)| |intros ? ? HT; exact HT].
    intros [] s4 H4. cbn beta. wp_step. apply reactivate_guard. intros s5 E5.
    cbn [when]. apply unprotect_releasable. rewrite E5.
    apply held_releasable, H4. }
  unfold exits_released, released. fold F0. unfold wp in W.
  destruct (tb2event handler k wcspId x v s) as [a s'|e s']; [exact W|].
  destruct e; auto.
Qed.

Lemma propagate_slaves_free g gc (F0 : Features) s :
  guard_free F0 (G s) ->
  wp (propagate_slaves handler g gc)
     (fun _ s' => guard_free F0 (G s')) (Trel F0) s.
Proof.
  intros Hf.
  assert (Hrel : forall e s', Tfree F0 e s' -> Trel F0 e s').
  { intros e s' HT He. apply free_releasable, HT, He. }
  assert (Hprop : forall w s0, guard_free F0 (G s0) ->
            wp (protect true;; call handler (WcspPropagate w);; unprotect)
               (fun _ s' => guard_free F0 (G s')) (Trel F0) s0).
  { intros w s0 H0. wp_step.
    eapply wp_mono; [apply (protect_master F0 s0 (Trel F0) H0)| |intros ? ? HT; exact HT].
    intros [] s1 H1. cbn beta. wp_step.
    eapply wp_mono; [apply (call_held _ F0 s1 H1)| |intros ? ? HT; exact HT].
    intros [] s2 H2. cbn beta.
    apply unprotect_releasable, held_releasable, H2. }
  unfold propagate_slaves. wp_step.
  eapply wp_mono with (Q := fun _ s' => guard_free F0 (G s')); [| |intros ? ? HT; exact HT].
  - apply wp_when_some; [intros p _|auto].
    wp_step. unfold isactivatePropagate at 1. wp_step.
    apply wp_when; [intros _|auto].
    wp_step.
    eapply wp_mono; [apply (protect_master F0 s (Trel F0) Hf)| |intros ? ? HT; exact HT].
    intros [] s1 H1. cbn beta. wp_step.
    eapply wp_mono; [apply (call_held _ F0 s1 H1)| |intros ? ? HT; exact HT].
    intros [] s2 H2. cbn beta. wp_step.
    eapply wp_mono;
      [apply (unprotect_releasable F0 s2 (Trel F0)), held_releasable, H2
      | |intros ? ? HT; exact HT].
    intros [] s3 H3. cbn beta. wp_step. unfold connected at 1. wp_step. wp_step. wp_step.
    apply wp_when; [intros _|auto].
    wp_step. unfold getLbM. wp_step.
    destruct (_ <? lb gc).
    + wp_step.
      eapply wp_mono; [apply (call_free _ F0 s3 H3)| |exact Hrel].
      intros [] s4 H4. cbn beta. unfold THROWCONTRADICTION. wp_step.
      intros _. apply free_releasable, H4.
    + eapply wp_mono; [apply (call_free _ F0 s3 H3)|auto|exact Hrel].
  - intros [] s1 H1. cbn beta. wp_step. unfold connected. wp_step.
    apply wp_when; [intros _|auto].
    apply wp_when_some; [intros n _|auto].
    wp_step. unfold isactivatePropagate. wp_step.
    apply wp_when; [intros _|auto].
    apply Hprop, H1.
Qed.

Lemma propagate_released g s :
  protected_ (G s) = false -> exits_released (propagate handler g) s.
Proof.
  intros Hp. set (F0 := tb2 (G s)).
  assert (Hfree : guard_free F0 (G s)) by (split; [exact Hp|reflexivity]).
  assert (Henf : forall o s0, guard_free F0 (G s0) ->
            wp (when_some o (fun p : WcspId => call handler (EnforceUb p)))
               (fun _ s' => guard_free F0 (G s')) (Tfree F0) s0).
  { intros o s0 H0. apply wp_when_some; [intros p _|auto]. apply call_free, H0. }
  assert (Hwc : forall o s0, guard_releasable F0 (G s0) ->
            wp (when_some o (fun p : WcspId => call handler (WhenContradiction p)))
               (fun _ s' => guard_releasable F0 (G s')) (Tfree F0) s0).
  { intros o s0 H0. apply wp_when_some; [intros p _|auto].
    eapply wp_mono; [apply (cleanup_releasable p F0 s0 H0)|auto|intros ? ? []]. }
  assert (W : wp (propagate handler g)
                 (fun _ s' => guard_free F0 (G s')) (Tfree F0) s).
  { unfold propagate. wp_step. unfold deref. wp_step. wp_step.
    apply wp_deref_opt; [intros gc _|discriminate].
    wp_step.
    eapply wp_mono; [apply (call_free _ F0 s Hfree)| |intros ? ? HT; exact HT].
    intros [] s1 H1. cbn beta. wp_step.
    eapply wp_mono; [apply (Henf _ s1 H1)| |intros ? ? HT; exact HT].
    intros [] s2 H2. cbn beta. wp_step.
    eapply wp_mono; [apply (Henf _ s2 H2)| |intros ? ? HT; exact HT].
    intros [] s3 H3. cbn beta. wp_step.
    eapply wp_mono; [apply (call_free _ F0 s3 H3)| |intros ? ? HT; exact HT].
    intros [] s4 H4. cbn beta. wp_step. unfold connected. wp_step. wp_step.
    eapply wp_mono with (Q := fun _ s' => guard_free F0 (G s')); [| |intros ? ? HT; exact HT].
    - apply wp_when; [intros _|auto]. wp_step.
      eapply wp_mono; [apply (propagate_slaves_free g gc F0 s4 H4)|auto|].
      intros e s5 HT. destruct e; cbn; try discriminate.
      specialize (HT eq_refl). wp_step.
      eapply wp_mono; [apply (Hwc _ s5 HT)| |intros ? ? HT'; exact HT'].
      intros [] s6 H6. cbn beta. wp_step.
      eapply wp_mono; [apply (Hwc _ s6 H6)| |intros ? ? HT'; exact HT'].
      intros [] s7 H7. cbn beta. wp_step.
      eapply wp_mono; [apply (unprotect_releasable F0 s7 (Tfree F0) H7)|
                      |intros ? ? HT'; exact HT'].
      intros [] s8 H8. cbn beta. unfold THROWCONTRADICTION. wp_step. intros _; exact H8.
    - intros [] s5 H5. cbn beta. wp_step.
      eapply wp_mono with (Q := fun _ s' => guard_free F0 (G s')); [| |intros ? ? HT; exact HT].
      + apply wp_when_some; [intros p _|auto]. wp_step. unfold getLbM. wp_step.
        apply wp_assert; [auto|discriminate].
      + intros [] s6 H6. cbn beta.
        apply wp_when_some; [intros n _|auto]. wp_step. unfold getLbM. wp_step.
        apply wp_assert; [auto|discriminate]. }
  unfold exits_released, released. fold F0. unfold wp in W.
  destruct (propagate handler g s) as [a s'|e s']; [exact W|].
  destruct e; auto.
Qed.

(** Under protection a call that returns leaves the guard as it found it. *)
Lemma call_same_guard c s :
  protected_ (G s) = true ->
  wp (call handler c) (fun _ s' => G s' = G s) (fun _ _ => True) s.
Proof.
  intros Hp. apply wp_call. specialize (Hguard c (world s)).
  unfold guard_rel in Hguard. rewrite Hp in Hguard.
  destruct (handler c (world s)) as [[] w'|e w']; cbn; [|trivial].
  destruct Hguard as [_ [H|(H & _)]]; [exact H|discriminate].
Qed.

Lemma forward_to_same_guard k p i v s :
  protected_ (G s) = true ->
  wp (forward_to handler k p i v) (fun _ s' => G s' = G s) (fun _ _ => True) s.
Proof.
  intros Hp. unfold forward_to. wp_step. wp_step. wp_step.
  apply wp_assert; [intros _|trivial].
  wp_step.
  assert (Hcatch : forall e (s' : Sys X),
            if Exn_eqb e Contradiction
            then wp (call handler (WhenContradiction p);; unprotect;;
                     @throw (Sys X) unit Contradiction)
                    (fun _ s'' => G s'' = G s) (fun _ _ => True) s'
            else True).
  { intros e s'. destruct (Exn_eqb e Contradiction); [|trivial].
    apply wp_seq_any; [|trivial]. intros _ s1.
    apply wp_seq_any; [|trivial]. intros _ s2. wp_step. trivial. }
  wp_step.
  eapply wp_mono; [apply (call_same_guard _ s Hp)| |intros e s' _; apply Hcatch].
  intros [] s1 E1. cbn beta.
  eapply wp_mono; [apply (call_same_guard _ s1); rewrite E1; exact Hp
                  | |intros e s' _; apply Hcatch].
  intros [] s2 E2. cbn beta. congruence.
Qed.

Lemma forward_same_guard k wcspId mv v e s :
  protected_ (G s) = true ->
  wp (forward handler k wcspId mv v e) (fun _ s' => G s' = G s) (fun _ _ => True) s.
Proof.
  intros Hp. unfold forward. wp_step. unfold connected at 1. wp_step.
  apply wp_when; [intros _|reflexivity].
  wp_step. unfold deref. wp_step. wp_step.
  apply wp_deref_opt; [intros gc _|trivial].
  apply wp_when; [intros _|reflexivity].
  wp_step.
  eapply wp_mono with (Q := fun _ s' => G s' = G s); [| |trivial].
  - apply wp_when_some; [intros p _|reflexivity].
    apply wp_when; [intros _|reflexivity]. apply forward_to_same_guard, Hp.
  - intros [] s1 E1. cbn beta. wp_step. unfold connected. wp_step.
    apply wp_when_some; [intros n _|intros _; exact E1].
    apply wp_when; [intros _|intros _; exact E1].
    eapply wp_mono; [apply (forward_to_same_guard k n _ v s1); rewrite E1; exact Hp
                    | |trivial].
    intros [] s2 E2. cbn beta. congruence.
Qed.

Lemma forward_loop_same_guard k wcspId mv v l s :
  protected_ (G s) = true ->
  wp (for_each l (forward handler k wcspId mv v))
     (fun _ s' => G s' = G s) (fun _ _ => True) s.
Proof.
  intros Hp.
  apply (wp_for_each _ (fun _ s' => G s' = G s)); [|auto|reflexivity].
  intros e l' s1 E1.
  eapply wp_mono; [apply (forward_same_guard k wcspId mv v e s1); rewrite E1; exact Hp
                  | |trivial].
  intros [] s2 E2. cbn beta. congruence.
Qed.

(** [protect] leaves the features switched off whenever it returns. *)
Lemma protect_off b s :
  wp (protect b)
     (fun _ s' => protected_ (G s') = true /\ tb2 (G s') = features_off)
     (fun _ _ => True) s.
Proof.
  unfold protect.
  apply wp_seq_any; [|trivial]. intros g s1.
  apply wp_seq_any; [|trivial]. intros _ s2.
  apply wp_seq_any; [|trivial]. intros _ s3.
  wp_step. wp_step. unfold set_guard, modify_world. wp_step. cbn. auto.
Qed.

Lemma from_slave_off k master wcspId x v s :
  wp (from_slave handler k master wcspId x v)
     (fun _ s' => protected_ (G s') = true /\ tb2 (G s') = features_off)
     (fun _ _ => True) s.
Proof.
  unfold from_slave.
  apply wp_seq_any; [|trivial]. intros F s1.
  apply wp_seq_any; [|trivial]. intros g s2.
  apply wp_seq_any; [|trivial]. intros gc s3.
  apply wp_seq_any; [|trivial]. intros wcsp s4.
  apply wp_seq_any; [|trivial]. intros _ s5.
  apply wp_seq_any; [|trivial]. intros mv s6.
  apply wp_seq_any; [|trivial]. intros _ s7.
  wp_step. eapply wp_mono; [apply protect_off| |trivial].
  intros [] s8 H8. cbn beta. wp_step. exact H8.
Qed.

(** A callback for an event of a slave returns with the features switched
    off. *)
Lemma slave_callback_off k wcspId x v master s :
  MasterWeightedCSP (fam s) = Some master -> wcspId <> master ->
  wp (tb2event handler k wcspId x v)
     (fun _ s' => tb2 (G s') = features_off) (fun _ _ => True) s.
Proof.
  intros Hm Hne.
  assert (Hneb : (wcspId =? master) = false) by (apply Z.eqb_neq, Hne).
  unfold tb2event. wp_step. wp_step. rewrite Hm. wp_step. cbn [deref_opt].
  wp_step. wp_step.
  apply wp_assert; [intros _|trivial].
  rewrite Hneb. cbn [negb]. wp_step.
  eapply wp_mono; [apply from_slave_off| |trivial].
  intros wm s1 [H1 H1']. cbn beta. wp_step.
  eapply wp_mono; [apply (forward_loop_same_guard k wcspId (snd wm) v _ s1 H1)| |trivial].
  intros [] s2 E2. cbn beta. wp_step. apply reactivate_guard.
  intros s3 E3. cbn [when]. wp_step. congruence.
Qed.

Lemma slave_callback_held k wcspId x v master s :
  MasterWeightedCSP (fam s) = Some master -> wcspId <> master ->
  exits_held (tb2event handler k wcspId x v) s.
Proof.
  intros Hm Hne.
  assert (W : wp (tb2event handler k wcspId x v)
                 (fun _ s' => protected_ (G s') = true)
                 (fun e s' => e = Contradiction -> protected_ (G s') = false) s).
  { assert (Hneb : (wcspId =? master) = false) by (apply Z.eqb_neq, Hne).
    assert (Hunp : forall s0,
              wp unprotect (fun _ s' => protected_ (G s') = false)
                 (fun e s' => e = Contradiction -> protected_ (G s') = false) s0).
    { intros s0. unfold unprotect. wp_step. wp_step.
      destruct (protected_ (G s0)) eqn:Hp; cbn [when].
      - unfold set_guard, modify_world. wp_step. reflexivity.
      - wp_step. exact Hp. }
    assert (Hrest : forall (w : WcspId) gc s0,
      wp (deactivatePropagate w;;
          masterVar <- match k with
                       | EvAssign => v0 <- deref_opt (getVar gc x);; unprotect;; ret v0
                       | _ => unprotect;; deref_opt (getVar gc x)
                       end;;
          call handler (VarEvent k master masterVar v);;
          protect false;; ret (w, masterVar))
         (fun _ s' => protected_ (G s') = true)
         (fun e s' => e = Contradiction -> protected_ (G s') = false) s0).
    { intros w gc s0. wp_step. apply deactivate_guard. intros s1 _. wp_step.
      eapply wp_mono with (Q := fun _ s' => protected_ (G s') = false);
        [| |intros ? ? HT; exact HT].
      - destruct k.
        + wp_step. apply wp_deref_opt; [intros mv _|discriminate].
          wp_step. eapply wp_mono; [apply Hunp| |intros ? ? HT; exact HT].
          intros [] s2 H2. cbn beta. wp_step. exact H2.
        + wp_step. eapply wp_mono; [apply Hunp| |intros ? ? HT; exact HT].
          intros [] s2 H2. cbn beta. apply wp_deref_opt; [auto|discriminate].
        + wp_step. eapply wp_mono; [apply Hunp| |intros ? ? HT; exact HT].
          intros [] s2 H2. cbn beta. apply wp_deref_opt; [auto|discriminate].
        + wp_step. eapply wp_mono; [apply Hunp| |intros ? ? HT; exact HT].
          intros [] s2 H2. cbn beta. apply wp_deref_opt; [auto|discriminate].
      - intros mv s2 H2. cbn beta. wp_step.
        eapply wp_mono; [apply (call_free _ (tb2 (G s2)) s2); split; [exact H2|reflexivity]| |].
        + intros [] s3 [H3 _]. cbn beta. wp_step.
          eapply wp_mono; [apply (protect_again s3 _ H3)| |intros ? ? HT; exact HT].
          intros [] s4 H4. cbn beta. wp_step. exact H4.
        + intros e s3 HT He. apply (HT He). }
    unfold tb2event. wp_step. wp_step. rewrite Hm. wp_step. cbn [deref_opt].
    wp_step. wp_step.
    apply wp_assert; [intros _|discriminate].
    rewrite Hneb. cbn [negb]. wp_step.
    eapply wp_mono with (Q := fun _ s' => protected_ (G s') = true);
      [| |intros ? ? HT; exact HT].
    - unfold from_slave. wp_step. wp_step. wp_step.
      apply wp_deref_opt; [intros g _|discriminate].
      wp_step. unfold deref. wp_step. wp_step.
      apply wp_deref_opt; [intros gc _|discriminate].
      wp_step.
      assert (Hn : forall s0,
        wp (n <- deref_opt (negproblem gc);; assert (n =? wcspId);; ret n)
           (fun a s' => wp (deactivatePropagate a;;
               masterVar <- match k with
                            | EvAssign => v0 <- deref_opt (getVar gc x);; unprotect;; ret v0
                            | _ => unprotect;; deref_opt (getVar gc x)
                            end;;
               call handler (VarEvent k master masterVar v);;
               protect false;; ret (a, masterVar))
             (fun _ s' => protected_ (G s') = true)
             (fun e s' => e = Contradiction -> protected_ (G s') = false) s')
           (fun e s' => e = Contradiction -> protected_ (G s') = false) s0).
      { intros s0. wp_step. apply wp_deref_opt; [intros n _|discriminate].
        wp_step. apply wp_assert; [intros _|discriminate]. wp_step. apply Hrest. }
      destruct (problem gc) as [p|]; [|apply Hn].
      destruct (p =? wcspId); [|apply Hn].
      wp_step. apply Hrest.
    - intros wm s1 H1. cbn beta. wp_step.
      eapply wp_mono;
        [apply (forward_loop_held k wcspId (snd wm) v (saved (G s1)) _ s1);
         split; [exact H1|reflexivity]| |].
      + intros [] s2 [H2 _]. cbn beta. wp_step. apply reactivate_guard.
        intros s3 E3. cbn [when]. wp_step. rewrite E3. exact H2.
      + intros e s2 HT He. apply (HT He). }
  pose proof (slave_callback_off k wcspId x v master s Hm Hne) as W2.
  unfold exits_held. unfold wp in W, W2.
  destruct (tb2event handler k wcspId x v s) as [a s'|e s']; [split; assumption|].
  destruct e; auto.
Qed.

(** C4, amended: a callback for an event of the master, and [propagate()],
    entered with [_protected_] false leave with the flag false and the ten
    [ToulBar2] features at their entry values, on normal return and when they
    re-raise a Contradiction.  A callback for an event of a slave differs: it
    returns with the protection held and the ten features switched off, and
    releases the protection only when it raises. *)
Theorem guard_released_on_exit s :
  protected_ (guard (world s)) = false ->
  (forall k wcspId x v,
      MasterWeightedCSP (fam s) = Some wcspId ->
      exits_released (tb2event handler k wcspId x v) s)
  /\ (forall g, exits_released (propagate handler g) s)
  /\ (forall k wcspId x v master,
        MasterWeightedCSP (fam s) = Some master -> wcspId <> master ->
        exits_held (tb2event handler k wcspId x v) s).
Proof.
  intros Hp. split; [|split].
  - intros k wcspId x v Hm. apply master_callback_released; assumption.
  - intros g. apply propagate_released, Hp.
  - intros k wcspId x v master Hm Hne. eapply slave_callback_held; eassumption.
Qed.

End GuardFacts.

(** * The order of the forwarded operations *)

Section OrderFacts.
Context {X : Type}.
Variable handler : Handler X.
Implicit Types (s : Sys X) (k : EventKind) (t : list ExtCall).

Lemma ext_refl s : ext s s [].
Proof. split; [reflexivity|symmetry; apply app_nil_r]. Qed.

Lemma ext_trans s s1 s2 t1 t2 : ext s s1 t1 -> ext s1 s2 t2 -> ext s s2 (t1 ++ t2).
Proof.
  intros [F1 T1] [F2 T2]. split; [congruence|]. rewrite T2, T1. symmetry. apply app_assoc.
Qed.

Lemma var_targets_app t1 t2 : var_targets (t1 ++ t2) = var_targets t1 ++ var_targets t2.
Proof. apply flat_map_app. Qed.

Lemma within_nil w L : within w L [].
Proof. split; [apply sublist_nil_l|constructor]. Qed.

Lemma within_app w L1 L2 t1 t2 :
  within w L1 t1 -> within w L2 t2 -> within w (L1 ++ L2) (t1 ++ t2).
Proof.
  intros [S1 F1] [S2 F2]. split.
  - rewrite var_targets_app. apply sublist_app; assumption.
  - apply Forall_app; split; assumption.
Qed.

Lemma within_l w L1 L2 t : within w L1 t -> within w (L1 ++ L2) t.
Proof.
  intros H. rewrite <- (app_nil_r t). apply within_app; [exact H|apply within_nil].
Qed.

Lemma within_r w L1 L2 t : within w L2 t -> within w (L1 ++ L2) t.
Proof.
  intros H. change t with ([] ++ t). apply within_app; [apply within_nil|exact H].
Qed.

(** Sequencing: the pieces of trace are appended, or only the first is there
    when it throws. *)
Lemma traces_bind {A B} (m : M (Sys X) A) (k : A -> M (Sys X) B) s
  (P1 P2 P : list ExtCall -> Prop) :
  traces m s P1 ->
  (forall a s', fam s' = fam s -> traces (k a) s' P2) ->
  (forall t1, P1 t1 -> P t1) ->
  (forall t1 t2, P1 t1 -> P2 t2 -> P (t1 ++ t2)) ->
  traces (bind m k) s P.
Proof.
  unfold traces, wp, bind. intros Hm Hk H1 H12.
  destruct (m s) as [a s1|e s1].
  - destruct Hm as (t1 & E1 & Ht1). specialize (Hk a s1 (proj1 E1)).
    destruct (k a s1) as [b s2|e s2]; destruct Hk as (t2 & E2 & Ht2);
      exists (t1 ++ t2); (split; [eapply ext_trans; eassumption|auto]).
  - destruct Hm as (t1 & E1 & Ht1). exists t1. auto.
Qed.

Lemma traces_try_catch {A} (m h : M (Sys X) A) s (P1 P2 P : list ExtCall -> Prop) :
  traces m s P1 ->
  (forall s', fam s' = fam s -> traces h s' P2) ->
  (forall t1, P1 t1 -> P t1) ->
  (forall t1 t2, P1 t1 -> P2 t2 -> P (t1 ++ t2)) ->
  traces (try_catch m Contradiction h) s P.
Proof.
  unfold traces, wp, try_catch. intros Hm Hh H1 H12.
  destruct (m s) as [a s1|e s1].
  - destruct Hm as (t1 & E1 & Ht1). exists t1. auto.
  - destruct Hm as (t1 & E1 & Ht1). destruct (Exn_eqb e Contradiction).
    + specialize (Hh s1 (proj1 E1)).
      destruct (h s1) as [b s2|e2 s2]; destruct Hh as (t2 & E2 & Ht2);
        exists (t1 ++ t2); (split; [eapply ext_trans; eassumption|auto]).
    + exists t1. auto.
Qed.

Lemma traces_silent {A} (m : M (Sys X) A) s (P : list ExtCall -> Prop) :
  silent m -> P [] -> traces m s P.
Proof.
  intros Hs HP. unfold traces. eapply wp_mono; [apply Hs| |]; cbn beta;
    intros; exists []; auto.
Qed.

(** A silent step in front changes nothing. *)
Lemma traces_after {A B} (m : M (Sys X) A) (k : A -> M (Sys X) B) s
  (P : list ExtCall -> Prop) :
  silent m -> P [] ->
  (forall a s', fam s' = fam s -> trace s' = trace s -> traces (k a) s' P) ->
  traces (bind m k) s P.
Proof.
  intros Hs HP Hk. unfold traces, wp, bind. specialize (Hs s). unfold wp in Hs.
  destruct (m s) as [a s1|e s1].
  - destruct Hs as [F1 T1]. rewrite app_nil_r in T1.
    specialize (Hk a s1 F1 T1). unfold traces, wp in Hk.
    destruct (k a s1) as [b s2|e s2]; destruct Hk as (t & [F2 T2] & Ht);
      exists t; (split; [split; congruence|exact Ht]).
  - exists []. auto.
Qed.

Lemma silent_gets {A} (f : Sys X -> A) : silent (gets f).
Proof. intros s. apply wp_gets, ext_refl. Qed.

Lemma silent_ret {A} (a : A) : silent (ret a : M (Sys X) A).
Proof. intros s. apply wp_ret, ext_refl. Qed.

Lemma silent_throw {A} e : silent (throw e : M (Sys X) A).
Proof. intros s. apply wp_throw, ext_refl. Qed.

Lemma silent_assert b : silent (assert b : M (Sys X) unit).
Proof. intros s. destruct b; [apply silent_ret|apply silent_throw]. Qed.

Lemma silent_deref_opt {A} (o : option A) : silent (deref_opt o : M (Sys X) A).
Proof. intros s. destruct o; [apply silent_ret|apply silent_throw]. Qed.

Lemma silent_modify_world f : silent (modify_world (X:=X) f).
Proof. intros s. unfold modify_world. apply wp_modify. split; [reflexivity|cbn; symmetry; apply app_nil_r]. Qed.

Lemma silent_bind {A B} (m : M (Sys X) A) (k : A -> M (Sys X) B) :
  silent m -> (forall a, silent (k a)) -> silent (bind m k).
Proof.
  intros Hm Hk s. unfold wp, bind. specialize (Hm s). unfold wp in Hm.
  destruct (m s) as [a s1|e s1]; [|exact Hm].
  specialize (Hk a s1). unfold wp in Hk.
  destruct (k a s1); change (@nil ExtCall) with (@nil ExtCall ++ []);
    eapply ext_trans; eassumption.
Qed.

Lemma silent_when b (m : M (Sys X) unit) : silent m -> silent (when b m).
Proof. destruct b; [auto|intros _; apply silent_ret]. Qed.

Lemma silent_unprotect : silent (unprotect (X:=X)).
Proof.
  unfold unprotect. apply silent_bind; [apply silent_gets|intros g].
  apply silent_when, silent_modify_world.
Qed.

Lemma silent_protect b : silent (protect (X:=X) b).
Proof.
  unfold protect. apply silent_bind; [apply silent_gets|intros g].
  apply silent_bind; [apply silent_assert|intros _].
  apply silent_bind; [apply silent_when, silent_modify_world|intros _].
  apply silent_bind; [apply silent_gets|intros g'].
  apply silent_modify_world.
Qed.

Lemma silent_deref g : silent (deref (X:=X) g).
Proof.
  unfold deref. apply silent_bind; [apply silent_gets|intros F].
  apply silent_deref_opt.
Qed.

Lemma traces_call c s (P : list ExtCall -> Prop) :
  P [c] -> traces (call handler c) s P.
Proof.
  intros HP. unfold traces. apply wp_call.
  destruct (handler c (world s)); exists [c]; (split; [split; reflexivity|exact HP]).
Qed.

Lemma wp_silent {A B} (m : M (Sys X) A) (k : A -> M (Sys X) B)
  (Q : B -> Sys X -> Prop) (T : Exn -> Sys X -> Prop) s :
  silent m ->
  (forall a s', fam s' = fam s -> trace s' = trace s -> wp (k a) Q T s') ->
  (forall e s', fam s' = fam s -> trace s' = trace s -> T e s') ->
  wp (bind m k) Q T s.
Proof.
  intros Hs Hk HT. apply wp_bind. specialize (Hs s). unfold wp in Hs |- *.
  destruct (m s) as [a s1|e s1]; destruct Hs as [F1 T1];
    rewrite app_nil_r in T1; [apply (Hk a s1 F1 T1)|auto].
Qed.

Lemma traces_deref {B} g (k : WeightedCSPConstraint -> M (Sys X) B) s
  (P : list ExtCall -> Prop) :
  P [] ->
  (forall gc, nth_error (objects (fam s)) g = Some gc -> traces (k gc) s P) ->
  traces (bind (deref g) k) s P.
Proof.
  intros HP Hk. unfold traces, wp, deref, bind, gets, deref_opt. cbn beta iota.
  destruct (nth_error (objects (fam s)) g) as [gc|] eqn:Hgc; cbn.
  - apply (Hk gc eq_refl).
  - exists []. split; [apply ext_refl|exact HP].
Qed.

Lemma within_single w p c :
  p <> w -> call_target c = Some p -> within w [p] [c].
Proof.
  intros Hne Hc. split.
  - destruct c; cbn; first [apply sublist_nil_l | cbn in Hc; injection Hc as ->; reflexivity].
  - constructor; [|constructor]. rewrite Hc. congruence.
Qed.

Lemma within_single_silent w p c :
  p <> w -> call_target c = Some p -> var_targets [c] = [] -> within w [] [c].
Proof.
  intros Hne Hc Hv. split.
  - rewrite Hv. constructor.
  - constructor; [|constructor]. rewrite Hc. congruence.
Qed.

Lemma forward_to_traces k wcspId p i v s :
  p <> wcspId ->
  traces (forward_to handler k p i v) s (within wcspId [p]).
Proof.
  intros Hne. unfold forward_to.
  apply traces_after; [apply silent_gets|apply within_nil|]. intros g s1 _ _.
  apply traces_after; [apply silent_assert|apply within_nil|]. intros _ s2 _ _.
  eapply traces_try_catch with
    (P1 := fun t => within wcspId [] t \/ within wcspId [p] t)
    (P2 := within wcspId []).
  - eapply traces_bind with (P1 := within wcspId []) (P2 := within wcspId [p]).
    + apply traces_call, (within_single_silent wcspId p); [exact Hne|reflexivity|reflexivity].
    + intros _ s3 _. apply traces_call, (within_single wcspId p); [exact Hne|reflexivity].
    + intros t1 H1. left; exact H1.
    + intros t1 t2 H1 H2. right. apply (within_app wcspId [] [p]); assumption.
  - intros s3 _.
    eapply traces_bind with (P1 := within wcspId []) (P2 := within wcspId []).
    + apply traces_call, (within_single_silent wcspId p); [exact Hne|reflexivity|reflexivity].
    + intros _ s4 _. apply traces_silent; [|apply within_nil].
      apply silent_bind; [apply silent_unprotect|intros _; apply silent_throw].
    + auto.
    + intros t1 t2 H1 H2. apply (within_app wcspId [] []); assumption.
  - intros t1 [H1|H1]; [apply (within_l wcspId [] [p]), H1|exact H1].
  - intros t1 t2 [H1|H1] H2.
    + apply (within_l wcspId [] [p]). apply (within_app wcspId [] []); assumption.
    + rewrite <- (app_nil_r [p]). apply within_app; assumption.
Qed.

Lemma forward_traces k wcspId mv v e s :
  traces (forward handler k wcspId mv v e) s
         (within wcspId (entry_plan (fam s) wcspId mv e)).
Proof.
  unfold forward.
  apply traces_after; [apply silent_gets|apply within_nil|]. intros c s1 F1 _.
  rewrite <- F1. clear s F1.
  destruct c; cbn [when]; [|apply traces_silent; [apply silent_ret|apply within_nil]].
  apply traces_deref; [apply within_nil|]. intros gc Hgc.
  unfold entry_plan. rewrite Hgc.
  destruct (getIndex gc mv =? -1); cbn [negb when];
    [apply traces_silent; [apply silent_ret|apply within_nil]|].
  eapply traces_bind; [| |apply within_l|apply within_app].
  - destruct (problem gc) as [p|]; cbn [when_some];
      [|apply traces_silent; [apply silent_ret|apply within_nil]].
    destruct (wcspId =? p) eqn:Hp; cbn [negb when];
      [apply traces_silent; [apply silent_ret|apply within_nil]|].
    apply forward_to_traces. apply Z.eqb_neq in Hp. congruence.
  - intros _ s2 F2.
    apply traces_after; [apply silent_gets|apply within_nil|]. intros c' s3 F3 _.
    destruct (negproblem gc) as [n|]; cbn [when_some];
      [|apply traces_silent; [apply silent_ret|apply within_nil]].
    destruct (wcspId =? n) eqn:Hn; rewrite ?andb_false_r, ?andb_true_r; cbn [negb when].
    + apply traces_silent; [apply silent_ret|apply within_nil].
    + destruct c'; cbn [when];
        [|apply traces_silent; [apply silent_ret|apply within_nil]].
      apply forward_to_traces. apply Z.eqb_neq in Hn. congruence.
Qed.

Lemma forward_loop_traces k wcspId mv v l s :
  traces (for_each l (forward handler k wcspId mv v)) s
         (within wcspId (flat_map (entry_plan (fam s) wcspId mv) l)).
Proof.
  revert s. induction l as [|e l IH]; intros s.
  - apply traces_silent; [apply silent_ret|apply within_nil].
  - cbn [for_each flat_map].
    eapply traces_bind; [apply forward_traces| |apply within_l|apply within_app].
    intros _ s1 F1. rewrite <- F1. apply IH.
Qed.

(** The part of a callback before the loop. *)
Lemma prelude_spec k master wcspId x v (F : Family) t0 s :
  fam s = F -> trace s = t0 ->
  let mv := master_var F master wcspId x in
  wp (if negb (wcspId =? master)
      then from_slave handler k master wcspId x v
      else from_master handler k master x v)
     (fun wm s' => snd wm = mv /\ fam s' = F /\
                   trace s' = t0 ++ origin_step k master wcspId x mv v)
     (fun _ s' => fam s' = F /\
                  (trace s' = t0 \/
                   trace s' = t0 ++ origin_step k master wcspId x mv v)) s.
Proof.
  intros HF Ht mv. unfold master_var in mv. unfold origin_step.
  destruct (wcspId =? master) eqn:Hm; cbn [negb].
  - (* from the master *)
    subst mv. unfold from_master.
    apply wp_silent; [apply silent_modify_world| |intros e s1 F1 T1; split; [|left]; congruence].
    intros _ s1 F1 T1.
    assert (Hrest : forall s2, fam s2 = F ->
              trace s2 = t0 ++ match k with
                               | EvAssign => [SolverSetvalue master x v]
                               | _ => []
                               end ->
              wp (protect true;; ret (master, x))
                 (fun wm s' => snd wm = x /\ fam s' = F /\
                    trace s' = t0 ++ match k with
                                     | EvAssign => [SolverSetvalue master x v]
                                     | _ => []
                                     end)
                 (fun _ s' => fam s' = F /\
                    (trace s' = t0 \/
                     trace s' = t0 ++ match k with
                                      | EvAssign => [SolverSetvalue master x v]
                                      | _ => []
                                      end)) s2).
    { intros s2 F2 T2.
      apply wp_silent; [apply silent_protect| |intros e s3 F3 T3; split; [|right]; congruence].
      intros _ s3 F3 T3. wp_step. cbn. repeat split; congruence. }
    wp_step. destruct k.
    + apply wp_call. destruct (handler _ (world s1)) as [[] w'|e w']; cbn.
      * apply Hrest; cbn; congruence.
      * split; [congruence|right; congruence].
    + wp_step. apply Hrest; [congruence|rewrite app_nil_r; congruence].
    + wp_step. apply Hrest; [congruence|rewrite app_nil_r; congruence].
    + wp_step. apply Hrest; [congruence|rewrite app_nil_r; congruence].
  - (* from a slave *)
    unfold from_slave.
    wp_step. wp_step. wp_step. rewrite HF.
    destruct (tbl_find (WeightedCSPConstraints F) wcspId) as [g|] eqn:Hg;
      cbn [deref_opt]; [|wp_step; split; [|left]; congruence].
    wp_step. wp_step. unfold deref. wp_step. wp_step. rewrite HF.
    destruct (nth_error (objects F) g) as [gc|] eqn:Hgc; cbn [deref_opt];
      [|wp_step; split; [|left]; congruence].
    wp_step.
    apply wp_silent with (m := match problem gc with Some _ => _ | None => _ end).
    { destruct (problem gc) as [p|].
      - destruct (p =? wcspId); [apply silent_ret|].
        apply silent_bind; [apply silent_deref_opt|intros n].
        apply silent_bind; [apply silent_assert|intros _; apply silent_ret].
      - apply silent_bind; [apply silent_deref_opt|intros n].
        apply silent_bind; [apply silent_assert|intros _; apply silent_ret]. }
    2:{ intros e s2 F2 T2; split; [|left]; congruence. }
    intros wcsp s2 F2 T2.
    apply wp_silent; [apply silent_modify_world| |intros e s3 F3 T3; split; [|left]; congruence].
    intros _ s3 F3 T3. wp_step.
    assert (Hmv : wp (match k with
                      | EvAssign => v0 <- deref_opt (getVar gc x);; unprotect;; ret v0
                      | _ => unprotect;; deref_opt (getVar gc x)
                      end)
                     (fun a s' => a = mv /\ fam s' = F /\ trace s' = t0)
                     (fun _ s' => fam s' = F /\ trace s' = t0) s3).
    { assert (Hu : forall s4, fam s4 = F -> trace s4 = t0 ->
                wp (unprotect (X:=X)) (fun _ s' => fam s' = F /\ trace s' = t0)
                   (fun _ s' => fam s' = F /\ trace s' = t0) s4).
      { intros s4 F4 T4. eapply wp_mono; [apply silent_unprotect| |];
          cbn beta; intros ? s5 [F5 T5]; rewrite app_nil_r in T5; split; congruence. }
      assert (Hd : forall s4, fam s4 = F -> trace s4 = t0 ->
                wp (deref_opt (getVar gc x))
                   (fun a s' => a = mv /\ fam s' = F /\ trace s' = t0)
                   (fun _ s' => fam s' = F /\ trace s' = t0) s4).
      { intros s4 F4 T4. subst mv.
        destruct (getVar gc x) as [mv0|]; cbn; auto. }
      assert (F3' : fam s3 = F) by congruence.
      assert (T3' : trace s3 = t0) by congruence.
      destruct k.
      - wp_step. eapply wp_mono; [apply (Hd s3 F3' T3')| |intros ? ? HT; exact HT].
        intros a s4 (-> & F4 & T4). cbn beta. wp_step.
        eapply wp_mono; [apply (Hu s4 F4 T4)| |intros ? ? HT; exact HT].
        intros [] s5 [F5 T5]. cbn beta. wp_step. auto.
      - wp_step. eapply wp_mono; [apply (Hu s3 F3' T3')| |intros ? ? HT; exact HT].
        intros [] s4 [F4 T4]. cbn beta. apply Hd; assumption.
      - wp_step. eapply wp_mono; [apply (Hu s3 F3' T3')| |intros ? ? HT; exact HT].
        intros [] s4 [F4 T4]. cbn beta. apply Hd; assumption.
      - wp_step. eapply wp_mono; [apply (Hu s3 F3' T3')| |intros ? ? HT; exact HT].
        intros [] s4 [F4 T4]. cbn beta. apply Hd; assumption. }
    eapply wp_mono; [exact Hmv| |intros e s4 [F4 T4]; split; [|left]; congruence].
    intros a s4 (-> & F4 & T4). cbn beta. wp_step.
    apply wp_call. destruct (handler _ (world s4)) as [[] w'|e w']; cbn.
    + apply wp_silent; [apply silent_protect| |].
      * intros _ s5 F5 T5. wp_step. cbn in *. repeat split; congruence.
      * intros e s5 F5 T5. cbn in *. split; [|right]; congruence.
    + split; [|right]; congruence.
Qed.

(** The forwards of a callback never leave the plan of the table, whether
    it returns or throws. *)
Lemma forwards_within_plan k wcspId varIndex value s :
  match MasterWeightedCSP (fam s) with
  | None => trace (final (tb2event handler k wcspId varIndex value s)) = trace s
  | Some master =>
      let mv := master_var (fam s) master wcspId varIndex in
      exists pre fw,
        trace (final (tb2event handler k wcspId varIndex value s))
        = trace s ++ pre ++ fw
        /\ (pre = [] /\ fw = [] \/
            pre = origin_step k master wcspId varIndex mv value)
        /\ within wcspId (forward_plan (fam s) wcspId mv) fw
  end.
Proof.
  destruct (MasterWeightedCSP (fam s)) as [master|] eqn:Hm.
  2:{ unfold tb2event, bind, gets. rewrite Hm. reflexivity. }
  intros mv.
  assert (W : wp (tb2event handler k wcspId varIndex value)
    (fun _ s' => exists pre fw, trace s' = trace s ++ pre ++ fw /\
        (pre = [] /\ fw = [] \/ pre = origin_step k master wcspId varIndex mv value) /\
        within wcspId (forward_plan (fam s) wcspId mv) fw)
    (fun _ s' => exists pre fw, trace s' = trace s ++ pre ++ fw /\
        (pre = [] /\ fw = [] \/ pre = origin_step k master wcspId varIndex mv value) /\
        within wcspId (forward_plan (fam s) wcspId mv) fw) s).
  { assert (Hnone : forall s', trace s' = trace s ->
       exists pre fw, trace s' = trace s ++ pre ++ fw /\
        (pre = [] /\ fw = [] \/ pre = origin_step k master wcspId varIndex mv value) /\
        within wcspId (forward_plan (fam s) wcspId mv) fw).
    { intros s' E. exists [], []. rewrite E, !app_nil_r.
      repeat split; [left; split; reflexivity|apply sublist_nil_l|constructor]. }
    unfold tb2event. wp_step. wp_step. rewrite Hm. wp_step. cbn [deref_opt].
    wp_step. wp_step.
    apply wp_assert; [intros _|intros _; apply Hnone; reflexivity].
    wp_step.
    eapply wp_mono; [apply (prelude_spec k master wcspId varIndex value (fam s) (trace s) s);
                     reflexivity| |].
    2:{ cbn beta. intros e s1 [F1 [T1|T1]]; [apply Hnone, T1|].
        exists (origin_step k master wcspId varIndex mv value), [].
        rewrite app_nil_r. repeat split; [exact T1|right; reflexivity
                                         |apply sublist_nil_l|constructor]. }
    cbn beta. intros wm s1 (Hwm & F1 & T1). rewrite Hwm. fold mv.
    assert (Htr : traces
      (for_each (WeightedCSPConstraints (fam s)) (forward handler k wcspId mv value);;
       reactivatePropagate (fst wm);; when (wcspId =? master) unprotect) s1
      (within wcspId (forward_plan (fam s) wcspId mv))).
    { eapply traces_bind with (P1 := within wcspId (forward_plan (fam s) wcspId mv))
                              (P2 := within wcspId []).
      - unfold forward_plan. rewrite <- F1. apply forward_loop_traces.
      - intros _ s2 F2. apply traces_silent; [|apply within_nil].
        apply silent_bind; [apply silent_modify_world|intros _].
        apply silent_when, silent_unprotect.
      - auto.
      - intros t1 t2 H1 H2. rewrite <- (app_nil_r (forward_plan _ _ _)).
        apply within_app; assumption. }
    unfold traces in Htr. eapply wp_mono; [exact Htr| |]; cbn beta;
      intros ? s2 (fw & [F2 T2] & Hfw);
      exists (origin_step k master wcspId varIndex mv value), fw;
      (repeat split; [rewrite T2, T1; symmetry; apply app_assoc
                      |right; reflexivity|apply Hfw|apply Hfw]). }
  unfold wp in W. unfold final.
  destruct (tb2event handler k wcspId varIndex value s); exact W.
Qed.


(** ** The forwards of a callback that returns *)

Lemma wp_conj {A} (m : M (Sys X) A) (Q1 Q2 : A -> Sys X -> Prop)
  (T1 T2 : Exn -> Sys X -> Prop) s :
  wp m Q1 T1 s -> wp m Q2 T2 s ->
  wp m (fun a s' => Q1 a s' /\ Q2 a s') (fun e s' => T1 e s' /\ T2 e s') s.
Proof. unfold wp. destruct (m s); auto. Qed.

Section Maintains.
Variable P : Sys X -> Prop.

Lemma maintains_bind {A B} (m : M (Sys X) A) (f : A -> M (Sys X) B) :
  maintains P m -> (forall a, maintains P (f a)) -> maintains P (bind m f).
Proof.
  intros Hm Hf s Hs. apply wp_bind.
  eapply wp_mono; [apply (Hm s Hs)| |trivial]. intros a s1 H1. apply Hf, H1.
Qed.

Lemma maintains_ret {A} (a : A) : maintains P (ret a).
Proof. intros s Hs. exact Hs. Qed.

Lemma maintains_throw {A} e : maintains P (throw e : M (Sys X) A).
Proof. intros s Hs. exact I. Qed.

Lemma maintains_gets {A} (f : Sys X -> A) : maintains P (gets f).
Proof. intros s Hs. exact Hs. Qed.

Lemma maintains_assert b : maintains P (assert b).
Proof. destruct b; [apply maintains_ret|apply maintains_throw]. Qed.

Lemma maintains_deref_opt {A} (o : option A) : maintains P (deref_opt o).
Proof. destruct o; [apply maintains_ret|apply maintains_throw]. Qed.

Lemma maintains_when b (m : M (Sys X) unit) : maintains P m -> maintains P (when b m).
Proof. destruct b; [auto|intros _; apply maintains_ret]. Qed.

Lemma maintains_deref g : maintains P (deref g).
Proof.
  unfold deref. apply maintains_bind; [apply maintains_gets|intros F].
  apply maintains_deref_opt.
Qed.

End Maintains.

Section ExactForwards.
Hypothesis Hconn : keeps_connected handler.
(** The family and the connection flags the callback starts from. *)
Variable F0 : Family.
Variable C0 : GcId -> bool.

Local Abbreviation same s :=
  (fam s = F0 /\ forall g, connectedCtr (bt (world s)) g = C0 g).
Local Abbreviation flags s := (forall g, connectedCtr (bt (world s)) g = C0 g).

Lemma exact_call c s :
  same s ->
  wp (call handler c) (fun _ s' => same s' /\ trace s' = trace s ++ [c])
     (fun _ _ => True) s.
Proof.
  intros [HF HC]. apply wp_call. specialize (Hconn c (world s)).
  destruct (handler c (world s)) as [[] w'|e w']; cbn; [|exact I].
  split; [split; [exact HF|]|reflexivity]. intros g. rewrite Hconn. apply HC.
Qed.

Lemma exact_forward_to k p i v s :
  same s ->
  wp (forward_to handler k p i v)
     (fun _ s' => same s' /\ trace s' = trace s ++ [EnforceUb p; VarEvent k p i v])
     (fun _ _ => True) s.
Proof.
  intros Hs. unfold forward_to. wp_step. wp_step. wp_step.
  apply wp_assert; [intros _|trivial].
  wp_step.
  assert (Hcatch : forall e (s' : Sys X),
            if Exn_eqb e Contradiction
            then wp (call handler (WhenContradiction p);; unprotect;;
                     @throw (Sys X) unit Contradiction)
                    (fun _ s'' => same s'' /\
                       trace s'' = trace s ++ [EnforceUb p; VarEvent k p i v])
                    (fun _ _ => True) s'
            else True).
  { intros e s'. destruct (Exn_eqb e Contradiction); [|trivial].
    apply wp_seq_any; [|trivial]. intros _ s1.
    apply wp_seq_any; [|trivial]. intros _ s2. wp_step. trivial. }
  wp_step.
  eapply wp_mono; [apply (exact_call _ s Hs)| |intros e s' _; apply Hcatch].
  intros [] s1 [H1 T1]. cbn beta.
  eapply wp_mono; [apply (exact_call _ s1 H1)| |intros e s' _; apply Hcatch].
  intros [] s2 [H2 T2]. cbn beta. split; [exact H2|].
  rewrite T2, T1, <- app_assoc. reflexivity.
Qed.

Lemma exact_forward k wcspId mv v e s :
  same s ->
  wp (forward handler k wcspId mv v e)
     (fun _ s' => same s' /\
                  trace s' = trace s ++ entry_calls F0 C0 k wcspId mv v e)
     (fun _ _ => True) s.
Proof.
  intros Hs. pose proof Hs as [HF HC].
  unfold forward, entry_calls, entry_index, entry_plan.
  wp_step. unfold connected at 1. wp_step. rewrite HC.
  destruct (C0 (snd e)) eqn:Hc; cbn [when];
    [|wp_step; split; [exact Hs|symmetry; apply app_nil_r]].
  wp_step. unfold deref. wp_step. wp_step. rewrite HF.
  apply wp_deref_opt; [intros gc Hgc|trivial]. rewrite Hgc.
  destruct (getIndex gc mv =? -1) eqn:Hi; cbn [negb when];
    [wp_step; split; [exact Hs|symmetry; apply app_nil_r]|].
  rewrite flat_map_app. wp_step.
  eapply wp_mono with
    (Q := fun _ s' => same s' /\
            trace s' = trace s ++
              flat_map (fun p => [EnforceUb p; VarEvent k p (getIndex gc mv) v])
                (match problem gc with
                 | Some p => if wcspId =? p then [] else [p]
                 | None => []
                 end))
    (T := fun _ _ => True); [| |trivial].
  - destruct (problem gc) as [p|]; cbn [when_some];
      [|wp_step; split; [exact Hs|symmetry; apply app_nil_r]].
    destruct (wcspId =? p); cbn [negb when];
      [wp_step; split; [exact Hs|symmetry; apply app_nil_r]|].
    eapply wp_mono; [apply (exact_forward_to k p _ v s Hs)| |trivial].
    intros [] s1 [H1 T1]. cbn beta. split; [exact H1|]. exact T1.
  - intros [] s1 [H1 T1]. cbn beta. pose proof H1 as [HF1 HC1].
    wp_step. unfold connected. wp_step. rewrite HC1, Hc. cbn [andb].
    destruct (negproblem gc) as [n|]; cbn [when_some];
      [|wp_step; split; [exact H1|cbn [flat_map]; rewrite app_nil_r; exact T1]].
    destruct (wcspId =? n); cbn [negb when];
      [wp_step; split; [exact H1|cbn [flat_map]; rewrite app_nil_r; exact T1]|].
    eapply wp_mono; [apply (exact_forward_to k n _ v s1 H1)| |trivial].
    intros [] s2 [H2 T2]. cbn beta. split; [exact H2|].
    rewrite T2, T1. cbn [flat_map app]. rewrite <- !app_assoc. reflexivity.
Qed.

Lemma exact_forward_loop k wcspId mv v l : forall s,
  same s ->
  wp (for_each l (forward handler k wcspId mv v))
     (fun _ s' => same s' /\
                  trace s' = trace s ++ flat_map (entry_calls F0 C0 k wcspId mv v) l)
     (fun _ _ => True) s.
Proof.
  induction l as [|e l IH]; intros s Hs; cbn [for_each flat_map].
  - wp_step. split; [exact Hs|symmetry; apply app_nil_r].
  - wp_step.
    eapply wp_mono; [apply (exact_forward k wcspId mv v e s Hs)| |trivial].
    intros [] s1 [H1 T1]. cbn beta.
    eapply wp_mono; [apply (IH s1 H1)| |trivial].
    intros [] s2 [H2 T2]. cbn beta. split; [exact H2|].
    rewrite T2, T1. symmetry. apply app_assoc.
Qed.

Lemma flags_modify_world f :
  (forall w, bt (f w) = bt w) -> maintains (fun s => flags s) (modify_world f).
Proof.
  intros Hf s Hs. unfold modify_world. wp_step. cbn. intros g. rewrite Hf. apply Hs.
Qed.

Lemma flags_unprotect : maintains (fun s => flags s) (unprotect (X:=X)).
Proof.
  unfold unprotect. apply maintains_bind; [apply maintains_gets|intros g].
  apply maintains_when, flags_modify_world. reflexivity.
Qed.

Lemma flags_protect b : maintains (fun s => flags s) (protect (X:=X) b).
Proof.
  unfold protect. apply maintains_bind; [apply maintains_gets|intros g].
  apply maintains_bind; [apply maintains_assert|intros _].
  apply maintains_bind;
    [apply maintains_when, flags_modify_world; reflexivity|intros _].
  apply maintains_bind; [apply maintains_gets|intros g'].
  apply flags_modify_world. reflexivity.
Qed.

Lemma flags_call c : maintains (fun s => flags s) (call handler c).
Proof.
  intros s Hs. apply wp_call. specialize (Hconn c (world s)).
  destruct (handler c (world s)) as [[] w'|e w']; cbn; [|exact I].
  intros g. rewrite Hconn. apply Hs.
Qed.

Lemma flags_prelude k master wcspId x v :
  maintains (fun s => flags s)
    (if negb (wcspId =? master)
     then from_slave handler k master wcspId x v
     else from_master handler k master x v).
Proof.
  destruct (negb (wcspId =? master)).
  - unfold from_slave.
    apply maintains_bind; [apply maintains_gets|intros F].
    apply maintains_bind; [apply maintains_deref_opt|intros g].
    apply maintains_bind; [apply maintains_deref|intros gc].
    apply maintains_bind.
    { destruct (problem gc) as [p|].
      - destruct (p =? wcspId); [apply maintains_ret|].
        apply maintains_bind; [apply maintains_deref_opt|intros n].
        apply maintains_bind; [apply maintains_assert|intros _; apply maintains_ret].
      - apply maintains_bind; [apply maintains_deref_opt|intros n].
        apply maintains_bind; [apply maintains_assert|intros _; apply maintains_ret]. }
    intros wcsp.
    apply maintains_bind; [apply flags_modify_world; reflexivity|intros _].
    apply maintains_bind.
    { destruct k.
      - apply maintains_bind; [apply maintains_deref_opt|intros v0].
        apply maintains_bind; [apply flags_unprotect|intros _; apply maintains_ret].
      - apply maintains_bind; [apply flags_unprotect|intros _; apply maintains_deref_opt].
      - apply maintains_bind; [apply flags_unprotect|intros _; apply maintains_deref_opt].
      - apply maintains_bind; [apply flags_unprotect|intros _; apply maintains_deref_opt]. }
    intros mv.
    apply maintains_bind; [apply flags_call|intros _].
    apply maintains_bind; [apply flags_protect|intros _; apply maintains_ret].
  - unfold from_master.
    apply maintains_bind; [apply flags_modify_world; reflexivity|intros _].
    apply maintains_bind; [destruct k; try apply maintains_ret; apply flags_call|intros _].
    apply maintains_bind; [apply flags_protect|intros _; apply maintains_ret].
Qed.

Lemma forwards_exact k wcspId varIndex value master s :
  fam s = F0 -> flags s -> MasterWeightedCSP F0 = Some master ->
  wp (tb2event handler k wcspId varIndex value)
     (fun _ s' =>
        trace s'
        = trace s
          ++ origin_step k master wcspId varIndex
               (master_var F0 master wcspId varIndex) value
          ++ forward_calls F0 C0 k wcspId
               (master_var F0 master wcspId varIndex) value)
     (fun _ _ => True) s.
Proof.
  intros HF HC Hm.
  unfold tb2event. wp_step. wp_step. rewrite HF, Hm. wp_step. cbn [deref_opt].
  wp_step. wp_step.
  apply wp_assert; [intros _|trivial].
  wp_step.
  eapply wp_mono;
    [apply (wp_conj _ _ _ _ _ s
              (prelude_spec k master wcspId varIndex value F0 (trace s) s HF eq_refl)
              (flags_prelude k master wcspId varIndex value s HC))| |trivial].
  cbn beta. intros wm s1 [(Hwm & F1 & T1) C1]. rewrite Hwm.
  wp_step.
  eapply wp_mono;
    [apply (exact_forward_loop k wcspId _ value (WeightedCSPConstraints F0) s1);
     split; assumption| |trivial].
  intros [] s2 [[F2 C2] T2]. cbn beta. wp_step.
  unfold reactivatePropagate, modify_world. wp_step.
  assert (E : trace s2 = trace s ++
                origin_step k master wcspId varIndex
                  (master_var F0 master wcspId varIndex) value ++
                forward_calls F0 C0 k wcspId
                  (master_var F0 master wcspId varIndex) value).
  { rewrite T2, T1. unfold forward_calls. symmetry. apply app_assoc. }
  apply wp_when; intros _; [|exact E].
  unfold unprotect. wp_step. wp_step.
  apply wp_when; intros _; [unfold set_guard, modify_world; wp_step|]; exact E.
Qed.

End ExactForwards.


End OrderFacts.

(** * Probing a tuple with [eval] *)

Section EvalFacts.
Context {X : Type}.
Variable handler : Handler X.
Variable info : ProblemInfo.
Variable MAX_COST : Cost.
Hypothesis Hframe : probe_frame handler.
Hypothesis Hclean : cleanup_returns handler.
Implicit Types (s : Sys X) (L : EvalLocals).

Lemma same_ctl_refl s : same_ctl s s.
Proof. repeat split. Qed.

Lemma same_ctl_trans s s1 s2 : same_ctl s s1 -> same_ctl s1 s2 -> same_ctl s s2.
Proof.
  intros (F1 & G1 & H1 & S1) (F2 & G2 & H2 & S2). repeat split; congruence.
Qed.

Lemma call_same c s :
  eval_call c ->
  wp (call handler c) (fun _ s' => same_ctl s s' /\ same_act s s')
     (fun e s' => e = Contradiction /\ same_ctl s s' /\ same_act s s') s.
Proof.
  intros Hc. apply wp_call. specialize (Hframe c (world s) Hc).
  destruct (handler c (world s)) as [[] w'|e w']; cbn.
  - destruct Hframe as (G1 & H1 & A1 & S1). repeat split; assumption.
  - destruct e; try contradiction.
    destruct Hframe as (G1 & H1 & A1 & S1). repeat split; assumption.
Qed.

Lemma cleanup_same o s :
  wp (when_some o (fun p : WcspId => call handler (WhenContradiction p)))
     (fun _ s' => same_ctl s s' /\ same_act s s') (fun _ _ => False) s.
Proof.
  destruct o as [p|]; cbn [when_some];
    [|apply wp_ret; split; [apply same_ctl_refl|intros q; reflexivity]].
  apply wp_call. destruct (Hclean p (world s)) as [w' Hw].
  specialize (Hframe (WhenContradiction p) (world s) I). rewrite Hw in *. cbn.
  destruct Hframe as (G1 & H1 & A1 & S1). repeat split; assumption.
Qed.

Lemma eval_probe_spec w vars g record violates flag other s0 s L :
  (forall a L', flag (record a L') = a) ->
  (forall a L', other (record a L') = other L') ->
  (forall L', flag (mkLocals true (problemActive L') (negproblemActive L')) = flag L') ->
  (forall L', other (mkLocals true (problemActive L') (negproblemActive L')) = other L') ->
  flag L = true -> other L = true ->
  same_ctl s0 s -> same_act s0 s ->
  wp (eval_probe handler w vars g record violates)
     (fun _ sl => probing s0 w flag other sl)
     (fun e sl => e = Contradiction /\ probing s0 w flag other sl) (s, L).
Proof.
  intros R1 R2 U1 U2 HfL HoL C0 A0. unfold eval_probe.
  wp_step. wp_step.
  eapply wp_mono; [apply (call_same (EnforceUb w) s I)| |].
  2:{ cbn beta. intros e s1 (-> & C1 & A1). split; [reflexivity|].
      split; [eapply same_ctl_trans; eassumption|]. split; [exact HoL|].
      left. split; [exact HfL|]. intros q. cbn [fst]. rewrite A1. apply A0. }
  cbn beta. intros [] s1 [C1 A1]. wp_step. wp_step. unfold isactivatePropagate. wp_step.
  wp_step. unfold set_local. wp_step. cbn [fst snd]. wp_step. wp_step.
  unfold reactivatePropagate, modify_world. wp_step. cbn [fam world trace cerr].
  match goal with |- wp _ _ _ (?st, _) => set (s2 := st) end.
  assert (C2 : same_ctl s0 s2).
  { apply (same_ctl_trans s0 s1); [eapply same_ctl_trans; eassumption|].
    subst s2. repeat split. }
  assert (A2 : forall q, active (world s2) q = upd (active (world s0)) w true q).
  { intros q. subst s2. cbn. unfold upd. destruct (q =? w); [reflexivity|].
    rewrite A1. apply A0. }
  assert (Ha : active (world s1) w = active (world s0) w) by (rewrite A1; apply A0).
  rewrite Ha. clearbody s2. clear Ha.
  set (L1 := record (active (world s0) w) L).
  assert (Hf1 : flag L1 = active (world s0) w) by apply R1.
  assert (Ho1 : other L1 = true) by (unfold L1; rewrite R2; exact HoL).
  clearbody L1.
  wp_step. wp_step. wp_step. wp_step. wp_step.
  eapply wp_mono; [apply (call_same (AssignLS w vars (newValues (world s2) g)) s2 I)| |].
  2:{ cbn beta. intros e s3 (-> & C3 & A3). split; [reflexivity|].
      split; [eapply same_ctl_trans; eassumption|]. split; [exact Ho1|].
      right. split; [exact Hf1|]. intros q. cbn [fst]. rewrite A3. apply A2. }
  cbn beta. intros [] s3 [C3 A3]. wp_step. wp_step. unfold getLbM. wp_step.
  assert (C03 : same_ctl s0 s3) by (eapply same_ctl_trans; eassumption).
  assert (A03 : forall q, active (world s3) q = upd (active (world s0)) w true q).
  { intros q. rewrite A3. apply A2. }
  destruct (violates _); cbn [when].
  - unfold set_local. wp_step. unfold probing. cbn [fst snd].
    split; [exact C03|]. split; [rewrite U2; exact Ho1|].
    right. split; [rewrite U1; exact Hf1|exact A03].
  - wp_step. unfold probing. cbn [fst snd]. split; [exact C03|]. split; [exact Ho1|].
    right. split; [exact Hf1|exact A03].
Qed.

Lemma probing_problem s0 gc p sl :
  problem gc = Some p ->
  probing s0 p problemActive negproblemActive sl -> probed s0 gc sl.
Proof.
  intros Hp (C & Ho & Hd). split; [exact C|]. unfold fixup. rewrite Ho, Hp.
  split; [|split; [intros _; discriminate|intros H; congruence]].
  intros q. destruct Hd as [[Hf Ha]|[Hf Ha]]; rewrite Hf.
  - apply Ha.
  - destruct (active (world s0) p) eqn:E.
    + rewrite Ha. unfold upd. destruct (q =? p) eqn:Hq; [|reflexivity].
      apply Z.eqb_eq in Hq. congruence.
    + unfold upd at 1. destruct (q =? p) eqn:Hq.
      * apply Z.eqb_eq in Hq. congruence.
      * rewrite Ha. unfold upd. rewrite Hq. reflexivity.
Qed.

Lemma probing_negproblem s0 gc n sl :
  negproblem gc = Some n ->
  probing s0 n negproblemActive problemActive sl -> probed s0 gc sl.
Proof.
  intros Hn (C & Ho & Hd). split; [exact C|]. unfold fixup. rewrite Ho, Hn.
  split; [|split; [intros H; congruence|intros _; discriminate]].
  intros q. destruct Hd as [[Hf Ha]|[Hf Ha]]; rewrite Hf.
  - apply Ha.
  - destruct (active (world s0) n) eqn:E.
    + rewrite Ha. unfold upd. destruct (q =? n) eqn:Hq; [|reflexivity].
      apply Z.eqb_eq in Hq. congruence.
    + unfold upd at 1. destruct (q =? n) eqn:Hq.
      * apply Z.eqb_eq in Hq. congruence.
      * rewrite Ha. unfold upd. rewrite Hq. reflexivity.
Qed.

Lemma probed_unsat s0 gc s L :
  probed s0 gc (s, L) ->
  probed s0 gc (s, mkLocals true (problemActive L) (negproblemActive L)).
Proof. exact (fun H => H). Qed.

(** The statements of [eval] after the [try] block. *)
Lemma eval_tail gc (F0 : Features) b0 st0 s0 sl :
  probed s0 gc sl ->
  store (world s0) = b0 :: st0 ->
  guard_held F0 (guard (world s0)) ->
  wp (with_locals (Store_restore (length st0));;
      L <- local;;
      when (negb (problemActive L))
        (with_locals (p <- deref_opt (problem gc);; deactivatePropagate p));;
      when (negb (negproblemActive L))
        (with_locals (n <- deref_opt (negproblem gc);; deactivatePropagate n));;
      with_locals unprotect;;
      with_locals (set_hooks true);;
      L <- local;;
      ret (if unsat L then MAX_COST else MIN_COST))
     (fun c sl' =>
        (c = MIN_COST \/ c = MAX_COST) /\
        fam (fst sl') = fam s0 /\
        store (world (fst sl')) = st0 /\
        bt (world (fst sl')) = b0 /\
        (forall q, active (world (fst sl')) q = active (world s0) q) /\
        guard_free F0 (guard (world (fst sl'))) /\
        hooks (world (fst sl')) = true)
     (fun _ _ => False) sl.
Proof.
  destruct sl as [s L]. intros ((CF & CG & CH & CS) & HA & HP & HN) Hst [Hprot Hsav].
  cbn [fst snd] in *.
  wp_step. wp_step. unfold Store_restore, modify_world. wp_step.
  unfold restore_world. rewrite CS, Hst. cbn [length].
  replace (S (length st0) - length st0)%nat with 1%nat by lia.
  cbn [nth drop world fam trace cerr].
  wp_step. unfold local. wp_step. cbn [snd]. wp_step.
  unfold fixup in HA.
  set (act1 := if problemActive L then active (world s)
               else match problem gc with
                    | Some p => upd (active (world s)) p false
                    | None => active (world s)
                    end) in *.
  eapply wp_mono with
    (Q := fun _ sl' => snd sl' = L /\ fam (fst sl') = fam s0 /\
            store (world (fst sl')) = st0 /\ bt (world (fst sl')) = b0 /\
            guard (world (fst sl')) = guard (world s) /\
            active (world (fst sl')) = act1)
    (T := fun _ _ => False);
    [| |intros ? ? []].
  { subst act1. destruct (problemActive L) eqn:EP; cbn [negb when].
    - wp_step. cbn. repeat split; congruence.
    - destruct (problem gc) as [p|] eqn:Ep; [|exfalso; apply HP; reflexivity].
      wp_step. wp_step. cbn [deref_opt]. wp_step.
      unfold deactivatePropagate, modify_world. wp_step. cbn.
      repeat split; congruence. }
  intros [] [s1 L1] (EL & F1 & S1 & B1 & G1 & A1). cbn [fst snd] in *. subst L1. cbn beta.
  wp_step.
  eapply wp_mono with
    (Q := fun _ sl' => snd sl' = L /\ fam (fst sl') = fam s0 /\
            store (world (fst sl')) = st0 /\ bt (world (fst sl')) = b0 /\
            guard (world (fst sl')) = guard (world s) /\
            forall q, active (world (fst sl')) q = active (world s0) q)
    (T := fun _ _ => False);
    [| |intros ? ? []].
  { destruct (negproblemActive L) eqn:EN; cbn [negb when].
    - wp_step. cbn. repeat split; try congruence; intros q; rewrite A1; apply HA.
    - destruct (negproblem gc) as [n|] eqn:En; [|exfalso; apply HN; reflexivity].
      wp_step. wp_step. cbn [deref_opt]. wp_step.
      unfold deactivatePropagate, modify_world. wp_step. cbn.
      repeat split; try congruence; intros q; rewrite A1; apply HA. }
  intros [] [s2 L2] (EL & F2 & S2 & B2 & G2 & A2). cbn [fst snd] in *. subst L2. cbn beta.
  wp_step. wp_step. unfold unprotect. wp_step. wp_step.
  rewrite G2, CG, Hprot. cbn [when]. unfold set_guard, modify_world. wp_step.
  wp_step. wp_step. unfold set_hooks, modify_world. wp_step.
  wp_step. unfold local. wp_step. wp_step. cbn.
  repeat split; try assumption; try congruence.
  destruct (unsat L); [right|left]; reflexivity.
Qed.

(** C3: [eval] on a tuple of the right arity always returns, with [MIN_COST]
    or [MAX_COST], and leaves the solver as it found it: the store is back at
    the depth recorded on entry with the backtrackable state of that depth,
    every propagation switch has its entry value, the protection is released
    with the [ToulBar2] features restored and the callbacks are installed
    again, whether [enforceUb] or [assignLS] returned or raised a
    Contradiction. *)
Theorem eval_restores g gc t s :
  nth_error (objects (fam s)) g = Some gc ->
  Z.of_nat (length t) = arity_ gc ->
  protected_ (guard (world s)) = false ->
  exists c s',
    eval handler info MAX_COST g t s = Ret c s' /\
    (c = MIN_COST \/ c = MAX_COST) /\
    probe_restored s s' /\
    length (store (world s')) = length (store (world s)).
Proof.
  intros Hgc Hlen Hprot.
  assert (W : wp (eval handler info MAX_COST g t)
                 (fun c s' => (c = MIN_COST \/ c = MAX_COST) /\ probe_restored s s')
                 (fun _ _ => False) s).
  { unfold eval. wp_step. unfold deref. wp_step. wp_step. rewrite Hgc. cbn [deref_opt].
    wp_step. wp_step. apply wp_assert; [intros _|rewrite Hlen, Z.eqb_refl; discriminate].
    wp_step. unfold set_newValues, modify_world. wp_step.
    wp_step. unfold set_hooks, modify_world. wp_step. cbn [fam world trace cerr].
    cbn [guard hooks active store bt newValues env].
    wp_step. unfold protect. wp_step. wp_step. cbn [fam world guard]. wp_step.
    rewrite Hprot. cbn [negb assert]. wp_step. wp_step. cbn [when].
    unfold set_guard, modify_world. wp_step. wp_step. wp_step. wp_step.
    cbn [fam world trace cerr guard hooks active store bt newValues env tb2 saved protected_].
    wp_step. unfold Store_getDepth. wp_step. cbn [world store].
    wp_step. wp_step.
    match goal with |- wp _ _ _ (?st, _) => set (s1 := st) end.
    (* the state after [Store::store()] *)
    set (s2 := mkSys (fam s1)
                 (mkWorld (guard (world s1)) (hooks (world s1)) (active (world s1))
                          (bt (world s1) :: store (world s1)) (bt (world s1))
                          (newValues (world s1)) (env (world s1)))
                 (trace s1) (cerr s1)).
    assert (Hs2 : forall L, wp (with_locals (Store_store (X:=X)))
                     (fun _ sl => sl = (s2, L)) (fun _ _ => False) (s1, L)).
    { intros L. wp_step. unfold Store_store, modify_world. wp_step. reflexivity. }
    assert (Hbody : wp
      (try_catch
         (with_locals Store_store;;
          match problem gc with
          | Some p =>
              eval_probe handler p (varIndexes gc) g
                (fun a L => mkLocals (unsat L) a (negproblemActive L))
                (fun l => l <? lb gc)
          | None =>
              when_some (negproblem gc) (fun n =>
                eval_probe handler n (varIndexes gc) g
                  (fun a L => mkLocals (unsat L) (problemActive L) a)
                  (fun l => l <=? - ub gc + negCost gc))
          end)
         Contradiction
         (with_locals
            (when_some (problem gc) (fun p => call handler (WhenContradiction p));;
             when_some (negproblem gc) (fun n => call handler (WhenContradiction n)));;
          set_local (fun L => mkLocals true (problemActive L) (negproblemActive L))))
      (fun _ sl => probed s2 gc sl) (fun _ _ => False) (s1, mkLocals false true true)).
    { wp_step.
      assert (Hcatch : forall sl, probed s2 gc sl ->
        wp (with_locals
              (when_some (problem gc) (fun p => call handler (WhenContradiction p));;
               when_some (negproblem gc) (fun n => call handler (WhenContradiction n)));;
            set_local (fun L => mkLocals true (problemActive L) (negproblemActive L)))
           (fun _ sl' => probed s2 gc sl') (fun _ _ => False) sl).
      { intros [s3 L3] (C3 & A3 & P3 & N3). cbn [fst snd] in *.
        wp_step. wp_step. wp_step.
        eapply wp_mono; [apply cleanup_same| |intros ? ? []].
        intros [] s4 [C4 A4]. cbn beta.
        eapply wp_mono; [apply cleanup_same| |intros ? ? []].
        intros [] s5 [C5 A5]. cbn beta. unfold set_local. wp_step. cbn [fst snd].
        split; [|split; [|split; assumption]].
        - eapply same_ctl_trans; [exact C3|]. eapply same_ctl_trans; eassumption.
        - intros q. rewrite <- A3.
          assert (E : forall q', active (world s5) q' = active (world s3) q').
          { intros q'. rewrite A5. apply A4. }
          unfold fixup, upd. cbn [fst snd problemActive negproblemActive].
          destruct (problemActive L3), (negproblemActive L3);
            destruct (problem gc), (negproblem gc); rewrite ?E; reflexivity. }
      wp_step.
      eapply wp_mono; [apply Hs2| |intros ? ? []].
      intros [] sl ->. cbn beta.
      destruct (problem gc) as [p|] eqn:Hp.
      - eapply wp_mono;
          [apply (eval_probe_spec p _ g _ _ problemActive negproblemActive s2 s2);
           try reflexivity; [apply same_ctl_refl|intros q; reflexivity]| |].
        + intros [] sl' H'. cbn beta. eapply probing_problem; eassumption.
        + intros e sl' [-> H']. cbn [Exn_eqb]. apply Hcatch.
          eapply probing_problem; eassumption.
      - destruct (negproblem gc) as [n|] eqn:Hn; cbn [when_some].
        + eapply wp_mono;
            [apply (eval_probe_spec n _ g _ _ negproblemActive problemActive s2 s2);
             try reflexivity; [apply same_ctl_refl|intros q; reflexivity]| |].
          * intros [] sl' H'. cbn beta. eapply probing_negproblem; eassumption.
          * intros e sl' [-> H']. cbn [Exn_eqb]. apply Hcatch.
            eapply probing_negproblem; eassumption.
        + wp_step. split; [apply same_ctl_refl|].
          split; [intros q; reflexivity|split; intros; discriminate]. }
    eapply wp_mono; [exact Hbody| |intros ? ? []].
    intros [] sl Hsl. cbn beta.
    eapply wp_mono;
      [apply (eval_tail gc (tb2 (guard (world s))) (bt (world s1)) (store (world s1)) s2 sl Hsl);
       [reflexivity|split; reflexivity]| |intros ? ? []].
    intros c [s' L'] (Hc & F' & S' & B' & A' & G' & H'). cbn [fst snd] in *.
    split; [exact Hc|]. unfold probe_restored, released.
    repeat split; try assumption; apply G'. }
  unfold wp in W. destruct (eval handler info MAX_COST g t s) as [c s'|e s']; [|contradiction].
  exists c, s'. destruct W as [Hc Hr]. repeat split; try assumption; try apply Hr.
  destruct Hr as (_ & -> & _). reflexivity.
Qed.

End EvalFacts.

(** * Assignment of a scope variable *)

Section AssignFacts.
Context {X : Type}.
Variable handler : Handler X.
Variable NARYPROJECTIONSIZE : Z.
Implicit Types (s : Sys X).

(** C6, amended: for a connected scope position, once [deconnect(varIndex)]
    has returned, [assign] lowers [nonassigned] by one and then makes one of
    three moves: it deconnects the constraint when [universal()] holds;
    otherwise it deconnects and projects it as an n-ary table when
    [nonassigned <= NARYPROJECTIONSIZE] and, besides, strong duality is off
    or no variable is left unassigned; otherwise it propagates. *)
Theorem assign_dispatch g gc varIndex s :
  nth_error (objects (fam s)) g = Some gc ->
  connectedVar (bt (world s)) g varIndex = true ->
  match call handler (DeconnectVar g varIndex) s with
  | Throw e s1 => assign handler NARYPROJECTIONSIZE g varIndex s = Throw e s1
  | Ret _ s1 =>
      let s2 := decremented g s1 in
      nonassigned (bt (world s2)) g = nonassigned (bt (world s1)) g - 1 /\
      (0 <= nonassigned (bt (world s2)) g ->
       assign handler NARYPROJECTIONSIZE g varIndex s =
       match assign_action NARYPROJECTIONSIZE gc s2 g with
       | DoDeconnect => call handler (Deconnect g) s2
       | DoProject => (call handler (Deconnect g);; call handler (ProjectNary g)) s2
       | DoPropagate => propagate handler g s2
       end)
  end.
Proof.
  intros Hgc Hc.
  destruct (call handler (DeconnectVar g varIndex) s) as [[] s1|e s1] eqn:Hcall.
  - cbn zeta. split.
    + unfold decremented, updn. cbn. rewrite Nat.eqb_refl. reflexivity.
    + intros Hn. apply Z.leb_le in Hn.
      unfold assign, deref, connected_at, getNonAssigned, set_nonassigned,
        modify_bt, modify_world, modify, bind, gets, deref_opt, ret.
      cbv beta iota. rewrite Hgc. cbv beta iota. rewrite Hc.
      unfold when at 1. rewrite Hcall. cbv beta iota.
      change (mkSys (fam s1) _ (trace s1) (cerr s1)) with (decremented g s1).
      rewrite Hn. unfold assert, ret. cbv beta iota. unfold assign_action.
      destruct (universal gc (world (decremented g s1))); [reflexivity|].
      destruct ((_ <=? NARYPROJECTIONSIZE) && _); reflexivity.
  - unfold assign, deref, connected_at, bind, gets, deref_opt, ret.
    cbv beta iota. rewrite Hgc. cbv beta iota. rewrite Hc.
    unfold when at 1. rewrite Hcall. reflexivity.
Qed.

End AssignFacts.

(** * Construction of a meta-constraint *)

Section CtorFacts.
Context {X : Type}.
Variable handler : Handler X.
Variable info : ProblemInfo.
Implicit Types (s : Sys X) (a : CtorArgs).

(** C10: with [lb_in >= ub_in] the constructor never returns an object; once
    the base-class constructor has run and the arities match, it prints the
    message and throws [WrongFileFormat], before anything is entered in the
    table of meta-constraints. *)
Theorem construct_rejects_empty_window a s :
  lb_in a >= ub_in a ->
  (forall g s', construct handler info a s <> Ret g s') /\
  (forall w', handler (BaseCtor (wcsp_in a) (scope_in a)) (world s) = Ret tt w' ->
     arities_match info a ->
     exists s', construct handler info a s = Throw WrongFileFormat s' /\
                cerr s' = cerr s ++ [WrongBounds (lb_in a) (ub_in a)] /\
                fam s' = fam s).
Proof.
  intros Hb.
  assert (Hleb : (ub_in a <=? lb_in a) = true) by (apply Z.leb_le; lia).
  assert (W : wp (construct handler info a) (fun _ _ => False)
                 (fun e s' =>
                    forall w', handler (BaseCtor (wcsp_in a) (scope_in a)) (world s) = Ret tt w' ->
                    arities_match info a ->
                    e = WrongFileFormat /\
                    cerr s' = cerr s ++ [WrongBounds (lb_in a) (ub_in a)] /\
                    fam s' = fam s) s).
  { unfold construct. wp_step. apply wp_call.
    destruct (handler (BaseCtor (wcsp_in a) (scope_in a)) (world s)) as [[] w1|e w1];
      [|intros w' H; discriminate].
    wp_step. wp_step. wp_step. unfold set_nonassigned, modify_bt, modify_world. wp_step.
    cbn [fam world trace cerr].
    wp_step.
    eapply wp_mono with
      (Q := fun _ s' => cerr s' = cerr s /\ fam s' = fam s)
      (T := fun _ _ => ~ arities_match info a).
    { apply wp_when_some; [intros p Hp|cbn; auto].
      apply wp_assert; [cbn; auto|].
      intros Hne [H1 _]. apply Z.eqb_neq in Hne. apply Hne, H1, Hp. }
    2:{ intros e s' Hna w' _ Ha. contradiction. }
    intros [] s2 [C2 F2]. cbn beta. wp_step.
    eapply wp_mono with
      (Q := fun _ s' => cerr s' = cerr s /\ fam s' = fam s)
      (T := fun _ _ => ~ arities_match info a).
    { apply wp_when_some; [intros p Hp|auto].
      apply wp_assert; [auto|].
      intros Hne [_ H1]. apply Z.eqb_neq in Hne. apply Hne, H1, Hp. }
    2:{ intros e s' Hna w' _ Ha. contradiction. }
    intros [] s3 [C3 F3]. cbn beta. wp_step. rewrite Hleb.
    wp_step. unfold print_cerr. wp_step. wp_step.
    intros w' _ _. cbn. repeat split; congruence. }
  unfold wp in W. split.
  - intros g s' E. rewrite E in W. exact W.
  - intros w' Hw Ha.
    destruct (construct handler info a s) as [g s'|e s']; [contradiction|].
    destruct (W w' Hw Ha) as (-> & C & F). exists s'. auto.
Qed.

End CtorFacts.

(** * Tautologies in the clause loop *)

Section WcnfFacts.
Variable MAX_ARITY : nat.
Variable MULT : Cost -> Cost.

Lemma scan_spec sc target n k :
  let r := scan sc target k n in
  (k <= r <= k + n)%nat /\
  (forall i, (k <= i < r)%nat -> nth i sc 0 <> target) /\
  ((r < k + n)%nat -> nth r sc 0 = target).
Proof.
  revert k. induction n as [|n IH]; intros k; cbn.
  - split; [lia|]. split; intros; lia.
  - destruct (nth k sc 0 =? target) eqn:E.
    + apply Z.eqb_eq in E. split; [lia|]. split; [intros; lia|intros _; exact E].
    + apply Z.eqb_neq in E. destruct (IH (S k)) as (H1 & H2 & H3).
      split; [lia|]. split.
      * intros i Hi. destruct (decide (i = k)) as [->|Hne]; [exact E|].
        apply H2. lia.
      * intros Hr. apply H3. lia.
Qed.

Lemma polarity_opp j : j <> 0 -> polarity j <> polarity (- j).
Proof. unfold polarity. intros H. destruct (0 <? j) eqn:E1, (0 <? - j) eqn:E2; lia. Qed.

Lemma nth_take_lt {A} (l : list A) n k d : (k < n)%nat -> nth k (take n l) d = nth k l d.
Proof.
  revert n k. induction l as [|x l IH]; intros [|n] [|k] H; cbn; try lia; auto.
  apply IH. lia.
Qed.

Lemma nth_insert_eq {A} (l : list A) i x d :
  (i < length l)%nat -> nth i (<[i:=x]> l) d = x.
Proof. intros H. rewrite nth_lookup, list_lookup_insert_eq; [reflexivity|exact H]. Qed.

Lemma nth_insert_ne {A} (l : list A) i k x d :
  i <> k -> nth k (<[i:=x]> l) d = nth k l d.
Proof. intros H. rewrite !nth_lookup, list_lookup_insert_ne; [reflexivity|exact H]. Qed.

Lemma In_take_nth {A} (l : list A) n x d :
  In x (take n l) -> exists i, (i < n)%nat /\ nth i l d = x.
Proof.
  intros H. apply list_elem_of_In, list_elem_of_lookup in H. destruct H as [i Hi].
  assert (Hlt : (i < n)%nat).
  { apply lookup_lt_Some in Hi. rewrite length_take in Hi. lia. }
  exists i. split; [exact Hlt|].
  rewrite lookup_take_lt in Hi by exact Hlt. rewrite nth_lookup, Hi. reflexivity.
Qed.

(** One literal more: either the clause is now known to be a tautology, or
    the literal is recorded as well. *)
Lemma add_literal_recorded seen c j :
  recorded seen c -> length (scopeIndex c) = MAX_ARITY ->
  (length seen < MAX_ARITY)%nat ->
  exists c', add_literal MAX_ARITY j c = Some c' /\
             length (scopeIndex c') = MAX_ARITY /\
             (tautology c' = true \/ recorded (seen ++ [j]) c').
Proof.
  intros (Hsc & Htp & Hseen & Hnd & Hrec) Hlen Hroom.
  unfold add_literal.
  destruct (MAX_ARITY <=? arity c)%nat eqn:Hfull; [apply Nat.leb_le in Hfull; lia|].
  apply Nat.leb_gt in Hfull.
  set (a := arity c) in *.
  set (v := Z.abs j - 1).
  set (sc := <[a := v]> (scopeIndex c)).
  set (p := if 0 <? j then 0 else 1).
  set (tp := if (a <? length (tup c))%nat then <[a := p]> (tup c) else tup c ++ [p]).
  assert (Hsclen : length sc = MAX_ARITY) by (unfold sc; rewrite length_insert; exact Hlen).
  assert (Hsca : nth a sc 0 = v) by (apply nth_insert_eq; lia).
  assert (Hsck : forall k, (k < a)%nat -> nth k sc 0 = nth k (scopeIndex c) 0).
  { intros k Hk. apply nth_insert_ne. lia. }
  assert (Htpa : nth a tp 0 = p).
  { unfold tp. destruct (a <? length (tup c))%nat eqn:E.
    - apply Nat.ltb_lt in E. apply nth_insert_eq, E.
    - apply Nat.ltb_ge in E. replace a with (length (tup c)) by lia.
      apply nth_middle. }
  assert (Htpk : forall k, (k < a)%nat -> nth k tp 0 = nth k (tup c) 0).
  { intros k Hk. unfold tp. destruct (a <? length (tup c))%nat eqn:E.
    - apply nth_insert_ne. lia.
    - apply app_nth1. lia. }
  assert (Htplen : (S a <= length tp)%nat).
  { unfold tp. destruct (a <? length (tup c))%nat eqn:E.
    - apply Nat.ltb_lt in E. rewrite length_insert. lia.
    - rewrite length_app. cbn. lia. }
  assert (Htake : take a sc = take a (scopeIndex c)).
  { unfold sc. apply take_insert_ge. lia. }
  assert (Hold : forall j', In j' seen ->
            exists k, (k < a)%nat /\ nth k sc 0 = Z.abs j' - 1 /\ nth k tp 0 = polarity j').
  { intros j' Hj'. destruct (Hrec j' Hj') as (k & Hk & H1 & H2).
    exists k. rewrite Hsck, Htpk by exact Hk. auto. }
  rewrite Hsca.
  destruct (scan_spec sc v a 0%nat) as (Hk1 & Hk2 & Hk3).
  set (k := scan sc v 0 a) in *.
  destruct (k <? a)%nat eqn:Hk.
  - apply Nat.ltb_lt in Hk. eexists. split; [reflexivity|]. split; [exact Hsclen|].
    cbn [tautology]. destruct (nth k tp 0 =? nth a tp 0) eqn:E; [right|left; reflexivity].
    apply Z.eqb_eq in E. unfold recorded. cbn [arity scopeIndex tup].
    split; [lia|]. split; [lia|]. split; [rewrite length_app; cbn; lia|].
    split; [rewrite Htake; exact Hnd|].
    intros j' Hj'. apply in_app_or in Hj'. destruct Hj' as [Hj'|[<-|[]]].
    + apply Hold, Hj'.
    + exists k. split; [exact Hk|]. split; [apply Hk3; lia|].
      rewrite E, Htpa. reflexivity.
  - apply Nat.ltb_ge in Hk. eexists. split; [reflexivity|]. split; [exact Hsclen|].
    right. unfold recorded. cbn [arity scopeIndex tup].
    split; [lia|]. split; [lia|]. split; [rewrite length_app; cbn; lia|].
    split.
    + rewrite (take_S_r sc a v).
      * apply NoDup_app. split; [rewrite Htake; exact Hnd|].
        split; [|apply NoDup_singleton].
        intros x Hx Hx'. apply list_elem_of_singleton in Hx'. subst x.
        apply list_elem_of_In, (In_take_nth _ _ _ 0) in Hx.
        destruct Hx as (i & Hi & Hv). apply (Hk2 i); [lia|exact Hv].
      * unfold sc. apply list_lookup_insert_eq. lia.
    + intros j' Hj'. apply in_app_or in Hj'. destruct Hj' as [Hj'|[<-|[]]].
      * destruct (Hold j' Hj') as (k' & Hk' & H1 & H2). exists k'. split; [lia|auto].
      * exists a. split; [lia|]. split; [exact Hsca|exact Htpa].
Qed.

(** A literal that is recorded already goes through the body of the loop
    without changing the arity or the flag: when the stream is exhausted, the
    body is run on the same literal for ever. *)
Lemma replay_stable seen c j :
  recorded seen c -> In j seen -> length (scopeIndex c) = MAX_ARITY ->
  (arity c < MAX_ARITY)%nat ->
  exists c', add_literal MAX_ARITY j c = Some c' /\
             length (scopeIndex c') = MAX_ARITY /\
             arity c' = arity c /\ tautology c' = false /\ recorded seen c'.
Proof.
  intros (Hsc & Htp & Hseen & Hnd & Hrec) Hin Hlen Hroom.
  unfold add_literal.
  destruct (MAX_ARITY <=? arity c)%nat eqn:Hfull; [apply Nat.leb_le in Hfull; lia|].
  clear Hfull.
  set (a := arity c) in *.
  set (v := Z.abs j - 1).
  set (sc := <[a := v]> (scopeIndex c)).
  set (p := if 0 <? j then 0 else 1).
  set (tp := if (a <? length (tup c))%nat then <[a := p]> (tup c) else tup c ++ [p]).
  assert (Hsclen : length sc = MAX_ARITY) by (unfold sc; rewrite length_insert; exact Hlen).
  assert (Hsca : nth a sc 0 = v) by (apply nth_insert_eq; lia).
  assert (Hsck : forall k, (k < a)%nat -> nth k sc 0 = nth k (scopeIndex c) 0).
  { intros k Hk. apply nth_insert_ne. lia. }
  assert (Htpa : nth a tp 0 = p).
  { unfold tp. destruct (a <? length (tup c))%nat eqn:E.
    - apply Nat.ltb_lt in E. apply nth_insert_eq, E.
    - apply Nat.ltb_ge in E. replace a with (length (tup c)) by lia.
      apply nth_middle. }
  assert (Htpk : forall k, (k < a)%nat -> nth k tp 0 = nth k (tup c) 0).
  { intros k Hk. unfold tp. destruct (a <? length (tup c))%nat eqn:E.
    - apply nth_insert_ne. lia.
    - apply app_nth1. lia. }
  assert (Htplen : (a <= length tp)%nat).
  { unfold tp. destruct (a <? length (tup c))%nat eqn:E.
    - rewrite length_insert. lia.
    - rewrite length_app. cbn. lia. }
  assert (Htake : take a sc = take a (scopeIndex c)).
  { unfold sc. apply take_insert_ge. lia. }
  assert (Hold : forall j', In j' seen ->
            exists k, (k < a)%nat /\ nth k sc 0 = Z.abs j' - 1 /\ nth k tp 0 = polarity j').
  { intros j' Hj'. destruct (Hrec j' Hj') as (k & Hk & H1 & H2).
    exists k. rewrite Hsck, Htpk by exact Hk. auto. }
  destruct (Hold j Hin) as (k0 & Hk0 & Hv0 & Hp0). fold v in Hv0.
  rewrite Hsca.
  destruct (scan_spec sc v a 0%nat) as (Hk1 & Hk2 & Hk3).
  set (k := scan sc v 0 a) in *.
  assert (Hk : (k < a)%nat).
  { destruct (Nat.lt_ge_cases k a) as [H|H]; [exact H|].
    exfalso. apply (Hk2 k0); [lia|exact Hv0]. }
  assert (Hlk : forall i, (i < a)%nat -> take a sc !! i = Some (nth i sc 0)).
  { intros i Hi. rewrite lookup_take_lt by exact Hi.
    destruct (lookup_lt_is_Some_2 sc i) as [x Hx]; [lia|].
    rewrite nth_lookup, Hx. reflexivity. }
  assert (k = k0).
  { apply (NoDup_lookup (take a sc) k k0 v).
    - rewrite Htake. exact Hnd.
    - rewrite (Hlk k Hk), (Hk3 ltac:(lia)). reflexivity.
    - rewrite (Hlk k0 Hk0), Hv0. reflexivity. }
  subst k0. rewrite (proj2 (Nat.ltb_lt _ _) Hk).
  eexists. split; [reflexivity|]. cbn [scopeIndex arity tautology tup].
  split; [exact Hsclen|]. split; [reflexivity|]. split.
  - rewrite Hp0, Htpa. unfold polarity. fold p. rewrite Z.eqb_refl. reflexivity.
  - unfold recorded. cbn [arity scopeIndex tup].
    split; [lia|]. split; [lia|]. split; [lia|].
    split; [rewrite Htake; exact Hnd|exact Hold].
Qed.

Lemma read_literals_tautology lits : forall j0 c rest,
  Forall (fun j => j <> 0) lits -> tautology c = true ->
  read_literals MAX_ARITY j0 (lits ++ 0 :: rest) c = Done (c, rest).
Proof.
  induction lits as [|j lits IH]; intros j0 c rest Hnz Ht; cbn [app read_literals].
  - reflexivity.
  - apply Forall_cons_1 in Hnz. destruct Hnz as [Hj Hnz].
    apply Z.eqb_neq in Hj. rewrite Hj, Ht. apply IH; assumption.
Qed.

Lemma read_literals_recorded lits : forall j0 seen c rest,
  Forall (fun j => j <> 0) lits ->
  length (scopeIndex c) = MAX_ARITY ->
  recorded seen c ->
  (length seen + length lits <= MAX_ARITY)%nat ->
  exists c', read_literals MAX_ARITY j0 (lits ++ 0 :: rest) c = Done (c', rest) /\
             (tautology c' = true \/ recorded (seen ++ lits) c').
Proof.
  induction lits as [|j lits IH]; intros j0 seen c rest Hnz Hlen Hrec Hroom.
  - exists c. cbn. split; [reflexivity|]. right. rewrite app_nil_r. exact Hrec.
  - apply Forall_cons_1 in Hnz. destruct Hnz as [Hj Hnz].
    cbn [app read_literals]. apply Z.eqb_neq in Hj. rewrite Hj.
    destruct (tautology c) eqn:Ht.
    + exists c. split; [|left; exact Ht].
      apply read_literals_tautology; assumption.
    + cbn [length] in Hroom.
      destruct (add_literal_recorded seen c j Hrec Hlen) as (c1 & -> & Hlen1 & H1); [lia|].
      destruct H1 as [H1|H1].
      * exists c1. split; [|left; exact H1]. apply read_literals_tautology; assumption.
      * destruct (IH j (seen ++ [j]) c1 rest Hnz Hlen1 H1) as (c' & Hc' & H').
        { rewrite length_app. cbn. lia. }
        exists c'. split; [exact Hc'|]. rewrite <- app_assoc in H'. exact H'.
Qed.

Lemma recorded_no_clash seen c l :
  recorded seen c -> l <> 0 -> In l seen -> In (- l) seen -> False.
Proof.
  intros (Hsc & Htp & Hseen & Hnd & Hrec) Hl H1 H2.
  destruct (Hrec l H1) as (k1 & Hk1 & Hv1 & Hp1).
  destruct (Hrec (- l) H2) as (k2 & Hk2 & Hv2 & Hp2).
  rewrite Z.abs_opp in Hv2.
  assert (Hlk : forall k, (k < arity c)%nat ->
            take (arity c) (scopeIndex c) !! k = Some (nth k (scopeIndex c) 0)).
  { intros k Hk. rewrite lookup_take_lt by exact Hk.
    destruct (lookup_lt_is_Some_2 (scopeIndex c) k) as [x Hx]; [lia|].
    rewrite nth_lookup, Hx. reflexivity. }
  assert (k1 = k2).
  { eapply NoDup_lookup; [exact Hnd| |].
    - rewrite (Hlk k1 Hk1), Hv1. reflexivity.
    - rewrite (Hlk k2 Hk2), Hv2. reflexivity. }
  subst k2. apply (polarity_opp l Hl). congruence.
Qed.

(** C9: a clause that holds a literal and its negation is skipped: the loop
    reads it up to its closing [0], posts nothing for it, and goes on with
    the next clause. *)
Theorem tautology_skipped (wcnf : bool) n cost lits rest l :
  Forall (fun j => j <> 0) lits ->
  l <> 0 -> In l lits -> In (- l) lits ->
  (length lits <= MAX_ARITY)%nat ->
  read_clauses MAX_ARITY MULT wcnf (S n)
    ((if wcnf then [cost] else []) ++ lits ++ 0 :: rest)
  = read_clauses MAX_ARITY MULT wcnf n rest.
Proof.
  intros Hnz Hl H1 H2 Hroom.
  assert (Hinit : recorded [] (mkClause (replicate MAX_ARITY 0) [] 0 false)).
  { unfold recorded. cbn. split; [lia|]. split; [lia|]. split; [lia|].
    split; [constructor|intros j []]. }
  destruct (read_literals_recorded lits 0 []
              (mkClause (replicate MAX_ARITY 0) [] 0 false) rest Hnz
              (length_replicate MAX_ARITY 0) Hinit) as (c & Hc & Ht); [cbn; lia|].
  assert (Htaut : tautology c = true).
  { destruct Ht as [Ht|Ht]; [exact Ht|].
    exfalso. eapply recorded_no_clash; eassumption. }
  cbn [read_clauses].
  assert (E : snd (if wcnf then read_int UNIT_COST ([cost] ++ lits ++ 0 :: rest)
                   else (UNIT_COST, [] ++ lits ++ 0 :: rest))
              = lits ++ 0 :: rest) by (destruct wcnf; reflexivity).
  destruct wcnf; cbn [app read_int snd fst] in *; rewrite Hc, Htaut; reflexivity.
Qed.

End WcnfFacts.

(** * The embedded code at work *)

Example construct_registers_both_slaves :
  fam sys0 = mkFamily (Some 0) [(1, 0%nat); (2, 0%nat)] [gc0].
Proof. reflexivity. Qed.

Lemma h_quiet_respects_guard : respects_guard h_quiet.
Proof.
  intros c w. cbn. unfold guard_rel. destruct (protected_ (guard w)); auto.
Qed.

Lemma h_quiet_cleanup_returns : cleanup_returns h_quiet.
Proof. intros p w. exists w. reflexivity. Qed.

Lemma h_quiet_probe_frame : probe_frame h_quiet.
Proof. intros c w _. cbn. auto. Qed.


(** C4 as stated fails: a callback for an event of slave 1, entered without
    protection, returns with the protection held and the features off. *)
Lemma slave_callback_keeps_guard :
  protected_ (guard (world sys0)) = false /\
  respects_guard h_quiet /\ cleanup_returns h_quiet /\
  ~ exits_released (tb2setvalue h_quiet 1 0 1) sys0.
Proof.
  split; [reflexivity|]. split; [apply h_quiet_respects_guard|].
  split; [apply h_quiet_cleanup_returns|].
  unfold exits_released, released, guard_free.
  assert (E : exists s', tb2setvalue h_quiet 1 0 1 sys0 = Ret tt s' /\
                         protected_ (guard (world s')) = true).
  { eexists. split; reflexivity. }
  destruct E as (s' & -> & Hp). intros [H _]. congruence.
Qed.

(** C5 as stated fails: when the forward to slave 1 raises a Contradiction,
    the callback re-raises it and the master is left with its propagation
    switched off. *)
Lemma contradiction_leaves_origin_inactive :
  exists s', tb2setvalue (h_refuse 1) 0 0 1 sys0 = Throw Contradiction s' /\
             active (world sys0) 0 = true /\
             active (world s') 0 = false.
Proof. eexists. repeat split; reflexivity. Qed.

(** C6 as stated fails: with strong duality and one variable left, the
    constraint is not universal and small enough to be projected, yet
    [assign] propagates. *)
Lemma assign_propagates_under_strong_duality :
  let r := assign h_quiet 3 0%nat 0 sys0 in
  nonassigned (bt (world (final r))) 0%nat = 1 /\
  1 <= 3 /\
  universal gc0 (world (final r)) = false /\
  ~ In (ProjectNary 0%nat) (trace (final r)) /\
  In (Revise 0%nat) (trace (final r)).
Proof.
  cbn zeta.
  assert (E : trace (final (assign h_quiet 3 0%nat 0 sys0))
              = [DeconnectVar 0%nat 0; Revise 0%nat; EnforceUb 1; EnforceUb 2;
                 Assigns 0%nat; WcspPropagate 1; WcspPropagate 2]) by reflexivity.
  rewrite E. repeat split; try reflexivity; try lia.
  - cbn. intros H. repeat (destruct H as [H|H]; [discriminate|]). exact H.
  - cbn. auto.
Qed.

(** * The cost tables of the CFN reader *)

(** C7 fails on the full n-ary table: for a function of four Boolean
    variables whose sixteen costs are all five, [readNaryCostFunction] takes
    five off [negCost] and stores the sixteen costs as they are, five each,
    where the costs shifted down by the minimum are all zero. *)
Theorem full_nary_table_stored_unshifted :
  exists r,
    readNaryCostFunction 1000000 3 decimal_int (fun _ => 2) (fun _ _ => None)
      [0; 1; 2; 3] true 0 reader0 = Ret tt r
    /\ wcsp_negCost r = wcsp_negCost reader0 - 5
    /\ stored_costs (posted r) = map (fun t => (t, 5)) (lex_tuples [2; 2; 2; 2]%nat)
    /\ tokens r = [].
Proof. eexists. repeat split; vm_compute; reflexivity. Qed.

(** The sparse branch of the same function does shift the costs it stores:
    the same table written as sixteen tuples is stored with all costs zero. *)
Example sparse_nary_table_stored_shifted :
  let toks := flat_map (fun t => map (fun v => if v =? 0 then "0"%string else "1"%string) t
                                 ++ ["5"%string])
                       (lex_tuples [2; 2; 2; 2]%nat)
              ++ ["]"%string; "}"%string] in
  exists r,
    readNaryCostFunction 1000000 3 decimal_int (fun _ => 2) (fun _ _ => None)
      [0; 1; 2; 3] false 0 (mkReader toks 0 1000 []) = Ret tt r
    /\ wcsp_negCost r = -5
    /\ stored_costs (posted r) = map (fun t => (t, 0)) (lex_tuples [2; 2; 2; 2]%nat).
Proof. eexists. repeat split; vm_compute; reflexivity. Qed.

(** * The upper bound installed by [enforceUB] *)

Section EnforceFacts.
Variable MAX_COST : Cost.
Variable decimalToCost : string -> Cost.

Lemma relaxation_nonneg o rel :
  0 <= relaxation decimalToCost o rel.
Proof. unfold relaxation. destruct (is_empty (deltaUbS o)); lia. Qed.

(** C8, amended: when the bound fits, [enforceUB] installs the least of the
    current upper bound and the base bound plus the relaxation, where the
    base bound is the file bound scaled by the multiplier and shifted by
    [negCost] (zero when the shifted bound is negative), lowered to the
    external bound plus [negCost] when there is one, and the relaxation is
    zero unless [deltaUbS] is given, in which case it is the larger of the
    absolute gap and the relative gap of the least of the base bound and the
    current upper bound.  The current upper bound is neither scaled nor
    shifted, and the result never exceeds it.  A bound that does not fit is
    rejected. *)
Theorem enforceUB_installs o negCost ub bound sh sc rel :
  shifted_bound o negCost bound = Some sh ->
  scaled_bound o negCost bound = Some sc ->
  relative_gap o (base_bound decimalToCost o negCost sh sc) ub = Some rel ->
  (fits MAX_COST o negCost sh = false ->
     enforceUB MAX_COST decimalToCost o negCost ub bound = ExitFailure)
  /\ (fits MAX_COST o negCost sh = true ->
        exists o',
          enforceUB MAX_COST decimalToCost o negCost ub bound
          = Installed o'
              (Z.min ub (base_bound decimalToCost o negCost sh sc
                         + relaxation decimalToCost o rel))
          /\ costMultiplier o' = costMultiplier o
          /\ (is_empty (deltaUbS o) = false ->
              deltaUb o' = relaxation decimalToCost o rel)
          /\ Z.min ub (base_bound decimalToCost o negCost sh sc
                       + relaxation decimalToCost o rel) <= ub).
Proof.
  intros Hsh Hsc Hrel. unfold enforceUB. rewrite Hsh. split; intros Hfit; rewrite Hfit.
  - reflexivity.
  - rewrite Hsc. unfold base_bound, relaxation, updateUb, MIN_COST in *.
    destruct (is_empty (deltaUbS o)) eqn:Hd; cbn [negb].
    + exists o. rewrite Z.add_0_r.
      destruct (is_empty (externalUB o)); cbn [negb];
        (split; [reflexivity|split; [reflexivity|split; [discriminate|lia]]]).
    + assert (Hadd : forall b d, 0 <= d -> (if 0 <? d then b + d else b) = b + d).
      { intros b d Hd0. destruct (0 <? d) eqn:E; [reflexivity|].
        apply Z.ltb_ge in E. lia. }
      destruct (is_empty (externalUB o)) eqn:He; cbn [negb] in *;
        eexists;
        match goal with
        | |- context [relative_gap o ?x ub] =>
            replace (relative_gap o x ub) with (Some rel) by (symmetry; exact Hrel)
        end;
        rewrite Hadd by lia;
        (split; [reflexivity|]); cbn [costMultiplier deltaUb];
        (split; [reflexivity|split; [intros _; reflexivity|lia]]).
Qed.

End EnforceFacts.

(** C8 as stated fails: with multiplier one, file bound 10, [negCost = -5]
    (a table whose least cost is five was read) and current upper bound 8,
    [enforceUB] installs 5, the file bound shifted; the formula of the claim
    shifts the least of the file bound and the current upper bound, and
    gives 3. *)
Lemma enforceUB_does_not_shift_current_ub :
  enforceUB 1000000 (fun _ => 0) options0 (-5) 8 10 = Installed options0 5
  /\ (claimed_ub (inject_Z 10) None (inject_Z 8) 1 (inject_Z (-5)) 0 0 == 3)%Q
  /\ ~ (inject_Z 5 == 3)%Q.
Proof.
  split; [vm_compute; reflexivity|]. split; [vm_compute; reflexivity|].
  intros H. vm_compute in H. discriminate.
Qed.

(** * Witnesses *)

Lemma h_quiet_keeps_connected : keeps_connected h_quiet.
Proof. intros c w. cbn. reflexivity. Qed.

Lemma h_refuse_keeps_switch p w : keeps_switch (h_refuse p) w.
Proof.
  intros c wld. unfold h_refuse. destruct c; try reflexivity.
  destruct (_ =? p); reflexivity.
Qed.


Lemma tb2event_reactivates_witness :
  keeps_switch (h_refuse 1) 0 /\
  tb2event (h_refuse 1) EvAssign 0 0 1 sys0
  = Throw Contradiction (final (tb2event (h_refuse 1) EvAssign 0 0 1 sys0)) /\
  active (world (final (tb2event (h_refuse 1) EvAssign 0 0 1 sys0))) 0 = false.
Proof.
  assert (E : tb2event (h_refuse 1) EvAssign 0 0 1 sys0
              = Throw Contradiction (final (tb2event (h_refuse 1) EvAssign 0 0 1 sys0))).
  { vm_compute. reflexivity. }
  split; [apply h_refuse_keeps_switch|]. split; [exact E|].
  pose proof (tb2event_reactivates (h_refuse 1) EvAssign 0 0 1 sys0) as H0.
  destruct H0 as [H _].
  rewrite E in H.
  exact (H (h_refuse_keeps_switch 1 0)).
Defined.

Lemma eval_restores_witness :
  probe_frame h_quiet /\ cleanup_returns h_quiet /\
  nth_error (objects (fam sys0)) 0%nat = Some gc0 /\
  Z.of_nat (length [0; 1]) = arity_ gc0 /\
  protected_ (guard (world sys0)) = false /\
  exists c s',
    eval h_quiet info0 1000000 0%nat [0; 1] sys0 = Ret c s' /\
    (c = MIN_COST \/ c = 1000000) /\
    probe_restored sys0 s' /\
    length (store (world s')) = length (store (world sys0)).
Proof.
  split; [apply h_quiet_probe_frame|]. split; [apply h_quiet_cleanup_returns|].
  split; [reflexivity|]. split; [reflexivity|]. split; [reflexivity|].
  apply (eval_restores h_quiet info0 1000000 h_quiet_probe_frame
           h_quiet_cleanup_returns 0%nat gc0 [0; 1] sys0); reflexivity.
Defined.

Lemma guard_released_on_exit_witness :
  respects_guard h_quiet /\ cleanup_returns h_quiet /\
  protected_ (guard (world sys0)) = false /\
  ((forall k wcspId x v,
      MasterWeightedCSP (fam sys0) = Some wcspId ->
      exits_released (tb2event h_quiet k wcspId x v) sys0)
   /\ (forall g, exits_released (propagate h_quiet g) sys0)
   /\ (forall k wcspId x v master,
         MasterWeightedCSP (fam sys0) = Some master -> wcspId <> master ->
         exits_held (tb2event h_quiet k wcspId x v) sys0)).
Proof.
  split; [apply h_quiet_respects_guard|]. split; [apply h_quiet_cleanup_returns|].
  split; [reflexivity|].
  apply (guard_released_on_exit h_quiet h_quiet_respects_guard
           h_quiet_cleanup_returns sys0). reflexivity.
Defined.

Lemma assign_dispatch_witness :
  nth_error (objects (fam sys0)) 0%nat = Some gc0 /\
  connectedVar (bt (world sys0)) 0%nat 0 = true /\
  match call h_quiet (DeconnectVar 0%nat 0) sys0 with
  | Throw e s1 => assign h_quiet 3 0%nat 0 sys0 = Throw e s1
  | Ret _ s1 =>
      let s2 := decremented 0%nat s1 in
      nonassigned (bt (world s2)) 0%nat = nonassigned (bt (world s1)) 0%nat - 1 /\
      (0 <= nonassigned (bt (world s2)) 0%nat ->
       assign h_quiet 3 0%nat 0 sys0 =
       match assign_action 3 gc0 s2 0%nat with
       | DoDeconnect => call h_quiet (Deconnect 0%nat) s2
       | DoProject => (call h_quiet (Deconnect 0%nat);; call h_quiet (ProjectNary 0%nat)) s2
       | DoPropagate => propagate h_quiet 0%nat s2
       end)
  end.
Proof.
  split; [reflexivity|]. split; [reflexivity|].
  apply (assign_dispatch h_quiet 3 0%nat gc0 0 sys0); reflexivity.
Defined.

Lemma construct_rejects_empty_window_witness :
  lb_in args_empty_window >= ub_in args_empty_window /\
  (forall g s', construct h_quiet info0 args_empty_window sys_empty <> Ret g s') /\
  (forall w',
     h_quiet (BaseCtor (wcsp_in args_empty_window) (scope_in args_empty_window))
             (world sys_empty) = Ret tt w' ->
     arities_match info0 args_empty_window ->
     exists s', construct h_quiet info0 args_empty_window sys_empty
                = Throw WrongFileFormat s' /\
                cerr s' = cerr sys_empty
                          ++ [WrongBounds (lb_in args_empty_window)
                                          (ub_in args_empty_window)] /\
                fam s' = fam sys_empty).
Proof.
  assert (H : lb_in args_empty_window >= ub_in args_empty_window) by (cbn; lia).
  split; [exact H|].
  apply (construct_rejects_empty_window h_quiet info0 args_empty_window sys_empty H).
Defined.

Lemma tautology_skipped_witness :
  Forall (fun j => j <> 0) tautological_clause /\ 1 <> 0 /\
  In 1 tautological_clause /\ In (- 1) tautological_clause /\
  (length tautological_clause <= 10)%nat /\
  read_clauses 10 (fun c => c) false 2
    ((if false then [0] else []) ++ tautological_clause ++ 0 :: next_clause)
  = read_clauses 10 (fun c => c) false 1 next_clause.
Proof.
  assert (H0 : Forall (fun j => j <> 0) tautological_clause)
    by (repeat constructor; lia).
  assert (H1 : 1 <> 0) by lia.
  assert (H2 : In 1 tautological_clause) by (left; reflexivity).
  assert (H3 : In (- 1) tautological_clause) by (right; left; reflexivity).
  assert (H4 : (length tautological_clause <= 10)%nat) by (cbn; lia).
  repeat (split; [assumption|]).
  apply (tautology_skipped 10 (fun c => c) false 1 0 tautological_clause
           next_clause 1 H0 H1 H2 H3 H4).
Defined.

Lemma enforceUB_installs_witness :
  shifted_bound options0 (-5) 10 = Some 5 /\
  scaled_bound options0 (-5) 10 = Some 5 /\
  relative_gap options0 (base_bound (fun _ => 0) options0 (-5) 5 5) 8 = Some 0 /\
  (fits 1000000 options0 (-5) 5 = false ->
     enforceUB 1000000 (fun _ => 0) options0 (-5) 8 10 = ExitFailure)
  /\ (fits 1000000 options0 (-5) 5 = true ->
        exists o',
          enforceUB 1000000 (fun _ => 0) options0 (-5) 8 10
          = Installed o'
              (Z.min 8 (base_bound (fun _ => 0) options0 (-5) 5 5
                        + relaxation (fun _ => 0) options0 0))
          /\ costMultiplier o' = costMultiplier options0
          /\ (is_empty (deltaUbS options0) = false ->
              deltaUb o' = relaxation (fun _ => 0) options0 0)
          /\ Z.min 8 (base_bound (fun _ => 0) options0 (-5) 5 5
                      + relaxation (fun _ => 0) options0 0) <= 8).
Proof.
  assert (H1 : shifted_bound options0 (-5) 10 = Some 5) by (vm_compute; reflexivity).
  assert (H2 : scaled_bound options0 (-5) 10 = Some 5) by (vm_compute; reflexivity).
  assert (H3 : relative_gap options0 (base_bound (fun _ => 0) options0 (-5) 5 5) 8
               = Some 0) by (vm_compute; reflexivity).
  split; [exact H1|]. split; [exact H2|]. split; [exact H3|].
  apply (enforceUB_installs 1000000 (fun _ => 0) options0 (-5) 8 10 5 5 0 H1 H2 H3).
Defined.

(** * The protection guard on its own *)

Section GuardRoundTrip.
Context {X : Type}.
Implicit Types (s : Sys X).

(** The state with another guard. *)
Lemma set_guard_eq g s :
  set_guard g s
  = Ret tt (mkSys (fam s)
              (mkWorld g (hooks (world s)) (active (world s)) (store (world s))
                       (bt (world s)) (newValues (world s)) (env (world s)))
              (trace s) (cerr s)).
Proof. reflexivity. Qed.

(** X1: [protect()] followed by [unprotect()] is a round trip.  Entered with
    [_protected_] false, [protect(true)] returns with the flag set and the
    ten [ToulBar2] features switched off; [unprotect()] then returns with the
    flag cleared and the ten features at the values they had before
    [protect], and nothing but the guard has changed. *)
Theorem protect_unprotect_round_trip s :
  protected_ (guard (world s)) = false ->
  exists s1 s2,
    protect true s = Ret tt s1 /\
    guard (world s1) = mkGuard features_off (tb2 (guard (world s))) true /\
    unprotect s1 = Ret tt s2 /\
    guard (world s2)
    = mkGuard (tb2 (guard (world s))) (tb2 (guard (world s))) false /\
    fam s2 = fam s /\ trace s2 = trace s /\ cerr s2 = cerr s /\
    hooks (world s2) = hooks (world s) /\ active (world s2) = active (world s) /\
    store (world s2) = store (world s) /\ bt (world s2) = bt (world s) /\
    newValues (world s2) = newValues (world s) /\ env (world s2) = env (world s).
Proof.
  intros Hp. unfold protect, unprotect, bind, gets. rewrite Hp. cbn.
  eexists. eexists. repeat split.
Qed.

(** X2: [protect(false)] saves nothing.  Entered with [_protected_] false it
    switches the ten features off and keeps the saved statics, so the
    [unprotect()] that follows writes back the values saved by the last
    [protect(true)], whatever [ToulBar2] held when [protect(false)] was
    called. *)
Theorem protect_slave_keeps_saved s :
  protected_ (guard (world s)) = false ->
  exists s1 s2,
    protect false s = Ret tt s1 /\
    guard (world s1) = mkGuard features_off (saved (guard (world s))) true /\
    unprotect s1 = Ret tt s2 /\
    guard (world s2)
    = mkGuard (saved (guard (world s))) (saved (guard (world s))) false.
Proof.
  intros Hp. unfold protect, unprotect, bind, gets. rewrite Hp. cbn.
  eexists. eexists. repeat split.
Qed.

(** X3: [unprotect()] is idempotent, and does nothing at all when the guard
    is not held; [protect] on a held guard fails its assertion and changes
    nothing. *)
Theorem unprotect_idempotent s :
  (unprotect;; unprotect) s = unprotect s
  /\ (protected_ (guard (world s)) = false -> unprotect s = Ret tt s)
  /\ (protected_ (guard (world s)) = true ->
      forall master, protect master s = Throw Abort s).
Proof.
  split; [|split].
  - unfold unprotect, bind, gets.
    destruct (protected_ (guard (world s))) eqn:Hp; cbn; rewrite ?Hp; reflexivity.
  - intros Hp. unfold unprotect, bind, gets. rewrite Hp. reflexivity.
  - intros Hp master. unfold protect, bind, gets. rewrite Hp. reflexivity.
Qed.

End GuardRoundTrip.

(** * The constructor and the table of meta-constraints *)

Lemma tbl_find_insert_eq t k g : tbl_find (tbl_insert t k g) k = Some g.
Proof.
  induction t as [|[k' g'] t IH]; cbn.
  - rewrite Z.eqb_refl. reflexivity.
  - destruct (k <? k') eqn:H1; cbn.
    + rewrite Z.eqb_refl. reflexivity.
    + destruct (k =? k') eqn:H2; cbn.
      * rewrite Z.eqb_refl. reflexivity.
      * rewrite Z.eqb_sym, H2. exact IH.
Qed.

Lemma tbl_find_insert_ne t k g k2 :
  k2 <> k -> tbl_find (tbl_insert t k g) k2 = tbl_find t k2.
Proof.
  intros Hne. assert (E : (k =? k2) = false) by (apply Z.eqb_neq; congruence).
  induction t as [|[k' g'] t IH]; cbn.
  - rewrite E. reflexivity.
  - destruct (k <? k') eqn:H1; cbn.
    + rewrite E. reflexivity.
    + destruct (k =? k') eqn:H2; cbn.
      * rewrite E. apply Z.eqb_eq in H2. subst k'. rewrite E. reflexivity.
      * rewrite IH. reflexivity.
Qed.

Section CtorRegisters.
Context {X : Type}.
Variable handler : Handler X.
Variable info : ProblemInfo.
Implicit Types (s : Sys X) (a : CtorArgs).

Lemma wp_keep {A B} (m : M (Sys X) A) (k : A -> M (Sys X) B)
  (Q : B -> Sys X -> Prop) s :
  keeps_fam m ->
  (forall x s', fam s' = fam s -> wp (k x) Q (fun _ _ => True) s') ->
  wp (bind m k) Q (fun _ _ => True) s.
Proof.
  intros Hm Hk. apply wp_bind. eapply wp_mono; [apply Hm| |trivial].
  intros x s' E. apply Hk, E.
Qed.

Lemma keeps_fam_call c : keeps_fam (call handler c).
Proof.
  intros s. apply wp_call. destruct (handler c (world s)); cbn; trivial.
Qed.

Lemma keeps_fam_assert b : keeps_fam (@assert (Sys X) b).
Proof. intros s. destruct b; cbn; trivial. Qed.

Lemma keeps_fam_when_some {A} (o : option A) (m : A -> M (Sys X) unit) :
  (forall x, keeps_fam (m x)) -> keeps_fam (when_some o m).
Proof. intros H s. destruct o; cbn; [apply H|reflexivity]. Qed.

Lemma keeps_fam_modify_world f : keeps_fam (@modify_world X f).
Proof. intros s. reflexivity. Qed.

Lemma keeps_fam_bind {A B} (m : M (Sys X) A) (k : A -> M (Sys X) B) :
  keeps_fam m -> (forall x, keeps_fam (k x)) -> keeps_fam (bind m k).
Proof.
  intros Hm Hk s. apply wp_bind. eapply wp_mono; [apply Hm| |trivial].
  intros x s' E. cbn beta. eapply wp_mono; [apply Hk| |trivial].
  intros y s2 E2. cbn beta in *. congruence.
Qed.

Lemma built_eq a :
  mkGC
    match negproblem_in a with
    | Some n =>
        if negb (duplicateHard a) && negb (wcsp_isfinite info n)
        then false
        else match problem_in a with
             | Some p => negb (negb (duplicateHard a) && negb (wcsp_isfinite info p))
             | None => true
             end
    | None =>
        match problem_in a with
        | Some p => negb (negb (duplicateHard a) && negb (wcsp_isfinite info p))
        | None => true
        end
    end
    (strongDuality_in a) (lb_in a) (ub_in a)
    match negproblem_in a with
    | Some n =>
        match problem_in a with
        | Some p => MIN_COST + getNegativeLb info p
        | None => MIN_COST
        end + getNegativeLb info n
    | None =>
        match problem_in a with
        | Some p => MIN_COST + getNegativeLb info p
        | None => MIN_COST
        end
    end
    (problem_in a) (negproblem_in a) (scope_in a)
    (map Z.of_nat (seq 0 (length (scope_in a))))
  = built info a.
Proof.
  unfold built, slave_finite, slave_shift.
  destruct (problem_in a), (negproblem_in a), (duplicateHard a); cbn;
    repeat match goal with |- context [wcsp_isfinite info ?w] =>
             destruct (wcsp_isfinite info w) end; cbn;
    f_equal; unfold MIN_COST; lia.
Qed.

(** The statics and the heap on normal return. *)
Lemma construct_family a s :
  wp (construct handler info a)
     (fun g s' => g = length (objects (fam s)) /\
                  fam s' = family_after info a (fam s) g /\
                  lb_in a < ub_in a)
     (fun _ _ => True) s.
Proof.
  unfold construct.
  apply wp_keep; [apply keeps_fam_call|]. intros _ s1 F1.
  wp_step. wp_step. rewrite F1.
  apply wp_keep; [apply keeps_fam_modify_world|]. intros _ s2 F2.
  apply wp_keep; [apply keeps_fam_when_some; intros; apply keeps_fam_assert|].
  intros _ s3 F3.
  apply wp_keep; [apply keeps_fam_when_some; intros; apply keeps_fam_assert|].
  intros _ s4 F4.
  wp_step. destruct (ub_in a <=? lb_in a) eqn:Hb.
  { wp_step. unfold print_cerr. wp_step. wp_step. trivial. }
  apply Z.leb_gt in Hb. wp_step.
  apply wp_keep; [apply keeps_fam_when_some; intros; apply keeps_fam_assert|].
  intros _ s5 F5.
  apply wp_keep; [apply keeps_fam_when_some; intros; apply keeps_fam_assert|].
  intros _ s6 F6.
  apply wp_keep; [apply keeps_fam_modify_world|]. intros _ s7 F7.
  apply wp_keep; [apply keeps_fam_modify_world|]. intros _ s8 F8.
  assert (E8 : fam s8 = fam s) by congruence.
  wp_step. unfold modify_fam at 1. wp_step.
  match goal with |- wp _ _ _ ?st => set (s9 := st) end.
  wp_step.
  set (t0 := if master_changes (fam s) a then [] else WeightedCSPConstraints (fam s)).
  assert (E9 : fam s9 = mkFamily (Some (wcsp_in a)) t0 (objects (fam s))).
  { subst s9 t0. cbn [fam]. rewrite E8. unfold master_changes.
    destruct (MasterWeightedCSP (fam s)) as [m|]; [|destruct (fam s); reflexivity].
    destruct (negb (m =? wcsp_in a)); reflexivity. }
  clearbody s9.
  set (this := length (objects (fam s))).
  set (t1 := match problem_in a with
             | Some p => tbl_insert t0 p this
             | None => t0
             end).
  eapply wp_mono with
    (Q := fun _ s' => fam s' = mkFamily (Some (wcsp_in a)) t1 (objects (fam s)))
    (T := fun _ _ => True); [| |trivial].
  { subst t1. destruct (problem_in a) as [p|]; cbn [when_some]; [|exact E9].
    wp_step. unfold register, modify_fam. wp_step.
    match goal with |- wp _ _ _ ?st => set (sa := st) end.
    assert (Ea : fam sa = mkFamily (Some (wcsp_in a)) (tbl_insert t0 p this)
                                   (objects (fam s))).
    { subst sa. cbn [fam]. rewrite E9. reflexivity. }
    clearbody sa.
    eapply wp_mono; [apply (keeps_fam_bind (call handler (SetSolver p)))| |trivial].
    - apply keeps_fam_call.
    - intros _. apply keeps_fam_bind; [apply keeps_fam_call|].
      intros _. apply keeps_fam_call.
    - intros u s' E. cbn beta in E. congruence. }
  intros u10 s10 E10. cbn beta.
  wp_step.
  set (t2 := match negproblem_in a with
             | Some n => tbl_insert t1 n this
             | None => t1
             end).
  eapply wp_mono with
    (Q := fun _ s' => fam s' = mkFamily (Some (wcsp_in a)) t2 (objects (fam s)))
    (T := fun _ _ => True); [| |trivial].
  { subst t2. destruct (negproblem_in a) as [n|]; cbn [when_some]; [|exact E10].
    wp_step. unfold register, modify_fam. wp_step.
    match goal with |- wp _ _ _ ?st => set (sa := st) end.
    assert (Ea : fam sa = mkFamily (Some (wcsp_in a)) (tbl_insert t1 n this)
                                   (objects (fam s))).
    { subst sa. cbn [fam]. rewrite E10. reflexivity. }
    clearbody sa.
    eapply wp_mono; [apply (keeps_fam_bind (call handler (SetSolver n)))| |trivial].
    - apply keeps_fam_call.
    - intros _. apply keeps_fam_bind; [apply keeps_fam_call|].
      intros _. apply keeps_fam_call.
    - intros u s' E. cbn beta in E. congruence. }
  intros u11 s11 E11. cbn beta.
  wp_step. unfold modify_fam. wp_step. wp_step.
  split; [reflexivity|]. split; [|exact Hb].
  cbn [fam]. rewrite E11. cbn [MasterWeightedCSP WeightedCSPConstraints objects].
  unfold family_after. fold t0. fold this. fold t1. fold t2.
  f_equal. f_equal. f_equal.
  destruct (negproblem_in a) eqn:Hn, (problem_in a) eqn:Hp;
    pose proof (built_eq a) as B; rewrite Hn, Hp in B; exact B.
Qed.

End CtorRegisters.

Section Returns.
Context {St : Type}.

Lemma returns_bind {A B} (m : M St A) (k : A -> M St B) :
  returns m -> (forall x, returns (k x)) -> returns (bind m k).
Proof.
  intros Hm Hk s. apply wp_bind. eapply wp_mono; [apply Hm| |trivial].
  intros x s' _. apply Hk.
Qed.

Lemma returns_ret {A} (x : A) : returns (@ret St A x).
Proof. intros s. exact I. Qed.

Lemma returns_gets {A} (f : St -> A) : returns (gets f).
Proof. intros s. exact I. Qed.

Lemma returns_modify (f : St -> St) : returns (modify f).
Proof. intros s. exact I. Qed.

Lemma returns_assert (b : bool) : b = true -> returns (@assert St b).
Proof. intros -> s. exact I. Qed.

Lemma returns_when_some {A} (o : option A) (m : A -> M St unit) :
  (forall x, o = Some x -> returns (m x)) -> returns (when_some o m).
Proof. intros H s. destruct o; cbn; [apply H; reflexivity|exact I]. Qed.

Lemma returns_elim {A} (m : M St A) s : returns m -> exists x s', m s = Ret x s'.
Proof.
  intros H. specialize (H s). unfold wp in H.
  destruct (m s) as [x s'|e s']; [eauto|contradiction].
Qed.

End Returns.

Section CtorReturns.
Context {X : Type}.
Variable handler : Handler X.
Variable info : ProblemInfo.
Implicit Types (s : Sys X) (a : CtorArgs).

Lemma returns_call c : calls_return handler -> returns (call handler c).
Proof.
  intros H s. apply wp_call. destruct (H c (world s)) as [w' ->]. exact I.
Qed.

Lemma construct_returns a :
  calls_return handler -> lb_in a < ub_in a ->
  arities_match info a -> domains_match info a ->
  returns (construct handler info a).
Proof.
  intros Hc Hb [Ha1 Ha2] [Hd1 Hd2]. unfold construct.
  assert (Hleb : (ub_in a <=? lb_in a) = false) by (apply Z.leb_gt; exact Hb).
  rewrite Hleb.
  repeat first
    [ apply returns_bind; [|intros ?]
    | apply returns_call; exact Hc
    | apply returns_gets
    | apply returns_modify
    | apply returns_ret
    | apply returns_when_some; intros ? ? ].
  - apply returns_assert, Z.eqb_eq, Ha1. assumption.
  - apply returns_assert, Z.eqb_eq, Ha2. assumption.
  - apply returns_assert, Hd1. assumption.
  - apply returns_assert, Hd2. assumption.
Qed.

(** X4: the constructor enters the object it builds in the table.  Whenever
    it returns, the feasibility window is not empty, the new object sits at
    the returned address behind the objects that were there, the master is
    the WCSP of the call, and looking up the index of the slave, or of the
    negated slave, in [WeightedCSPConstraints] finds the new object.  It does
    return when the window is not empty, the arities and the domain sizes
    match and every call into the solver returns. *)
Theorem construct_registers a s :
  wp (construct handler info a)
     (fun g s' =>
        lb_in a < ub_in a /\
        g = length (objects (fam s)) /\
        objects (fam s') = objects (fam s) ++ [built info a] /\
        nth_error (objects (fam s')) g = Some (built info a) /\
        MasterWeightedCSP (fam s') = Some (wcsp_in a) /\
        (forall p, problem_in a = Some p ->
           tbl_find (WeightedCSPConstraints (fam s')) p = Some g) /\
        (forall n, negproblem_in a = Some n ->
           tbl_find (WeightedCSPConstraints (fam s')) n = Some g))
     (fun _ _ => True) s
  /\ (calls_return handler -> lb_in a < ub_in a ->
      arities_match info a -> domains_match info a ->
      exists g s', construct handler info a s = Ret g s').
Proof.
  split.
  - eapply wp_mono; [apply construct_family| |trivial].
    intros g s' (-> & -> & Hb). cbn beta. unfold family_after.
    cbn [objects MasterWeightedCSP WeightedCSPConstraints].
    repeat split; try assumption.
    + rewrite nth_error_app2, Nat.sub_diag by lia. reflexivity.
    + intros p ->. destruct (negproblem_in a) as [n|].
      * destruct (Z.eq_dec p n) as [->|Hne].
        -- apply tbl_find_insert_eq.
        -- rewrite tbl_find_insert_ne by exact Hne. apply tbl_find_insert_eq.
      * apply tbl_find_insert_eq.
    + intros n ->. apply tbl_find_insert_eq.
  - intros Hc Hb Ha Hd. apply returns_elim, construct_returns; assumption.
Qed.

(** X5: what the constructor does to the other entries of the table.
    Whenever it returns, an index that belongs to neither slave of the new
    object keeps its entry if the call is for the master the table was built
    for (or for the first one), and has none if the call is for another
    master: the table is emptied first. *)
Theorem construct_other_entries a s :
  wp (construct handler info a)
     (fun g s' =>
        forall k, problem_in a <> Some k -> negproblem_in a <> Some k ->
          tbl_find (WeightedCSPConstraints (fam s')) k
          = if master_changes (fam s) a then None
            else tbl_find (WeightedCSPConstraints (fam s)) k)
     (fun _ _ => True) s.
Proof.
  eapply wp_mono; [apply construct_family| |trivial].
  intros g s' (-> & -> & Hb) k Hp Hn. unfold family_after.
  cbn [WeightedCSPConstraints].
  set (t0 := if master_changes (fam s) a then [] else WeightedCSPConstraints (fam s)).
  assert (E0 : tbl_find t0 k = if master_changes (fam s) a then None
                               else tbl_find (WeightedCSPConstraints (fam s)) k).
  { subst t0. destruct (master_changes (fam s) a); reflexivity. }
  rewrite <- E0.
  destruct (negproblem_in a) as [n|], (problem_in a) as [p|];
    rewrite ?tbl_find_insert_ne by congruence; reflexivity.
Qed.

End CtorReturns.

Section CtorFails.
Context {X : Type}.
Variable handler : Handler X.
Variable info : ProblemInfo.
Implicit Types (s : Sys X) (a : CtorArgs).

Lemma wp_steady {A B} (m : M (Sys X) A) (k : A -> M (Sys X) B)
  (Q : B -> Sys X -> Prop) T s :
  steady m ->
  (forall x s', fam s' = fam s -> wp (k x) Q T s') ->
  wp (bind m k) Q T s.
Proof.
  intros Hm Hk. apply wp_bind. eapply wp_mono; [apply Hm| |contradiction].
  intros x s' E. apply Hk, E.
Qed.

Lemma steady_call c :
  (forall w, exists w', handler c w = Ret tt w') -> steady (call handler c).
Proof.
  intros H s. apply wp_call. destruct (H (world s)) as [w' ->]. reflexivity.
Qed.

Lemma steady_assert b : b = true -> steady (@assert (Sys X) b).
Proof. intros -> s. reflexivity. Qed.

Lemma steady_when_some {A} (o : option A) (m : A -> M (Sys X) unit) :
  (forall x, o = Some x -> steady (m x)) -> steady (when_some o m).
Proof. intros H s. destruct o; cbn; [apply H|]; reflexivity. Qed.

Lemma steady_modify_world f : steady (@modify_world X f).
Proof. intros s. reflexivity. Qed.

(** X6: a Contradiction raised by [problem->enforceUb()] inside the
    constructor leaves a dangling entry.  When every other call returns and
    the checks on the arguments pass, the constructor ends with that
    Contradiction; no object has been added to the heap, yet the table holds,
    under the index of the slave, the address the object would have had. *)
Theorem construct_failure_leaves_entry a s p :
  problem_in a = Some p ->
  (forall c w, c <> EnforceUb p -> exists w', handler c w = Ret tt w') ->
  (forall w, exists w', handler (EnforceUb p) w = Throw Contradiction w') ->
  lb_in a < ub_in a -> arities_match info a -> domains_match info a ->
  exists s',
    construct handler info a s = Throw Contradiction s' /\
    objects (fam s') = objects (fam s) /\
    tbl_find (WeightedCSPConstraints (fam s')) p = Some (length (objects (fam s))) /\
    nth_error (objects (fam s')) (length (objects (fam s))) = None.
Proof.
  intros Hp Hret Hthrow Hb [Ha1 Ha2] [Hd1 Hd2].
  assert (Hleb : (ub_in a <=? lb_in a) = false) by (apply Z.leb_gt; exact Hb).
  assert (Hcall : forall c, c <> EnforceUb p -> steady (call handler c)).
  { intros c Hc. apply steady_call. intros w. apply Hret, Hc. }
  assert (W : wp (construct handler info a) (fun _ _ => False)
                 (fun e s' =>
                    e = Contradiction /\ objects (fam s') = objects (fam s) /\
                    tbl_find (WeightedCSPConstraints (fam s')) p
                    = Some (length (objects (fam s)))) s).
  { unfold construct.
    apply wp_steady; [apply Hcall; discriminate|]. intros _ s1 F1.
    wp_step. wp_step. rewrite F1.
    apply wp_steady; [apply steady_modify_world|]. intros _ s2 F2.
    apply wp_steady.
    { apply steady_when_some. intros q Hq. apply steady_assert, Z.eqb_eq, Ha1, Hq. }
    intros _ s3 F3.
    apply wp_steady.
    { apply steady_when_some. intros q Hq. apply steady_assert, Z.eqb_eq, Ha2, Hq. }
    intros _ s4 F4. rewrite Hleb. wp_step. wp_step.
    apply wp_steady.
    { apply steady_when_some. intros q Hq. apply steady_assert, Hd1, Hq. }
    intros _ s5 F5.
    apply wp_steady.
    { apply steady_when_some. intros q Hq. apply steady_assert, Hd2, Hq. }
    intros _ s6 F6.
    apply wp_steady; [apply steady_modify_world|]. intros _ s7 F7.
    apply wp_steady; [apply steady_modify_world|]. intros _ s8 F8.
    assert (E8 : objects (fam s8) = objects (fam s)) by congruence.
    wp_step. unfold modify_fam at 1. wp_step.
    match goal with |- wp _ _ _ ?st => set (s9 := st) end.
    assert (E9 : objects (fam s9) = objects (fam s)).
    { subst s9. cbn [fam]. destruct (MasterWeightedCSP (fam s8)) as [m|];
        [destruct (negb (m =? wcsp_in a))|]; exact E8. }
    clearbody s9. rewrite Hp. cbn [when_some].
    wp_step. wp_step. unfold register, modify_fam. wp_step.
    match goal with |- wp _ _ _ ?st => set (sa := st) end.
    assert (Ea : objects (fam sa) = objects (fam s) /\
                 tbl_find (WeightedCSPConstraints (fam sa)) p
                 = Some (length (objects (fam s)))).
    { subst sa. cbn [fam objects WeightedCSPConstraints]. split; [exact E9|].
      apply tbl_find_insert_eq. }
    clearbody sa. destruct Ea as [Ea1 Ea2].
    apply wp_steady; [apply Hcall; discriminate|]. intros _ sb Fb.
    apply wp_steady; [apply Hcall; discriminate|]. intros _ sc Fc.
    apply wp_call.
    destruct (Hthrow (world sc)) as [w' ->]. cbn [fam].
    repeat split; congruence. }
  unfold wp in W.
  destruct (construct handler info a s) as [g s'|e s']; [contradiction|].
  destruct W as (-> & Ho & Ht). exists s'. repeat split; try assumption.
  rewrite Ho. apply nth_error_None. lia.
Qed.

End CtorFails.

(** * Events from an unknown WCSP *)

Section UnknownOrigin.
Context {X : Type}.
Variable handler : Handler X.
Implicit Types (s : Sys X) (k : EventKind).

(** X7: a callback checks where the event comes from before it does
    anything.  While no meta-constraint has been built, or for a WCSP that is
    neither the master nor a key of [WeightedCSPConstraints], each of the
    four callbacks fails its assertion at once: no call is made, nothing is
    forwarded and the state is the one it was entered with. *)
Theorem tb2event_unknown_origin k wcspId varIndex value s :
  MasterWeightedCSP (fam s) = None \/
  (MasterWeightedCSP (fam s) <> Some wcspId /\
   tbl_find (WeightedCSPConstraints (fam s)) wcspId = None) ->
  tb2event handler k wcspId varIndex value s = Throw Abort s.
Proof.
  intros H. unfold tb2event, bind, gets.
  destruct (MasterWeightedCSP (fam s)) as [m|] eqn:Hm; cbn.
  - destruct H as [H|[Hne Hf]]; [discriminate|]. rewrite Hf.
    assert (E : (wcspId =? m) = false) by (apply Z.eqb_neq; congruence).
    rewrite E. cbn. reflexivity.
  - reflexivity.
Qed.

End UnknownOrigin.

(** * Conflict weights *)

Lemma index_from_range l v i :
  index_from l v i = -1 \/ i <= index_from l v i < i + Z.of_nat (length l).
Proof.
  revert i. induction l as [|x l IH]; intros i; cbn [index_from length].
  - left. reflexivity.
  - destruct (x =? v).
    + right. lia.
    + destruct (IH (i + 1)) as [H|H]; [left; exact H|right; lia].
Qed.

Lemma getIndex_range gc v : 0 <= getIndex gc v -> getIndex gc v < arity_ gc.
Proof.
  unfold getIndex, arity_. intros H.
  destruct (index_from_range (scope gc) v 0) as [E|E]; lia.
Qed.

Lemma total_weight_insert cw i x y :
  cw !! i = Some x ->
  total_weight (<[i := y]> cw) = total_weight cw - x + y.
Proof.
  unfold total_weight.
  revert i. induction cw as [|c cw IH]; intros [|i] H; try discriminate.
  - cbn in H. injection H as ->. cbn. lia.
  - simpl in H. specialize (IH i H). simpl. lia.
Qed.

Lemma bump_spec i cw :
  (i < length cw)%nat ->
  exists cw', bump i cw = Some cw' /\ length cw' = length cw /\
    total_weight cw' = total_weight cw + 1 /\
    forall j, nth j cw' 0 = nth j cw 0 + (if Nat.eqb j i then 1 else 0).
Proof.
  intros Hi. unfold bump.
  destruct (lookup_lt_is_Some_2 cw i Hi) as [x Hx]. rewrite Hx.
  eexists. split; [reflexivity|]. split; [apply length_insert|].
  split; [rewrite (total_weight_insert _ _ _ _ Hx); lia|].
  intros j. destruct (Nat.eqb j i) eqn:E.
  - apply Nat.eqb_eq in E. subst j.
    rewrite (nth_lookup_Some _ _ 0 _ Hx).
    erewrite nth_lookup_Some; [reflexivity|].
    apply list_lookup_insert_eq. exact Hi.
  - apply Nat.eqb_neq in E. rewrite Z.add_0_r.
    rewrite !nth_lookup. rewrite list_lookup_insert_ne by congruence. reflexivity.
Qed.

Ltac split_nat_tests :=
  repeat match goal with
         | |- context [(?a <=? ?b)%nat] => destruct (Nat.leb_spec a b)
         | |- context [(?a <? ?b)%nat] => destruct (Nat.ltb_spec a b)
         | |- context [Nat.eqb ?a ?b] => destruct (Nat.eqb_spec a b)
         end.

Lemma bump_connected_spec connected n : forall i cw,
  (i + n <= length cw)%nat ->
  exists cw', bump_connected connected i n cw = Some cw' /\
    length cw' = length cw /\
    forall j, nth j cw' 0
              = nth j cw 0
                + (if (i <=? j)%nat && (j <? i + n)%nat && connected (Z.of_nat j)
                   then 1 else 0).
Proof.
  induction n as [|n IH]; intros i cw Hl; cbn [bump_connected].
  - exists cw. split; [reflexivity|]. split; [reflexivity|]. intros j.
    split_nat_tests; cbn [andb]; lia.
  - destruct (connected (Z.of_nat i)) eqn:Hc.
    + destruct (bump_spec i cw) as (cw1 & -> & L1 & _ & N1); [lia|].
      destruct (IH (S i) cw1) as (cw2 & E2 & L2 & N2); [lia|].
      exists cw2. split; [exact E2|]. split; [congruence|]. intros j.
      rewrite N2, N1.
      split_nat_tests; cbn [andb]; subst; rewrite ?Hc; try lia;
        destruct (connected (Z.of_nat j)); lia.
    + destruct (IH (S i) cw) as (cw2 & E2 & L2 & N2); [lia|].
      exists cw2. split; [exact E2|]. split; [exact L2|]. intros j.
      rewrite N2.
      split_nat_tests; cbn [andb]; try lia;
        try (replace j with i in * by lia; rewrite Hc; lia);
        destruct (connected (Z.of_nat j)); lia.
Qed.

Lemma bump_shared_spec gc sc : forall cw,
  length cw = length (scope gc) ->
  exists cw', bump_shared gc sc cw = Some cw' /\
    length cw' = length cw /\
    (forall j, nth j cw 0 <= nth j cw' 0) /\
    total_weight cw' = total_weight cw + Z.of_nat (length (shared_vars gc sc)).
Proof.
  induction sc as [|v sc IH]; intros cw Hl; cbn [bump_shared shared_vars List.filter].
  - exists cw. repeat split; [intros; lia|cbn; lia].
  - fold (shared_vars gc sc). destruct (0 <=? getIndex gc v) eqn:H0.
    + apply Z.leb_le in H0. pose proof (getIndex_range gc v H0) as H1.
      replace (getIndex gc v <? arity_ gc) with true
        by (symmetry; apply Z.ltb_lt; exact H1).
      destruct (bump_spec (Z.to_nat (getIndex gc v)) cw) as (cw1 & -> & L1 & T1 & N1).
      { unfold arity_ in H1. lia. }
      destruct (IH cw1) as (cw2 & E2 & L2 & M2 & T2); [congruence|].
      exists cw2. split; [exact E2|]. split; [congruence|]. split.
      * intros j. specialize (M2 j). rewrite N1 in M2.
        destruct (Nat.eqb j (Z.to_nat (getIndex gc v))); lia.
      * rewrite T2, T1. cbn [length]. lia.
    + destruct (IH cw Hl) as (cw2 & E2 & L2 & M2 & T2).
      exists cw2. repeat split; assumption.
Qed.

(** X8: a conflict blamed on the constraint itself.  While the constraint is
    connected and at least one of its variables is assigned,
    [incConflictWeight(this)] adds one to the weight of every position that
    is still connected and leaves the other weights, the length of the vector
    and the base class alone; when the constraint is deconnected, or none of
    its variables is assigned, it leaves the vector alone and hands the
    increment to the base class. *)
Theorem incConflictWeight_self gc deconnected nonassigned connected W :
  length (conflictWeights W) = length (scope gc) ->
  (deconnected || (nonassigned =? arity_ gc) = true ->
   incConflictWeight gc deconnected nonassigned connected FromThis W
   = Some (mkWeights (conflictWeights W) (base_calls W ++ [IncConflictWeight 1])))
  /\ (deconnected || (nonassigned =? arity_ gc) = false ->
      exists W',
        incConflictWeight gc deconnected nonassigned connected FromThis W = Some W' /\
        base_calls W' = base_calls W /\
        length (conflictWeights W') = length (conflictWeights W) /\
        forall j, (j < length (scope gc))%nat ->
          nth j (conflictWeights W') 0
          = nth j (conflictWeights W) 0
            + (if connected (Z.of_nat j) then 1 else 0)).
Proof.
  intros Hl. unfold incConflictWeight. split; intros ->; [reflexivity|].
  destruct (bump_connected_spec connected (length (scope gc)) 0 (conflictWeights W))
    as (cw' & -> & L & N); [lia|].
  eexists. split; [reflexivity|]. cbn. repeat split; [exact L|].
  intros j Hj. rewrite N.
  replace (0 <=? j)%nat with true by (symmetry; apply Nat.leb_le; lia).
  replace (j <? 0 + length (scope gc))%nat with true
    by (symmetry; apply Nat.ltb_lt; lia).
  reflexivity.
Qed.

Lemma bump_shared_exact gc sc : forall cw cw',
  length cw = length (scope gc) ->
  bump_shared gc sc cw = Some cw' ->
  forall j, nth j cw' 0 = nth j cw 0 + Z.of_nat (hits gc sc j).
Proof.
  unfold hits.
  induction sc as [|v sc IH]; intros cw cw' Hl H j;
    cbn [bump_shared List.filter] in *.
  - injection H as <-. cbn. lia.
  - destruct (0 <=? getIndex gc v) eqn:H0.
    + apply Z.leb_le in H0. pose proof (getIndex_range gc v H0) as H1.
      rewrite (proj2 (Z.ltb_lt _ _) H1) in H.
      destruct (bump_spec (Z.to_nat (getIndex gc v)) cw) as (cw1 & E1 & L1 & T1 & N1).
      { unfold arity_ in H1. lia. }
      rewrite E1 in H. rewrite (IH cw1 cw' ltac:(congruence) H j), N1.
      destruct (Z.eqb_spec (getIndex gc v) (Z.of_nat j)) as [E|E].
      * replace (Nat.eqb j (Z.to_nat (getIndex gc v))) with true
          by (symmetry; apply Nat.eqb_eq; lia).
        cbn [length]. lia.
      * replace (Nat.eqb j (Z.to_nat (getIndex gc v))) with false
          by (symmetry; apply Nat.eqb_neq; lia).
        lia.
    + apply Z.leb_gt in H0.
      replace (getIndex gc v =? Z.of_nat j) with false
        by (symmetry; apply Z.eqb_neq; lia).
      apply (IH cw cw' Hl H j).
Qed.

(** X9: a conflict blamed on another constraint.  It is ignored while the
    constraint is connected.  Once the constraint is deconnected, every
    variable of the other constraint that belongs to the scope adds one to
    the weight of its position: the weight of a position grows by the number
    of variables of the other constraint that sit at it, so that no weight
    decreases and the sum of the weights grows by the number of shared
    variables; the vector keeps its length and the base class is not
    called. *)
Theorem incConflictWeight_other gc deconnected nonassigned connected sc W :
  length (conflictWeights W) = length (scope gc) ->
  (deconnected = false ->
   incConflictWeight gc deconnected nonassigned connected (FromOther sc) W = Some W)
  /\ (deconnected = true ->
      exists W',
        incConflictWeight gc deconnected nonassigned connected (FromOther sc) W
        = Some W' /\
        base_calls W' = base_calls W /\
        length (conflictWeights W') = length (conflictWeights W) /\
        (forall j, nth j (conflictWeights W') 0
                   = nth j (conflictWeights W) 0 + Z.of_nat (hits gc sc j)) /\
        (forall j, nth j (conflictWeights W) 0 <= nth j (conflictWeights W') 0) /\
        total_weight (conflictWeights W')
        = total_weight (conflictWeights W)
          + Z.of_nat (length (shared_vars gc sc))).
Proof.
  intros Hl. unfold incConflictWeight. split; intros ->; [reflexivity|].
  destruct (bump_shared_spec gc sc (conflictWeights W) Hl)
    as (cw' & E & L & Mn & T).
  pose proof (bump_shared_exact gc sc (conflictWeights W) cw' Hl E) as Hx.
  rewrite E. eexists. split; [reflexivity|]. cbn. repeat split; assumption.
Qed.

(** * [evalsubstrAny] *)

Lemma found_vars_length ctr_scope sc :
  (length (found_vars ctr_scope sc) <= length sc)%nat.
Proof. apply List.filter_length_le. Qed.

Lemma found_vars_all ctr_scope sc :
  Forall (fun v => 0 <= index_from ctr_scope v 0) sc ->
  found_vars ctr_scope sc = sc.
Proof.
  induction 1 as [|v sc Hv _ IH]; cbn; [reflexivity|].
  fold (found_vars ctr_scope sc).
  replace (0 <=? index_from ctr_scope v 0) with true
    by (symmetry; apply Z.leb_le; exact Hv).
  rewrite IH. reflexivity.
Qed.

Lemma found_vars_missing ctr_scope sc v :
  In v sc -> index_from ctr_scope v 0 = -1 ->
  (length (found_vars ctr_scope sc) < length sc)%nat.
Proof.
  induction sc as [|x sc IH]; intros Hin Hv; [destruct Hin|].
  cbn. fold (found_vars ctr_scope sc). destruct Hin as [->|Hin].
  - rewrite Hv. cbn. pose proof (found_vars_length ctr_scope sc). lia.
  - specialize (IH Hin Hv).
    destruct (0 <=? index_from ctr_scope x 0); cbn [length]; lia.
Qed.

Lemma gather_spec ctr_scope s sc : forall i evalTuple count,
  length s = length ctr_scope ->
  (i + length sc <= length evalTuple)%nat ->
  exists t,
    gather ctr_scope sc i s evalTuple count
    = Some (t, count + Z.of_nat (length (found_vars ctr_scope sc))) /\
    length t = length evalTuple /\
    (forall j, (j < i)%nat -> nth j t 0 = nth j evalTuple 0) /\
    (Forall (fun v => 0 <= index_from ctr_scope v 0) sc ->
     forall k, (k < length sc)%nat ->
       nth (i + k) t 0 = nth k (project_tuple ctr_scope sc s) 0).
Proof.
  induction sc as [|v sc IH]; intros i evalTuple count Hs Hl; cbn [gather].
  - exists evalTuple. cbn. rewrite Z.add_0_r.
    split; [reflexivity|]. split; [reflexivity|]. split; [reflexivity|].
    intros _ k Hk. lia.
  - cbn [found_vars List.filter]. fold (found_vars ctr_scope sc).
    cbn [length] in Hl.
    destruct (0 <=? index_from ctr_scope v 0) eqn:H0.
    + apply Z.leb_le in H0.
      destruct (index_from_range ctr_scope v 0) as [E|E]; [lia|].
      destruct (lookup_lt_is_Some_2 s (Z.to_nat (index_from ctr_scope v 0)))
        as [x Hx]; [lia|].
      rewrite Hx.
      replace (i <? length evalTuple)%nat with true
        by (symmetry; apply Nat.ltb_lt; lia).
      destruct (IH (S i) (<[i := x]> evalTuple) (count + 1) Hs)
        as (t & Et & Lt & Pre & Full).
      { rewrite length_insert. lia. }
      exists t. split; [rewrite Et; f_equal; f_equal; cbn [length]; lia|].
      split; [rewrite Lt; apply length_insert|]. split.
      * intros j Hj. rewrite Pre by lia. rewrite !nth_lookup.
        rewrite list_lookup_insert_ne by lia. reflexivity.
      * intros Hall k Hk. apply Forall_cons_1 in Hall as [_ Hall].
        destruct k as [|k].
        -- rewrite Nat.add_0_r, Pre by lia. cbn.
           rewrite (nth_lookup_Some _ _ 0 _ Hx).
           apply nth_lookup_Some. apply list_lookup_insert_eq. lia.
        -- replace (i + S k)%nat with (S i + k)%nat by lia.
           rewrite Full; [reflexivity|exact Hall|cbn [length] in Hk; lia].
    + destruct (IH (S i) evalTuple count Hs) as (t & Et & Lt & Pre & Full); [lia|].
      exists t. split; [exact Et|]. split; [exact Lt|]. split.
      * intros j Hj. apply Pre. lia.
      * intros Hall. apply Forall_cons_1 in Hall as [Hv _].
        apply Z.leb_gt in H0. lia.
Qed.

Section EvalsubstrFacts.
Context {X : Type}.
Variable handler : Handler X.
Variable info : ProblemInfo.
Variable MAX_COST : Cost.

(** X10: [evalsubstrAny] on a constraint that misses a variable of the scope.
    When [ctr] does not hold every variable of the meta-constraint, the cost
    is [MIN_COST] and the slaves are not probed: no call is made and the
    state of the solver is the one the function was entered with. *)
Theorem evalsubstr_partial_scope g gc ctr_scope s evalTuple v (s0 : Sys X) :
  nth_error (objects (fam s0)) g = Some gc ->
  length s = length ctr_scope ->
  length evalTuple = length (scope gc) ->
  In v (scope gc) -> index_from ctr_scope v 0 = -1 ->
  exists t,
    evalsubstrAny handler info MAX_COST g ctr_scope s evalTuple s0
    = Ret (MIN_COST, t) s0.
Proof.
  intros Hgc Hs Hl Hin Hv.
  unfold evalsubstrAny, deref, bind, gets. rewrite Hgc. cbn [deref_opt ret].
  destruct (gather_spec ctr_scope s (scope gc) 0 evalTuple 0 Hs)
    as (t & -> & _); [lia|].
  pose proof (found_vars_missing ctr_scope (scope gc) v Hin Hv) as Hlt.
  exists t. unfold arity_.
  replace (0 + Z.of_nat (length (found_vars ctr_scope (scope gc)))
           <=? Z.of_nat (length (scope gc))) with true
    by (symmetry; apply Z.leb_le; lia).
  replace (0 + Z.of_nat (length (found_vars ctr_scope (scope gc)))
           =? Z.of_nat (length (scope gc))) with false
    by (symmetry; apply Z.eqb_neq; lia).
  reflexivity.
Qed.

(** X11: [evalsubstrAny] on a constraint that holds every variable of the
    scope.  The tuple of [ctr] is projected on the scope, each position
    reading the value [ctr] has for its variable, and the cost is the one
    [eval] gives for this projection; what the buffer [evalTuple] held before
    the call plays no part. *)
Theorem evalsubstr_full_scope g gc ctr_scope s evalTuple (s0 : Sys X) :
  nth_error (objects (fam s0)) g = Some gc ->
  length s = length ctr_scope ->
  length evalTuple = length (scope gc) ->
  Forall (fun v => 0 <= index_from ctr_scope v 0) (scope gc) ->
  evalsubstrAny handler info MAX_COST g ctr_scope s evalTuple s0
  = (cost <- eval handler info MAX_COST g (project_tuple ctr_scope (scope gc) s);;
     ret (cost, project_tuple ctr_scope (scope gc) s)) s0.
Proof.
  intros Hgc Hs Hl Hall.
  unfold evalsubstrAny, deref. unfold bind at 1 2. unfold gets at 1.
  rewrite Hgc. cbn [deref_opt ret].
  destruct (gather_spec ctr_scope s (scope gc) 0 evalTuple 0 Hs)
    as (t & -> & Lt & _ & Full); [lia|].
  rewrite (found_vars_all _ _ Hall). unfold arity_.
  rewrite Z.add_0_l, Z.leb_refl, Z.eqb_refl. cbn [assert].
  assert (Et : t = project_tuple ctr_scope (scope gc) s).
  { apply (nth_ext _ _ 0 0).
    - unfold project_tuple. rewrite length_map. congruence.
    - intros k Hk. apply (Full Hall k). lia. }
  rewrite Et. reflexivity.
Qed.

End EvalsubstrFacts.

(** * The cost tables of arity one to three *)

Lemma reader_eta r :
  mkReader (tokens r) (wcsp_negCost r) (wcsp_ub r) (posted r) = r.
Proof. destruct r; reflexivity. Qed.

Lemma getNextToken_cons t ts r :
  tokens r = t :: ts ->
  getNextToken r = Ret t (mkReader ts (wcsp_negCost r) (wcsp_ub r) (posted r)).
Proof. intros H. unfold getNextToken. rewrite H. reflexivity. Qed.

Lemma nonempty_split {A} (l : list A) (b : A) rest :
  exists x tl, l ++ b :: rest = x :: tl.
Proof. destruct l; cbn; eauto. Qed.

Lemma getValueIdx_names domainInitSize varValNameToIdx v t i r :
  names_value domainInitSize varValNameToIdx v t i ->
  getValueIdx domainInitSize varValNameToIdx v t r = Ret i r.
Proof.
  intros [_ H]. unfold getValueIdx. destruct (isdigit0 t); cbn [negb].
  - destruct H as [-> [H0 H1]].
    replace ((i <? 0) || (domainInitSize v <=? i)) with false; [reflexivity|].
    symmetry. apply orb_false_iff. split; [apply Z.ltb_ge|apply Z.leb_gt]; lia.
  - rewrite H. reflexivity.
Qed.

Lemma same_wcsp_refl r : same_wcsp r r.
Proof. repeat split. Qed.

Lemma same_wcsp_trans r1 r2 r3 :
  same_wcsp r1 r2 -> same_wcsp r2 r3 -> same_wcsp r1 r3.
Proof. unfold same_wcsp. intros (A & B & C) (D & E & F). repeat split; congruence. Qed.

Lemma getNextToken_same r :
  wp getNextToken (fun _ r' => same_wcsp r r') (fun _ _ => False) r.
Proof.
  unfold wp, getNextToken. destruct (tokens r); cbn; repeat split.
Qed.

Lemma skipCBrace_same r :
  wp skipCBrace (fun _ r' => same_wcsp r r') (fun _ _ => True) r.
Proof.
  unfold skipCBrace. wp_step. eapply wp_mono; [apply getNextToken_same| |contradiction].
  intros t r' H. cbn beta. destruct (isCBrace t); cbn; auto.
Qed.

Lemma decimalToCostM_pure decimalToCost token (Q : Cost -> Reader -> Prop) r :
  (forall c, decimalToCost token = Some c -> Q c r) ->
  wp (decimalToCostM decimalToCost token) Q (fun _ _ => True) r.
Proof.
  intros H. unfold decimalToCostM. destruct (decimalToCost token); cbn; auto.
Qed.

Lemma getValueIdx_pure dom names v token (Q : Z -> Reader -> Prop) r :
  (forall i, Q i r) ->
  wp (getValueIdx dom names v token) Q (fun _ _ => True) r.
Proof.
  intros H. unfold getValueIdx.
  destruct (negb (isdigit0 token)).
  - destruct (names v token); cbn; auto.
  - destruct (stoi token); cbn; auto.
    destruct ((z <? 0) || (dom v <=? z)); cbn; auto.
Qed.

Lemma written_length_le d costs : (length (written d costs) <= length costs)%nat.
Proof. apply List.filter_length_le. Qed.

Lemma written_insert d costs i y :
  costs !! i = Some d -> y <> d ->
  length (written d (<[i := y]> costs)) = S (length (written d costs)).
Proof.
  revert i. induction costs as [|c costs IH]; intros [|i] H Hy; try discriminate.
  - simpl in H. injection H as ->. simpl. rewrite Z.eqb_refl. simpl.
    replace (y =? d) with false by (symmetry; apply Z.eqb_neq; exact Hy).
    reflexivity.
  - simpl in H. simpl. fold (written d (<[i := y]> costs)). fold (written d costs).
    destruct (negb (c =? d)); cbn [length]; rewrite (IH i H Hy); reflexivity.
Qed.

Lemma written_full d costs :
  length (written d costs) = length costs -> Forall (fun c => c <> d) costs.
Proof.
  induction costs as [|c costs IH]; intros H; [constructor|].
  cbn in H. fold (written d costs) in H.
  pose proof (written_length_le d costs) as Hle.
  destruct (c =? d) eqn:E; cbn in H; [lia|].
  constructor; [apply Z.eqb_neq; exact E|apply IH; lia].
Qed.

Section CostTableFacts.
Variable MAX_COST : Cost.
Variable MEDIUM_COST : Cost.
Variable decimalToCost : string -> option Cost.
Variable domainInitSize : Z -> Z.
Variable varValNameToIdx : Z -> string -> option Z.

Lemma table_inv_step n d st cost :
  table_inv n d st ->
  vec_at (tb_costs st) (tb_tableIdx st) = Some d ->
  table_inv n d
    (mkTable (<[Z.to_nat (tb_tableIdx st) := cost]> (tb_costs st))
             (tb_scopeIdx st) (tb_tableIdx st) (tb_nbCostInserted st + 1)
             (Z.min cost (tb_minCost st))).
Proof.
  intros (Hl & Hf & Hn) Hv. unfold vec_at in Hv.
  destruct (tb_tableIdx st <? 0); [discriminate|].
  unfold table_inv. cbn [tb_costs tb_minCost tb_nbCostInserted].
  split; [rewrite length_insert; exact Hl|]. split.
  - apply Forall_insert; [|right; lia].
    eapply Forall_impl; [exact Hf|]. cbn beta. intros c [Hc|Hc]; [left; exact Hc|right; lia].
  - destruct (Z.eq_dec cost d) as [->|Hne]; [left; lia|].
    destruct Hn as [Hn|Hn]; [left; lia|right].
    pose proof (written_insert d (tb_costs st) _ cost Hv Hne) as E.
    apply (f_equal Z.of_nat) in E. etransitivity; [|symmetry; exact E]. lia.
Qed.

Lemma table_sparse_loop_inv n d sc fuel : forall token st r,
  table_inv n d st ->
  wp (table_sparse_loop MAX_COST MEDIUM_COST decimalToCost domainInitSize
        varValNameToIdx fuel sc d token st)
     (fun st' r' => table_inv n d st' /\ same_wcsp r r')
     (fun _ _ => True) r.
Proof.
  induction fuel as [|fuel IH]; intros token st r Hinv; cbn [table_sparse_loop].
  - exact I.
  - destruct (isCBrace token).
    { split; [exact Hinv|apply same_wcsp_refl]. }
    apply wp_bind.
    eapply wp_mono with
      (Q := fun st' r' => table_inv n d st' /\ r' = r) (T := fun _ _ => True);
      [| |trivial].
    { destruct (Nat.eqb (tb_scopeIdx st) (length sc)).
      - wp_step. apply decimalToCostM_pure. intros c _. wp_step. wp_step.
        destruct (vec_at (tb_costs st) (tb_tableIdx st)) as [c0|] eqn:Hv; [|exact I].
        destruct (c0 =? d) eqn:Hc0; cbn [negb]; [|exact I].
        apply Z.eqb_eq in Hc0. subst c0. wp_step.
        split; [|reflexivity]. apply table_inv_step; assumption.
      - wp_step. apply getValueIdx_pure. intros i. wp_step.
        apply wp_assert; [intros _|trivial]. wp_step.
        split; [exact Hinv|reflexivity]. }
    intros st' r' [Hinv' ->]. cbn beta. wp_step.
    eapply wp_mono; [apply getNextToken_same| |contradiction].
    intros token' r1 Hsame. cbn beta.
    eapply wp_mono; [apply IH| |trivial].
    + destruct (Nat.eqb (tb_scopeIdx st') (length sc)); exact Hinv'.
    + intros st2 r2 [H1 H2]. split; [exact H1|].
      cbn beta in *; eapply same_wcsp_trans; eassumption.
Qed.

(** The cells filled so far by the full-table loop are at least [minCost]. *)
Lemma table_all_loop_inv n : forall token costs tableIdx minCost r,
  (tableIdx + n = length costs)%nat ->
  Forall (fun c => minCost <= c) (take tableIdx costs) ->
  wp (table_all_loop MAX_COST MEDIUM_COST decimalToCost n token costs tableIdx minCost)
     (fun res r' => length (fst res) = length costs /\
                    Forall (fun c => snd res <= c) (fst res) /\
                    same_wcsp r r')
     (fun _ _ => True) r.
Proof.
  induction n as [|n IH]; intros token costs tableIdx minCost r Hl Hf;
    cbn [table_all_loop].
  - cbn. split; [reflexivity|]. split; [|apply same_wcsp_refl].
    rewrite take_ge in Hf by lia. exact Hf.
  - wp_step. apply decimalToCostM_pure. intros c _. wp_step. wp_step. wp_step.
    eapply wp_mono; [apply getNextToken_same| |contradiction].
    intros token' r1 Hsame. cbn beta.
    set (cost := medium_scale MAX_COST MEDIUM_COST c (wcsp_ub r)).
    unfold Cost in *.
    eapply wp_mono; [apply IH| |trivial].
    + rewrite length_insert. lia.
    + rewrite (take_S_r _ _ cost) by (apply list_lookup_insert_eq; lia).
      rewrite take_insert_ge by lia.
      apply Forall_app. split.
      * eapply Forall_impl; [exact Hf|]. cbn beta. intros; lia.
      * constructor; [lia|constructor].
    + intros res r2 (H1 & H2 & H3). rewrite length_insert in H1.
      split; [exact H1|]. split; [exact H2|].
      cbn beta in *; eapply same_wcsp_trans; eassumption.
Qed.

Lemma costVecSize_nonneg sc : 0 <= costVecSize domainInitSize sc.
Proof.
  unfold costVecSize. generalize 1 (Z.le_0_1).
  induction sc as [|i sc IH]; intros acc Hacc; cbn [fold_left]; [exact Hacc|].
  apply IH. apply Z.mod_pos_bound. lia.
Qed.

(** X12: the tables of arity one to three are stored shifted and
    non-negative.  Whenever [readFunctionCostTable] returns, in the
    tuple:cost form as in the full form, the vector has one cell for each
    tuple of the scope, every cost in it is non-negative, and [negCost] has
    been lowered by the minimum that was taken off the costs; the upper bound
    is untouched and nothing is posted. *)
Theorem readFunctionCostTable_shifted sc all defaultCost r :
  wp (readFunctionCostTable MAX_COST MEDIUM_COST decimalToCost domainInitSize
        varValNameToIdx sc all defaultCost)
     (fun res r' =>
        length (fst res) = Z.to_nat (costVecSize domainInitSize sc) /\
        Forall (fun c => 0 <= c) (fst res) /\
        wcsp_negCost r' = wcsp_negCost r - snd res /\
        wcsp_ub r' = wcsp_ub r /\ posted r' = posted r)
     (fun _ _ => True) r.
Proof.
  unfold readFunctionCostTable. wp_step. wp_step. wp_step. wp_step. wp_step.
  set (d := medium_scale MAX_COST MEDIUM_COST defaultCost (wcsp_ub r)).
  set (N := Z.to_nat (costVecSize domainInitSize sc)).
  eapply wp_mono; [apply getNextToken_same| |contradiction].
  intros token r1 S1. cbn beta. wp_step.
  eapply wp_mono with
    (Q := fun res r' => length (fst res) = N /\
                        Forall (fun c => snd res <= c) (fst res) /\
                        same_wcsp r r')
    (T := fun _ _ => True); [| |trivial].
  { destruct all; cbn [negb].
    - eapply wp_mono; [apply table_all_loop_inv| |trivial].
      + rewrite length_replicate. reflexivity.
      + constructor.
      + intros res r2 (H1 & H2 & H3). rewrite length_replicate in H1.
        split; [exact H1|]. split; [exact H2|].
        cbn beta in *; eapply same_wcsp_trans; eassumption.
    - wp_step.
      eapply wp_mono; [apply (table_sparse_loop_inv N d)| |trivial].
      + unfold table_inv. cbn [tb_costs tb_minCost tb_nbCostInserted].
        split; [apply length_replicate|]. split.
        * apply Forall_replicate. left. reflexivity.
        * right. unfold written. clear. induction N as [|k IHk]; [reflexivity|].
          cbn. rewrite Z.eqb_refl. cbn. exact IHk.
      + intros st r2 [(Hl & Hf & Hn) S2]. cbn beta. wp_step.
        cbn [fst snd]. split; [exact Hl|]. split;
          [|cbn beta in *; eapply same_wcsp_trans; eassumption].
        pose proof (costVecSize_nonneg sc) as Hsz.
        replace (costVecSize domainInitSize sc) with (Z.of_nat N) by (subst N; lia).
        destruct (tb_nbCostInserted st <? Z.of_nat N) eqn:Hnb.
        * eapply Forall_impl; [exact Hf|]. cbn beta. intros c [->|Hc]; lia.
        * apply Z.ltb_ge in Hnb. destruct Hn as [Hn|Hn].
          -- eapply Forall_impl; [exact Hf|]. cbn beta. intros c [->|Hc]; lia.
          -- pose proof (written_length_le d (tb_costs st)) as Hle.
             assert (Hfull : length (written d (tb_costs st)) = length (tb_costs st)) by lia.
             apply written_full in Hfull.
             rewrite Forall_forall in Hf, Hfull. apply Forall_forall.
             intros c Hc. destruct (Hf c Hc) as [->|H]; [|exact H].
             exfalso. exact (Hfull d Hc eq_refl). }
  intros res r2 (Hl & Hf & (S21 & S22 & S23)). cbn beta.
  wp_step. wp_step.
  match goal with |- wp _ _ _ ?st => set (r3 := st) end.
  wp_step. eapply wp_mono; [apply skipCBrace_same| |trivial].
  intros u r4 (S41 & S42 & S43). cbn beta. wp_step. cbn [fst snd].
  subst r3. cbn [wcsp_negCost wcsp_ub posted] in *.
  split; [rewrite length_map; exact Hl|]. split.
  - apply Forall_map. eapply Forall_impl; [exact Hf|]. cbn beta.
    unfold Cost in *. intros; lia.
  - repeat split; congruence.
Qed.

End CostTableFacts.

Section FullTableFacts.
Variable MAX_COST : Cost.
Variable MEDIUM_COST : Cost.
Variable decimalToCost : string -> option Cost.
Variable domainInitSize : Z -> Z.
Variable varValNameToIdx : Z -> string -> option Z.

Lemma least_cons m c l : least (Z.min c m) l = least m (c :: l).
Proof. unfold least. cbn [fold_left]. rewrite Z.min_comm. reflexivity. Qed.

Lemma table_all_loop_run L : forall cs t more token r costs idx minCost,
  token :: tokens r = L ++ t :: more ->
  Forall2 (reads_as decimalToCost) L cs ->
  (idx + length L = length costs)%nat ->
  table_all_loop MAX_COST MEDIUM_COST decimalToCost (length L) token costs idx minCost r
  = Ret (take idx costs
           ++ map (fun c => medium_scale MAX_COST MEDIUM_COST c (wcsp_ub r)) cs,
         least minCost
           (map (fun c => medium_scale MAX_COST MEDIUM_COST c (wcsp_ub r)) cs))
        (mkReader more (wcsp_negCost r) (wcsp_ub r) (posted r)).
Proof.
  induction L as [|tok L IH]; intros cs t more token r costs idx minCost Ht Hcs Hl.
  - apply Forall2_nil_inv_l in Hcs. subst cs. cbn in *.
    injection Ht as _ Ht. rewrite app_nil_r, take_ge by lia.
    destruct r; cbn in *; subst; reflexivity.
  - apply Forall2_cons_inv_l in Hcs as (c & cs' & Hc & Hcs & ->).
    cbn [app] in Ht. injection Ht as -> Ht. cbn [length table_all_loop].
    unfold reads_as in Hc.
    unfold bind at 1. unfold decimalToCostM. rewrite Hc. cbn [ret].
    unfold bind at 1. unfold gets at 1.
    unfold bind at 1. unfold getNextToken at 1. rewrite Ht.
    set (cost := medium_scale MAX_COST MEDIUM_COST c (wcsp_ub r)).
    assert (E : exists token' tl, L ++ t :: more = token' :: tl)
      by (destruct L; cbn; eauto).
    destruct E as (token' & tl & E). rewrite E.
    rewrite (IH cs' t more token'
               (mkReader tl (wcsp_negCost r) (wcsp_ub r) (posted r))
               (<[idx := cost]> costs) (S idx) (Z.min cost minCost)).
    + cbn [wcsp_negCost wcsp_ub posted map]. rewrite least_cons.
      rewrite (take_S_r _ _ cost) by (apply list_lookup_insert_eq; cbn in Hl; lia).
      rewrite take_insert_ge by lia. rewrite <- app_assoc. reflexivity.
    + symmetry. exact E.
    + exact Hcs.
    + rewrite length_insert. cbn [length] in *. lia.
Qed.

(** X13: a full cost table as it is read.  When the tokens ahead are one
    cost for each tuple of the scope, one more token and a closing brace,
    [readFunctionCostTable] returns the costs (scaled when prohibitive) less
    their minimum, reports that minimum and takes it off [negCost].  The
    token after the last cost is consumed without being looked at: it need
    not be the closing brace of the table. *)
Theorem readFunctionCostTable_full_table sc defaultCost ts cs t b rest r :
  tokens r = ts ++ t :: b :: rest ->
  length ts = Z.to_nat (costVecSize domainInitSize sc) ->
  Forall2 (reads_as decimalToCost) ts cs ->
  isCBrace b = true ->
  let scaled := map (fun c => medium_scale MAX_COST MEDIUM_COST c (wcsp_ub r)) cs in
  let m := least MAX_COST scaled in
  readFunctionCostTable MAX_COST MEDIUM_COST decimalToCost domainInitSize
    varValNameToIdx sc true defaultCost r
  = Ret (map (fun c => c - m) scaled, m)
        (mkReader rest (wcsp_negCost r - m) (wcsp_ub r) (posted r)).
Proof.
  intros Ht Hn Hcs Hb scaled m.
  unfold readFunctionCostTable.
  unfold bind at 1. unfold gets at 1.
  unfold bind at 1. unfold gets at 1.
  unfold bind at 1. cbn [negb].
  set (d := medium_scale MAX_COST MEDIUM_COST defaultCost (wcsp_ub r)).
  assert (Hskip : forall x, skipCBrace (mkReader (b :: rest) x (wcsp_ub r) (posted r))
                            = Ret tt (mkReader rest x (wcsp_ub r) (posted r))).
  { intros x. unfold skipCBrace, bind, getNextToken. cbn. rewrite Hb. reflexivity. }
  destruct ts as [|tok ts'].
  - cbn [app] in Ht. cbn [length] in Hn. rewrite <- Hn.
    apply Forall2_nil_inv_l in Hcs. subst cs.
    unfold getNextToken at 1. rewrite Ht.
    cbn [Z.to_nat table_all_loop replicate]. unfold bind at 1. cbn [ret fst snd map].
    unfold bind at 1. unfold modify at 1.
    cbn [tokens wcsp_negCost wcsp_ub posted].
    unfold bind at 1. rewrite Hskip. reflexivity.
  - unfold getNextToken at 1. rewrite Ht. cbn [app].
    unfold bind at 1. rewrite <- Hn.
    rewrite (table_all_loop_run (tok :: ts') cs t (b :: rest) tok
               (mkReader (ts' ++ t :: b :: rest) (wcsp_negCost r) (wcsp_ub r) (posted r))
               (replicate (length (tok :: ts')) d) 0 MAX_COST);
      [|reflexivity|exact Hcs|rewrite length_replicate; reflexivity].
    cbn [wcsp_negCost wcsp_ub posted take app fst snd].
    fold scaled. fold m.
    unfold bind at 1. unfold modify at 1.
    cbn [tokens wcsp_negCost wcsp_ub posted].
    unfold bind at 1. rewrite Hskip. reflexivity.
Qed.


End FullTableFacts.

(** * The tuple:cost form of the n-ary tables *)

Section SparseNaryFacts.
Variable MAX_COST : Cost.
Variable MEDIUM_COST : Cost.
Variable decimalToCost : string -> option Cost.
Variable domainInitSize : Z -> Z.
Variable varValNameToIdx : Z -> string -> option Z.

Lemma map_insert_Forall (P : list Z * Cost -> Prop) m : forall t c m',
  map_insert m t c = Some m' -> Forall P m -> P (t, c) -> Forall P m'.
Proof.
  induction m as [|[t' c'] m IH]; intros t c m' H Hm Hp; cbn [map_insert] in H.
  - injection H as <-. constructor; [exact Hp|constructor].
  - destruct (tuple_eqb t t'); [discriminate|].
    destruct (tuple_ltb t t').
    + injection H as <-. constructor; assumption.
    + destruct (map_insert m t c) as [m1|] eqn:E; [|discriminate].
      cbn in H. injection H as <-.
      apply Forall_cons_1 in Hm as [H1 H2].
      constructor; [exact H1|]. eapply IH; eauto.
Qed.

Lemma sparse_loop_inv sc ar fuel : forall token st r,
  Forall (fun tc => sp_minCost st <= snd tc) (sp_map st) ->
  wp (sparse_loop MAX_COST MEDIUM_COST decimalToCost domainInitSize
        varValNameToIdx fuel sc ar token st)
     (fun st' r' => Forall (fun tc => sp_minCost st' <= snd tc) (sp_map st') /\
                    same_wcsp r r')
     (fun _ _ => True) r.
Proof.
  induction fuel as [|fuel IH]; intros token st r Hinv; cbn [sparse_loop].
  - exact I.
  - destruct (isCBrace token).
    { split; [exact Hinv|apply same_wcsp_refl]. }
    apply wp_bind.
    eapply wp_mono with
      (Q := fun st' r' => Forall (fun tc => sp_minCost st' <= snd tc) (sp_map st')
                          /\ r' = r)
      (T := fun _ _ => True); [| |trivial].
    { destruct (Nat.eqb (sp_scopeIdx st) ar).
      - wp_step. apply decimalToCostM_pure. intros c _. wp_step. wp_step.
        destruct (map_insert (sp_map st) (sp_tup st)
                    (medium_scale MAX_COST MEDIUM_COST c (wcsp_ub r)))
          as [m|] eqn:Hm; [|exact I].
        wp_step. split; [|reflexivity]. cbn [sp_map sp_minCost].
        eapply map_insert_Forall; [exact Hm| |cbn [snd]; lia].
        eapply Forall_impl; [exact Hinv|]. cbn beta. intros; lia.
      - wp_step. apply getValueIdx_pure. intros i. wp_step.
        split; [exact Hinv|reflexivity]. }
    intros st' r' [Hinv' ->]. cbn beta. wp_step.
    eapply wp_mono; [apply getNextToken_same| |contradiction].
    intros token' r1 Hsame. cbn beta.
    eapply wp_mono; [apply IH| |trivial].
    + exact Hinv'.
    + intros st2 r2 [H1 H2]. split; [exact H1|].
      cbn beta in *; eapply same_wcsp_trans; eassumption.
Qed.

Lemma post_tuples_run idx m l : forall r,
  for_each l (fun tc => bind (post (NaryTuple idx (fst tc) (snd tc - m)))
                             (fun _ => ret tt)) r
  = Ret tt (mkReader (tokens r) (wcsp_negCost r) (wcsp_ub r)
              (posted r ++ map (fun tc => NaryTuple idx (fst tc) (snd tc - m)) l)).
Proof.
  induction l as [|tc l IH]; intros r; cbn [for_each map].
  - rewrite app_nil_r. destruct r; reflexivity.
  - unfold bind at 1. unfold bind at 1. unfold post at 1. cbn [ret].
    rewrite IH. cbn [tokens wcsp_negCost wcsp_ub posted].
    rewrite <- app_assoc. reflexivity.
Qed.

Lemma stored_costs_app l1 l2 :
  stored_costs (l1 ++ l2) = stored_costs l1 ++ stored_costs l2.
Proof. unfold stored_costs. apply flat_map_app. Qed.

Lemma stored_costs_tuples idx m l :
  stored_costs (map (fun tc => NaryTuple idx (fst tc) (snd tc - m)) l)
  = map (fun tc => (fst tc, snd tc - m)) l.
Proof.
  induction l as [|tc l IH]; [reflexivity|].
  cbn. unfold stored_costs in IH. rewrite IH. reflexivity.
Qed.

(** Whatever the tokens, a table in the tuple:cost form that is read to its
    end is stored with costs that are not negative. *)
Lemma readNary_sparse_inv sc defaultCost r :
  wp (readNaryCostFunction MAX_COST MEDIUM_COST decimalToCost domainInitSize
        varValNameToIdx sc false defaultCost)
     (fun _ r' =>
        exists m dflt nb tuples,
          posted r'
          = posted r
            ++ NaryBegin sc (dflt - m) nb
               :: map (fun tc => NaryTuple (length (posted r)) (fst tc) (snd tc - m))
                      tuples
            ++ [NaryEnd (length (posted r))] /\
          stored_costs (posted r')
          = stored_costs (posted r) ++ map (fun tc => (fst tc, snd tc - m)) tuples /\
          Forall (fun tc => 0 <= snd tc - m) tuples /\
          wcsp_negCost r' = wcsp_negCost r - m /\
          wcsp_ub r' = wcsp_ub r)
     (fun _ _ => True) r.
Proof.
  unfold readNaryCostFunction. wp_step. wp_step. wp_step. wp_step. wp_step.
  eapply wp_mono; [apply getNextToken_same| |contradiction].
  intros token r1 (S11 & S12 & S13). cbn beta. wp_step. cbn [negb].
  wp_step.
  eapply wp_mono; [apply sparse_loop_inv| |trivial]; [constructor|].
  intros st r2 [Hf (S21 & S22 & S23)]. cbn beta.
  set (d := medium_scale MAX_COST MEDIUM_COST defaultCost (wcsp_ub r)).
  match goal with |- context [NaryBegin sc (d - ?mm)] => set (m := mm) end.
  assert (Hm : m <= sp_minCost st).
  { subst m. destruct (_ || _); lia. }
  wp_step. unfold post at 1. unfold wp at 1.
  cbn [tokens wcsp_negCost wcsp_ub posted].
  wp_step. unfold wp at 1. rewrite post_tuples_run.
  cbn [tokens wcsp_negCost wcsp_ub posted].
  wp_step. unfold post at 1. unfold wp at 1.
  cbn [tokens wcsp_negCost wcsp_ub posted].
  wp_step. wp_step. unfold wp at 1. unfold modify.
  cbn [tokens wcsp_negCost wcsp_ub posted].
  eapply wp_mono; [apply skipCBrace_same| |trivial].
  intros u r3 (S31 & S32 & S33). cbn [wcsp_negCost wcsp_ub posted] in *.
  exists m, d, (sp_nbTuples st), (sp_map st).
  assert (Hp : posted r3
               = posted r
                 ++ NaryBegin sc (d - m) (sp_nbTuples st)
                    :: map (fun tc => NaryTuple (length (posted r)) (fst tc) (snd tc - m))
                           (sp_map st)
                 ++ [NaryEnd (length (posted r))]).
  { rewrite S33, S23, S13. rewrite <- !app_assoc. reflexivity. }
  split; [exact Hp|]. split.
  - rewrite Hp. rewrite stored_costs_app. f_equal.
    change (NaryBegin sc (d - m) (sp_nbTuples st)
            :: map (fun tc => NaryTuple (length (posted r)) (fst tc) (snd tc - m))
                   (sp_map st) ++ [NaryEnd (length (posted r))])
      with ([NaryBegin sc (d - m) (sp_nbTuples st)]
            ++ map (fun tc => NaryTuple (length (posted r)) (fst tc) (snd tc - m))
                   (sp_map st) ++ [NaryEnd (length (posted r))]).
    rewrite !stored_costs_app, stored_costs_tuples. cbn. apply app_nil_r.
  - split; [|split; congruence].
    eapply Forall_impl; [exact Hf|]. cbn beta. intros; lia.
Qed.


(** ** The table entry by entry *)

Local Abbreviation sloop :=
  (sparse_loop MAX_COST MEDIUM_COST decimalToCost domainInitSize varValNameToIdx).

Lemma sparse_st_eta st :
  mkSparse (sp_tup st) (sp_map st) (sp_nbTuples st) (sp_minCost st) (sp_scopeIdx st)
  = st.
Proof. destruct st; reflexivity. Qed.

(** The value tokens of one tuple, from position [k] of the scope on. *)
Lemma sparse_values_run sc : forall scv toks vals,
  names_values domainInitSize varValNameToIdx scv toks vals ->
  forall k fuel token r st next more,
  scv = drop k sc -> (k <= length sc)%nat ->
  sp_scopeIdx st = k -> length (sp_tup st) = length sc ->
  token :: tokens r = toks ++ next :: more ->
  sloop (length toks + fuel) sc (length sc) token st r
  = sloop fuel sc (length sc) next
      (mkSparse (take k (sp_tup st) ++ vals) (sp_map st) (sp_nbTuples st)
                (sp_minCost st) (length sc))
      (mkReader more (wcsp_negCost r) (wcsp_ub r) (posted r)).
Proof.
  induction 1 as [|v scv t toks i vals Hv Hrest IH];
    intros k fuel token r st next more Hd Hk Hidx Hlen Ht.
  - assert (Hk2 : k = length sc).
    { apply (f_equal (@length Z)) in Hd. rewrite length_drop in Hd.
      cbn [length] in Hd. lia. }
    cbn [app length Nat.add] in *. injection Ht as -> Ht.
    rewrite app_nil_r, take_ge by lia. rewrite <- Ht, reader_eta.
    rewrite <- Hk2, <- Hidx, sparse_st_eta. reflexivity.
  - assert (Hlk : sc !! k = Some v).
    { rewrite <- (Nat.add_0_r k), <- lookup_drop, <- Hd. reflexivity. }
    assert (Hk' : (k < length sc)%nat) by (apply lookup_lt_Some in Hlk; exact Hlk).
    assert (Hd' : scv = drop (S k) sc).
    { replace (S k) with (k + 1)%nat by lia. rewrite <- drop_drop, <- Hd.
      reflexivity. }
    cbn [app length Nat.add] in *. injection Ht as -> Ht.
    cbn [sparse_loop]. pose proof Hv as [Hnb _]. rewrite Hnb. rewrite Hidx.
    replace (Nat.eqb k (length sc)) with false
      by (symmetry; apply Nat.eqb_neq; lia).
    unfold bind at 1. unfold bind at 1.
    rewrite (nth_lookup_Some sc k 0 v Hlk).
    rewrite (getValueIdx_names domainInitSize varValNameToIdx v t i r Hv).
    cbn [ret sp_tup sp_map sp_nbTuples sp_minCost sp_scopeIdx].
    replace (Nat.eqb k (length sc)) with false
      by (symmetry; apply Nat.eqb_neq; lia).
    destruct (nonempty_split toks next more) as (t' & tl & E).
    rewrite E in Ht. unfold bind at 1. rewrite (getNextToken_cons t' tl r Ht).
    rewrite (IH (S k) fuel t' _ _ next more Hd' Hk').
    + cbn [sp_tup sp_map sp_nbTuples sp_minCost wcsp_negCost wcsp_ub posted].
      rewrite (take_S_r _ _ i) by (apply list_lookup_insert_eq; lia).
      rewrite take_insert_ge by lia. rewrite <- app_assoc. reflexivity.
    + reflexivity.
    + cbn [sp_tup]. rewrite length_insert. exact Hlen.
    + cbn [tokens]. symmetry. exact E.
Qed.

(** One entry: the values of its tuple, then its cost. *)
Lemma sparse_entry_run sc e p fuel token r st next more m' :
  entry_reads MAX_COST MEDIUM_COST decimalToCost domainInitSize varValNameToIdx
    (wcsp_ub r) sc e p ->
  sp_scopeIdx st = 0%nat -> length (sp_tup st) = length sc ->
  map_insert (sp_map st) (fst p) (snd p) = Some m' ->
  token :: tokens r = (fst e ++ [snd e]) ++ next :: more ->
  sloop (length (fst e ++ [snd e]) + fuel) sc (length sc) token st r
  = sloop fuel sc (length sc) next
      (mkSparse (fst p) m' (sp_nbTuples st + 1) (Z.min (snd p) (sp_minCost st)) 0)
      (mkReader more (wcsp_negCost r) (wcsp_ub r) (posted r)).
Proof.
  intros (Hvals & Hnb & c0 & Hc0 & Hp) Hidx Hlen Hins Ht.
  rewrite length_app. cbn [length]. rewrite <- Nat.add_assoc.
  rewrite <- app_assoc in Ht. cbn [app] in Ht.
  rewrite (sparse_values_run sc (drop 0 sc) (fst e) (fst p) Hvals 0 (1 + fuel)
             token r st (snd e) (next :: more) eq_refl ltac:(lia) Hidx Hlen Ht).
  rewrite take_0. cbn [app Nat.add sparse_loop]. rewrite Hnb.
  cbn [sp_scopeIdx sp_tup sp_map sp_nbTuples sp_minCost].
  rewrite Nat.eqb_refl.
  unfold bind at 1. unfold bind at 1. unfold decimalToCostM. rewrite Hc0.
  cbn [ret]. unfold bind at 1. unfold gets at 1.
  cbn [wcsp_ub]. rewrite <- Hp, Hins. cbn [ret].
  cbn [sp_scopeIdx sp_tup sp_map sp_nbTuples sp_minCost]. rewrite Nat.eqb_refl.
  unfold bind at 1. unfold getNextToken at 1. cbn [tokens wcsp_negCost wcsp_ub posted].
  reflexivity.
Qed.

Lemma least_cons' m c l : least (Z.min c m) l = least m (c :: l).
Proof. unfold least. cbn [fold_left]. rewrite Z.min_comm. reflexivity. Qed.

Lemma entry_tokens_cons e entries :
  entry_tokens (e :: entries) = (fst e ++ [snd e]) ++ entry_tokens entries.
Proof. reflexivity. Qed.

(** The whole table up to its closing brace. *)
Lemma sparse_entries_run sc entries : forall parsed fuel token r st b more mp,
  Forall2 (entry_reads MAX_COST MEDIUM_COST decimalToCost domainInitSize
             varValNameToIdx (wcsp_ub r) sc) entries parsed ->
  sp_scopeIdx st = 0%nat -> length (sp_tup st) = length sc ->
  insert_from (sp_map st) parsed = Some mp ->
  isCBrace b = true ->
  token :: tokens r = entry_tokens entries ++ b :: more ->
  exists tp,
    sloop (length (entry_tokens entries) + S fuel) sc (length sc) token st r
    = Ret (mkSparse tp mp (sp_nbTuples st + Z.of_nat (length parsed))
                    (least (sp_minCost st) (map snd parsed)) 0)
          (mkReader more (wcsp_negCost r) (wcsp_ub r) (posted r)).
Proof.
  induction entries as [|e entries IH];
    intros parsed fuel token r st b more mp Hall Hidx Hlen Hins Hb Ht.
  - apply Forall2_nil_inv_l in Hall. subst parsed.
    cbn [insert_from] in Hins. injection Hins as <-.
    cbn [entry_tokens flat_map app length Nat.add map] in *.
    injection Ht as -> Ht. cbn [sparse_loop]. rewrite Hb. cbn [ret].
    exists (sp_tup st). rewrite Z.add_0_r, <- Ht, reader_eta.
    unfold least. cbn [fold_left]. rewrite <- Hidx, sparse_st_eta. reflexivity.
  - apply Forall2_cons_inv_l in Hall as (p & parsed' & Hp & Hall & ->).
    cbn [insert_from] in Hins.
    destruct (map_insert (sp_map st) (fst p) (snd p)) as [m'|] eqn:Hm;
      [|discriminate].
    rewrite entry_tokens_cons in *. rewrite <- app_assoc in Ht.
    rewrite length_app, <- Nat.add_assoc.
    destruct (nonempty_split (entry_tokens entries) b more) as (t' & tl & E).
    rewrite E in Ht.
    rewrite (sparse_entry_run sc e p _ token r st t' tl m' Hp Hidx Hlen Hm Ht).
    assert (Hlp : length (fst p) = length sc).
    { destruct Hp as (Hv & _). clear - Hv. induction Hv; cbn; congruence. }
    destruct (IH parsed' fuel t'
                (mkReader tl (wcsp_negCost r) (wcsp_ub r) (posted r))
                (mkSparse (fst p) m' (sp_nbTuples st + 1)
                          (Z.min (snd p) (sp_minCost st)) 0) b more mp)
      as (tp & Hrun); try assumption; try reflexivity.
    + cbn [tokens]. symmetry. exact E.
    + exists tp. rewrite Hrun.
      cbn [sp_nbTuples sp_minCost wcsp_negCost wcsp_ub posted length map].
      rewrite least_cons'.
      replace (sp_nbTuples st + 1 + Z.of_nat (length parsed'))
        with (sp_nbTuples st + Z.of_nat (S (length parsed'))) by lia.
      reflexivity.
Qed.

Lemma map_insert_fresh m : forall t c,
  ~ In t (map fst m) -> exists m', map_insert m t c = Some m'.
Proof.
  induction m as [|[t' c'] m IH]; intros t c Hn; cbn [map_insert].
  - eauto.
  - destruct (tuple_eqb t t') eqn:E.
    + exfalso. apply Hn. left. cbn [fst]. symmetry.
      clear - E. revert t' E. induction t as [|x t IH]; intros [|y t'] E;
        cbn [tuple_eqb] in E; try discriminate; [reflexivity|].
      apply andb_true_iff in E as [E1 E2]. apply Z.eqb_eq in E1.
      f_equal; [exact E1|apply IH, E2].
    + destruct (tuple_ltb t t'); [eauto|].
      destruct (IH t c) as [m' ->]; [|cbn; eauto].
      intros H. apply Hn. right. exact H.
Qed.

Lemma map_insert_perm m : forall t c m',
  map_insert m t c = Some m' -> Permutation m' ((t, c) :: m).
Proof.
  induction m as [|[t' c'] m IH]; intros t c m' H; cbn [map_insert] in H.
  - injection H as <-. reflexivity.
  - destruct (tuple_eqb t t'); [discriminate|].
    destruct (tuple_ltb t t').
    + injection H as <-. reflexivity.
    + destruct (map_insert m t c) as [m1|] eqn:E; [|discriminate].
      cbn in H. injection H as <-.
      rewrite (IH t c m1 E). apply perm_swap.
Qed.

(** Tuples that differ from one another and from those of the map are all
    inserted: the map then holds what it held and the tuples, each with its
    cost. *)
Lemma insert_from_nodup l : forall m,
  NoDup (map fst l ++ map fst m) ->
  exists mp, insert_from m l = Some mp /\ Permutation mp (l ++ m).
Proof.
  induction l as [|[t c] l IH]; intros m Hnd; cbn [insert_from map app fst snd] in *.
  - exists m. split; reflexivity.
  - apply NoDup_cons in Hnd as [Hnin Hnd].
    destruct (map_insert_fresh m t c) as [m' Hm'].
    { intros H. apply Hnin. apply elem_of_app. right.
      apply list_elem_of_In. exact H. }
    rewrite Hm'. pose proof (map_insert_perm m t c m' Hm') as Hp.
    destruct (IH m') as (mp & E & Hperm).
    { pose proof (Permutation_map fst Hp) as Hp1. cbn [map fst] in Hp1.
      rewrite Hp1, <- Permutation_middle. apply NoDup_cons. split; assumption. }
    exists mp. split; [exact E|].
    rewrite Hperm, Hp. symmetry. apply Permutation_middle.
Qed.


End SparseNaryFacts.

(** * The cost function of a clause *)

Section ClauseCost.
Variable MAX_ARITY : nat.
Variable MULT : Cost -> Cost.

Lemma polarity_bool j : polarity j = 0 \/ polarity j = 1.
Proof. unfold polarity. destruct (0 <? j); auto. Qed.

Lemma same_var_polarity j j' :
  j <> 0 -> j' <> 0 -> Z.abs j' - 1 = Z.abs j - 1 -> polarity j' <> polarity j ->
  j' = - j.
Proof.
  unfold polarity. intros Hj Hj' Ha Hp.
  destruct (0 <? j') eqn:E1, (0 <? j) eqn:E2; try congruence;
    rewrite ?Z.ltb_lt, ?Z.ltb_ge in *; lia.
Qed.

(** One literal more, when every literal seen is recorded and every cell in
    use records one: the clause is a tautology because the negation was seen,
    or the literal is recorded as well. *)
Lemma add_literal_step seen c j :
  recorded seen c -> onto seen c -> Forall (fun l => l <> 0) seen -> j <> 0 ->
  length (scopeIndex c) = MAX_ARITY -> (length seen < MAX_ARITY)%nat ->
  exists c', add_literal MAX_ARITY j c = Some c' /\
             length (scopeIndex c') = MAX_ARITY /\
             ((tautology c' = true /\ In (- j) seen) \/
              (tautology c' = false /\ recorded (seen ++ [j]) c' /\
               onto (seen ++ [j]) c')).
Proof.
  intros Hrec Honto Hnz Hj Hlen Hroom.
  destruct (add_literal_recorded MAX_ARITY seen c j Hrec Hlen Hroom)
    as (c' & Hc' & Hlen' & Hres).
  exists c'. split; [exact Hc'|]. split; [exact Hlen'|].
  destruct Hrec as (Hsc & Htp & Hseen & Hnd & Hrc).
  unfold add_literal in Hc'.
  destruct (MAX_ARITY <=? arity c)%nat eqn:Hfull; [discriminate|].
  apply Nat.leb_gt in Hfull.
  set (a := arity c) in *.
  set (v := Z.abs j - 1) in *.
  set (sc := <[a := v]> (scopeIndex c)) in *.
  set (p := if 0 <? j then 0 else 1) in *.
  set (tp := if (a <? length (tup c))%nat then <[a := p]> (tup c) else tup c ++ [p]) in *.
  assert (Hsca : nth a sc 0 = v) by (apply nth_insert_eq; lia).
  assert (Hsck : forall k, (k < a)%nat -> nth k sc 0 = nth k (scopeIndex c) 0).
  { intros k Hk. apply nth_insert_ne. lia. }
  assert (Htpa : nth a tp 0 = p).
  { unfold tp. destruct (a <? length (tup c))%nat eqn:E.
    - apply Nat.ltb_lt in E. apply nth_insert_eq, E.
    - apply Nat.ltb_ge in E. replace a with (length (tup c)) by lia.
      apply nth_middle. }
  assert (Htpk : forall k, (k < a)%nat -> nth k tp 0 = nth k (tup c) 0).
  { intros k Hk. unfold tp. destruct (a <? length (tup c))%nat eqn:E.
    - apply nth_insert_ne. lia.
    - apply app_nth1. lia. }
  assert (Hold : forall k, (k < a)%nat ->
            exists j', In j' (seen ++ [j]) /\ nth k sc 0 = Z.abs j' - 1 /\
                       nth k tp 0 = polarity j').
  { intros k Hk. destruct (Honto k Hk) as (j' & Hin & H1 & H2).
    exists j'. rewrite Hsck, Htpk by exact Hk.
    split; [apply in_or_app; left; exact Hin|auto]. }
  rewrite Hsca in Hc'.
  destruct (scan_spec sc v a 0%nat) as (Hk1 & Hk2 & Hk3).
  set (k := scan sc v 0 a) in *.
  destruct (k <? a)%nat eqn:Hk.
  - apply Nat.ltb_lt in Hk. injection Hc' as <-. cbn [tautology] in *.
    destruct (nth k tp 0 =? nth a tp 0) eqn:E; cbn [negb].
    + right. split; [reflexivity|].
      destruct Hres as [Hres|Hres]; [discriminate|]. split; [exact Hres|].
      intros i Hi. cbn [arity scopeIndex tup] in *. apply Hold, Hi.
    + left. split; [reflexivity|]. apply Z.eqb_neq in E.
      destruct (Honto k Hk) as (j' & Hin & H1 & H2).
      rewrite <- Hsck, (Hk3 ltac:(lia)) in H1 by exact Hk.
      rewrite <- Htpk in H2 by exact Hk. rewrite Htpa in E.
      rewrite Forall_forall in Hnz.
      assert (j' = - j).
      { apply same_var_polarity; try assumption.
        - apply Hnz, list_elem_of_In, Hin.
        - symmetry. exact H1.
        - rewrite <- H2. exact E. }
      subst j'. exact Hin.
  - apply Nat.ltb_ge in Hk. injection Hc' as <-. cbn [tautology] in *.
    right. split; [reflexivity|].
    destruct Hres as [Hres|Hres]; [discriminate|]. split; [exact Hres|].
    intros i Hi. cbn [arity scopeIndex tup] in *.
    destruct (decide (i = a)) as [->|Hne].
    + exists j. split; [apply in_or_app; right; left; reflexivity|].
      split; [exact Hsca|exact Htpa].
    + apply Hold. lia.
Qed.

Lemma read_literals_step lits : forall j0 seen c rest,
  Forall (fun l => l <> 0) (seen ++ lits) ->
  clash_free (seen ++ lits) ->
  length (scopeIndex c) = MAX_ARITY -> tautology c = false ->
  recorded seen c -> onto seen c ->
  (length seen + length lits <= MAX_ARITY)%nat ->
  exists c', read_literals MAX_ARITY j0 (lits ++ 0 :: rest) c = Done (c', rest) /\
             length (scopeIndex c') = MAX_ARITY /\ tautology c' = false /\
             recorded (seen ++ lits) c' /\ onto (seen ++ lits) c'.
Proof.
  induction lits as [|j lits IH];
    intros j0 seen c rest Hnz Hfree Hlen Ht Hrec Honto Hroom.
  - exists c. cbn. rewrite app_nil_r. auto.
  - apply Forall_app in Hnz as [Hnz1 Hnz2].
    apply Forall_cons_1 in Hnz2 as [Hj Hnz2].
    cbn [app read_literals]. rewrite (proj2 (Z.eqb_neq j 0) Hj), Ht.
    cbn [length] in Hroom.
    destruct (add_literal_step seen c j Hrec Honto Hnz1 Hj Hlen)
      as (c1 & -> & Hlen1 & H1); [lia|].
    destruct H1 as [[_ Hin]|(Ht1 & Hrec1 & Honto1)].
    + exfalso. apply (Hfree j).
      * apply in_or_app. right. left. reflexivity.
      * apply in_or_app. left. exact Hin.
    + destruct (IH j (seen ++ [j]) c1 rest) as (c' & Hc' & Hl' & Ht' & Hr' & Ho');
        try assumption.
      * rewrite <- app_assoc. apply Forall_app. split; [exact Hnz1|].
        constructor; assumption.
      * rewrite <- app_assoc. exact Hfree.
      * rewrite length_app. cbn. lia.
      * exists c'. rewrite <- app_assoc in Hr', Ho'. auto.
Qed.

Lemma value_of_nth vars : forall asg k,
  NoDup vars -> (k < length vars)%nat -> length asg = length vars ->
  value_of vars asg (nth k vars 0) = nth k asg 0.
Proof.
  induction vars as [|x vars IH]; intros [|a asg] k Hnd Hk Hl;
    cbn [length] in *; try lia.
  apply NoDup_cons in Hnd as [Hx Hnd]. destruct k as [|k]; cbn [value_of nth].
  - rewrite Z.eqb_refl. reflexivity.
  - destruct (x =? nth k vars 0) eqn:E.
    + exfalso. apply Z.eqb_eq in E. apply Hx. rewrite E.
      apply list_elem_of_In, nth_In. lia.
    + apply IH; [exact Hnd|lia|lia].
Qed.

Lemma falsified_iff lits c asg :
  recorded lits c -> onto lits c -> length asg = arity c ->
  falsified (take (arity c) (scopeIndex c)) asg lits = true
  <-> forall k, (k < arity c)%nat -> nth k asg 0 = nth k (tup c) 0.
Proof.
  intros (Hsc & Htp & Hseen & Hnd & Hrc) Honto Hl.
  set (vars := take (arity c) (scopeIndex c)) in *.
  assert (Hvl : length vars = arity c) by (unfold vars; rewrite length_take; lia).
  assert (Hv : forall k, (k < arity c)%nat ->
            value_of vars asg (nth k (scopeIndex c) 0) = nth k asg 0).
  { intros k Hk. rewrite <- (nth_take_lt (scopeIndex c) (arity c) k 0 Hk).
    apply value_of_nth; [exact Hnd|fold vars; lia|fold vars; lia]. }
  unfold falsified. rewrite forallb_forall. split.
  - intros H k Hk. destruct (Honto k Hk) as (j & Hin & H1 & H2).
    specialize (H j Hin). apply Z.eqb_eq in H.
    rewrite <- H1, (Hv k Hk) in H. congruence.
  - intros H j Hin. apply Z.eqb_eq.
    destruct (Hrc j Hin) as (k & Hk & H1 & H2).
    rewrite <- H1, (Hv k Hk), (H k Hk). exact H2.
Qed.

Lemma take_1 {A} (l : list A) d : (1 <= length l)%nat -> take 1 l = [nth 0 l d].
Proof. destruct l; cbn; [lia|reflexivity]. Qed.

Lemma take_2 {A} (l : list A) d :
  (2 <= length l)%nat -> take 2 l = [nth 0 l d; nth 1 l d].
Proof. destruct l as [|x [|y l]]; cbn; try lia. reflexivity. Qed.

Lemma take_3 {A} (l : list A) d :
  (3 <= length l)%nat -> take 3 l = [nth 0 l d; nth 1 l d; nth 2 l d].
Proof. destruct l as [|x [|y [|z l]]]; cbn; try lia. reflexivity. Qed.

Ltac bits :=
  repeat match goal with
         | H : _ = 0 \/ _ = 1 |- _ => destruct H as [H|H]; rewrite ?H in *
         end.

(** X16: what a clause costs.  A clause of non-zero literals in which no
    literal comes with its negation is read up to its closing [0] and is not
    taken for a tautology; its variables are recorded once each.  When they
    are at most three, the cost function posted for the clause gives the
    weight of the clause (times the multiplier) to the one assignment of its
    variables that falsifies every literal, and [MIN_COST] to every other
    assignment. *)
Theorem clause_cost_table cost lits rest :
  Forall (fun j => j <> 0) lits -> clash_free lits ->
  (1 <= length lits <= MAX_ARITY)%nat ->
  exists c,
    read_literals MAX_ARITY 0 (lits ++ 0 :: rest)
      (mkClause (replicate MAX_ARITY 0) [] 0 false) = Done (c, rest) /\
    tautology c = false /\
    (1 <= arity c <= length lits)%nat /\
    NoDup (take (arity c) (scopeIndex c)) /\
    (forall j, In j lits -> In (Z.abs j - 1) (take (arity c) (scopeIndex c))) /\
    ((arity c <= 3)%nat ->
     exists p costs,
       post_clause MULT c cost = [p] /\
       table_of p = Some (take (arity c) (scopeIndex c), costs) /\
       forall asg, length asg = arity c -> boolean asg ->
         nth (Z.to_nat (cell asg)) costs 0
         = if falsified (take (arity c) (scopeIndex c)) asg lits
           then MULT cost else MIN_COST).
Proof.
  intros Hnz Hfree [Hne Hroom].
  assert (Hinit : recorded [] (mkClause (replicate MAX_ARITY 0) [] 0 false)).
  { unfold recorded. cbn. split; [lia|]. split; [lia|]. split; [lia|].
    split; [constructor|intros j []]. }
  assert (Hinit' : onto [] (mkClause (replicate MAX_ARITY 0) [] 0 false)).
  { intros k Hk. cbn in Hk. lia. }
  destruct (read_literals_step lits 0 [] (mkClause (replicate MAX_ARITY 0) [] 0 false)
              rest Hnz Hfree (length_replicate MAX_ARITY 0) eq_refl Hinit Hinit')
    as (c & Hc & Hlen & Ht & Hrec & Honto); [cbn; lia|].
  cbn [app] in Hrec, Honto.
  exists c. split; [exact Hc|]. split; [exact Ht|].
  pose proof Hrec as (Hsc & Htp & Hseen & Hnd & Hrc).
  assert (Hpos : (1 <= arity c)%nat).
  { destruct lits as [|j lits]; [cbn in Hne; lia|].
    destruct (Hrc j (or_introl eq_refl)) as (k & Hk & _). lia. }
  split; [lia|]. split; [exact Hnd|]. split.
  { intros j Hin. destruct (Hrc j Hin) as (k & Hk & H1 & _). rewrite <- H1.
    rewrite <- (nth_take_lt (scopeIndex c) (arity c) k 0 Hk).
    apply nth_In. rewrite length_take. lia. }
  intros Hsmall.
  assert (Hbit : forall k, (k < arity c)%nat ->
            nth k (tup c) 0 = 0 \/ nth k (tup c) 0 = 1).
  { intros k Hk. destruct (Honto k Hk) as (j & _ & _ & ->). apply polarity_bool. }
  assert (Hsem : forall asg, length asg = arity c ->
            falsified (take (arity c) (scopeIndex c)) asg lits = true
            <-> forall k, (k < arity c)%nat -> nth k asg 0 = nth k (tup c) 0).
  { intros asg Hl. apply falsified_iff; assumption. }
  unfold post_clause.
  destruct (arity c) as [|[|[|[|n]]]] eqn:Ha; try lia.
  - (* one variable *)
    eexists. eexists. split; [reflexivity|]. cbn [table_of].
    split; [rewrite (take_1 _ 0) by lia; reflexivity|].
    intros asg Hl Hb. destruct asg as [|a [|? ?]]; try discriminate.
    apply Forall_cons_1 in Hb as [Ha0 _].
    pose proof (Hbit 0%nat ltac:(lia)) as Ht0.
    specialize (Hsem [a] eq_refl).
    destruct (falsified _ [a] lits).
    + pose proof (proj1 Hsem eq_refl 0%nat ltac:(lia)) as E. cbn in E.
      rewrite <- E. bits; reflexivity.
    + assert (Hd : a <> nth 0 (tup c) 0).
      { intros E. assert (false = true); [|discriminate].
        apply Hsem. intros [|k] Hk; [exact E|lia]. }
      bits; try congruence; reflexivity.
  - (* two variables *)
    eexists. eexists. split; [reflexivity|]. cbn [table_of].
    split; [rewrite (take_2 _ 0) by lia; reflexivity|].
    intros asg Hl Hb. destruct asg as [|a [|b [|? ?]]]; try discriminate.
    apply Forall_cons_1 in Hb as [Ha0 Hb]. apply Forall_cons_1 in Hb as [Hb0 _].
    pose proof (Hbit 0%nat ltac:(lia)) as Ht0.
    pose proof (Hbit 1%nat ltac:(lia)) as Ht1.
    specialize (Hsem [a; b] eq_refl).
    destruct (falsified _ [a; b] lits).
    + pose proof (proj1 Hsem eq_refl 0%nat ltac:(lia)) as E0.
      pose proof (proj1 Hsem eq_refl 1%nat ltac:(lia)) as E1. cbn in E0, E1.
      rewrite <- E0, <- E1. bits; reflexivity.
    + assert (Hd : ~ (a = nth 0 (tup c) 0 /\ b = nth 1 (tup c) 0)).
      { intros [E0 E1]. assert (false = true); [|discriminate].
        apply Hsem. intros [|[|k]] Hk; [exact E0|exact E1|lia]. }
      bits; try (exfalso; apply Hd; split; congruence); reflexivity.
  - (* three variables *)
    eexists. eexists. split; [reflexivity|]. cbn [table_of].
    split; [rewrite (take_3 _ 0) by lia; reflexivity|].
    intros asg Hl Hb. destruct asg as [|a [|b [|d [|? ?]]]]; try discriminate.
    apply Forall_cons_1 in Hb as [Ha0 Hb]. apply Forall_cons_1 in Hb as [Hb0 Hb].
    apply Forall_cons_1 in Hb as [Hd0 _].
    pose proof (Hbit 0%nat ltac:(lia)) as Ht0.
    pose proof (Hbit 1%nat ltac:(lia)) as Ht1.
    pose proof (Hbit 2%nat ltac:(lia)) as Ht2.
    specialize (Hsem [a; b; d] eq_refl).
    destruct (falsified _ [a; b; d] lits).
    + pose proof (proj1 Hsem eq_refl 0%nat ltac:(lia)) as E0.
      pose proof (proj1 Hsem eq_refl 1%nat ltac:(lia)) as E1.
      pose proof (proj1 Hsem eq_refl 2%nat ltac:(lia)) as E2. cbn in E0, E1, E2.
      rewrite <- E0, <- E1, <- E2. bits; reflexivity.
    + assert (Hd : ~ (a = nth 0 (tup c) 0 /\ b = nth 1 (tup c) 0 /\
                      d = nth 2 (tup c) 0)).
      { intros (E0 & E1 & E2). assert (false = true); [|discriminate].
        apply Hsem. intros [|[|[|k]]] Hk; [exact E0|exact E1|exact E2|lia]. }
      bits; try (exfalso; apply Hd; repeat split; congruence); reflexivity.
Qed.

(** ** The end of the stream *)

Lemma read_literals_unfinished lits : forall j0 c,
  Forall (fun j => j <> 0) lits -> lits <> [] \/ j0 <> 0 ->
  (forall res, read_literals MAX_ARITY j0 lits c <> Done res) /\
  (tautology c = true -> read_literals MAX_ARITY j0 lits c = NeverEnds).
Proof.
  induction lits as [|j lits IH]; intros j0 c Hnz Hne; cbn [read_literals].
  - destruct Hne as [Hne|Hne]; [congruence|].
    rewrite (proj2 (Z.eqb_neq j0 0) Hne). unfold replay. split.
    + intros res. destruct (tautology c); [discriminate|].
      destruct (add_literal MAX_ARITY j0 c) as [c'|]; [|discriminate].
      destruct (tautology c'); [discriminate|].
      destruct (MAX_ARITY <=? arity c')%nat; discriminate.
    + intros ->. reflexivity.
  - apply Forall_cons_1 in Hnz as [Hj Hnz].
    rewrite (proj2 (Z.eqb_neq j 0) Hj).
    destruct (tautology c) eqn:Ht.
    + split; [|intros _]; apply (IH j c Hnz (or_intror Hj)). exact Ht.
    + split; [|discriminate]. intros res.
      destruct (add_literal MAX_ARITY j c) as [c'|]; [|discriminate].
      apply (IH j c' Hnz (or_intror Hj)).
Qed.

(** X25: the clause loop at the end of the stream.  Once the stream is
    exhausted every extraction fails and leaves its variable as it is: each
    clause still to come is read as an empty clause of cost [UNIT_COST],
    which adds that cost (times the multiplier) to the lower bound, and the
    loop ends.  A clause that the end of the stream cuts before its closing
    [0] is never finished: the loop yields no clause for it, and it never
    ends at all once the clause is known to be a tautology. *)
Theorem read_clauses_exhausted :
  (forall wcnf n,
     read_clauses MAX_ARITY MULT wcnf n []
     = Done (replicate n (IncLowerBound (MULT UNIT_COST)), []))
  /\ (forall lits j0 c,
        Forall (fun j => j <> 0) lits -> lits <> [] \/ j0 <> 0 ->
        (forall res, read_literals MAX_ARITY j0 lits c <> Done res) /\
        (tautology c = true -> read_literals MAX_ARITY j0 lits c = NeverEnds)).
Proof.
  split; [|intros lits j0 c; apply read_literals_unfinished].
  intros wcnf n. induction n as [|n IH]; [reflexivity|].
  cbn [read_clauses replicate].
  replace (if wcnf then read_int UNIT_COST [] else (UNIT_COST, []))
    with (UNIT_COST, @nil Z) by (destruct wcnf; reflexivity).
  cbn [snd fst read_literals Z.eqb tautology]. rewrite IH. reflexivity.
Qed.

End ClauseCost.

(** * The OPB reader *)

Lemma is_sign_cases c :
  is_sign c = true ->
  c = Ascii.ascii_of_nat 43 \/ c = Ascii.ascii_of_nat 45.
Proof.
  unfold is_sign. intros H. apply orb_true_iff in H.
  destruct H as [H|H]; apply Nat.eqb_eq in H;
    [left|right]; rewrite <- H; symmetry; apply Ascii.ascii_nat_embedding.
Qed.

(** X17: [readToken] on a word read from the stream.  A lone sign becomes
    [+1] or [-1].  A sign followed by anything but a digit is replaced by the
    decimal code of its character and a [1]: [+x] becomes [431x] and [-x]
    becomes [451x], with [*keep] set to 2.  Any other word, a sign followed
    by a digit included, is kept as it is, with [*keep] set to its length. *)
Theorem readToken_signs file token keep w :
  (forall k, keep = Some k -> Z.of_nat (String.length token) <= k) ->
  (w = "+"%string \/ w = "-"%string ->
   readToken (w :: file) token keep
   = Some (file, (w ++ "1")%string, option_map (fun _ => 2) keep))
  /\ (forall c0 c1 rest,
        w = String c0 (String c1 rest) ->
        is_sign c0 = true -> is_digit c1 = false ->
        readToken (w :: file) token keep
        = Some (file,
                ((if Nat.eqb (Ascii.nat_of_ascii c0) 43 then "431" else "451")
                 ++ String c1 rest)%string,
                option_map (fun _ => 2) keep))
  /\ (forall c0 rest,
        w = String c0 rest -> is_sign c0 = false ->
        readToken (w :: file) token keep
        = Some (file, w, option_map (fun _ => Z.of_nat (String.length w)) keep))
  /\ (forall c0 c1 rest,
        w = String c0 (String c1 rest) -> is_digit c1 = true ->
        readToken (w :: file) token keep
        = Some (file, w, option_map (fun _ => Z.of_nat (String.length w)) keep)).
Proof.
  intros Hk.
  assert (Hread : match keep with
                  | None => Some (extract (w :: file) token)
                  | Some k =>
                      if Z.of_nat (String.length token) <=? k
                      then Some (extract (w :: file) token)
                      else if 0 <=? k
                           then Some (w :: file, substr_from (Z.to_nat k) token)
                           else if - k <=? Z.of_nat (String.length token)
                                then Some (w :: file,
                                           substr_from
                                             (Z.to_nat (Z.of_nat (String.length token) + k))
                                             token)
                                else None
                  end = Some (file, w)).
  { destruct keep as [k|]; [|reflexivity].
    rewrite (proj2 (Z.leb_le _ _) (Hk k eq_refl)). reflexivity. }
  unfold readToken. rewrite Hread. clear Hread. split; [|split; [|split]].
  - intros [-> | ->]; destruct keep; reflexivity.
  - intros c0 c1 rest -> Hs Hd.
    destruct (is_sign_cases c0 Hs) as [-> | ->]; cbn; rewrite Hd; cbn;
      destruct keep; reflexivity.
  - intros c0 rest -> Hs.
    assert (E1 : String.eqb (String c0 rest) "+" = false).
    { apply String.eqb_neq. intros E. injection E as -> _. discriminate. }
    assert (E2 : String.eqb (String c0 rest) "-" = false).
    { apply String.eqb_neq. intros E. injection E as -> _. discriminate. }
    rewrite E1, E2. cbn [orb]. destruct rest as [|c1 rest].
    + destruct keep; reflexivity.
    + rewrite Hs. cbn [andb]. destruct keep; reflexivity.
  - intros c0 c1 rest -> Hd.
    assert (E1 : String.eqb (String c0 (String c1 rest)) "+" = false).
    { apply String.eqb_neq. intros E. discriminate E. }
    assert (E2 : String.eqb (String c0 (String c1 rest)) "-" = false).
    { apply String.eqb_neq. intros E. discriminate E. }
    rewrite E1, E2, Hd. cbn [orb negb]. rewrite andb_false_r.
    destruct keep; reflexivity.
Qed.

Lemma all_ones asg :
  boolean asg ->
  (tuple_eqb asg (replicate (length asg) 1) = true /\ product asg = 1) \/
  (tuple_eqb asg (replicate (length asg) 1) = false /\ product asg = 0).
Proof.
  induction 1 as [|a asg Ha _ IH]; [left; split; reflexivity|].
  cbn [length replicate tuple_eqb product fold_right].
  fold (product asg).
  destruct Ha as [-> | ->]; cbn.
  - right. split; reflexivity.
  - destruct IH as [[-> ->]|[-> ->]]; [left|right]; split; reflexivity.
Qed.

Ltac eval_cells :=
  repeat match goal with
         | |- context [Z.to_nat ?e] =>
             let v := eval vm_compute in (Z.to_nat e) in
             progress change (Z.to_nat e) with v
         end.

(** X18: what a term of the objective costs.  For a term [cost * x1 * ... *
    xn] over Boolean variables, the cost the posted function gives to an
    assignment, less the amount added to [negCost], is [cost] when every
    variable has value 1 and zero otherwise; a negative [cost] is posted as
    its opposite on the other assignments, so that every posted cost of a
    term with variables is non-negative and [negCost] never decreases. *)
Theorem objective_term_cost scopeIndex cost negCost asg :
  length asg = length scopeIndex -> boolean asg ->
  let r := post_objective_term scopeIndex cost negCost in
  opb_cost (fst r) asg - (snd r - negCost) = cost * product asg /\
  (scopeIndex <> [] -> 0 <= opb_cost (fst r) asg) /\
  negCost <= snd r.
Proof.
  intros Hl Hb. unfold MIN_COST in *.
  destruct scopeIndex as [|x [|y [|z [|u sc]]]].
  - destruct asg; [|discriminate]. cbn. split; [lia|].
    split; [congruence|lia].
  - destruct asg as [|a [|? ?]]; try discriminate.
    apply Forall_cons_1 in Hb as [Ha _].
    unfold post_objective_term, MIN_COST. cbn [fst snd opb_cost].
    destruct (cost <? 0) eqn:E; [apply Z.ltb_lt in E; rewrite ?Z.max_r by lia|apply Z.ltb_ge in E; rewrite ?Z.max_l by lia];
      destruct Ha as [-> | ->]; cbn; eval_cells; cbn; repeat split; intros; try lia.
  - destruct asg as [|a [|b [|? ?]]]; try discriminate.
    apply Forall_cons_1 in Hb as [Ha Hb]. apply Forall_cons_1 in Hb as [Hb0 _].
    unfold post_objective_term, MIN_COST. cbn [fst snd opb_cost].
    destruct (cost <? 0) eqn:E; [apply Z.ltb_lt in E; rewrite ?Z.max_r by lia|apply Z.ltb_ge in E; rewrite ?Z.max_l by lia];
      destruct Ha as [-> | ->]; destruct Hb0 as [-> | ->];
      cbn; eval_cells; cbn; repeat split; intros; try lia.
  - destruct asg as [|a [|b [|d [|? ?]]]]; try discriminate.
    apply Forall_cons_1 in Hb as [Ha Hb]. apply Forall_cons_1 in Hb as [Hb0 Hb].
    apply Forall_cons_1 in Hb as [Hd _].
    unfold post_objective_term, MIN_COST. cbn [fst snd opb_cost].
    destruct (cost <? 0) eqn:E; [apply Z.ltb_lt in E; rewrite ?Z.max_r by lia|apply Z.ltb_ge in E; rewrite ?Z.max_l by lia];
      destruct Ha as [-> | ->]; destruct Hb0 as [-> | ->]; destruct Hd as [-> | ->];
      cbn; eval_cells; cbn; repeat split; intros; try lia.
  - set (scope := x :: y :: z :: u :: sc) in *.
    assert (E : post_objective_term scope cost negCost
                = (OpbNary scope (Z.max 0 (- cost)) (replicate (length scope) 1)
                     (if cost <? 0 then 0 else cost),
                   if cost <? 0 then negCost - cost else negCost)) by reflexivity.
    rewrite E. cbn [fst snd opb_cost]. rewrite <- Hl.
    destruct (all_ones asg Hb) as [[-> ->]|[-> ->]];
      destruct (cost <? 0) eqn:Ec; [apply Z.ltb_lt in Ec|apply Z.ltb_ge in Ec| |];
      try apply Z.ltb_lt in Ec; try apply Z.ltb_ge in Ec;
      repeat split; try lia.
Qed.

(** * The global bound of a CFN header *)

Lemma is_digit_not_point c : is_digit c = true -> Nat.eqb (Ascii.nat_of_ascii c) 46 = false.
Proof.
  unfold is_digit. intros H. apply andb_true_iff in H as [H1 H2].
  apply Nat.leb_le in H1. apply Nat.eqb_neq. lia.
Qed.

Lemma is_digit_not_space c : is_digit c = true -> is_space c = false.
Proof.
  unfold is_digit, is_space. intros H. apply andb_true_iff in H as [H1 H2].
  apply Nat.leb_le in H1. apply Nat.leb_le in H2.
  apply orb_false_iff. split.
  - apply andb_false_iff. right. apply Nat.leb_gt. lia.
  - apply Nat.eqb_neq. lia.
Qed.

Lemma is_digit_not_sign c :
  is_digit c = true ->
  Nat.eqb (Ascii.nat_of_ascii c) 43 = false /\ Nat.eqb (Ascii.nat_of_ascii c) 45 = false.
Proof.
  unfold is_digit. intros H. apply andb_true_iff in H as [H1 H2].
  apply Nat.leb_le in H1. split; apply Nat.eqb_neq; lia.
Qed.

Lemma find_point_digits I R :
  all_digits I = true ->
  find_point (I ++ String point_char R) = Some (String.length I).
Proof.
  induction I as [|c I IH]; cbn [all_digits append find_point String.length]; intros H.
  - reflexivity.
  - apply andb_true_iff in H as [Hc HI].
    rewrite (is_digit_not_point c Hc), (IH HI). reflexivity.
Qed.

Lemma substring_app_l I R k :
  String.substring 0 (String.length I + k) (I ++ R) = (I ++ String.substring 0 k R)%string.
Proof.
  induction I as [|c I IH]; cbn [append String.length Nat.add]; [reflexivity|].
  cbn [String.substring]. rewrite IH. reflexivity.
Qed.

Lemma substring_app_r I R k m :
  String.substring (String.length I + k) m (I ++ R) = String.substring k m R.
Proof.
  induction I as [|c I IH]; cbn [append String.length Nat.add]; [reflexivity|].
  cbn [String.substring]. exact IH.
Qed.

Lemma substring_none s : String.substring 0 0 s = EmptyString.
Proof. destruct s; reflexivity. Qed.

Lemma substring_all D : String.substring 0 (String.length D) D = D.
Proof.
  induction D as [|c D IH]; cbn [String.length String.substring]; [reflexivity|].
  rewrite IH. reflexivity.
Qed.

Lemma length_append I R :
  String.length (I ++ R) = (String.length I + String.length R)%nat.
Proof. induction I as [|c I IH]; cbn; [reflexivity|]. rewrite IH. reflexivity. Qed.

Lemma digits_prefix_stop I c R : forall acc,
  all_digits I = true -> is_digit c = false ->
  digits_prefix (I ++ String c R) acc = digits_prefix I acc.
Proof.
  induction I as [|d I IH]; intros acc H Hc; cbn [append digits_prefix all_digits] in *.
  - rewrite Hc. reflexivity.
  - apply andb_true_iff in H as [Hd HI]. rewrite Hd. apply IH; assumption.
Qed.

Lemma digits_prefix_bound D : forall acc,
  all_digits D = true -> 0 <= acc ->
  acc * 10 ^ Z.of_nat (String.length D) <= digits_prefix D acc
  < (acc + 1) * 10 ^ Z.of_nat (String.length D).
Proof.
  induction D as [|c D IH]; intros acc H Hacc;
    cbn [all_digits digits_prefix String.length] in *.
  - cbn. lia.
  - apply andb_true_iff in H as [Hc HD]. rewrite Hc.
    assert (Hd : 0 <= Z.of_nat (Ascii.nat_of_ascii c - 48) <= 9).
    { unfold is_digit in Hc. apply andb_true_iff in Hc as [H1 H2].
      apply Nat.leb_le in H1. apply Nat.leb_le in H2. lia. }
    specialize (IH (10 * acc + Z.of_nat (Ascii.nat_of_ascii c - 48)) HD ltac:(lia)).
    rewrite Nat2Z.inj_succ, Z.pow_succ_r by lia.
    assert (Hp : 0 < 10 ^ Z.of_nat (String.length D)) by (apply Z.pow_pos_nonneg; lia).
    nia.
Qed.

Lemma stoll_digits D :
  all_digits D = true -> D <> EmptyString ->
  digits_prefix D 0 <= 2 ^ 63 - 1 ->
  stoll D = Number (digits_prefix D 0).
Proof.
  intros H Hne Hr. destruct D as [|c D]; [congruence|].
  pose proof H as H'. cbn [all_digits] in H'. apply andb_true_iff in H' as [Hc _].
  unfold stoll. cbn [skip_space]. rewrite (is_digit_not_space c Hc).
  destruct (is_digit_not_sign c Hc) as [-> ->]. cbn [fst snd isdigit0].
  rewrite Hc.
  pose proof (digits_prefix_bound (String c D) 0 H ltac:(lia)) as [Hlo _].
  replace (- 2 ^ 63 <=? digits_prefix (String c D) 0) with true
    by (symmetry; apply Z.leb_le; lia).
  replace (digits_prefix (String c D) 0 <=? 2 ^ 63 - 1) with true
    by (symmetry; apply Z.leb_le; lia).
  reflexivity.
Qed.

Lemma stoll_prefix I c R :
  all_digits I = true -> I <> EmptyString -> is_digit c = false ->
  digits_prefix I 0 <= 2 ^ 63 - 1 ->
  stoll (I ++ String c R) = Number (digits_prefix I 0)
  /\ stoll (String minus_char (I ++ String c R)) = Number (- digits_prefix I 0).
Proof.
  intros H Hne Hc Hr. destruct I as [|d I]; [congruence|].
  pose proof H as H'. cbn [all_digits] in H'. apply andb_true_iff in H' as [Hd _].
  pose proof (digits_prefix_bound (String d I) 0 H ltac:(lia)) as [Hlo _].
  pose proof (digits_prefix_stop (String d I) c R 0 H Hc) as Hstop.
  split.
  - unfold stoll. cbn [append skip_space]. rewrite (is_digit_not_space d Hd).
    destruct (is_digit_not_sign d Hd) as [-> ->]. cbn [fst snd isdigit0].
    rewrite Hd. cbn [append] in Hstop. rewrite Hstop.
    replace (- 2 ^ 63 <=? digits_prefix (String d I) 0) with true
      by (symmetry; apply Z.leb_le; lia).
    replace (digits_prefix (String d I) 0 <=? 2 ^ 63 - 1) with true
      by (symmetry; apply Z.leb_le; lia).
    reflexivity.
  - unfold stoll. cbn [append skip_space].
    change (is_space minus_char) with false. cbn iota.
    change (Nat.eqb (Ascii.nat_of_ascii minus_char) 43) with false.
    change (Nat.eqb (Ascii.nat_of_ascii minus_char) 45) with true.
    cbn [fst snd isdigit0]. rewrite Hd. cbn [append] in Hstop. rewrite Hstop.
    replace (- 2 ^ 63 <=? - digits_prefix (String d I) 0) with true
      by (symmetry; apply Z.leb_le; lia).
    replace (- digits_prefix (String d I) 0 <=? 2 ^ 63 - 1) with true
      by (symmetry; apply Z.leb_le; lia).
    reflexivity.
Qed.

(** The token of a decimal bound once its two parts are parsed. *)
Lemma header_bound_parsed (negative : bool) I D :
  all_digits I = true -> I <> EmptyString ->
  all_digits D = true -> D <> EmptyString ->
  (String.length D <= 18)%nat ->
  digits_prefix I 0 <= 2 ^ 63 - 1 ->
  let vi := digits_prefix I 0 in
  let vd := digits_prefix D 0 in
  let b := wrap64 ((if negative then - vi else vi) * 10 ^ Z.of_nat (String.length D)) in
  header_bound
    (String lt_char
       ((if negative then String minus_char EmptyString else EmptyString)
        ++ I ++ String point_char D))
  = inl (mkHeaderBound (wrap64 (b + (if 0 <=? b then vd else wrap64 (- vd))))
                       (Z.of_nat (String.length D)) false).
Proof.
  intros HI HIne HD HDne Hlen Hr vi vd b.
  assert (Hpc : is_digit point_char = false) by reflexivity.
  destruct (stoll_prefix I point_char EmptyString HI HIne Hpc Hr) as [Sp Sn].
  pose proof (digits_prefix_bound D 0 HD ltac:(lia)) as [Hd0 Hd1].
  pose proof (digits_prefix_bound I 0 HI ltac:(lia)) as [Hi0 _].
  assert (Hpow : 10 ^ Z.of_nat (String.length D) <= 10 ^ 18)
    by (apply Z.pow_le_mono_r; lia).
  assert (Sd : stoll D = Number vd) by (apply stoll_digits; [assumption|assumption|lia]).
  assert (Hp10 : pow10 (String.length D) = Some (10 ^ Z.of_nat (String.length D))).
  { unfold pow10. rewrite (proj2 (Nat.leb_le _ _) Hlen). reflexivity. }
  assert (Hscale : 0 < 10 ^ Z.of_nat (String.length D))
    by (apply Z.pow_pos_nonneg; lia).
  unfold header_bound.
  change (Ascii.nat_of_ascii lt_char) with 60%nat. cbn [Nat.eqb orb].
  destruct negative; cbn [append andb].
  - (* a minus sign *)
    cbn [find_point].
    change (Nat.eqb (Ascii.nat_of_ascii lt_char) 46) with false.
    change (Nat.eqb (Ascii.nat_of_ascii minus_char) 46) with false. cbn iota.
    rewrite (find_point_digits I D HI). cbn [option_map].
    assert (E1 : String.substring 1 (S (S (String.length I)))
                   (String lt_char (String minus_char (I ++ String point_char D)))
                 = String minus_char (I ++ String point_char EmptyString)).
    { cbn [String.substring]. f_equal.
      replace (S (String.length I)) with (String.length I + 1)%nat by lia.
      rewrite substring_app_l. cbn [String.substring].
      rewrite substring_none. reflexivity. }
    rewrite E1, Sn.
    assert (E2 : substr_from (S (S (String.length I)) + 1)
                   (String lt_char (String minus_char (I ++ String point_char D)))
                 = D).
    { unfold substr_from. cbn [String.length]. rewrite length_append.
      cbn [String.length].
      replace (S (S (String.length I)) + 1)%nat with (S (S (String.length I + 1)))
        by lia.
      cbn [String.substring].
      replace (S (S (String.length I + S (String.length D)))
               - S (S (String.length I + 1)))%nat
        with (String.length D) by lia.
      rewrite substring_app_r. cbn [String.substring]. apply substring_all. }
    rewrite E2, Hp10, Sd. reflexivity.
  - (* no sign *)
    cbn [find_point].
    change (Nat.eqb (Ascii.nat_of_ascii lt_char) 46) with false. cbn iota.
    rewrite (find_point_digits I D HI). cbn [option_map].
    assert (E1 : String.substring 1 (S (String.length I))
                   (String lt_char (I ++ String point_char D))
                 = (I ++ String point_char EmptyString)%string).
    { cbn [String.substring].
      replace (S (String.length I)) with (String.length I + 1)%nat by lia.
      rewrite substring_app_l. cbn [String.substring].
      rewrite substring_none. reflexivity. }
    rewrite E1, Sp.
    assert (E2 : substr_from (S (String.length I) + 1)
                   (String lt_char (I ++ String point_char D))
                 = D).
    { unfold substr_from. cbn [String.length]. rewrite length_append.
      cbn [String.length].
      replace (S (String.length I) + 1)%nat with (S (String.length I + 1)) by lia.
      cbn [String.substring].
      replace (S (String.length I + S (String.length D))
               - S (String.length I + 1))%nat
        with (String.length D) by lia.
      rewrite substring_app_r. cbn [String.substring]. apply substring_all. }
    rewrite E2, Hp10, Sd. reflexivity.
Qed.

Lemma wrap64_fits z : - 2 ^ 63 <= z <= 2 ^ 63 - 1 -> wrap64 z = z.
Proof.
  intros H. unfold wrap64. rewrite Z.mod_small; lia.
Qed.

(** X19: the decimal bound of a CFN header.  For a token [<I.D] or [<-I.D],
    with [I] and [D] strings of digits and at most eighteen decimals,
    [readHeader] sets the precision to the number of decimals; the bound it
    returns is the integer part, negated when there is a minus sign, times
    that power of ten, plus the decimals when this product is not negative
    and minus the decimals when it is, each step computed in 64 bits.  When
    the integer part scaled by that power of ten plus the decimals fits 64
    bits, the bound is this number, negated when there is a minus sign and
    the integer part is not zero; when the integer part is zero the minus
    sign is lost: [<-0.D] is read as [<0.D] is. *)
Theorem header_bound_decimal (negative : bool) I D :
  all_digits I = true -> I <> EmptyString ->
  all_digits D = true -> D <> EmptyString ->
  (String.length D <= 18)%nat ->
  digits_prefix I 0 <= 2 ^ 63 - 1 ->
  let vi := digits_prefix I 0 in
  let vd := digits_prefix D 0 in
  let token :=
    String lt_char
      ((if negative then String minus_char EmptyString else EmptyString)
       ++ I ++ String point_char D) in
  let b := wrap64 ((if negative then - vi else vi) * 10 ^ Z.of_nat (String.length D)) in
  let magnitude := vi * 10 ^ Z.of_nat (String.length D) + vd in
  header_bound token
  = inl (mkHeaderBound (wrap64 (b + (if 0 <=? b then vd else wrap64 (- vd))))
                       (Z.of_nat (String.length D)) false)
  /\ (magnitude <= 2 ^ 63 - 1 ->
      header_bound token
      = inl (mkHeaderBound (if negative && (0 <? vi) then - magnitude else magnitude)
                           (Z.of_nat (String.length D)) false)).
Proof.
  intros HI HIne HD HDne Hlen Hr vi vd token b magnitude.
  pose proof (header_bound_parsed negative I D HI HIne HD HDne Hlen Hr) as E.
  cbn zeta in E. fold vi vd b token in E. split; [exact E|].
  intros Hfit. rewrite E. do 2 f_equal.
  pose proof (digits_prefix_bound D 0 HD ltac:(lia)) as [Hd0 Hd1].
  pose proof (digits_prefix_bound I 0 HI ltac:(lia)) as [Hi0 _].
  fold vi in Hi0. fold vd in Hd0, Hd1.
  assert (Hscale : 0 < 10 ^ Z.of_nat (String.length D))
    by (apply Z.pow_pos_nonneg; lia).
  subst magnitude b. destruct negative; cbn [andb].
  - rewrite (wrap64_fits (- vi * _)) by nia.
    destruct (0 <? vi) eqn:Ev.
    + apply Z.ltb_lt in Ev.
      replace (0 <=? - vi * 10 ^ Z.of_nat (String.length D)) with false
        by (symmetry; apply Z.leb_gt; nia).
      rewrite (wrap64_fits (- vd)) by lia. rewrite wrap64_fits by nia. lia.
    + apply Z.ltb_ge in Ev. assert (vi = 0) by lia.
      replace (0 <=? - vi * 10 ^ Z.of_nat (String.length D)) with true
        by (symmetry; apply Z.leb_le; nia).
      rewrite wrap64_fits by nia. nia.
  - rewrite (wrap64_fits (vi * _)) by nia.
    replace (0 <=? vi * 10 ^ Z.of_nat (String.length D)) with true
      by (symmetry; apply Z.leb_le; nia).
    apply wrap64_fits. nia.
Qed.

(** The bound [<9223372036854775807.5] does not fit: the product wraps around
    to [-10] and the decimals are then subtracted. *)
Example header_bound_wraps :
  header_bound "<9223372036854775807.5" = inl (mkHeaderBound (-15) 1 false).
Proof. vm_compute. reflexivity. Qed.

(** * Lines and comments of a CFN file *)

Lemma find_comment_head s : find_comment s = Some O <-> slashes_ahead s = true.
Proof.
  destruct s as [|c r]; cbn [find_comment]; [split; discriminate|].
  destruct (slashes_ahead (String c r)); [split; reflexivity|].
  destruct (find_comment r); cbn; split; discriminate.
Qed.

Lemma slashes_ahead_prefix c r p :
  slashes_ahead (String c r) = false ->
  slashes_ahead (String c (String.substring 0 p r)) = false.
Proof.
  intros H. destruct r as [|c' r'], p as [|p]; cbn in *; try reflexivity.
  exact H.
Qed.

Lemma find_comment_prefix s : forall p,
  find_comment s = Some p -> find_comment (String.substring 0 p s) = None.
Proof.
  induction s as [|c r IH]; intros p H; [discriminate|].
  cbn [find_comment] in H.
  destruct (slashes_ahead (String c r)) eqn:Hh.
  - injection H as <-. reflexivity.
  - destruct (find_comment r) as [q|] eqn:Hq; [|discriminate].
    cbn in H. injection H as <-. cbn [String.substring find_comment].
    rewrite (slashes_ahead_prefix c r q Hh), (IH q eq_refl). reflexivity.
Qed.

Lemma uncommented_clean line : find_comment (uncommented line) = None.
Proof.
  unfold uncommented. destruct (find_comment line) as [p|] eqn:E; [|exact E].
  apply find_comment_prefix, E.
Qed.

Lemma skip_loop_spec ls : forall line count,
  match skip_loop ls line count with
  | (Some l, ls', count') =>
      exists skipped,
        line :: ls = skipped ++ l :: ls' /\
        forallb blank_or_hash skipped = true /\ blank_or_hash l = false /\
        count' = count + Z.of_nat (length skipped)
  | (None, ls', _) =>
      ls' = [] /\ forallb blank_or_hash (line :: ls) = true
  end.
Proof.
  induction ls as [|l ls IH]; intros line count; cbn [skip_loop].
  - destruct (blank_or_hash line) eqn:E.
    + split; [reflexivity|]. cbn. rewrite E. reflexivity.
    + exists []. cbn. repeat split; [exact E|lia].
  - destruct (blank_or_hash line) eqn:E.
    + specialize (IH l (count + 1)).
      destruct (skip_loop ls l (count + 1)) as [[[l'|] ls'] count'].
      * destruct IH as (sk & H1 & H2 & H3 & H4).
        exists (line :: sk). cbn [app forallb length]. rewrite H1, E, H2.
        repeat split; [exact H3|lia].
      * destruct IH as [H1 H2]. split; [exact H1|].
        cbn [forallb] in *. rewrite E. exact H2.
    + exists []. cbn. repeat split; [exact E|lia].
Qed.

Lemma forallb_weaken {A} (f g : A -> bool) l :
  (forall x, f x = true -> g x = true) -> forallb f l = true -> forallb g l = true.
Proof.
  intros H. induction l as [|x l IH]; cbn; [reflexivity|].
  intros E. apply andb_true_iff in E as [E1 E2].
  rewrite (H x E1), (IH E2). reflexivity.
Qed.

Lemma blank_passed_over l : blank_or_hash l = true -> passed_over l = true.
Proof. unfold passed_over. intros ->. reflexivity. Qed.

Lemma getNextLine_fuel_delivers fuel : forall r,
  (length (lines r) < fuel)%nat -> delivers r (getNextLine_fuel fuel r).
Proof.
  induction fuel as [|fuel IH]; intros r Hf; [lia|].
  cbn [getNextLine_fuel].
  destruct (lines r) as [|l ls] eqn:Hl.
  - cbn. unfold delivers. cbn. rewrite Hl. auto.
  - cbn [fst snd].
    pose proof (skip_loop_spec ls l (lineCount r + 1)) as Hs.
    destruct (skip_loop ls l (lineCount r + 1)) as [[[line|] ls'] count].
    + destruct Hs as (sk & H1 & H2 & H3 & H4).
      assert (Hsk : forallb passed_over sk = true)
        by (eapply forallb_weaken; [apply blank_passed_over|exact H2]).
      assert (Hlen : (length ls' <= length ls)%nat).
      { apply (f_equal (@length string)) in H1.
        rewrite length_app in H1. cbn [length] in H1. lia. }
      destruct (find_comment line) as [[|p]|] eqn:Hc.
      * (* the whole line is a comment *)
        cbn [length] in Hf.
        specialize (IH (mkLineReader ls' count (currentLine r)) ltac:(cbn; lia)).
        apply find_comment_head in Hc.
        destruct (getNextLine_fuel fuel (mkLineReader ls' count (currentLine r)))
          as [[|] r'] eqn:E; unfold delivers in *; cbn [fst snd lines lineCount currentLine] in *.
        -- destruct IH as (sk1 & line1 & I1 & I2 & I3 & I4 & I5).
           exists (sk ++ line :: sk1), line1. rewrite Hl, H1, I1.
           split; [rewrite <- app_assoc; reflexivity|].
           split.
           { rewrite forallb_app. cbn [forallb]. rewrite Hsk, I2.
             unfold passed_over. rewrite Hc, orb_true_r. reflexivity. }
           split; [exact I3|]. split; [exact I4|].
           rewrite I5, H4, length_app. cbn [length]. lia.
        -- destruct IH as (I1 & I2 & I3). split; [exact I1|]. split; [|exact I3].
           rewrite Hl, H1, forallb_app. cbn [forallb]. rewrite Hsk, I2.
           unfold passed_over. rewrite Hc, orb_true_r. reflexivity.
      * (* a comment after some text *)
        unfold delivers. cbn [fst snd lines lineCount currentLine].
        exists sk, line. rewrite Hl. split; [exact H1|]. split; [exact Hsk|].
        split.
        { unfold passed_over. rewrite H3. cbn [orb].
          destruct (slashes_ahead line) eqn:Hh; [|reflexivity].
          apply find_comment_head in Hh. congruence. }
        split; [unfold uncommented; rewrite Hc; reflexivity|lia].
      * (* no comment *)
        unfold delivers. cbn [fst snd lines lineCount currentLine].
        exists sk, line. rewrite Hl. split; [exact H1|]. split; [exact Hsk|].
        split.
        { unfold passed_over. rewrite H3. cbn [orb].
          destruct (slashes_ahead line) eqn:Hh; [|reflexivity].
          apply find_comment_head in Hh. congruence. }
        split; [unfold uncommented; rewrite Hc; reflexivity|lia].
    + destruct Hs as [H1 H2]. unfold delivers.
      cbn [fst snd lines lineCount currentLine]. split; [exact H1|].
      split; [|reflexivity]. rewrite Hl.
      eapply forallb_weaken; [apply blank_passed_over|exact H2].
Qed.

Lemma uncommented_text line :
  passed_over line = false ->
  uncommented line <> EmptyString /\ blank_or_hash (uncommented line) = false.
Proof.
  unfold passed_over, uncommented. intros H. apply orb_false_iff in H as [Hb Hs].
  destruct line as [|c r]; [discriminate|].
  destruct (find_comment (String c r)) as [[|p]|] eqn:Hc.
  - apply find_comment_head in Hc. congruence.
  - cbn [String.substring]. split; [discriminate|exact Hb].
  - split; [discriminate|exact Hb].
Qed.

(** X20: what [getNextLine] delivers.  It passes over the lines that are
    empty, start with [#] or start with two slashes, and stops at the first
    other line: [currentLine] receives that line cut before its first two
    slashes, so it is never empty, never starts with [#] and holds no
    comment, and [lineCount] grows by the number of lines consumed.  It
    answers false only when every line left was one to pass over; the stream
    is then exhausted and [currentLine] untouched. *)
Theorem getNextLine_delivers r :
  delivers r (getNextLine r)
  /\ (fst (getNextLine r) = true ->
      currentLine (snd (getNextLine r)) <> EmptyString /\
      blank_or_hash (currentLine (snd (getNextLine r))) = false /\
      find_comment (currentLine (snd (getNextLine r))) = None).
Proof.
  assert (D : delivers r (getNextLine r))
    by (apply getNextLine_fuel_delivers; lia).
  split; [exact D|]. intros Ht. unfold delivers in D. rewrite Ht in D.
  destruct D as (sk & line & _ & _ & Hp & -> & _).
  destruct (uncommented_text line Hp) as [H1 H2].
  split; [exact H1|]. split; [exact H2|apply uncommented_clean].
Qed.

(** * Merging the unary cost functions *)

Section MergeFacts.
Variable ub : Cost.
Variable dom : Z -> nat.
Variable nvar : nat.

Lemma merge_loop_spec n : forall i acc cs,
  (i + n <= length acc)%nat -> (i + n <= length cs)%nat ->
  exists acc', merge_loop ub i n acc cs = Some acc' /\
    length acc' = length acc /\
    forall j, nth j acc' 0
              = if (i <=? j)%nat && (j <? i + n)%nat
                then sat_add ub (nth j acc 0) (nth j cs 0)
                else nth j acc 0.
Proof.
  induction n as [|n IH]; intros i acc cs Ha Hc; cbn [merge_loop];
    unfold Cost in *.
  - exists acc. split; [reflexivity|]. split; [reflexivity|]. intros j.
    split_nat_tests; cbn [andb]; try reflexivity; lia.
  - destruct (lookup_lt_is_Some_2 acc i) as [a Hai]; [lia|].
    destruct (lookup_lt_is_Some_2 cs i) as [c Hci]; [lia|].
    rewrite Hai.
    assert (Hna : nth i acc 0 = a) by (apply nth_lookup_Some; exact Hai).
    assert (Hnc : nth i cs 0 = c) by (apply nth_lookup_Some; exact Hci).
    destruct (a <? ub) eqn:Ea.
    + rewrite Hci.
      destruct (IH (S i) (<[i := if c <? ub then a + c else ub]> acc) cs)
        as (acc' & E & L & N); [rewrite length_insert; lia|lia|].
      exists acc'. split; [exact E|]. split; [rewrite L; apply length_insert|].
      intros j. rewrite N.
      split_nat_tests; cbn [andb]; try lia;
        first [ rewrite nth_insert_ne by lia; reflexivity
              | replace j with i by lia; rewrite nth_insert_eq by lia;
                unfold sat_add; rewrite Hna, Hnc, Ea; reflexivity ].
    + destruct (IH (S i) acc cs) as (acc' & E & L & N); [lia|lia|].
      exists acc'. split; [exact E|]. split; [exact L|].
      intros j. rewrite N.
      split_nat_tests; cbn [andb]; try lia; try reflexivity.
      replace j with i by lia. unfold sat_add. rewrite Hna, Ea. reflexivity.
Qed.

Lemma column_snoc P v' cs v i :
  column (P ++ [(v', cs)]) v i
  = column P v i ++ (if v' =? v then [nth i cs 0] else []).
Proof.
  unfold column. rewrite List.filter_app, map_app. cbn [List.filter fst].
  destruct (v' =? v); reflexivity.
Qed.

Lemma column_nonempty P v i : In v (map fst P) -> column P v i <> [].
Proof.
  unfold column. induction P as [|[x cs] P IH]; cbn [map fst List.filter]; [intros []|].
  intros [->|H].
  - rewrite Z.eqb_refl. discriminate.
  - destruct (x =? v); [discriminate|]. apply IH, H.
Qed.

Lemma column_absent P v i : ~ In v (map fst P) -> column P v i = [].
Proof.
  unfold column. induction P as [|[x cs] P IH]; cbn [map fst List.filter]; [reflexivity|].
  intros H. destruct (x =? v) eqn:E.
  - apply Z.eqb_eq in E. exfalso. apply H. left. exact E.
  - apply IH. intros H'. apply H. right. exact H'.
Qed.

Lemma sat_sum_snoc l c : l <> [] -> sat_sum ub (l ++ [c]) = sat_add ub (sat_sum ub l) c.
Proof.
  destruct l as [|x l]; [congruence|]. intros _. cbn [app sat_sum].
  rewrite fold_left_app. reflexivity.
Qed.

Lemma vec_at_Some {A} (l : list A) i x :
  vec_at l i = Some x <-> 0 <= i /\ l !! Z.to_nat i = Some x.
Proof.
  unfold vec_at. destruct (i <? 0) eqn:E.
  - apply Z.ltb_lt in E. split; [discriminate|lia].
  - apply Z.ltb_ge in E. tauto.
Qed.

Lemma merge_inv_init : merge_inv ub dom nvar [] (replicate nvar (-1)) [].
Proof.
  unfold merge_inv. split; [apply length_replicate|]. split; [|split].
  - intros v s H. apply vec_at_Some in H as [_ H].
    apply lookup_replicate in H as [-> _]. left. reflexivity.
  - intros k v costs H. discriminate.
  - intros v [].
Qed.

Lemma merge_inv_nodup P seen new :
  merge_inv ub dom nvar P seen new -> NoDup (map fst new).
Proof.
  intros (_ & _ & H3 & _). apply NoDup_alt. intros k1 k2 v H1 H2.
  rewrite list_lookup_fmap in H1, H2.
  apply fmap_Some in H1 as ([v1 c1] & E1 & Hv1).
  apply fmap_Some in H2 as ([v2 c2] & E2 & Hv2).
  cbn [fst] in Hv1, Hv2. subst v1 v2.
  destruct (H3 _ _ _ E1) as (S1 & _). destruct (H3 _ _ _ E2) as (S2 & _).
  rewrite S1 in S2. injection S2 as S2. lia.
Qed.

Lemma merge_step_new P seen new v cs :
  merge_inv ub dom nvar P seen new ->
  well_sized dom nvar (v, cs) ->
  vec_at seen v = Some (-1) ->
  merge_inv ub dom nvar (P ++ [(v, cs)])
    (<[Z.to_nat v := Z.of_nat (length new)]> seen) (new ++ [(v, cs)]).
Proof.
  intros (I1 & I2 & I3 & I4) [[Hv0 Hv1] Hcs] Hs. cbn [fst snd] in *.
  unfold UnaryCF, Cost in *.
  assert (Hfresh : ~ In v (map fst P)).
  { intros H. destruct (I4 v H) as (s & E & Hne). congruence. }
  assert (Hother : forall v0 k, vec_at seen v0 = Some (Z.of_nat k) -> v0 <> v).
  { intros v0 k E ->. rewrite Hs in E. injection E as E. lia. }
  assert (Hkeep : forall v0 s0, v0 <> v -> 0 <= v0 ->
            (vec_at (<[Z.to_nat v := Z.of_nat (length new)]> seen) v0 = Some s0
             <-> vec_at seen v0 = Some s0)).
  { intros v0 s0 Hne H0. rewrite !vec_at_Some.
    rewrite list_lookup_insert_ne by lia. tauto. }
  unfold merge_inv. split; [rewrite length_insert; exact I1|]. split; [|split].
  - intros v0 s0 H. pose proof (proj1 (vec_at_Some _ _ _) H) as [H0 _].
    destruct (Z.eq_dec v0 v) as [->|Hne].
    + apply vec_at_Some in H as [_ H].
      rewrite list_lookup_insert_eq in H by lia. injection H as <-.
      right. split; [lia|]. exists cs. rewrite Nat2Z.id.
      apply list_lookup_middle. reflexivity.
    + apply Hkeep in H; [|exact Hne|exact H0].
      destruct (I2 v0 s0 H) as [->|(Hs0 & costs & E)]; [left; reflexivity|].
      right. split; [exact Hs0|]. exists costs. apply lookup_app_l_Some, E.
  - intros k v0 costs H.
    destruct (lookup_app_Some new [(v, cs)] k (v0, costs)) as [Hk _].
    destruct (Hk H) as [E|[Hl E]].
    + destruct (I3 k v0 costs E) as (S0 & Hin & [Hlen Hm]).
      pose proof (Hother v0 k S0) as Hne.
      pose proof (proj1 (vec_at_Some _ _ _) S0) as [H0 _].
      split; [apply Hkeep; assumption|]. split.
      * rewrite map_app. apply in_or_app. left. exact Hin.
      * split; [exact Hlen|]. intros i Hi. rewrite column_snoc.
        replace (v =? v0) with false by (symmetry; apply Z.eqb_neq; congruence).
        rewrite app_nil_r. apply Hm, Hi.
    + destruct (k - length new)%nat as [|n] eqn:Ek; [|destruct n; discriminate].
      cbn in E. injection E as <- <-. replace k with (length new) by lia.
      split.
      * apply vec_at_Some. split; [lia|]. apply list_lookup_insert_eq. lia.
      * split; [rewrite map_app; apply in_or_app; right; left; reflexivity|].
        split; [exact Hcs|]. intros i Hi. rewrite column_snoc, Z.eqb_refl.
        rewrite (column_absent P v i Hfresh). reflexivity.
  - intros v0 H. rewrite map_app in H. apply in_app_or in H.
    destruct (Z.eq_dec v0 v) as [->|Hne].
    + exists (Z.of_nat (length new)). split; [|lia].
      apply vec_at_Some. split; [lia|]. apply list_lookup_insert_eq. lia.
    + destruct H as [H|[H|[]]]; [|cbn in H; congruence].
      destruct (I4 v0 H) as (s0 & E & Hs0). exists s0. split; [|exact Hs0].
      pose proof (proj1 (vec_at_Some _ _ _) E) as [H0 _].
      apply Hkeep; assumption.
Qed.

Lemma merge_step_old P seen new v cs s acc acc' :
  merge_inv ub dom nvar P seen new ->
  well_sized dom nvar (v, cs) ->
  vec_at seen v = Some s -> 0 <= s -> new !! Z.to_nat s = Some (v, acc) ->
  length acc' = length acc ->
  (forall j, nth j acc' 0
             = if (0 <=? j)%nat && (j <? 0 + dom v)%nat
               then sat_add ub (nth j acc 0) (nth j cs 0) else nth j acc 0) ->
  merge_inv ub dom nvar (P ++ [(v, cs)]) seen (<[Z.to_nat s := (v, acc')]> new).
Proof.
  intros (I1 & I2 & I3 & I4) [[Hv0 Hv1] Hcs] Hs Hs0 Hnew Hlen Hnth.
  cbn [fst snd] in *. unfold UnaryCF, Cost in *.
  destruct (I3 _ _ _ Hnew) as (_ & Hin & [Hal Ham]).
  assert (Hlt : (Z.to_nat s < length new)%nat) by (eapply lookup_lt_Some; exact Hnew).
  unfold merge_inv. split; [exact I1|]. split; [|split].
  - intros v0 s0 H. destruct (I2 v0 s0 H) as [->|(H0 & costs & E)]; [left; reflexivity|].
    right. split; [exact H0|].
    destruct (Nat.eq_dec (Z.to_nat s0) (Z.to_nat s)) as [Heq|Hne].
    + rewrite Heq in E. pose proof (eq_trans (eq_sym E) Hnew) as E'.
      injection E' as -> ->.
      exists acc'. rewrite Heq. apply list_lookup_insert_eq. exact Hlt.
    + exists costs. rewrite list_lookup_insert_ne by congruence. exact E.
  - intros k v0 costs H.
    destruct (Nat.eq_dec k (Z.to_nat s)) as [->|Hne].
    + rewrite list_lookup_insert_eq in H by exact Hlt. injection H as <- <-.
      split; [rewrite Z2Nat.id by lia; exact Hs|].
      split; [rewrite map_app; apply in_or_app; left; exact Hin|].
      split; [exact (eq_trans Hlen Hal)|]. intros i Hi. rewrite Hnth.
      replace ((0 <=? i)%nat && (i <? 0 + dom v)%nat) with true.
      2:{ symmetry. apply andb_true_iff. split;
            [apply Nat.leb_le|apply Nat.ltb_lt]; lia. }
      rewrite column_snoc, Z.eqb_refl, sat_sum_snoc
        by (apply column_nonempty; exact Hin).
      exact (f_equal (fun x => sat_add ub x (nth i cs 0)) (Ham i Hi)).
    + rewrite list_lookup_insert_ne in H by congruence.
      destruct (I3 k v0 costs H) as (S0 & Hin0 & [Hl0 Hm0]).
      assert (Hv : v0 <> v).
      { intros ->. rewrite Hs in S0. injection S0 as S0. lia. }
      split; [exact S0|].
      split; [rewrite map_app; apply in_or_app; left; exact Hin0|].
      split; [exact Hl0|]. intros i Hi. rewrite column_snoc.
      replace (v =? v0) with false by (symmetry; apply Z.eqb_neq; congruence).
      rewrite app_nil_r. apply Hm0, Hi.
  - intros v0 H. rewrite map_app in H. apply in_app_or in H.
    destruct H as [H|[H|[]]]; [apply I4, H|].
    cbn in H. subst v0. exists s. split; [exact Hs|].
    intros ->. lia.
Qed.

Lemma merge_unary_inv rest : forall P seen new,
  merge_inv ub dom nvar P seen new ->
  Forall (well_sized dom nvar) rest ->
  exists res seen',
    merge_unary ub dom rest seen new = Some res /\
    merge_inv ub dom nvar (P ++ rest) seen' res.
Proof.
  induction rest as [|[v cs] rest IH]; intros P seen new Hinv Hall.
  - exists new, seen. rewrite app_nil_r. split; [reflexivity|exact Hinv].
  - apply Forall_cons_1 in Hall as [Hw Hall]. cbn [merge_unary].
    pose proof Hinv as (I1 & I2 & I3 & I4).
    pose proof Hw as [[Hv0 Hv1] Hcs]. cbn [fst snd] in *.
    destruct (lookup_lt_is_Some_2 seen (Z.to_nat v)) as [s Hs]; [lia|].
    assert (Hsv : vec_at seen v = Some s) by (apply vec_at_Some; split; [lia|exact Hs]).
    rewrite Hsv. destruct (s =? -1) eqn:Es.
    + apply Z.eqb_eq in Es. subst s.
      destruct (IH (P ++ [(v, cs)])
                  (<[Z.to_nat v := Z.of_nat (length new)]> seen)
                  (new ++ [(v, cs)])) as (res & seen' & E & Hres).
      * apply merge_step_new; assumption.
      * exact Hall.
      * exists res, seen'. rewrite <- app_assoc in Hres. split; assumption.
    + apply Z.eqb_neq in Es.
      destruct (I2 v s Hsv) as [->|(Hs0 & acc & Hnew)]; [congruence|].
      assert (Hvn : vec_at new s = Some (v, acc))
        by (apply vec_at_Some; split; assumption).
      rewrite Hvn.
      destruct (I3 _ _ _ Hnew) as (_ & _ & [Hal _]).
      destruct (merge_loop_spec (dom v) 0%nat acc cs) as (acc' & -> & Hlen & Hnth);
        [lia|lia|].
      destruct (IH (P ++ [(v, cs)]) seen (<[Z.to_nat s := (v, acc')]> new))
        as (res & seen' & E & Hres).
      * eapply merge_step_old; eassumption.
      * exact Hall.
      * exists res, seen'. rewrite <- app_assoc in Hres. split; assumption.
Qed.

Lemma sat_fold_plain rest : forall acc,
  0 <= acc -> Forall (fun c => 0 <= c) rest ->
  acc + fold_right Z.add 0 rest < ub ->
  fold_left (sat_add ub) rest acc = acc + fold_right Z.add 0 rest.
Proof.
  induction rest as [|c rest IH]; intros acc Ha Hnn Hlt; cbn [fold_left fold_right] in *.
  - lia.
  - apply Forall_cons_1 in Hnn as [Hc Hnn].
    assert (Hr : 0 <= fold_right Z.add 0 rest).
    { clear - Hnn. induction Hnn; cbn; lia. }
    unfold sat_add at 2.
    rewrite (proj2 (Z.ltb_lt acc ub)) by lia.
    rewrite (proj2 (Z.ltb_lt c ub)) by lia.
    rewrite IH; [lia|lia|exact Hnn|lia].
Qed.

Lemma sat_sum_plain l :
  Forall (fun c => 0 <= c) l -> fold_right Z.add 0 l < ub ->
  sat_sum ub l = fold_right Z.add 0 l.
Proof.
  destruct l as [|c rest]; [reflexivity|]. intros Hnn Hlt.
  apply Forall_cons_1 in Hnn as [Hc Hnn]. cbn [sat_sum fold_right] in *.
  apply sat_fold_plain; assumption.
Qed.

(** X21: merging the unary cost functions.  When every cost function is on
    one of the [nvar] variables and has one cost for each value of its
    variable, the merge returns a list in which every variable of the input
    occurs once and no other variable occurs.  The cost it gives to a value
    comes from the costs the input gives to it, taken in order: the first is
    copied; while the running cost is below the upper bound, a cost below the
    upper bound is added to it and a cost that has reached the upper bound
    sets it to the upper bound; a running cost that has reached the upper
    bound stays where it is.  It is the plain sum when the costs are not
    negative and their sum is below the upper bound. *)
Theorem merge_unary_sums cfs :
  Forall (well_sized dom nvar) cfs ->
  exists res,
    merge_unary ub dom cfs (replicate nvar (-1)) [] = Some res /\
    NoDup (map fst res) /\
    (forall v, In v (map fst res) <-> In v (map fst cfs)) /\
    (forall v costs, In (v, costs) res ->
       length costs = dom v /\
       forall i, (i < dom v)%nat ->
         nth i costs 0 = sat_sum ub (column cfs v i) /\
         (Forall (fun c => 0 <= c) (column cfs v i) ->
          fold_right Z.add 0 (column cfs v i) < ub ->
          nth i costs 0 = fold_right Z.add 0 (column cfs v i))).
Proof.
  intros Hall.
  destruct (merge_unary_inv cfs [] (replicate nvar (-1)) [] merge_inv_init Hall)
    as (res & seen' & E & Hinv).
  cbn [app] in Hinv. exists res. split; [exact E|].
  split; [eapply merge_inv_nodup; exact Hinv|].
  destruct Hinv as (I1 & I2 & I3 & I4). split.
  - intros v. split.
    + intros H. apply in_map_iff in H as ([v0 costs] & <- & H).
      apply list_elem_of_In, list_elem_of_lookup in H as [k Hk].
      apply (I3 k v0 costs Hk).
    + intros H. destruct (I4 v H) as (s & Hs & Hne).
      destruct (I2 v s Hs) as [->|(_ & costs & Hk)]; [congruence|].
      apply in_map_iff. exists (v, costs). split; [reflexivity|].
      apply list_elem_of_In, list_elem_of_lookup. exists (Z.to_nat s). exact Hk.
  - intros v costs H.
    apply list_elem_of_In, list_elem_of_lookup in H as [k Hk].
    destruct (I3 k v costs Hk) as (_ & _ & Hlen & Hcost).
    split; [exact Hlen|]. intros i Hi. split; [apply Hcost, Hi|].
    intros Hnn Hlt. rewrite (Hcost i Hi). apply sat_sum_plain; assumption.
Qed.

End MergeFacts.

(** * Scopes and the tables of interval variables *)

Section ScopeFacts.
Variable varNameToIdx : string -> option Z.
Variable nvar : Z.

Lemma scope_index_names t i r :
  names_variable varNameToIdx nvar t i ->
  scope_index varNameToIdx nvar t r = Ret i r.
Proof.
  intros [_ H]. unfold scope_index. destruct (isdigit0 t); cbn [negb].
  - destruct H as [-> [H0 H1]].
    replace ((i <? 0) || (nvar <=? i)) with false; [reflexivity|].
    symmetry. apply orb_false_iff. split; [apply Z.ltb_ge|apply Z.leb_gt]; lia.
  - rewrite H. reflexivity.
Qed.

Lemma readScope_loop_run ts : forall idxs fuel token r scope b rest,
  token :: tokens r = ts ++ b :: rest -> isCBrace b = true ->
  Forall2 (names_variable varNameToIdx nvar) ts idxs ->
  (length ts < fuel)%nat ->
  readScope_loop varNameToIdx nvar fuel token scope r
  = Ret (scope ++ idxs) (mkReader rest (wcsp_negCost r) (wcsp_ub r) (posted r)).
Proof.
  induction ts as [|t ts IH]; intros idxs fuel token r scope b rest Ht Hb Hn Hf;
    (destruct fuel as [|fuel]; [cbn in Hf; lia|]); cbn [readScope_loop].
  - apply Forall2_nil_inv_l in Hn. subst idxs. cbn [app] in Ht.
    injection Ht as -> Ht. rewrite Hb, app_nil_r, <- Ht. cbn [ret].
    rewrite reader_eta. reflexivity.
  - apply Forall2_cons_inv_l in Hn as (i & idxs' & Hi & Hn & ->).
    cbn [app] in Ht. injection Ht as -> Ht.
    pose proof Hi as [Hnb _]. rewrite Hnb.
    unfold bind at 1. rewrite (scope_index_names t i r Hi).
    destruct (nonempty_split ts b rest) as (t' & tl & E).
    rewrite E in Ht. unfold bind at 1. rewrite (getNextToken_cons t' tl r Ht).
    rewrite (IH idxs' fuel t' _ (scope ++ [i]) b rest).
    + cbn [wcsp_negCost wcsp_ub posted]. rewrite <- app_assoc. reflexivity.
    + cbn [tokens]. symmetry. exact E.
    + exact Hb.
    + exact Hn.
    + cbn [length] in Hf. lia.
Qed.

(** X22: a scope as it is read.  When the tokens ahead are variable names
    known to the reader or numbers below the number of variables, followed by
    a closing brace, [readScope] appends the indices they name to the scope,
    in order, and consumes the tokens up to and including the brace.  A
    number that is not below the number of variables ends the run with an
    error: no index outside the variables is ever put in a scope. *)
Theorem readScope_reads scope ts idxs r :
  Forall2 (names_variable varNameToIdx nvar) ts idxs ->
  (forall b rest,
     tokens r = ts ++ b :: rest -> isCBrace b = true ->
     readScope varNameToIdx nvar scope r
     = Ret (scope ++ idxs)
           (mkReader rest (wcsp_negCost r) (wcsp_ub r) (posted r)))
  /\ (forall t i rest,
        tokens r = ts ++ t :: rest -> isCBrace t = false ->
        isdigit0 t = true -> stoi t = Some i -> nvar <= i ->
        exists r', readScope varNameToIdx nvar scope r = Throw Exit r').
Proof.
  intros Hn. split.
  - intros b rest Ht Hb. unfold readScope.
    unfold bind at 1. unfold gets at 1.
    destruct (nonempty_split ts b rest) as (t' & tl & E).
    rewrite E in Ht. unfold bind at 1. rewrite (getNextToken_cons t' tl r Ht).
    rewrite (readScope_loop_run ts idxs _ t' _ scope b rest).
    + reflexivity.
    + cbn [tokens]. symmetry. exact E.
    + exact Hb.
    + exact Hn.
    + rewrite Ht. apply (f_equal (@length string)) in E.
      rewrite length_app in E. cbn [length] in *. lia.
  - intros t i rest Ht Hnb Hd Hs Hi.
    assert (W : forall ts idxs fuel token r scope,
              token :: tokens r = ts ++ t :: rest ->
              Forall2 (names_variable varNameToIdx nvar) ts idxs ->
              (length ts < fuel)%nat ->
              exists r', readScope_loop varNameToIdx nvar fuel token scope r
                         = Throw Exit r').
    { clear - Hnb Hd Hs Hi. induction ts as [|t0 ts IH];
        intros idxs fuel token r scope Ht Hn Hf;
        (destruct fuel as [|fuel]; [cbn in Hf; lia|]); cbn [readScope_loop].
      - cbn [app] in Ht. injection Ht as -> Ht. rewrite Hnb.
        unfold bind at 1. unfold scope_index. rewrite Hd, Hs. cbn [negb].
        replace ((i <? 0) || (nvar <=? i)) with true
          by (symmetry; apply orb_true_iff; right; apply Z.leb_le; lia).
        eexists. reflexivity.
      - apply Forall2_cons_inv_l in Hn as (i0 & idxs' & Hi0 & Hn & ->).
        cbn [app] in Ht. injection Ht as -> Ht.
        pose proof Hi0 as [Hnb0 _]. rewrite Hnb0.
        unfold bind at 1. rewrite (scope_index_names t0 i0 r Hi0).
        destruct (nonempty_split ts t rest) as (t' & tl & E).
        rewrite E in Ht. unfold bind at 1. rewrite (getNextToken_cons t' tl r Ht).
        apply (IH idxs'); [cbn [tokens]; symmetry; exact E|exact Hn|].
        cbn [length] in Hf. lia. }
    unfold readScope. unfold bind at 1. unfold gets at 1.
    destruct (nonempty_split ts t rest) as (t' & tl & E).
    rewrite E in Ht. unfold bind at 1. rewrite (getNextToken_cons t' tl r Ht).
    apply (W ts idxs); [cbn [tokens]; symmetry; exact E|exact Hn|].
    rewrite Ht. apply (f_equal (@length string)) in E.
    rewrite length_app in E. cbn [length] in *. lia.
Qed.

End ScopeFacts.

Section IntervalFacts.
Variable decimalToCost : string -> option Cost.
Variable domainInitSize : Z -> Z.
Variable varValNameToIdx : Z -> string -> option Z.

Lemma readInterval_loop_run v ts : forall idxs fuel token r authorized b rest,
  token :: tokens r = ts ++ b :: rest -> isCBrace b = true ->
  Forall2 (names_value domainInitSize varValNameToIdx v) ts idxs ->
  Forall (fun t => decimalToCost t = Some MIN_COST) (tail (ts ++ [b])) ->
  (length ts < fuel)%nat ->
  readInterval_loop decimalToCost domainInitSize varValNameToIdx fuel v token
    authorized r
  = Ret (authorized ++ idxs)
        (mkReader rest (wcsp_negCost r) (wcsp_ub r) (posted r)).
Proof.
  induction ts as [|t ts IH];
    intros idxs fuel token r authorized b rest Ht Hb Hn Hc Hf;
    (destruct fuel as [|fuel]; [cbn in Hf; lia|]); cbn [readInterval_loop].
  - apply Forall2_nil_inv_l in Hn. subst idxs. cbn [app] in Ht.
    injection Ht as -> Ht. rewrite Hb, app_nil_r, <- Ht. cbn [ret].
    rewrite reader_eta. reflexivity.
  - apply Forall2_cons_inv_l in Hn as (i & idxs' & Hi & Hn & ->).
    cbn [app] in Ht. injection Ht as -> Ht.
    pose proof Hi as [Hnb _]. rewrite Hnb.
    unfold bind at 1. rewrite (getValueIdx_names domainInitSize varValNameToIdx v t i r Hi).
    destruct (nonempty_split ts b rest) as (t' & tl & E).
    rewrite E in Ht. unfold bind at 1. rewrite (getNextToken_cons t' tl r Ht).
    assert (Hc' : decimalToCost t' = Some MIN_COST
                  /\ Forall (fun t => decimalToCost t = Some MIN_COST)
                            (tail (ts ++ [b]))).
    { cbn [app tail] in Hc. destruct ts as [|t0 ts0].
      - cbn [app] in E. injection E as <- _. cbn [app tail].
        split; [|constructor]. apply Forall_cons_1 in Hc. apply Hc.
      - cbn [app] in E. injection E as <- _. cbn [app tail] in *.
        apply Forall_cons_1 in Hc. exact Hc. }
    destruct Hc' as [Hc0 Hc'].
    unfold bind at 1. unfold decimalToCostM. rewrite Hc0. cbn [ret].
    cbn [MIN_COST Z.eqb negb].
    rewrite (IH idxs' fuel t' _ (authorized ++ [i]) b rest).
    + cbn [wcsp_negCost wcsp_ub posted]. rewrite <- app_assoc. reflexivity.
    + cbn [tokens]. symmetry. exact E.
    + exact Hb.
    + exact Hn.
    + exact Hc'.
    + cbn [length] in Hf. lia.
Qed.

Lemma readInterval_loop_fails v ts : forall idxs fuel token r authorized t i t2 rest,
  token :: tokens r = ts ++ t :: t2 :: rest ->
  Forall2 (names_value domainInitSize varValNameToIdx v) ts idxs ->
  names_value domainInitSize varValNameToIdx v t i ->
  Forall (fun t => decimalToCost t = Some MIN_COST) (tail (ts ++ [t])) ->
  decimalToCost t2 <> Some MIN_COST ->
  (length ts < fuel)%nat ->
  readInterval_loop decimalToCost domainInitSize varValNameToIdx fuel v token
    authorized r
  = Throw Exit (mkReader rest (wcsp_negCost r) (wcsp_ub r) (posted r)).
Proof.
  induction ts as [|t0 ts IH];
    intros idxs fuel token r authorized t i t2 rest Ht Hn Hi Hc Hbad Hf;
    (destruct fuel as [|fuel]; [cbn in Hf; lia|]); cbn [readInterval_loop].
  - cbn [app] in Ht. injection Ht as -> Ht.
    pose proof Hi as [Hnb _]. rewrite Hnb.
    unfold bind at 1. rewrite (getValueIdx_names domainInitSize varValNameToIdx v t i r Hi).
    unfold bind at 1. rewrite (getNextToken_cons t2 rest r Ht).
    unfold bind at 1. unfold decimalToCostM.
    destruct (decimalToCost t2) as [c|] eqn:Ec; cbn [ret throw].
    + destruct (Z.eqb_spec c MIN_COST) as [->|Hne]; [congruence|].
      cbn [negb]. reflexivity.
    + reflexivity.
  - apply Forall2_cons_inv_l in Hn as (i0 & idxs' & Hi0 & Hn & ->).
    cbn [app] in Ht. injection Ht as -> Ht.
    pose proof Hi0 as [Hnb _]. rewrite Hnb.
    unfold bind at 1. rewrite (getValueIdx_names domainInitSize varValNameToIdx v t0 i0 r Hi0).
    destruct (nonempty_split ts t (t2 :: rest)) as (t' & tl & E).
    rewrite E in Ht. unfold bind at 1. rewrite (getNextToken_cons t' tl r Ht).
    assert (Hc' : decimalToCost t' = Some MIN_COST
                  /\ Forall (fun t => decimalToCost t = Some MIN_COST)
                            (tail (ts ++ [t]))).
    { cbn [app tail] in Hc. destruct ts as [|t1 ts1].
      - cbn [app] in E. injection E as <- _. cbn [app tail].
        split; [|constructor]. apply Forall_cons_1 in Hc. apply Hc.
      - cbn [app] in E. injection E as <- _. cbn [app tail] in *.
        apply Forall_cons_1 in Hc. exact Hc. }
    destruct Hc' as [Hc0 Hc'].
    unfold bind at 1. unfold decimalToCostM. rewrite Hc0. cbn [ret].
    cbn [MIN_COST Z.eqb negb].
    rewrite (IH idxs' fuel t' _ (authorized ++ [i0]) t i t2 rest).
    + reflexivity.
    + cbn [tokens]. symmetry. exact E.
    + exact Hn.
    + exact Hi.
    + exact Hc'.
    + exact Hbad.
    + cbn [length] in Hf. lia.
Qed.

(** X23: the table of an interval variable as it is read.  Every token before
    the closing brace is read as a value of the variable and appended to the
    authorised values, and every token after the first, the closing brace
    included, is first read as a cost that must be zero: when all of them
    read as zero the values are returned and the tokens up to and including
    the brace are consumed, and wherever in the table the token after a value
    does not read as a zero cost, the run ends there with an error. *)
Theorem readIntervalUnaryTable_reads v authorized ts idxs r :
  Forall2 (names_value domainInitSize varValNameToIdx v) ts idxs ->
  (forall b rest,
     tokens r = ts ++ b :: rest -> isCBrace b = true ->
     Forall (fun t => decimalToCost t = Some MIN_COST) (tail (ts ++ [b])) ->
     readIntervalUnaryTable decimalToCost domainInitSize varValNameToIdx v
       authorized r
     = Ret (authorized ++ idxs)
           (mkReader rest (wcsp_negCost r) (wcsp_ub r) (posted r)))
  /\ (forall t i t2 rest,
        tokens r = ts ++ t :: t2 :: rest ->
        names_value domainInitSize varValNameToIdx v t i ->
        Forall (fun t => decimalToCost t = Some MIN_COST) (tail (ts ++ [t])) ->
        decimalToCost t2 <> Some MIN_COST ->
        readIntervalUnaryTable decimalToCost domainInitSize varValNameToIdx v
          authorized r
        = Throw Exit (mkReader rest (wcsp_negCost r) (wcsp_ub r) (posted r))).
Proof.
  intros Hn. split.
  - intros b rest Ht Hb Hc. unfold readIntervalUnaryTable.
    unfold bind at 1. unfold gets at 1.
    destruct (nonempty_split ts b rest) as (t' & tl & E).
    rewrite E in Ht. unfold bind at 1. rewrite (getNextToken_cons t' tl r Ht).
    rewrite (readInterval_loop_run v ts idxs _ t' _ authorized b rest).
    + reflexivity.
    + cbn [tokens]. symmetry. exact E.
    + exact Hb.
    + exact Hn.
    + exact Hc.
    + rewrite Ht. apply (f_equal (@length string)) in E.
      rewrite length_app in E. cbn [length] in *. lia.
  - intros t i t2 rest Ht Hi Hc Hbad. unfold readIntervalUnaryTable.
    unfold bind at 1. unfold gets at 1.
    destruct (nonempty_split ts t (t2 :: rest)) as (t' & tl & E).
    rewrite E in Ht. unfold bind at 1. rewrite (getNextToken_cons t' tl r Ht).
    rewrite (readInterval_loop_fails v ts idxs _ t' _ authorized t i t2 rest).
    + reflexivity.
    + cbn [tokens]. symmetry. exact E.
    + exact Hn.
    + exact Hi.
    + exact Hc.
    + exact Hbad.
    + rewrite Ht. apply (f_equal (@length string)) in E.
      rewrite length_app in E. cbn [length] in *. lia.
Qed.

End IntervalFacts.

(** * The weights after a reset *)

(** X24: the weights after a reset.  [resetConflictWeight()] sets every
    weight to zero and resets the base class, so that [getConflictWeight(i)]
    answers the weight of the base class at every position of the scope; a
    conflict blamed on the constraint itself afterwards, while it is
    connected and has an assigned variable, makes it answer that weight plus
    one at the connected positions and that weight at the others.  Outside
    the scope the accessor fails its assertion. *)
Theorem getConflictWeight_after_reset gc base nonassigned connected W :
  length (conflictWeights W) = length (scope gc) ->
  nonassigned <> arity_ gc ->
  base_calls (resetConflictWeight W) = base_calls W ++ [ResetConflictWeight]
  /\ (forall i, 0 <= i < arity_ gc ->
        getConflictWeight gc base i (resetConflictWeight W) = Some base)
  /\ (exists W',
        incConflictWeight gc false nonassigned connected FromThis
          (resetConflictWeight W) = Some W' /\
        forall i, 0 <= i < arity_ gc ->
          getConflictWeight gc base i W'
          = Some ((if connected i then 1 else 0) + base))
  /\ (forall i W0, i < 0 \/ arity_ gc <= i ->
        getConflictWeight gc base i W0 = None).
Proof.
  intros Hl Hn. unfold arity_ in *.
  assert (Hr : forall i, 0 <= i < Z.of_nat (length (scope gc)) ->
                 (0 <=? i) && (i <? Z.of_nat (length (scope gc))) = true).
  { intros i Hi. apply andb_true_iff. split; [apply Z.leb_le|apply Z.ltb_lt]; lia. }
  split; [reflexivity|]. split; [|split].
  - intros i Hi. unfold getConflictWeight, arity_. rewrite (Hr i Hi).
    cbn [resetConflictWeight conflictWeights].
    rewrite lookup_replicate_2 by lia. reflexivity.
  - unfold incConflictWeight, arity_. cbn [orb].
    destruct (Z.eqb_spec nonassigned (Z.of_nat (length (scope gc)))) as [E|_];
      [contradiction|].
    cbn [resetConflictWeight conflictWeights base_calls].
    destruct (bump_connected_spec connected (length (scope gc)) 0
                (replicate (length (conflictWeights W)) 0))
      as (cw' & -> & L & N); [rewrite length_replicate; lia|].
    eexists. split; [reflexivity|]. intros i Hi.
    unfold getConflictWeight, arity_. rewrite (Hr i Hi). cbn [conflictWeights].
    rewrite length_replicate in L.
    destruct (nth_lookup_or_length cw' (Z.to_nat i) 0) as [E|E]; [|lia].
    rewrite E. cbn [option_map]. rewrite N.
    rewrite (nth_lookup (replicate _ _)), lookup_replicate_2 by lia.
    simpl default.
    replace (0 <=? Z.to_nat i)%nat with true by (symmetry; apply Nat.leb_le; lia).
    replace (Z.to_nat i <? 0 + length (scope gc))%nat with true
      by (symmetry; apply Nat.ltb_lt; lia).
    rewrite Z2Nat.id by lia. reflexivity.
  - intros i W0 Hi. unfold getConflictWeight, arity_.
    replace ((0 <=? i) && (i <? Z.of_nat (length (scope gc)))) with false;
      [reflexivity|].
    symmetry. apply andb_false_iff.
    destruct Hi; [left; apply Z.leb_gt|right; apply Z.ltb_ge]; lia.
Qed.

(** * Instances of the properties of the guard, the constructor, the weights and the readers *)

Lemma h_quiet_calls_return : calls_return h_quiet.
Proof. intros c w. exists w. reflexivity. Qed.

Lemma h_bound_fails_others p c (w : World unit) :
  c <> EnforceUb p -> exists w', h_bound_fails p c w = Ret tt w'.
Proof.
  intros Hc. destruct c; cbn; try (eexists; reflexivity).
  destruct (Z.eqb_spec w0 p) as [->|Hne]; [congruence|eexists; reflexivity].
Qed.

Lemma h_bound_fails_target p (w : World unit) :
  exists w', h_bound_fails p (EnforceUb p) w = Throw Contradiction w'.
Proof. exists w. cbn. rewrite Z.eqb_refl. reflexivity. Qed.

Lemma args0_arities : arities_match info0 args0.
Proof. split; intros p _; reflexivity. Qed.

Lemma args0_domains : domains_match info0 args0.
Proof. split; intros p _; reflexivity. Qed.

Lemma protect_unprotect_round_trip_witness :
  protected_ (guard (world sys_empty)) = false /\
  exists s1 s2,
    protect true sys_empty = Ret tt s1 /\
    guard (world s1) = mkGuard features_off features_on true /\
    unprotect s1 = Ret tt s2 /\
    guard (world s2) = mkGuard features_on features_on false /\
    fam s2 = fam sys_empty /\ trace s2 = trace sys_empty /\
    cerr s2 = cerr sys_empty /\
    hooks (world s2) = hooks (world sys_empty) /\
    active (world s2) = active (world sys_empty) /\
    store (world s2) = store (world sys_empty) /\
    bt (world s2) = bt (world sys_empty) /\
    newValues (world s2) = newValues (world sys_empty) /\
    env (world s2) = env (world sys_empty).
Proof.
  split; [reflexivity|].
  apply (protect_unprotect_round_trip sys_empty). reflexivity.
Defined.

Lemma protect_slave_keeps_saved_witness :
  protected_ (guard (world sys_empty)) = false /\
  exists s1 s2,
    protect false sys_empty = Ret tt s1 /\
    guard (world s1) = mkGuard features_off features_off true /\
    unprotect s1 = Ret tt s2 /\
    guard (world s2) = mkGuard features_off features_off false.
Proof.
  split; [reflexivity|].
  apply (protect_slave_keeps_saved sys_empty). reflexivity.
Defined.

Lemma construct_registers_witness :
  calls_return h_quiet /\ lb_in args0 < ub_in args0 /\
  arities_match info0 args0 /\ domains_match info0 args0 /\
  exists g s', construct h_quiet info0 args0 sys_empty = Ret g s'.
Proof.
  assert (H : lb_in args0 < ub_in args0) by (cbn; lia).
  split; [apply h_quiet_calls_return|]. split; [exact H|].
  split; [apply args0_arities|]. split; [apply args0_domains|].
  apply (proj2 (construct_registers h_quiet info0 args0 sys_empty)
           h_quiet_calls_return H args0_arities args0_domains).
Defined.

Lemma construct_failure_leaves_entry_witness :
  problem_in args0 = Some 1 /\ lb_in args0 < ub_in args0 /\
  exists s',
    construct (h_bound_fails 1) info0 args0 sys_empty = Throw Contradiction s' /\
    objects (fam s') = objects (fam sys_empty) /\
    tbl_find (WeightedCSPConstraints (fam s')) 1
    = Some (length (objects (fam sys_empty))) /\
    nth_error (objects (fam s')) (length (objects (fam sys_empty))) = None.
Proof.
  assert (H : lb_in args0 < ub_in args0) by (cbn; lia).
  split; [reflexivity|]. split; [exact H|].
  apply (construct_failure_leaves_entry (h_bound_fails 1) info0 args0 sys_empty 1
           eq_refl (h_bound_fails_others 1) (h_bound_fails_target 1) H
           args0_arities args0_domains).
Defined.

Lemma tb2event_unknown_origin_witness :
  MasterWeightedCSP (fam sys_empty) = None /\
  tb2event h_quiet EvAssign 0 0 1 sys_empty = Throw Abort sys_empty.
Proof.
  split; [reflexivity|].
  apply (tb2event_unknown_origin h_quiet EvAssign 0 0 1 sys_empty).
  left. reflexivity.
Defined.

Lemma incConflictWeight_self_witness :
  length (conflictWeights weights0) = length (scope gc0) /\
  false || (1 =? arity_ gc0) = false /\
  exists W',
    incConflictWeight gc0 false 1 (fun i => i =? 1) FromThis weights0 = Some W' /\
    base_calls W' = base_calls weights0 /\
    length (conflictWeights W') = length (conflictWeights weights0) /\
    forall j, (j < length (scope gc0))%nat ->
      nth j (conflictWeights W') 0
      = nth j (conflictWeights weights0) 0
        + (if Z.of_nat j =? 1 then 1 else 0).
Proof.
  split; [reflexivity|]. split; [reflexivity|].
  apply (proj2 (incConflictWeight_self gc0 false 1 (fun i => i =? 1) weights0
                  eq_refl)).
  reflexivity.
Defined.

Lemma incConflictWeight_other_witness :
  length (conflictWeights weights0) = length (scope gc0) /\
  exists W',
    incConflictWeight gc0 true 2 (fun _ => true) (FromOther [1; 5]) weights0
    = Some W' /\
    base_calls W' = base_calls weights0 /\
    length (conflictWeights W') = length (conflictWeights weights0) /\
    (forall j, nth j (conflictWeights W') 0
               = nth j (conflictWeights weights0) 0 + Z.of_nat (hits gc0 [1; 5] j)) /\
    (forall j, nth j (conflictWeights weights0) 0 <= nth j (conflictWeights W') 0) /\
    total_weight (conflictWeights W')
    = total_weight (conflictWeights weights0)
      + Z.of_nat (length (shared_vars gc0 [1; 5])).
Proof.
  split; [reflexivity|].
  apply (proj2 (incConflictWeight_other gc0 true 2 (fun _ => true) [1; 5] weights0
                  eq_refl)).
  reflexivity.
Defined.

Lemma evalsubstr_partial_scope_witness :
  nth_error (objects (fam sys0)) 0%nat = Some gc0 /\
  In 1 (scope gc0) /\ index_from [0] 1 0 = -1 /\
  exists t,
    evalsubstrAny h_quiet info0 1000000 0%nat [0] [1] [0; 0] sys0
    = Ret (MIN_COST, t) sys0.
Proof.
  split; [reflexivity|]. split; [right; left; reflexivity|].
  split; [reflexivity|].
  apply (evalsubstr_partial_scope h_quiet info0 1000000 0%nat gc0 [0] [1] [0; 0] 1
           sys0); try reflexivity.
  right; left; reflexivity.
Defined.

Lemma evalsubstr_full_scope_witness :
  nth_error (objects (fam sys0)) 0%nat = Some gc0 /\
  Forall (fun v => 0 <= index_from [1; 0] v 0) (scope gc0) /\
  project_tuple [1; 0] (scope gc0) [1; 0] = [0; 1] /\
  evalsubstrAny h_quiet info0 1000000 0%nat [1; 0] [1; 0] [7; 7] sys0
  = (cost <- eval h_quiet info0 1000000 0%nat [0; 1];; ret (cost, [0; 1])) sys0.
Proof.
  assert (H : Forall (fun v => 0 <= index_from [1; 0] v 0) (scope gc0))
    by (repeat constructor; cbn; lia).
  split; [reflexivity|]. split; [exact H|]. split; [reflexivity|].
  apply (evalsubstr_full_scope h_quiet info0 1000000 0%nat gc0 [1; 0] [1; 0] [7; 7]
           sys0 eq_refl eq_refl eq_refl H).
Defined.

Lemma readFunctionCostTable_full_table_witness :
  length ["3"; "1"]%string = Z.to_nat (costVecSize two_values [0]) /\
  Forall2 (reads_as decimal_int) ["3"; "1"]%string [3; 1] /\
  readFunctionCostTable 1000000 1000 decimal_int two_values no_value_names [0] true 0
    unary_table
  = Ret ([2; 0], 1) (mkReader [] (-1) 1000 []).
Proof.
  assert (H : Forall2 (reads_as decimal_int) ["3"; "1"]%string [3; 1])
    by (repeat constructor).
  split; [reflexivity|]. split; [exact H|].
  apply (readFunctionCostTable_full_table 1000000 1000 decimal_int two_values
           no_value_names [0] 0 ["3"; "1"]%string [3; 1] "]"%string "}"%string []
           unary_table eq_refl eq_refl H eq_refl).
Defined.


Lemma clause_cost_table_witness :
  Forall (fun j => j <> 0) two_literals /\ clash_free two_literals /\
  (1 <= length two_literals <= 10)%nat /\
  exists c,
    read_literals 10 0 (two_literals ++ 0 :: []) (mkClause (replicate 10 0) [] 0 false)
    = Done (c, []) /\
    tautology c = false /\
    (1 <= arity c <= length two_literals)%nat /\
    NoDup (take (arity c) (scopeIndex c)) /\
    (forall j, In j two_literals -> In (Z.abs j - 1) (take (arity c) (scopeIndex c))) /\
    ((arity c <= 3)%nat ->
     exists p costs,
       post_clause (fun x => x) c 5 = [p] /\
       table_of p = Some (take (arity c) (scopeIndex c), costs) /\
       forall asg, length asg = arity c -> boolean asg ->
         nth (Z.to_nat (cell asg)) costs 0
         = if falsified (take (arity c) (scopeIndex c)) asg two_literals
           then 5 else MIN_COST).
Proof.
  assert (H0 : Forall (fun j => j <> 0) two_literals) by (repeat constructor; lia).
  assert (H1 : clash_free two_literals) by (intros l Hl Hn; cbn in Hl, Hn; lia).
  assert (H2 : (1 <= length two_literals <= 10)%nat) by (cbn; lia).
  split; [exact H0|]. split; [exact H1|]. split; [exact H2|].
  apply (clause_cost_table 10 (fun x => x) 5 two_literals [] H0 H1 H2).
Defined.

Lemma readToken_signs_witness :
  (forall k, Some 5 = Some k -> Z.of_nat (String.length "") <= k) /\
  readToken ["+x"%string] "" (Some 5) = Some ([], "431x"%string, Some 2).
Proof.
  assert (H : forall k, Some 5 = Some k -> Z.of_nat (String.length "") <= k)
    by (intros k E; injection E as <-; cbn; lia).
  split; [exact H|].
  apply (proj1 (proj2 (readToken_signs [] ""%string (Some 5) "+x"%string H))
           (Ascii.ascii_of_nat 43) (Ascii.ascii_of_nat 120) EmptyString);
    reflexivity.
Defined.

Lemma objective_term_cost_witness :
  length [1; 0] = length [0; 1] /\ boolean [1; 0] /\
  opb_cost (fst (post_objective_term [0; 1] (-3) 0)) [1; 0]
  - (snd (post_objective_term [0; 1] (-3) 0) - 0) = -3 * product [1; 0] /\
  ([0; 1] <> [] -> 0 <= opb_cost (fst (post_objective_term [0; 1] (-3) 0)) [1; 0]) /\
  0 <= snd (post_objective_term [0; 1] (-3) 0).
Proof.
  assert (H : boolean [1; 0]) by (repeat constructor; lia).
  split; [reflexivity|]. split; [exact H|].
  apply (objective_term_cost [0; 1] (-3) 0 [1; 0] eq_refl H).
Defined.

Lemma header_bound_decimal_witness :
  all_digits "0" = true /\ all_digits "5" = true /\
  digits_prefix "0" 0 * 10 ^ 1 + digits_prefix "5" 0 <= 2 ^ 63 - 1 /\
  header_bound "<-0.5" = inl (mkHeaderBound 5 1 false).
Proof.
  assert (Hfit : digits_prefix "0" 0 * 10 ^ 1 + digits_prefix "5" 0 <= 2 ^ 63 - 1)
    by (vm_compute; discriminate).
  assert (Hr : digits_prefix "0" 0 <= 2 ^ 63 - 1) by (vm_compute; discriminate).
  assert (Hl : (String.length "5" <= 18)%nat) by (cbn; lia).
  assert (N0 : "0"%string <> EmptyString) by discriminate.
  assert (N5 : "5"%string <> EmptyString) by discriminate.
  split; [reflexivity|]. split; [reflexivity|]. split; [exact Hfit|].
  apply (proj2 (header_bound_decimal true "0" "5" eq_refl N0 eq_refl N5 Hl Hr) Hfit).
Defined.

Lemma merge_unary_sums_witness :
  Forall (well_sized (fun _ => 2%nat) 2) three_unaries /\
  exists res,
    merge_unary 10 (fun _ => 2%nat) three_unaries (replicate 2 (-1)) [] = Some res /\
    NoDup (map fst res) /\
    (forall v, In v (map fst res) <-> In v (map fst three_unaries)) /\
    (forall v costs, In (v, costs) res ->
       length costs = 2%nat /\
       forall i, (i < 2)%nat ->
         nth i costs 0 = sat_sum 10 (column three_unaries v i) /\
         (Forall (fun c => 0 <= c) (column three_unaries v i) ->
          fold_right Z.add 0 (column three_unaries v i) < 10 ->
          nth i costs 0 = fold_right Z.add 0 (column three_unaries v i))).
Proof.
  assert (H : Forall (well_sized (fun _ => 2%nat) 2) three_unaries)
    by (repeat constructor; cbn; lia).
  split; [exact H|].
  apply (merge_unary_sums 10 (fun _ => 2%nat) 2 three_unaries H).
Defined.

Lemma readScope_reads_witness :
  Forall2 (names_variable only_x 2) ["x"; "1"]%string [0; 1] /\
  readScope only_x 2 [] scope_tokens
  = Ret [0; 1] (mkReader ["next"%string] 0 1000 []).
Proof.
  assert (H : Forall2 (names_variable only_x 2) ["x"; "1"]%string [0; 1]).
  { repeat constructor; cbn; lia. }
  split; [exact H|].
  apply (proj1 (readScope_reads only_x 2 [] ["x"; "1"]%string [0; 1] scope_tokens H)
           "]"%string ["next"%string]); reflexivity.
Defined.

Lemma readIntervalUnaryTable_reads_witness :
  (Forall2 (names_value two_values no_value_names 0) ["1"; "0"]%string [1; 0] /\
   Forall (fun t => decimal_prefix t = Some MIN_COST) ["0"; "]"]%string /\
   readIntervalUnaryTable decimal_prefix two_values no_value_names 0 []
     interval_table
   = Ret [1; 0] (mkReader ["next"%string] 0 1000 []))
  /\ (names_value two_values no_value_names 0 "1" 1 /\
      decimal_int "]" <> Some MIN_COST /\
      readIntervalUnaryTable decimal_int two_values no_value_names 0 []
        interval_table_no_cost
      = Throw Exit (mkReader ["next"%string] 0 1000 [])).
Proof.
  assert (H : Forall2 (names_value two_values no_value_names 0)
                ["1"; "0"]%string [1; 0]).
  { repeat constructor; cbn; lia. }
  assert (Hc : Forall (fun t => decimal_prefix t = Some MIN_COST) ["0"; "]"]%string)
    by (repeat constructor).
  assert (H1 : names_value two_values no_value_names 0 "1" 1).
  { repeat constructor; cbn; lia. }
  assert (H2 : decimal_int "]" <> Some MIN_COST) by discriminate.
  split.
  - split; [exact H|]. split; [exact Hc|].
    apply (proj1 (readIntervalUnaryTable_reads decimal_prefix two_values
                    no_value_names 0 [] ["1"; "0"]%string [1; 0] interval_table H)
             "]"%string ["next"%string] eq_refl eq_refl Hc).
  - split; [exact H1|]. split; [exact H2|].
    apply (proj2 (readIntervalUnaryTable_reads decimal_int two_values
                    no_value_names 0 [] [] [] interval_table_no_cost
                    (List.Forall2_nil _))
             "1"%string 1 "]"%string ["next"%string] eq_refl H1 (Forall_nil_2 _) H2).
Defined.

Lemma getConflictWeight_after_reset_witness :
  length (conflictWeights weights0) = length (scope gc0) /\ 1 <> arity_ gc0 /\
  getConflictWeight gc0 7 1 (resetConflictWeight weights0) = Some 7.
Proof.
  assert (H : 1 <> arity_ gc0) by (unfold arity_, gc0; simpl; lia).
  split; [reflexivity|]. split; [exact H|].
  apply (proj1 (proj2 (getConflictWeight_after_reset gc0 7 1 (fun i => i =? 1)
                         weights0 eq_refl H)) 1).
  unfold arity_, gc0; simpl; lia.
Defined.

